(** * A shallow embedding of the AI_CP chess engines.

    Two engines of the repository are embedded: the 2D engine (standard
    8x8 board, full piece-square evaluation, complete undo information
    carried by every move) in [Chess2D], and the 3D engine of
    [threeDChess_raylib.c] (three stacked 8x8 layers) in [Chess3D].

    C [int]s are modelled by [Z]; the two counters that the engines
    increment without bound ([halfmove_clock] and [fullmove_number]) go
    through [wrap_int], the two's-complement wrap of a 32-bit [int] (the C
    standard leaves the overflow of a signed [int] undefined; the wrap is
    what the usual targets do).  Board coordinates stay within [-3, 10] on
    every path of the engines, far from the limits of [int]. *)

From Stdlib Require Import ZArith List Lia Bool String Permutation.
Import ListNotations.
Open Scope Z_scope.

(** ** Shared prelude *)

(** [enum Piece], identical in both engines. *)
Inductive Piece : Type :=
  | EMPTY | PAWN | KNIGHT | BISHOP | ROOK | QUEEN | KING.

Definition piece_eqb (a b : Piece) : bool :=
  match a, b with
  | EMPTY, EMPTY | PAWN, PAWN | KNIGHT, KNIGHT | BISHOP, BISHOP
  | ROOK, ROOK | QUEEN, QUEEN | KING, KING => true
  | _, _ => false
  end.

(** The integer value of an enumerator, used where the C code indexes an
    array by a piece ([piece_values[piece]]). *)
Definition piece_index (p : Piece) : nat :=
  match p with
  | EMPTY => 0 | PAWN => 1 | KNIGHT => 2 | BISHOP => 3
  | ROOK => 4 | QUEEN => 5 | KING => 6
  end%nat.

Definition BOARD_SIZE : Z := 8.
Definition INFINITY : Z := 1000000.

(** Wrap-around of a 32-bit signed [int]. *)
Definition wrap_int (z : Z) : Z := (z + 2147483648) mod 4294967296 - 2147483648.

Definition int_range (z : Z) : Prop := -2147483648 <= z <= 2147483647.

(** In-place update of one cell of an array; an index past the end leaves
    the array as it is (the engines guard every access by
    [is_valid_position]). *)
Fixpoint upd {A : Type} (l : list A) (n : nat) (x : A) : list A :=
  match l, n with
  | [], _ => []
  | _ :: t, O => x :: t
  | h :: t, S n' => h :: upd t n' x
  end.

(** The promotion choices, in the order of the C array [promo_pieces]. *)
Definition promo_pieces : list Piece := [QUEEN; ROOK; BISHOP; KNIGHT].

(** The eight knight jumps, in the order of the C array [knight_moves]. *)
Definition knight_moves : list (Z * Z) :=
  [(2, 1); (2, -1); (-2, 1); (-2, -1); (1, 2); (1, -2); (-1, 2); (-1, -2)].

(** The values taken by a C loop [for (x = -1; x <= 1; x++)]. *)
Definition offsets3 : list Z := [-1; 0; 1].

(** The values taken by a C loop [for (x = -1; x <= 1; x += 2)]. *)
Definition offsets2 : list Z := [-1; 1].

(** The values taken by a C loop [for (x = 0; x < BOARD_SIZE; x++)]. *)
Definition range8 : list Z := [0; 1; 2; 3; 4; 5; 6; 7].

(** [strstr (msg, needle) != NULL]. *)
Definition strstr (msg needle : string) : bool :=
  match String.index 0 needle msg with
  | Some _ => true
  | None => false
  end.

(** ** The 2D engine *)

Module Chess2D.

Definition MAX_MOVES : Z := 256.
Definition MATE_SCORE : Z := INFINITY - 100.

Inductive PlayerColor : Type := PLAYER_WHITE | PLAYER_BLACK | NONE.

Definition color_eqb (a b : PlayerColor) : bool :=
  match a, b with
  | PLAYER_WHITE, PLAYER_WHITE | PLAYER_BLACK, PLAYER_BLACK | NONE, NONE => true
  | _, _ => false
  end.

Record Square : Type := mkSquare { piece : Piece; color : PlayerColor }.

Definition empty_square : Square := mkSquare EMPTY NONE.

(** [struct PreviousState]: what [undo_move] needs.  The two capture
    fields are written by the generator, the others by [make_move]. *)
Record PreviousState : Type := mkPreviousState {
  captured_piece : Piece;
  captured_color : PlayerColor;
  prev_white_castle_kingside : bool;
  prev_white_castle_queenside : bool;
  prev_black_castle_kingside : bool;
  prev_black_castle_queenside : bool;
  prev_en_passant_row : Z;
  prev_en_passant_col : Z;
  prev_halfmove_clock : Z
}.

Record Move : Type := mkMove {
  from_row : Z;
  from_col : Z;
  to_row : Z;
  to_col : Z;
  promotion : Piece;
  score : Z;
  previous_state : PreviousState
}.

(** [struct Board]; [squares] is the 8x8 array in its row-major layout,
    the square of row [r], column [c] being cell [8 * r + c]. *)
Record Board : Type := mkBoard {
  squares : list Square;
  current_player : PlayerColor;
  white_castle_kingside : bool;
  white_castle_queenside : bool;
  black_castle_kingside : bool;
  black_castle_queenside : bool;
  en_passant_row : Z;
  en_passant_col : Z;
  halfmove_clock : Z;
  fullmove_number : Z
}.

Definition is_valid_position (row col : Z) : bool :=
  (0 <=? row) && (row <? BOARD_SIZE) && (0 <=? col) && (col <? BOARD_SIZE).

Definition cell (row col : Z) : nat := Z.to_nat (row * BOARD_SIZE + col).

(** [sqs[row][col]].  Outside the board the C access is undefined; the
    engine never performs it, and the model answers with an empty square. *)
Definition sq_at (sqs : list Square) (row col : Z) : Square :=
  if is_valid_position row col then nth (cell row col) sqs empty_square
  else empty_square.

(** [sqs[row][col] = s]. *)
Definition sq_set (sqs : list Square) (row col : Z) (s : Square) : list Square :=
  if is_valid_position row col then upd sqs (cell row col) s else sqs.

Definition sq (board : Board) (row col : Z) : Square :=
  sq_at (squares board) row col.

Definition opponent_of (c : PlayerColor) : PlayerColor :=
  if color_eqb c PLAYER_WHITE then PLAYER_BLACK else PLAYER_WHITE.

(** *** Board initialisation *)

Definition back_row : list Piece :=
  [ROOK; KNIGHT; BISHOP; QUEEN; KING; BISHOP; KNIGHT; ROOK].

(** [init_board] writes every field and every square of [*board], so its
    result does not depend on what the board held before. *)
Definition init_board : Board :=
  {| squares :=
       map (fun p => mkSquare p PLAYER_BLACK) back_row
       ++ repeat (mkSquare PAWN PLAYER_BLACK) 8
       ++ repeat empty_square 32
       ++ repeat (mkSquare PAWN PLAYER_WHITE) 8
       ++ map (fun p => mkSquare p PLAYER_WHITE) back_row;
     current_player := PLAYER_WHITE;
     white_castle_kingside := true;
     white_castle_queenside := true;
     black_castle_kingside := true;
     black_castle_queenside := true;
     en_passant_row := -1;
     en_passant_col := -1;
     halfmove_clock := 0;
     fullmove_number := 1 |}.

(** *** Move generation *)

(** A move as a generator writes it: origin, destination, promotion and
    the capture fields of [previous_state].  The C code leaves [score] and
    the other fields of [previous_state] indeterminate at this point;
    [minimax] writes the first and [make_move] the others before anything
    reads them.  The model fills them with zeros. *)
Definition gen_move (fr fc tr tc : Z) (promo : Piece)
    (cp : Piece) (cc : PlayerColor) : Move :=
  {| from_row := fr; from_col := fc; to_row := tr; to_col := tc;
     promotion := promo; score := 0;
     previous_state := mkPreviousState cp cc false false false false 0 0 0 |}.

Definition generate_pawn_moves (board : Board) (row col : Z) : list Move :=
  let me := sq board row col in
  let direction := if color_eqb (color me) PLAYER_WHITE then -1 else 1 in
  let start_row := if color_eqb (color me) PLAYER_WHITE then 6 else 1 in
  let current_color := color me in
  let opponent_color :=
    if color_eqb current_color PLAYER_WHITE then PLAYER_BLACK else PLAYER_WHITE in
  let promotion_rank := if color_eqb current_color PLAYER_WHITE then 0 else 7 in
  let next_row := row + direction in
  (* 1. forward move, 2. double forward move *)
  let forward :=
    if is_valid_position next_row col
       && piece_eqb (piece (sq board next_row col)) EMPTY
    then
      (if next_row =? promotion_rank
       then map (fun p => gen_move row col next_row col p EMPTY NONE) promo_pieces
       else [gen_move row col next_row col EMPTY EMPTY NONE])
      ++
      (if (row =? start_row)
          && is_valid_position (row + 2 * direction) col
          && piece_eqb (piece (sq board (row + 2 * direction) col)) EMPTY
       then [gen_move row col (row + 2 * direction) col EMPTY EMPTY NONE]
       else [])
    else [] in
  (* 3. captures, en passant included *)
  let captures :=
    flat_map (fun col_offset =>
      let capture_col := col + col_offset in
      if is_valid_position next_row capture_col then
        let target := sq board next_row capture_col in
        if negb (piece_eqb (piece target) EMPTY)
           && color_eqb (color target) opponent_color
        then
          if next_row =? promotion_rank
          then map (fun p => gen_move row col next_row capture_col p
                               (piece target) (color target)) promo_pieces
          else [gen_move row col next_row capture_col EMPTY
                  (piece target) (color target)]
        else if (next_row =? en_passant_row board)
                && (capture_col =? en_passant_col board)
                && piece_eqb (piece target) EMPTY
        then [gen_move row col next_row capture_col EMPTY PAWN opponent_color]
        else []
      else []) offsets2 in
  forward ++ captures.

Definition generate_knight_moves (board : Board) (row col : Z) : list Move :=
  let current_color := color (sq board row col) in
  flat_map (fun d =>
    let new_row := row + fst d in
    let new_col := col + snd d in
    if is_valid_position new_row new_col then
      let target := sq board new_row new_col in
      if negb (color_eqb (color target) current_color)
      then [gen_move row col new_row new_col EMPTY (piece target) (color target)]
      else []
    else []) knight_moves.

(** The [while] loop of [generate_directional_moves], started at
    [(new_row, new_col)].  [fuel] bounds the number of iterations; eight
    are enough on an 8x8 board ([ray_moves_fuel] below). *)
Fixpoint ray_moves (fuel : nat) (board : Board) (row col row_dir col_dir : Z)
    (current_color : PlayerColor) (new_row new_col : Z) : list Move :=
  match fuel with
  | O => []
  | S fuel' =>
    if is_valid_position new_row new_col then
      let target := sq board new_row new_col in
      if piece_eqb (piece target) EMPTY then
        gen_move row col new_row new_col EMPTY EMPTY NONE
        :: ray_moves fuel' board row col row_dir col_dir current_color
             (new_row + row_dir) (new_col + col_dir)
      else if negb (color_eqb (color target) current_color)
      then [gen_move row col new_row new_col EMPTY (piece target) (color target)]
      else []
    else []
  end.

Definition generate_directional_moves (board : Board) (row col : Z)
    (row_dir col_dir : Z) : list Move :=
  ray_moves 8 board row col row_dir col_dir (color (sq board row col))
    (row + row_dir) (col + col_dir).

Definition bishop_directions : list (Z * Z) := [(1, 1); (1, -1); (-1, 1); (-1, -1)].
Definition rook_directions : list (Z * Z) := [(1, 0); (-1, 0); (0, 1); (0, -1)].

Definition generate_bishop_moves (board : Board) (row col : Z) : list Move :=
  flat_map (fun d => generate_directional_moves board row col (fst d) (snd d))
    bishop_directions.

Definition generate_rook_moves (board : Board) (row col : Z) : list Move :=
  flat_map (fun d => generate_directional_moves board row col (fst d) (snd d))
    rook_directions.

Definition generate_queen_moves (board : Board) (row col : Z) : list Move :=
  generate_bishop_moves board row col ++ generate_rook_moves board row col.

(** The king generator of the 2D engine: the eight neighbours, and nothing
    else ([opponent_color] is computed by the C function and never used). *)
Definition generate_king_moves (board : Board) (row col : Z) : list Move :=
  let current_color := color (sq board row col) in
  flat_map (fun row_dir =>
    flat_map (fun col_dir =>
      if (row_dir =? 0) && (col_dir =? 0) then []
      else
        let new_row := row + row_dir in
        let new_col := col + col_dir in
        if is_valid_position new_row new_col then
          let target := sq board new_row new_col in
          if negb (color_eqb (color target) current_color)
          then [gen_move row col new_row new_col EMPTY (piece target) (color target)]
          else []
        else []) offsets3) offsets3.

(** All squares in the order of the nested [row], [col] loops. *)
Definition all_squares : list (Z * Z) :=
  flat_map (fun row => map (fun col => (row, col)) range8) range8.

Definition generate_pseudo_legal_moves (board : Board) : list Move :=
  flat_map (fun rc =>
    let row := fst rc in
    let col := snd rc in
    let s := sq board row col in
    if negb (piece_eqb (piece s) EMPTY)
       && color_eqb (color s) (current_player board)
    then
      match piece s with
      | PAWN => generate_pawn_moves board row col
      | KNIGHT => generate_knight_moves board row col
      | BISHOP => generate_bishop_moves board row col
      | ROOK => generate_rook_moves board row col
      | QUEEN => generate_queen_moves board row col
      | KING => generate_king_moves board row col
      | EMPTY => []
      end
    else []) all_squares.

(** *** Make and undo *)

(** [make_move] writes the board and, through the cast of its [const]
    argument, the snapshot fields of the move: both are returned. *)
Definition make_move (board : Board) (move : Move) : Board * Move :=
  (* store the current state for undo *)
  let prevState :=
    {| captured_piece := captured_piece (previous_state move);
       captured_color := captured_color (previous_state move);
       prev_white_castle_kingside := white_castle_kingside board;
       prev_white_castle_queenside := white_castle_queenside board;
       prev_black_castle_kingside := black_castle_kingside board;
       prev_black_castle_queenside := black_castle_queenside board;
       prev_en_passant_row := en_passant_row board;
       prev_en_passant_col := en_passant_col board;
       prev_halfmove_clock := halfmove_clock board |} in
  let move' :=
    {| from_row := from_row move; from_col := from_col move;
       to_row := to_row move; to_col := to_col move;
       promotion := promotion move; score := score move;
       previous_state := prevState |} in
  let moving_piece := piece (sq board (from_row move) (from_col move)) in
  let moving_color := color (sq board (from_row move) (from_col move)) in
  let is_pawn_move := piece_eqb moving_piece PAWN in
  let is_capture := negb (piece_eqb (captured_piece prevState) EMPTY) in
  (* castling: the rook *)
  let col_diff := to_col move - from_col move in
  let sqs1 :=
    if piece_eqb moving_piece KING && (Z.abs col_diff =? 2) then
      let rook_from_col := if col_diff >? 0 then 7 else 0 in
      let rook_to_col := if col_diff >? 0 then 5 else 3 in
      let rook_row := from_row move in
      sq_set
        (sq_set (squares board) rook_row rook_to_col
           (sq_at (squares board) rook_row rook_from_col))
        rook_row rook_from_col empty_square
    else squares board in
  (* castling rights whenever the king moves *)
  let king_white := piece_eqb moving_piece KING && color_eqb moving_color PLAYER_WHITE in
  let king_black := piece_eqb moving_piece KING && negb (color_eqb moving_color PLAYER_WHITE) in
  let wk1 := if king_white then false else white_castle_kingside board in
  let wq1 := if king_white then false else white_castle_queenside board in
  let bk1 := if king_black then false else black_castle_kingside board in
  let bq1 := if king_black then false else black_castle_queenside board in
  (* en passant capture: remove the captured pawn *)
  let en_passant_capture :=
    is_pawn_move
    && (to_row move =? prev_en_passant_row prevState)
    && (to_col move =? prev_en_passant_col prevState)
    && piece_eqb (captured_piece prevState) PAWN
    && piece_eqb (piece (sq_at sqs1 (to_row move) (to_col move))) EMPTY in
  let sqs2 :=
    if en_passant_capture
    then sq_set sqs1 (from_row move) (to_col move) empty_square
    else sqs1 in
  (* move the piece *)
  let placed :=
    mkSquare
      (if negb (piece_eqb (promotion move) EMPTY) then promotion move else moving_piece)
      moving_color in
  let sqs3 :=
    sq_set (sq_set sqs2 (to_row move) (to_col move) placed)
      (from_row move) (from_col move) empty_square in
  (* en passant target square *)
  let double_push :=
    piece_eqb moving_piece PAWN && (Z.abs (to_row move - from_row move) =? 2) in
  let ep_row := if double_push then Z.quot (from_row move + to_row move) 2 else -1 in
  let ep_col := if double_push then from_col move else -1 in
  (* castling rights if a rook moves *)
  let rook_white := piece_eqb moving_piece ROOK && color_eqb moving_color PLAYER_WHITE in
  let rook_black := piece_eqb moving_piece ROOK && negb (color_eqb moving_color PLAYER_WHITE) in
  let from_is (r c : Z) := (from_row move =? r) && (from_col move =? c) in
  let wq2 := if rook_white && from_is 7 0 then false else wq1 in
  let wk2 := if rook_white && negb (from_is 7 0) && from_is 7 7 then false else wk1 in
  let bq2 := if rook_black && from_is 0 0 then false else bq1 in
  let bk2 := if rook_black && negb (from_is 0 0) && from_is 0 7 then false else bk1 in
  (* castling rights if a rook is captured *)
  let rook_taken := piece_eqb (captured_piece prevState) ROOK in
  let to_is (r c : Z) := (to_row move =? r) && (to_col move =? c) in
  let wq3 := if rook_taken && to_is 7 0 then false else wq2 in
  let wk3 := if rook_taken && negb (to_is 7 0) && to_is 7 7 then false else wk2 in
  let bq3 :=
    if rook_taken && negb (to_is 7 0) && negb (to_is 7 7) && to_is 0 0
    then false else bq2 in
  let bk3 :=
    if rook_taken && negb (to_is 7 0) && negb (to_is 7 7) && negb (to_is 0 0)
       && to_is 0 7
    then false else bk2 in
  (* clocks *)
  let hm :=
    if is_pawn_move || is_capture then 0
    else wrap_int (halfmove_clock board + 1) in
  let fm :=
    if color_eqb (current_player board) PLAYER_BLACK
    then wrap_int (fullmove_number board + 1)
    else fullmove_number board in
  (* switch player *)
  let next_player :=
    if color_eqb moving_color PLAYER_WHITE then PLAYER_BLACK else PLAYER_WHITE in
  ({| squares := sqs3;
      current_player := next_player;
      white_castle_kingside := wk3;
      white_castle_queenside := wq3;
      black_castle_kingside := bk3;
      black_castle_queenside := bq3;
      en_passant_row := ep_row;
      en_passant_col := ep_col;
      halfmove_clock := hm;
      fullmove_number := fm |}, move').

Definition undo_move (board : Board) (move : Move) : Board :=
  let previous_player :=
    if color_eqb (current_player board) PLAYER_WHITE then PLAYER_BLACK else PLAYER_WHITE in
  let moved_piece_type_on_board := piece (sq board (to_row move) (to_col move)) in
  let original_moved_piece :=
    if negb (piece_eqb (promotion move) EMPTY) then PAWN
    else moved_piece_type_on_board in
  let ps := previous_state move in
  (* undo the piece movement *)
  let sqs1 :=
    sq_set (squares board) (from_row move) (from_col move)
      (mkSquare original_moved_piece previous_player) in
  let captured_piece' := captured_piece ps in
  let captured_color' := captured_color ps in
  (* the en passant test reads the restored en passant fields *)
  let en_passant_capture :=
    piece_eqb original_moved_piece PAWN
    && (to_row move =? prev_en_passant_row ps)
    && (to_col move =? prev_en_passant_col ps)
    && piece_eqb captured_piece' PAWN in
  let sqs2 :=
    if en_passant_capture then
      sq_set
        (sq_set sqs1 (to_row move) (to_col move) empty_square)
        (from_row move) (to_col move) (mkSquare PAWN captured_color')
    else
      sq_set sqs1 (to_row move) (to_col move)
        (mkSquare captured_piece' captured_color') in
  (* undo the castling rook move *)
  let col_diff := to_col move - from_col move in
  let sqs3 :=
    if piece_eqb original_moved_piece KING && (Z.abs col_diff =? 2) then
      let rook_from_col := if col_diff >? 0 then 7 else 0 in
      let rook_to_col := if col_diff >? 0 then 5 else 3 in
      let rook_row := from_row move in
      sq_set
        (sq_set sqs2 rook_row rook_from_col (sq_at sqs2 rook_row rook_to_col))
        rook_row rook_to_col empty_square
    else sqs2 in
  let fm :=
    if color_eqb (current_player board) PLAYER_WHITE
    then wrap_int (fullmove_number board - 1)
    else fullmove_number board in
  {| squares := sqs3;
     current_player := previous_player;
     white_castle_kingside := prev_white_castle_kingside ps;
     white_castle_queenside := prev_white_castle_queenside ps;
     black_castle_kingside := prev_black_castle_kingside ps;
     black_castle_queenside := prev_black_castle_queenside ps;
     en_passant_row := prev_en_passant_row ps;
     en_passant_col := prev_en_passant_col ps;
     halfmove_clock := prev_halfmove_clock ps;
     fullmove_number := fm |}.

(** *** Check detection *)

(** [find_king]: the result and the two output parameters, which hold
    [-1] when no king is found. *)
Definition find_king (board : Board) (king_color : PlayerColor) : bool * (Z * Z) :=
  match
    find (fun rc =>
            piece_eqb (piece (sq board (fst rc) (snd rc))) KING
            && color_eqb (color (sq board (fst rc) (snd rc))) king_color)
      all_squares
  with
  | Some rc => (true, rc)
  | None => (false, (-1, -1))
  end.

Definition slide_directions : list (Z * Z) :=
  [(1, 0); (-1, 0); (0, 1); (0, -1); (1, 1); (1, -1); (-1, 1); (-1, -1)].

(** The loop [for (j = 1; ; j++)] over one direction of
    [is_square_attacked], from step [j] on; [true] when the loop leaves
    the function by [return true]. *)
Fixpoint ray_attacked (fuel : nat) (board : Board) (row col dr dc : Z)
    (attacker_color : PlayerColor) (j : Z) : bool :=
  match fuel with
  | O => false
  | S fuel' =>
    let nr := row + j * dr in
    let nc := col + j * dc in
    if negb (is_valid_position nr nc) then false
    else
      let s := sq board nr nc in
      if negb (piece_eqb (piece s) EMPTY) then
        if color_eqb (color s) attacker_color then
          let p := piece s in
          let is_diagonal := negb (dr =? 0) && negb (dc =? 0) in
          let is_straight := (dr =? 0) || (dc =? 0) in
          piece_eqb p QUEEN
          || (is_diagonal && piece_eqb p BISHOP)
          || (is_straight && piece_eqb p ROOK)
        else false
      else ray_attacked fuel' board row col dr dc attacker_color (j + 1)
  end.

Definition is_square_attacked (board : Board) (row col : Z)
    (attacker_color : PlayerColor) : bool :=
  let holds (r c : Z) (p : Piece) :=
    is_valid_position r c
    && piece_eqb (piece (sq board r c)) p
    && color_eqb (color (sq board r c)) attacker_color in
  let pawn_dir := if color_eqb attacker_color PLAYER_WHITE then 1 else -1 in
  let attack_row := row + pawn_dir in
  if holds attack_row (col - 1) PAWN then true
  else if holds attack_row (col + 1) PAWN then true
  else if existsb (fun d => holds (row + fst d) (col + snd d) KNIGHT) knight_moves
  then true
  else if existsb (fun d =>
                     ray_attacked 8 board row col (fst d) (snd d) attacker_color 1)
            slide_directions
  then true
  else
    existsb (fun dr =>
      existsb (fun dc =>
        if (dr =? 0) && (dc =? 0) then false
        else holds (row + dr) (col + dc) KING) offsets3) offsets3.

(** The diagnostic printed on [stderr] when the king is missing is not
    part of the model. *)
Definition is_king_in_check (board : Board) (king_color : PlayerColor) : bool :=
  let '(found, (king_row, king_col)) := find_king board king_color in
  if negb found then false
  else
    let attacker_color :=
      if color_eqb king_color PLAYER_WHITE then PLAYER_BLACK else PLAYER_WHITE in
    is_square_attacked board king_row king_col attacker_color.

(** *** Legal moves *)

(** The filtering loop of [generate_legal_moves] over the remaining
    pseudo-legal moves; [temp_board] is the private copy, made and undone
    once per candidate.  A kept move is copied after [make_move], with the
    snapshot that call stored in it. *)
Fixpoint legal_filter (temp_board : Board) (current_player' : PlayerColor)
    (pseudo_legal_moves : list Move) : list Move :=
  match pseudo_legal_moves with
  | [] => []
  | m :: rest =>
    let '(made, m') := make_move temp_board m in
    let keep := negb (is_king_in_check made current_player') in
    let undone := undo_move made m' in
    (if keep then [m'] else []) ++ legal_filter undone current_player' rest
  end.

(** [generate_legal_moves] only reads [*board]: it works on the copy
    [temp_board]. *)
Definition generate_legal_moves (board : Board) : list Move :=
  let temp_board := board in
  let pseudo_legal_moves := generate_pseudo_legal_moves temp_board in
  legal_filter temp_board (current_player temp_board) pseudo_legal_moves.

(** *** Evaluation *)

Definition pawn_pst : list (list Z) :=
  [ [0; 0; 0; 0; 0; 0; 0; 0];
    [50; 50; 50; 50; 50; 50; 50; 50];
    [10; 10; 20; 30; 30; 20; 10; 10];
    [5; 5; 10; 25; 25; 10; 5; 5];
    [0; 0; 0; 20; 20; 0; 0; 0];
    [5; -5; -10; 0; 0; -10; -5; 5];
    [5; 10; 10; -20; -20; 10; 10; 5];
    [0; 0; 0; 0; 0; 0; 0; 0] ].

Definition knight_pst : list (list Z) :=
  [ [-50; -40; -30; -30; -30; -30; -40; -50];
    [-40; -20; 0; 0; 0; 0; -20; -40];
    [-30; 0; 10; 15; 15; 10; 0; -30];
    [-30; 5; 15; 20; 20; 15; 5; -30];
    [-30; 0; 15; 20; 20; 15; 0; -30];
    [-30; 5; 10; 15; 15; 10; 5; -30];
    [-40; -20; 0; 5; 5; 0; -20; -40];
    [-50; -40; -30; -30; -30; -30; -40; -50] ].

Definition bishop_pst : list (list Z) :=
  [ [-20; -10; -10; -10; -10; -10; -10; -20];
    [-10; 0; 0; 0; 0; 0; 0; -10];
    [-10; 0; 5; 10; 10; 5; 0; -10];
    [-10; 5; 5; 10; 10; 5; 5; -10];
    [-10; 0; 10; 10; 10; 10; 0; -10];
    [-10; 10; 10; 10; 10; 10; 10; -10];
    [-10; 5; 0; 0; 0; 0; 5; -10];
    [-20; -10; -10; -10; -10; -10; -10; -20] ].

Definition rook_pst : list (list Z) :=
  [ [0; 0; 0; 0; 0; 0; 0; 0];
    [5; 10; 10; 10; 10; 10; 10; 5];
    [-5; 0; 0; 0; 0; 0; 0; -5];
    [-5; 0; 0; 0; 0; 0; 0; -5];
    [-5; 0; 0; 0; 0; 0; 0; -5];
    [-5; 0; 0; 0; 0; 0; 0; -5];
    [-5; 0; 0; 0; 0; 0; 0; -5];
    [0; 0; 0; 5; 5; 0; 0; 0] ].

Definition queen_pst : list (list Z) :=
  [ [-20; -10; -10; -5; -5; -10; -10; -20];
    [-10; 0; 0; 0; 0; 0; 0; -10];
    [-10; 0; 5; 5; 5; 5; 0; -10];
    [-5; 0; 5; 5; 5; 5; 0; -5];
    [0; 0; 5; 5; 5; 5; 0; -5];
    [-10; 5; 5; 5; 5; 5; 0; -10];
    [-10; 0; 5; 0; 0; 0; 0; -10];
    [-20; -10; -10; -5; -5; -10; -10; -20] ].

Definition king_pst : list (list Z) :=
  [ [-30; -40; -40; -50; -50; -40; -40; -30];
    [-30; -40; -40; -50; -50; -40; -40; -30];
    [-30; -40; -40; -50; -50; -40; -40; -30];
    [-30; -40; -40; -50; -50; -40; -40; -30];
    [-20; -30; -30; -40; -40; -30; -30; -20];
    [-10; -20; -20; -20; -20; -20; -20; -10];
    [20; 20; 0; 0; 0; 0; 20; 20];
    [20; 30; 10; 0; 0; 10; 30; 20] ].

(** [pst[r][c]] for a table of the 2D engine. *)
Definition pst_at (pst : list (list Z)) (r c : Z) : Z :=
  nth (Z.to_nat c) (nth (Z.to_nat r) pst []) 0.

(** The table the [switch] of [evaluate_board] selects; no table, hence
    the initial [positional_value = 0], for [EMPTY]. *)
Definition pst_of (p : Piece) (r c : Z) : Z :=
  match p with
  | PAWN => pst_at pawn_pst r c
  | KNIGHT => pst_at knight_pst r c
  | BISHOP => pst_at bishop_pst r c
  | ROOK => pst_at rook_pst r c
  | QUEEN => pst_at queen_pst r c
  | KING => pst_at king_pst r c
  | EMPTY => 0
  end.

Definition piece_values : list Z := [0; 100; 320; 330; 500; 900; 20000].

(** The contribution of one square to [material_score] and to
    [positional_score]; every square not held by White counts as Black's,
    as the [else] branch of the C code has it. *)
Definition square_scores (board : Board) (rc : Z * Z) : Z * Z :=
  let r := fst rc in
  let c := snd rc in
  let p := piece (sq board r c) in
  if negb (piece_eqb p EMPTY) then
    let material_value := nth (piece_index p) piece_values 0 in
    if color_eqb (color (sq board r c)) PLAYER_WHITE
    then (material_value, pst_of p r c)
    else (- material_value, - pst_of p (7 - r) c)
  else (0, 0).

Definition evaluate_board (board : Board) : Z :=
  let material_score :=
    fold_left (fun acc rc => acc + fst (square_scores board rc)) all_squares 0 in
  let positional_score :=
    fold_left (fun acc rc => acc + snd (square_scores board rc)) all_squares 0 in
  material_score + positional_score.

(** *** Game over *)

(** [is_game_over]: the result and the message written to
    [result_message].  Every caller passes a buffer of 100 bytes, which
    holds each of the messages in full. *)
Definition is_game_over (board : Board) : bool * string :=
  let legal_move_count := Z.of_nat (List.length (generate_legal_moves board)) in
  let in_check := is_king_in_check board (current_player board) in
  if legal_move_count =? 0 then
    if in_check then
      (true,
       ("Checkmate! "
        ++ (if color_eqb (current_player board) PLAYER_WHITE then "Black" else "White")
        ++ " wins.")%string)
    else (true, "Stalemate! Draw."%string)
  else if halfmove_clock board >=? 100 then
    (true, "Draw by 50-move rule."%string)
  else if negb (fst (find_king board PLAYER_WHITE))
          || negb (fst (find_king board PLAYER_BLACK)) then
    (true, "Game Over! A king is missing."%string)
  else (false, "Game ongoing."%string).

(** *** Search *)

Definition score_piece_values : list Z := [0; 100; 320; 330; 500; 900; 0].

Definition score_move (board : Board) (move : Move) : Z :=
  if negb (piece_eqb (promotion move) EMPTY) then
    nth (piece_index (promotion move)) score_piece_values 0 + 10000
  else
    let captured := captured_piece (previous_state move) in
    if negb (piece_eqb captured EMPTY) then
      let moving_piece := piece (sq board (from_row move) (from_col move)) in
      nth (piece_index captured) score_piece_values 0
      - Z.quot (nth (piece_index moving_piece) score_piece_values 0) 10
      + 1000
    else 0.

Definition compare_moves (moveA moveB : Move) : Z := score moveB - score moveA.

Definition with_score (m : Move) (v : Z) : Move :=
  {| from_row := from_row m; from_col := from_col m;
     to_row := to_row m; to_col := to_col m;
     promotion := promotion m; score := v;
     previous_state := previous_state m |}.

Section Search.

(** [qsort] of the C library, applied to the move array with a comparison
    function.  The C standard leaves the order of moves of equal score
    open, so the search is stated for whatever sorting routine the
    library provides. *)
Variable qsort : (Move -> Move -> Z) -> list Move -> list Move.

(** The loop of the maximizing branch of [minimax] over the remaining
    moves; [child] is the recursive call at [depth - 1].  The board is
    the one shared object all calls work on, so it is threaded through. *)
Fixpoint maximize (child : Board -> Z -> Z -> Z * Board) (board : Board)
    (moves : list Move) (alpha beta max_eval : Z) : Z * Board :=
  match moves with
  | [] => (max_eval, board)
  | m :: rest =>
    let '(made, m') := make_move board m in
    let '(eval, after) := child made alpha beta in
    let undone := undo_move after m' in
    let max_eval' := if eval >? max_eval then eval else max_eval in
    let alpha' := if alpha >? max_eval' then alpha else max_eval' in
    if beta <=? alpha' then (max_eval', undone)
    else maximize child undone rest alpha' beta max_eval'
  end.

Fixpoint minimize (child : Board -> Z -> Z -> Z * Board) (board : Board)
    (moves : list Move) (alpha beta min_eval : Z) : Z * Board :=
  match moves with
  | [] => (min_eval, board)
  | m :: rest =>
    let '(made, m') := make_move board m in
    let '(eval, after) := child made alpha beta in
    let undone := undo_move after m' in
    let min_eval' := if eval <? min_eval then eval else min_eval in
    let beta' := if beta <? min_eval' then beta else min_eval' in
    if beta' <=? alpha then (min_eval', undone)
    else minimize child undone rest alpha beta' min_eval'
  end.

(** [minimax]: the value returned and the board as the call leaves it.
    [depth] is a natural number: the callers pass 1 to 3, and the function
    only ever decrements it after testing it against zero. *)
Fixpoint minimax (board : Board) (depth : nat) (alpha beta : Z)
    (maximizing_player : bool) {struct depth} : Z * Board :=
  let '(over, msg) := is_game_over board in
  if over then
    if strstr msg "Checkmate" then
      (if color_eqb (current_player board) PLAYER_WHITE
       then - MATE_SCORE - Z.of_nat depth
       else MATE_SCORE + Z.of_nat depth, board)
    else (0, board)
  else
    match depth with
    | O => (evaluate_board board, board)
    | S depth' =>
      let moves := generate_legal_moves board in
      let scored := map (fun m => with_score m (score_move board m)) moves in
      let sorted := qsort compare_moves scored in
      if maximizing_player then
        maximize (fun b a be => minimax b depth' a be false)
          board sorted alpha beta (- INFINITY - 1)
      else
        minimize (fun b a be => minimax b depth' a be true)
          board sorted alpha beta (INFINITY + 1)
    end.

End Search.

(** *** Notions used to state the properties *)

(** The move starts on the square of row [row], column [col]. *)
Definition starts_at (row col : Z) (m : Move) : Prop :=
  from_row m = row /\ from_col m = col.

(** Two moves that agree on everything a generator writes. *)
Definition same_move (m m' : Move) : Prop :=
  from_row m = from_row m' /\ from_col m = from_col m'
  /\ to_row m = to_row m' /\ to_col m = to_col m'
  /\ promotion m = promotion m'
  /\ captured_piece (previous_state m) = captured_piece (previous_state m')
  /\ captured_color (previous_state m) = captured_color (previous_state m').

(** No square of the board holds a king of color [c]. *)
Definition no_king (board : Board) (c : PlayerColor) : Prop :=
  forall row col,
    is_valid_position row col = true ->
    ~ (piece (sq board row col) = KING /\ color (sq board row col) = c).

(** The move takes a pawn two rows away from its origin. *)
Definition is_double_push (board : Board) (move : Move) : bool :=
  piece_eqb (piece (sq board (from_row move) (from_col move))) PAWN
  && (Z.abs (to_row move - from_row move) =? 2).

(** The row step of a pawn of color [c]. *)
Definition pawn_direction (c : PlayerColor) : Z :=
  if color_eqb c PLAYER_WHITE then -1 else 1.

(** What the engine maintains of a board during play: 64 squares, a side
    to move, no color on an empty square, an en passant target that, when
    it is a square of the board, is empty and lies right behind an enemy
    pawn, and a fullmove number within [int]. *)
Record well_formed (board : Board) : Prop := mk_well_formed {
  wf_length : List.length (squares board) = 64%nat;
  wf_player :
    current_player board = PLAYER_WHITE \/ current_player board = PLAYER_BLACK;
  wf_empty :
    forall row col,
      piece (sq board row col) = EMPTY -> color (sq board row col) = NONE;
  wf_en_passant :
    is_valid_position (en_passant_row board) (en_passant_col board) = true ->
    piece (sq board (en_passant_row board) (en_passant_col board)) = EMPTY
    /\ sq board (en_passant_row board - pawn_direction (current_player board))
         (en_passant_col board)
       = mkSquare PAWN (opponent_of (current_player board));
  wf_fullmove : int_range (fullmove_number board)
}.

(** The positions of a game: the initial position, and every position
    obtained from one of them by making one of its legal moves. *)
Inductive reachable : Board -> Prop :=
  | reach_init : reachable init_board
  | reach_move (board : Board) (m : Move) :
      reachable board ->
      In m (generate_legal_moves board) ->
      reachable (fst (make_move board m)).

(** A move that lands on the square whose content it recorded as
    captured: every move but the en passant capture. *)
Record plain_move (board : Board) (m : Move) : Prop := mk_plain_move {
  pm_target :
    sq board (to_row m) (to_col m)
    = mkSquare (captured_piece (previous_state m)) (captured_color (previous_state m));
  pm_promotion :
    promotion m <> EMPTY -> piece (sq board (from_row m) (from_col m)) = PAWN;
  pm_king :
    piece (sq board (from_row m) (from_col m)) = KING ->
    Z.abs (to_col m - from_col m) <= 1;
  pm_double :
    piece (sq board (from_row m) (from_col m)) = PAWN ->
    Z.abs (to_row m - from_row m) = 2 ->
    to_col m = from_col m
    /\ to_row m = from_row m + 2 * pawn_direction (current_player board)
    /\ promotion m = EMPTY
    /\ captured_piece (previous_state m) = EMPTY
    /\ piece (sq board (from_row m + pawn_direction (current_player board))
                (from_col m)) = EMPTY
}.

(** The en passant capture. *)
Record en_passant_move (board : Board) (m : Move) : Prop := mk_en_passant_move {
  em_pawn : piece (sq board (from_row m) (from_col m)) = PAWN;
  em_row : to_row m = en_passant_row board;
  em_col : to_col m = en_passant_col board;
  em_empty : piece (sq board (to_row m) (to_col m)) = EMPTY;
  em_piece : captured_piece (previous_state m) = PAWN;
  em_color : captured_color (previous_state m) = opponent_of (current_player board);
  em_promotion : promotion m = EMPTY;
  em_step : to_row m = from_row m + pawn_direction (current_player board);
  em_side : to_col m <> from_col m
}.

(** What the generators guarantee of each move they write. *)
Record generated (board : Board) (m : Move) : Prop := mk_generated {
  g_from : is_valid_position (from_row m) (from_col m) = true;
  g_to : is_valid_position (to_row m) (to_col m) = true;
  g_distinct : from_row m <> to_row m \/ from_col m <> to_col m;
  g_piece : piece (sq board (from_row m) (from_col m)) <> EMPTY;
  g_color : color (sq board (from_row m) (from_col m)) = current_player board;
  g_kind : plain_move board m \/ en_passant_move board m
}.

(** *** Positions used as test inputs *)

(** The squares of a board that holds the listed pieces and nothing else. *)
Definition place (pieces : list (Z * Z * Square)) : list Square :=
  fold_left (fun sqs p => sq_set sqs (fst (fst p)) (snd (fst p)) (snd p))
    pieces (repeat empty_square 64).

(** A board without any piece, White to move. *)
Definition bare_board : Board :=
  mkBoard (place []) PLAYER_WHITE false false false false (-1) (-1) 0 1.

(** White to move with king and both rooks at home, all rights intact,
    nothing between them and no black piece near: every castling
    precondition of the specification holds on both wings. *)
Definition castle_ready : Board :=
  mkBoard
    (place [ (0, 4, mkSquare KING PLAYER_BLACK);
             (7, 0, mkSquare ROOK PLAYER_WHITE);
             (7, 4, mkSquare KING PLAYER_WHITE);
             (7, 7, mkSquare ROOK PLAYER_WHITE) ])
    PLAYER_WHITE true true true true (-1) (-1) 0 1.

(** The king-side castling move of White, as a caller of [make_move]
    would write it. *)
Definition white_castles_kingside : Move := gen_move 7 4 7 6 EMPTY EMPTY NONE.

(** The step of the white king from (7, 4) to (6, 3) in [castle_ready],
    as [generate_legal_moves] returns it. *)
Definition white_king_step : Move :=
  snd (make_move castle_ready (gen_move 7 4 6 3 EMPTY EMPTY NONE)).

(** *** The move of the engine *)

Section Root.

(** [qsort] of the C library, as in [Search]. *)
Variable qsort : (Move -> Move -> Z) -> list Move -> list Move.

(** The loop of [ai_make_move] over the remaining root moves, [i] being
    the index of the first of them: each is made, searched and undone on
    the board, its array entry receives the snapshot of [make_move] and
    the evaluation, and the best index so far is updated.  The result is
    the board as the loop leaves it, the array entries as rewritten, and
    the best index. *)
Fixpoint root_loop (search_depth : nat) (is_ai_white : bool) (board : Board)
    (moves : list Move) (i : nat) (best_eval : Z) (best_move_index : nat)
    : Board * list Move * nat :=
  match moves with
  | [] => (board, [], best_move_index)
  | m :: rest =>
    let '(made, m') := make_move board m in
    let '(eval, after) :=
      minimax qsort made search_depth (- INFINITY - 1) (INFINITY + 1)
        (negb is_ai_white) in
    let undone := undo_move after m' in
    let better := if is_ai_white then eval >? best_eval else eval <? best_eval in
    let '(final, rest', best) :=
      root_loop search_depth is_ai_white undone rest (S i)
        (if better then eval else best_eval)
        (if better then i else best_move_index) in
    (final, with_score m' eval :: rest', best)
  end.

(** [ai_make_move]: the board as the function leaves it (the line it
    prints is not part of the model).  [search_depth] is [depth - 1] for
    the [depth] the [switch] on [difficulty] selects.  The last [nth]
    reads [moves[best_move_index]], an index of the array. *)
Definition ai_make_move (board : Board) (difficulty : Z) : Board :=
  let moves := generate_legal_moves board in
  let move_count := Z.of_nat (List.length moves) in
  if move_count =? 0 then board
  else
    let best_eval :=
      if color_eqb (current_player board) PLAYER_WHITE
      then - INFINITY - 1 else INFINITY + 1 in
    let search_depth :=
      if difficulty =? 1 then 1%nat
      else if difficulty =? 2 then 2%nat
      else if difficulty =? 3 then 3%nat
      else 2%nat in
    let is_ai_white := color_eqb (current_player board) PLAYER_WHITE in
    let scored := map (fun m => with_score m (score_move board m)) moves in
    let sorted := qsort compare_moves scored in
    let '(board', moves', best_move_index) :=
      root_loop search_depth is_ai_white board sorted 0%nat best_eval 0%nat in
    fst (make_move board'
           (nth best_move_index moves' (gen_move 0 0 0 0 EMPTY EMPTY NONE))).

End Root.

(** A sorting routine that meets the contract of [qsort] (it returns its
    input rearranged, in the order of the comparison function): an
    insertion sort.  It stands for the routine of the C library where a
    property stated for every such routine is instantiated. *)
Fixpoint insert_sorted (cmp : Move -> Move -> Z) (m : Move) (l : list Move)
    : list Move :=
  match l with
  | [] => [m]
  | h :: t => if cmp m h <=? 0 then m :: l else h :: insert_sorted cmp m t
  end.

Definition insertion_sort (cmp : Move -> Move -> Z) (l : list Move) : list Move :=
  fold_right (insert_sorted cmp) [] l.

(** *** Further notions used to state properties *)

(** What holds of the origin and the destination of a move that is safe to
    make: both on the board and distinct, the origin holding a piece of
    the side to move, the destination not holding a piece of the same
    color. *)
Record sound_move (board : Board) (m : Move) : Prop := mk_sound_move {
  sm_from : is_valid_position (from_row m) (from_col m) = true;
  sm_to : is_valid_position (to_row m) (to_col m) = true;
  sm_distinct : from_row m <> to_row m \/ from_col m <> to_col m;
  sm_piece : piece (sq board (from_row m) (from_col m)) <> EMPTY;
  sm_color : color (sq board (from_row m) (from_col m)) = current_player board;
  sm_target :
    piece (sq board (to_row m) (to_col m)) = EMPTY
    \/ color (sq board (to_row m) (to_col m))
       <> color (sq board (from_row m) (from_col m))
}.

(** The far row, on which a pawn of color [c] promotes. *)
Definition promotion_rank (c : PlayerColor) : Z :=
  if color_eqb c PLAYER_WHITE then 0 else 7.

(** The square with the colors White and Black exchanged. *)
Definition flip_square (s : Square) : Square :=
  mkSquare (piece s)
    (match color s with
     | PLAYER_WHITE => PLAYER_BLACK
     | PLAYER_BLACK => PLAYER_WHITE
     | NONE => NONE
     end).

(** The board seen from the other side: row [r] becomes row [7 - r], the
    colors are exchanged, and so is the side to move. *)
Definition mirror (board : Board) : Board :=
  {| squares :=
       map (fun rc => flip_square (sq board (7 - fst rc) (snd rc))) all_squares;
     current_player := opponent_of (current_player board);
     white_castle_kingside := black_castle_kingside board;
     white_castle_queenside := black_castle_queenside board;
     black_castle_kingside := white_castle_kingside board;
     black_castle_queenside := white_castle_queenside board;
     en_passant_row :=
       if en_passant_row board =? -1 then -1 else 7 - en_passant_row board;
     en_passant_col := en_passant_col board;
     halfmove_clock := halfmove_clock board;
     fullmove_number := fullmove_number board |}.

(** Every piece on the board is White's or Black's. *)
Definition pieces_colored (board : Board) : Prop :=
  forall row col,
    is_valid_position row col = true ->
    piece (sq board row col) <> EMPTY ->
    color (sq board row col) = PLAYER_WHITE
    \/ color (sq board row col) = PLAYER_BLACK.

(** The board after the moves of [ms], made one after the other. *)
Definition make_moves (board : Board) (ms : list Move) : Board :=
  fold_left (fun b m => fst (make_move b m)) ms board.

(** *** Further positions *)

(** The step of White's a-pawn from the initial position, as
    [generate_legal_moves] returns it. *)
Definition a_pawn_step : Move :=
  snd (make_move init_board (gen_move 6 0 5 0 EMPTY EMPTY NONE)).

(** Black to move and mated: the white queen on (1, 1) checks the king in
    the corner and is guarded by the white king. *)
Definition corner_mate : Board :=
  mkBoard
    (place [ (0, 0, mkSquare KING PLAYER_BLACK);
             (1, 1, mkSquare QUEEN PLAYER_WHITE);
             (2, 2, mkSquare KING PLAYER_WHITE) ])
    PLAYER_BLACK false false false false (-1) (-1) 0 40.

(** White to move after Black's pawn went from (1, 3) to (3, 3): the en
    passant target is (2, 3) and the white pawn on (3, 4) can take. *)
Definition en_passant_ready : Board :=
  mkBoard
    (place [ (0, 4, mkSquare KING PLAYER_BLACK);
             (3, 3, mkSquare PAWN PLAYER_BLACK);
             (3, 4, mkSquare PAWN PLAYER_WHITE);
             (7, 4, mkSquare KING PLAYER_WHITE) ])
    PLAYER_WHITE false false false false 2 3 0 10.

(** The en passant capture available in [en_passant_ready]. *)
Definition takes_en_passant : Move := gen_move 3 4 2 3 EMPTY PAWN PLAYER_BLACK.

(** [well_formed], as a test that can be run on a given board. *)
Definition well_formedb (board : Board) : bool :=
  Nat.eqb (List.length (squares board)) 64
  && (color_eqb (current_player board) PLAYER_WHITE
      || color_eqb (current_player board) PLAYER_BLACK)
  && forallb (fun rc =>
                negb (piece_eqb (piece (sq board (fst rc) (snd rc))) EMPTY)
                || color_eqb (color (sq board (fst rc) (snd rc))) NONE)
       all_squares
  && (negb (is_valid_position (en_passant_row board) (en_passant_col board))
      || (piece_eqb
            (piece (sq board (en_passant_row board) (en_passant_col board))) EMPTY
          && piece_eqb
               (piece (sq board
                         (en_passant_row board - pawn_direction (current_player board))
                         (en_passant_col board))) PAWN
          && color_eqb
               (color (sq board
                         (en_passant_row board - pawn_direction (current_player board))
                         (en_passant_col board)))
               (opponent_of (current_player board))))
  && (-2147483648 <=? fullmove_number board)
  && (fullmove_number board <=? 2147483647).

(** White to move; the white rook on (6, 4) shields the white king on
    (7, 4) from the black rook on (0, 4). *)
Definition pinned_rook : Board :=
  mkBoard
    (place [ (0, 0, mkSquare KING PLAYER_BLACK);
             (0, 4, mkSquare ROOK PLAYER_BLACK);
             (6, 4, mkSquare ROOK PLAYER_WHITE);
             (7, 4, mkSquare KING PLAYER_WHITE) ])
    PLAYER_WHITE false false false false (-1) (-1) 12 30.

(** The pinned rook leaving the column of its king. *)
Definition rook_leaves_the_pin : Move := gen_move 6 4 6 3 EMPTY EMPTY NONE.

(** The row step from a square to the pawns of color [attacker] that
    attack it, as [is_square_attacked] computes it. *)
Definition attack_dir (attacker : PlayerColor) : Z :=
  if color_eqb attacker PLAYER_WHITE then 1 else -1.

(** The board holds exactly one king of color [c]. *)
Definition one_king (board : Board) (c : PlayerColor) : Prop :=
  exists row col,
    is_valid_position row col = true
    /\ sq board row col = mkSquare KING c
    /\ forall row' col',
         is_valid_position row' col' = true ->
         sq board row' col' = mkSquare KING c ->
         row' = row /\ col' = col.

(** Every piece has a color, and each side has exactly one king. *)
Record kings_in_place (board : Board) : Prop := mk_kings_in_place {
  kp_colored : pieces_colored board;
  kp_white : one_king board PLAYER_WHITE;
  kp_black : one_king board PLAYER_BLACK
}.

(** The rook of [pinned_rook] taking the rook that pins it. *)
Definition rook_takes_rook : Move := gen_move 6 4 0 4 EMPTY ROOK PLAYER_BLACK.

(** *** The search without its window *)

(** [minimax] without pruning and without move ordering: the same
    recursion with the same leaves, every legal move searched, on boards
    passed by value. *)
Fixpoint full_search (board : Board) (depth : nat) (maximizing_player : bool)
    {struct depth} : Z :=
  let '(over, msg) := is_game_over board in
  if over then
    if strstr msg "Checkmate" then
      if color_eqb (current_player board) PLAYER_WHITE
      then - MATE_SCORE - Z.of_nat depth
      else MATE_SCORE + Z.of_nat depth
    else 0
  else
    match depth with
    | O => evaluate_board board
    | S depth' =>
      let children :=
        map (fun m => full_search (fst (make_move board m)) depth'
                        (negb maximizing_player))
          (generate_legal_moves board) in
      if maximizing_player
      then fold_left Z.max children (- INFINITY - 1)
      else fold_left Z.min children (INFINITY + 1)
    end.

(** What a search with the window [(alpha, beta)] that returns [r] tells
    about the value [v] of the search without window: [v] itself when it
    lies inside the window, and otherwise a bound on the side of the
    window that [v] lies on. *)
Definition within_window (alpha beta v r : Z) : Prop :=
  (v <= alpha -> v <= r <= alpha)
  /\ (alpha < v < beta -> r = v)
  /\ (beta <= v -> beta <= r <= v).

End Chess2D.

(** ** The 3D engine *)

Module Chess3D.

Definition BOARD_LAYERS : Z := 3.
Definition MAX_MOVES : Z := 512.

Inductive PieceColor : Type := P_WHITE | P_BLACK | P_NONE.

Definition color_eqb (a b : PieceColor) : bool :=
  match a, b with
  | P_WHITE, P_WHITE | P_BLACK, P_BLACK | P_NONE, P_NONE => true
  | _, _ => false
  end.

Record Square : Type := mkSquare { piece : Piece; color : PieceColor }.

Definition empty_square : Square := mkSquare EMPTY P_NONE.

(** [struct Move] of the 3D engine: no undo information besides the flag
    [is_capture]. *)
Record Move : Type := mkMove {
  from_layer : Z;
  from_row : Z;
  from_col : Z;
  to_layer : Z;
  to_row : Z;
  to_col : Z;
  promotion : Piece;
  score : Z;
  is_capture : bool
}.

(** [struct Board]; [squares] is the 3x8x8 array in its row-major layout,
    the square of layer [l], row [r], column [c] being cell
    [(8 * l + r) * 8 + c]. *)
Record Board : Type := mkBoard {
  squares : list Square;
  current_player : PieceColor;
  white_castle_kingside : bool;
  white_castle_queenside : bool;
  black_castle_kingside : bool;
  black_castle_queenside : bool;
  en_passant_layer : Z;
  en_passant_row : Z;
  en_passant_col : Z;
  halfmove_clock : Z;
  fullmove_number : Z
}.

Definition is_valid_position (layer row col : Z) : bool :=
  (0 <=? layer) && (layer <? BOARD_LAYERS)
  && (0 <=? row) && (row <? BOARD_SIZE)
  && (0 <=? col) && (col <? BOARD_SIZE).

(** The test [l < 0 || l >= BOARD_LAYERS] that makes a layer loop
    [continue]. *)
Definition layer_off_board (layer : Z) : bool :=
  (layer <? 0) || (layer >=? BOARD_LAYERS).

Definition cell (layer row col : Z) : nat :=
  Z.to_nat ((layer * BOARD_SIZE + row) * BOARD_SIZE + col).

Definition sq_at (sqs : list Square) (layer row col : Z) : Square :=
  if is_valid_position layer row col then nth (cell layer row col) sqs empty_square
  else empty_square.

Definition sq_set (sqs : list Square) (layer row col : Z) (s : Square) : list Square :=
  if is_valid_position layer row col then upd sqs (cell layer row col) s else sqs.

Definition sq (board : Board) (layer row col : Z) : Square :=
  sq_at (squares board) layer row col.

(** The board with its array of squares replaced. *)
Definition with_squares (board : Board) (sqs : list Square) : Board :=
  {| squares := sqs;
     current_player := current_player board;
     white_castle_kingside := white_castle_kingside board;
     white_castle_queenside := white_castle_queenside board;
     black_castle_kingside := black_castle_kingside board;
     black_castle_queenside := black_castle_queenside board;
     en_passant_layer := en_passant_layer board;
     en_passant_row := en_passant_row board;
     en_passant_col := en_passant_col board;
     halfmove_clock := halfmove_clock board;
     fullmove_number := fullmove_number board |}.

(** The board with [current_player] replaced. *)
Definition with_player (board : Board) (p : PieceColor) : Board :=
  {| squares := squares board;
     current_player := p;
     white_castle_kingside := white_castle_kingside board;
     white_castle_queenside := white_castle_queenside board;
     black_castle_kingside := black_castle_kingside board;
     black_castle_queenside := black_castle_queenside board;
     en_passant_layer := en_passant_layer board;
     en_passant_row := en_passant_row board;
     en_passant_col := en_passant_col board;
     halfmove_clock := halfmove_clock board;
     fullmove_number := fullmove_number board |}.

(** *** Board initialisation *)

Definition back_row : list Piece :=
  [ROOK; KNIGHT; BISHOP; QUEEN; KING; BISHOP; KNIGHT; ROOK].

(** Layer 0 carries the black army on rows 0 and 1, layer 1 is empty,
    layer 2 carries the white army on rows 6 and 7.  Only Black starts
    with castling rights. *)
Definition init_board : Board :=
  {| squares :=
       (map (fun p => mkSquare p P_BLACK) back_row
        ++ repeat (mkSquare PAWN P_BLACK) 8
        ++ repeat empty_square 48)
       ++ repeat empty_square 64
       ++ (repeat empty_square 48
           ++ repeat (mkSquare PAWN P_WHITE) 8
           ++ map (fun p => mkSquare p P_WHITE) back_row);
     current_player := P_WHITE;
     white_castle_kingside := false;
     white_castle_queenside := false;
     black_castle_kingside := true;
     black_castle_queenside := true;
     en_passant_layer := -1;
     en_passant_row := -1;
     en_passant_col := -1;
     halfmove_clock := 0;
     fullmove_number := 1 |}.

(** *** Check detection *)

(** All squares in the order of the nested [layer], [row], [col] loops. *)
Definition all_squares : list (Z * Z * Z) :=
  flat_map (fun layer =>
    flat_map (fun row => map (fun col => (layer, row, col)) range8) range8)
    [0; 1; 2].

(** [find_king]: [Some] of the three output parameters when the function
    returns [true]; [None] when it returns [false], in which case the
    output parameters are left unwritten. *)
Definition find_king (board : Board) (king_color : PieceColor) : option (Z * Z * Z) :=
  find (fun lrc =>
          let '(l, r, c) := lrc in
          piece_eqb (piece (sq board l r c)) KING
          && color_eqb (color (sq board l r c)) king_color)
    all_squares.

(** The direction table [directions] that [is_square_attacked] fills,
    each entry as (layer, row, col) steps. *)
Definition slide_directions : list (Z * Z * Z) :=
  [(0, 1, 0); (0, -1, 0); (0, 0, 1); (0, 0, -1);
   (0, 1, 1); (0, 1, -1); (0, -1, 1); (0, -1, -1)]
  ++ flat_map (fun l_change =>
       [(l_change, 1, 0); (l_change, -1, 0); (l_change, 0, 1); (l_change, 0, -1);
        (l_change, 0, 0);
        (l_change, 1, 1); (l_change, 1, -1); (l_change, -1, 1); (l_change, -1, -1)])
     offsets2.

(** The loop [for (step = 1; ; step++)] over one direction, from [step]
    on; [true] when the loop leaves the function by [return true]. *)
Fixpoint ray_attacked (fuel : nat) (board : Board)
    (target_layer target_row target_col l_dir r_dir c_dir : Z)
    (attacker_color : PieceColor) (step : Z) : bool :=
  match fuel with
  | O => false
  | S fuel' =>
    let current_layer := target_layer + step * l_dir in
    let current_row := target_row + step * r_dir in
    let current_col := target_col + step * c_dir in
    if negb (is_valid_position current_layer current_row current_col) then false
    else
      let s := sq board current_layer current_row current_col in
      if negb (piece_eqb (piece s) EMPTY) then
        if color_eqb (color s) attacker_color then
          let is_diagonal := negb (r_dir =? 0) && negb (c_dir =? 0) in
          let is_straight :=
            negb is_diagonal && (negb (r_dir =? 0) || negb (c_dir =? 0)) in
          let is_vertical := negb (l_dir =? 0) && (r_dir =? 0) && (c_dir =? 0) in
          let is_layer_diag := negb (l_dir =? 0) && is_diagonal in
          let is_layer_straight := negb (l_dir =? 0) && is_straight in
          if piece_eqb (piece s) QUEEN then true
          else if piece_eqb (piece s) ROOK
                  && (is_straight || is_vertical || is_layer_straight) then true
          else if piece_eqb (piece s) BISHOP && (is_diagonal || is_layer_diag) then true
          else false
        else false
      else
        ray_attacked fuel' board target_layer target_row target_col
          l_dir r_dir c_dir attacker_color (step + 1)
  end.

Definition is_square_attacked (board : Board) (target_layer target_row target_col : Z)
    (attacker_color : PieceColor) : bool :=
  let holds (l r c : Z) (p : Piece) :=
    is_valid_position l r c
    && piece_eqb (piece (sq board l r c)) p
    && color_eqb (color (sq board l r c)) attacker_color in
  let pawn_direction := if color_eqb attacker_color P_WHITE then -1 else 1 in
  let pawn_start_row := target_row - pawn_direction in
  (* pawns of the same layer *)
  if existsb (fun col_offset =>
                holds target_layer pawn_start_row (target_col + col_offset) PAWN)
       offsets2
  then true
  (* pawns of the adjacent layers *)
  else if existsb (fun layer_offset =>
                let pawn_layer := target_layer + layer_offset in
                if layer_off_board pawn_layer then false
                else existsb (fun col_offset =>
                       holds pawn_layer pawn_start_row (target_col + col_offset) PAWN)
                     offsets2)
            offsets2
  then true
  (* knights *)
  else if existsb (fun l_offset =>
                let knight_layer := target_layer + l_offset in
                if layer_off_board knight_layer then false
                else existsb (fun d =>
                       holds knight_layer (target_row + fst d) (target_col + snd d) KNIGHT)
                     knight_moves)
            offsets3
  then true
  (* rooks, bishops, queens *)
  else if existsb (fun d =>
                let '(l_dir, r_dir, c_dir) := d in
                ray_attacked 8 board target_layer target_row target_col
                  l_dir r_dir c_dir attacker_color 1)
            slide_directions
  then true
  (* the king *)
  else
    existsb (fun l_offset =>
      existsb (fun r_offset =>
        existsb (fun c_offset =>
          if (l_offset =? 0) && (r_offset =? 0) && (c_offset =? 0) then false
          else holds (target_layer + l_offset) (target_row + r_offset)
                 (target_col + c_offset) KING) offsets3) offsets3) offsets3.

Definition is_king_in_check (board : Board) (king_color : PieceColor) : bool :=
  match find_king board king_color with
  | None => false
  | Some (king_layer, king_row, king_col) =>
    let attacker_color := if color_eqb king_color P_WHITE then P_BLACK else P_WHITE in
    is_square_attacked board king_layer king_row king_col attacker_color
  end.

(** *** Move generation *)

(** The compound literal [(struct Move){fl, fr, fc, tl, tr, tc, promo, 0, cap}]. *)
Definition gen_move (fl fr fc tl tr tc : Z) (promo : Piece) (cap : bool) : Move :=
  mkMove fl fr fc tl tr tc promo 0 cap.

Definition generate_pawn_moves (board : Board) (layer row col : Z) : list Move :=
  let own := color (sq board layer row col) in
  let direction := if color_eqb own P_WHITE then -1 else 1 in
  let start_row := if color_eqb own P_WHITE then 6 else 1 in
  let promotion_row := if color_eqb own P_WHITE then 0 else 7 in
  let next_row := row + direction in
  (* same layer: forward and double forward *)
  let forward :=
    if is_valid_position layer next_row col
       && piece_eqb (piece (sq board layer next_row col)) EMPTY
    then
      (if next_row =? promotion_row
       then map (fun p => gen_move layer row col layer next_row col p false) promo_pieces
       else [gen_move layer row col layer next_row col EMPTY false])
      ++
      (if (row =? start_row)
          && is_valid_position layer (row + 2 * direction) col
          && piece_eqb (piece (sq board layer (row + 2 * direction) col)) EMPTY
       then [gen_move layer row col layer (row + 2 * direction) col EMPTY false]
       else [])
    else [] in
  (* same layer: captures, en passant included *)
  let captures :=
    flat_map (fun col_offset =>
      let capture_col := col + col_offset in
      if is_valid_position layer next_row capture_col then
        let target := sq board layer next_row capture_col in
        if negb (piece_eqb (piece target) EMPTY)
           && negb (color_eqb (color target) own)
        then
          if next_row =? promotion_row
          then map (fun p => gen_move layer row col layer next_row capture_col p true)
                 promo_pieces
          else [gen_move layer row col layer next_row capture_col EMPTY true]
        else if (layer =? en_passant_layer board)
                && (next_row =? en_passant_row board)
                && (capture_col =? en_passant_col board)
                && negb (color_eqb own
                           (color (sq board layer
                                     (en_passant_row board - direction)
                                     (en_passant_col board))))
        then [gen_move layer row col layer next_row capture_col EMPTY true]
        else []
      else []) offsets2 in
  (* moves to the adjacent layers, without promotion *)
  let inter_layer :=
    flat_map (fun layer_change =>
      let new_layer := layer + layer_change in
      if layer_off_board new_layer then []
      else
        (if is_valid_position new_layer next_row col
            && piece_eqb (piece (sq board new_layer next_row col)) EMPTY
         then [gen_move layer row col new_layer next_row col EMPTY false]
         else [])
        ++
        flat_map (fun col_offset =>
          let capture_col := col + col_offset in
          if is_valid_position new_layer next_row capture_col
             && negb (piece_eqb (piece (sq board new_layer next_row capture_col)) EMPTY)
             && negb (color_eqb (color (sq board new_layer next_row capture_col)) own)
          then [gen_move layer row col new_layer next_row capture_col EMPTY true]
          else []) offsets2) offsets2 in
  forward ++ captures ++ inter_layer.

Definition generate_knight_moves (board : Board) (layer row col : Z) : list Move :=
  flat_map (fun l_offset =>
    let current_layer := layer + l_offset in
    if layer_off_board current_layer then []
    else
      flat_map (fun d =>
        let new_row := row + fst d in
        let new_col := col + snd d in
        if is_valid_position current_layer new_row new_col then
          let target_sq := sq board current_layer new_row new_col in
          if piece_eqb (piece target_sq) EMPTY
             || negb (color_eqb (color target_sq) (color (sq board layer row col)))
          then [gen_move layer row col current_layer new_row new_col EMPTY
                  (negb (piece_eqb (piece target_sq) EMPTY))]
          else []
        else []) knight_moves) offsets3.

(** The [while] loop of [generate_directional_moves], started at
    [(current_layer, current_row, current_col)]; [fuel] bounds the number
    of iterations. *)
Fixpoint ray_moves (fuel : nat) (board : Board) (layer row col : Z)
    (row_dir col_dir layer_dir : Z) (current_layer current_row current_col : Z)
    : list Move :=
  match fuel with
  | O => []
  | S fuel' =>
    if is_valid_position current_layer current_row current_col then
      let target := sq board current_layer current_row current_col in
      if piece_eqb (piece target) EMPTY then
        gen_move layer row col current_layer current_row current_col EMPTY false
        :: ray_moves fuel' board layer row col row_dir col_dir layer_dir
             (current_layer + layer_dir) (current_row + row_dir) (current_col + col_dir)
      else if negb (color_eqb (color target) (color (sq board layer row col)))
      then [gen_move layer row col current_layer current_row current_col EMPTY true]
      else []
    else []
  end.

Definition generate_directional_moves (board : Board) (layer row col : Z)
    (row_dir col_dir layer_dir : Z) : list Move :=
  ray_moves 8 board layer row col row_dir col_dir layer_dir
    (layer + layer_dir) (row + row_dir) (col + col_dir).

Definition bishop_directions : list (Z * Z) := [(1, 1); (1, -1); (-1, 1); (-1, -1)].
Definition rook_directions : list (Z * Z) := [(1, 0); (-1, 0); (0, 1); (0, -1)].

Definition generate_bishop_moves (board : Board) (layer row col : Z) : list Move :=
  flat_map (fun d => generate_directional_moves board layer row col (fst d) (snd d) 0)
    bishop_directions
  ++ flat_map (fun layer_change =>
       flat_map (fun d =>
         generate_directional_moves board layer row col (fst d) (snd d) layer_change)
         bishop_directions) offsets2.

Definition generate_rook_moves (board : Board) (layer row col : Z) : list Move :=
  flat_map (fun d => generate_directional_moves board layer row col (fst d) (snd d) 0)
    rook_directions
  ++ flat_map (fun layer_change =>
       generate_directional_moves board layer row col 1 0 layer_change
       ++ generate_directional_moves board layer row col (-1) 0 layer_change
       ++ generate_directional_moves board layer row col 0 1 layer_change
       ++ generate_directional_moves board layer row col 0 (-1) layer_change
       ++ generate_directional_moves board layer row col 0 0 layer_change) offsets2.

Definition generate_queen_moves (board : Board) (layer row col : Z) : list Move :=
  generate_bishop_moves board layer row col ++ generate_rook_moves board layer row col.

(** The one-step moves of the king to its up to 26 neighbours. *)
Definition king_steps (board : Board) (layer row col : Z) : list Move :=
  let player_color := color (sq board layer row col) in
  flat_map (fun l_offset =>
    flat_map (fun r_offset =>
      flat_map (fun c_offset =>
        if (l_offset =? 0) && (r_offset =? 0) && (c_offset =? 0) then []
        else
          let new_layer := layer + l_offset in
          let new_row := row + r_offset in
          let new_col := col + c_offset in
          if is_valid_position new_layer new_row new_col then
            let target_sq := sq board new_layer new_row new_col in
            if piece_eqb (piece target_sq) EMPTY
               || negb (color_eqb (color target_sq) player_color)
            then [gen_move layer row col new_layer new_row new_col EMPTY
                    (negb (piece_eqb (piece target_sq) EMPTY))]
            else []
          else []) offsets3) offsets3) offsets3.

(** The castling part of [generate_king_moves]. *)
Definition king_castles (board : Board) (layer row col : Z) : list Move :=
  let player_color := color (sq board layer row col) in
  let opponent_color := if color_eqb player_color P_WHITE then P_BLACK else P_WHITE in
  if layer =? 0 then
    let king_row := if color_eqb player_color P_WHITE then 7 else 0 in
    let king_col_start := 4 in
    if (row =? king_row) && (col =? king_col_start) then
      if negb (is_king_in_check board player_color) then
        let can_castle_kingside :=
          if color_eqb player_color P_WHITE then white_castle_kingside board
          else black_castle_kingside board in
        let can_castle_queenside :=
          if color_eqb player_color P_WHITE then white_castle_queenside board
          else black_castle_queenside board in
        (if can_castle_kingside
            && piece_eqb (piece (sq board layer king_row (king_col_start + 1))) EMPTY
            && piece_eqb (piece (sq board layer king_row (king_col_start + 2))) EMPTY
            && negb (is_square_attacked board layer king_row (king_col_start + 1) opponent_color)
            && negb (is_square_attacked board layer king_row (king_col_start + 2) opponent_color)
         then [gen_move layer row col layer king_row (king_col_start + 2) EMPTY false]
         else [])
        ++
        (if can_castle_queenside
            && piece_eqb (piece (sq board layer king_row (king_col_start - 1))) EMPTY
            && piece_eqb (piece (sq board layer king_row (king_col_start - 2))) EMPTY
            && piece_eqb (piece (sq board layer king_row (king_col_start - 3))) EMPTY
            && negb (is_square_attacked board layer king_row (king_col_start - 1) opponent_color)
            && negb (is_square_attacked board layer king_row (king_col_start - 2) opponent_color)
         then [gen_move layer row col layer king_row (king_col_start - 2) EMPTY false]
         else [])
      else []
    else []
  else [].

Definition generate_king_moves (board : Board) (layer row col : Z) : list Move :=
  king_steps board layer row col ++ king_castles board layer row col.

Definition generate_moves_for_piece (board : Board) (layer row col : Z) : list Move :=
  match piece (sq board layer row col) with
  | PAWN => generate_pawn_moves board layer row col
  | KNIGHT => generate_knight_moves board layer row col
  | BISHOP => generate_bishop_moves board layer row col
  | ROOK => generate_rook_moves board layer row col
  | QUEEN => generate_queen_moves board layer row col
  | KING => generate_king_moves board layer row col
  | EMPTY => []
  end.

Definition generate_pseudo_legal_moves (board : Board) : list Move :=
  let current_player' := current_player board in
  flat_map (fun lrc =>
    let '(layer, row, col) := lrc in
    if color_eqb (color (sq board layer row col)) current_player'
    then generate_moves_for_piece board layer row col
    else []) all_squares.

(** *** Make and undo *)

Definition make_move (board : Board) (move : Move) : Board :=
  let moved_piece := sq board (from_layer move) (from_row move) (from_col move) in
  let target_square := sq board (to_layer move) (to_row move) (to_col move) in
  (* en passant capture *)
  let is_en_passant_capture :=
    piece_eqb (piece moved_piece) PAWN
    && negb (to_col move =? from_col move)
    && piece_eqb (piece target_square) EMPTY
    && (to_layer move =? en_passant_layer board)
    && (to_row move =? en_passant_row board)
    && (to_col move =? en_passant_col board) in
  let sqs1 :=
    if is_en_passant_capture
    then sq_set (squares board) (from_layer move) (from_row move) (to_col move) empty_square
    else squares board in
  (* castling, on layer 0 only: the rook *)
  let is_castle :=
    piece_eqb (piece moved_piece) KING
    && (Z.abs (to_col move - from_col move) =? 2)
    && (from_layer move =? 0) && (to_layer move =? 0) in
  let sqs2 :=
    if is_castle then
      if to_col move =? 6 then
        sq_set (sq_set sqs1 0 (from_row move) 5 (sq_at sqs1 0 (from_row move) 7))
          0 (from_row move) 7 empty_square
      else
        sq_set (sq_set sqs1 0 (from_row move) 3 (sq_at sqs1 0 (from_row move) 0))
          0 (from_row move) 0 empty_square
    else sqs1 in
  (* the piece itself *)
  let placed :=
    if negb (piece_eqb (promotion move) EMPTY)
    then mkSquare (promotion move) (color moved_piece)
    else moved_piece in
  let sqs3 :=
    sq_set (sq_set sqs2 (to_layer move) (to_row move) (to_col move) placed)
      (from_layer move) (from_row move) (from_col move) empty_square in
  (* en passant target *)
  let double_push :=
    piece_eqb (piece moved_piece) PAWN
    && (Z.abs (to_row move - from_row move) =? 2)
    && (from_layer move =? to_layer move) in
  let ep_layer := if double_push then from_layer move else -1 in
  let ep_row := if double_push then Z.quot (from_row move + to_row move) 2 else -1 in
  let ep_col := if double_push then from_col move else -1 in
  (* castling rights: king or rook leaving layer 0 squares *)
  let from0 := from_layer move =? 0 in
  let is_king := piece_eqb (piece moved_piece) KING in
  let is_rook := negb is_king && piece_eqb (piece moved_piece) ROOK in
  let white := color_eqb (color moved_piece) P_WHITE in
  let from_is (r c : Z) := (from_row move =? r) && (from_col move =? c) in
  let wk1 :=
    if from0 && ((is_king && white) || (is_rook && white && from_is 7 7))
    then false else white_castle_kingside board in
  let wq1 :=
    if from0 && ((is_king && white) || (is_rook && white && from_is 7 0))
    then false else white_castle_queenside board in
  let bk1 :=
    if from0 && ((is_king && negb white) || (is_rook && negb white && from_is 0 7))
    then false else black_castle_kingside board in
  let bq1 :=
    if from0 && ((is_king && negb white) || (is_rook && negb white && from_is 0 0))
    then false else black_castle_queenside board in
  (* castling rights: any move landing on a rook corner of layer 0 *)
  let to0 := to_layer move =? 0 in
  let to_is (r c : Z) := (to_row move =? r) && (to_col move =? c) in
  let wq2 := if to0 && to_is 7 0 then false else wq1 in
  let wk2 := if to0 && to_is 7 7 then false else wk1 in
  let bq2 := if to0 && to_is 0 0 then false else bq1 in
  let bk2 := if to0 && to_is 0 7 then false else bk1 in
  (* clocks *)
  let hm :=
    if piece_eqb (piece moved_piece) PAWN
       || negb (piece_eqb (piece target_square) EMPTY)
       || is_en_passant_capture
    then 0 else wrap_int (halfmove_clock board + 1) in
  let fm :=
    if color_eqb (current_player board) P_BLACK
    then wrap_int (fullmove_number board + 1)
    else fullmove_number board in
  {| squares := sqs3;
     current_player := if color_eqb (current_player board) P_WHITE then P_BLACK else P_WHITE;
     white_castle_kingside := wk2;
     white_castle_queenside := wq2;
     black_castle_kingside := bk2;
     black_castle_queenside := bq2;
     en_passant_layer := ep_layer;
     en_passant_row := ep_row;
     en_passant_col := ep_col;
     halfmove_clock := hm;
     fullmove_number := fm |}.

(** [undo_move] of the 3D engine: the moved piece goes back, the
    destination is emptied in both branches of the test on [is_capture],
    the player is flipped, and nothing else is touched. *)
Definition undo_move (board : Board) (move : Move) : Board :=
  let moved_piece := sq board (to_layer move) (to_row move) (to_col move) in
  let sqs1 :=
    sq_set (squares board) (from_layer move) (from_row move) (from_col move) moved_piece in
  let sqs2 :=
    if is_capture move
    then sq_set sqs1 (to_layer move) (to_row move) (to_col move) empty_square
    else sq_set sqs1 (to_layer move) (to_row move) (to_col move) empty_square in
  with_player (with_squares board sqs2)
    (if color_eqb (current_player board) P_WHITE then P_BLACK else P_WHITE).

(** The undo written in line after each simulated move, in
    [generate_legal_moves] and in the loops of [minimax]: the piece now on
    the destination goes back to the origin, the destination gets
    [captured_square] back, and [current_player] is restored. *)
Definition inline_undo (board : Board) (move : Move) (captured_square : Square)
    (player : PieceColor) : Board :=
  let moved_piece := sq board (to_layer move) (to_row move) (to_col move) in
  let sqs1 :=
    sq_set (squares board) (from_layer move) (from_row move) (from_col move) moved_piece in
  let sqs2 := sq_set sqs1 (to_layer move) (to_row move) (to_col move) captured_square in
  with_player (with_squares board sqs2) player.

(** *** Legal moves *)

(** The filtering loop of [generate_legal_moves].  It runs on the caller's
    board, which is therefore returned next to the moves kept. *)
Fixpoint legal_filter (board : Board) (current_player' : PieceColor)
    (pseudo_legal_moves : list Move) : list Move * Board :=
  match pseudo_legal_moves with
  | [] => ([], board)
  | m :: rest =>
    let captured_square := sq board (to_layer m) (to_row m) (to_col m) in
    let made := make_move board m in
    let keep := negb (is_king_in_check made current_player') in
    let undone := inline_undo made m captured_square current_player' in
    let '(kept, final) := legal_filter undone current_player' rest in
    ((if keep then [m] else []) ++ kept, final)
  end.

Definition generate_legal_moves (board : Board) : list Move * Board :=
  let pseudo_legal_moves := generate_pseudo_legal_moves board in
  legal_filter board (current_player board) pseudo_legal_moves.

(** *** Evaluation *)

Definition piece_values : list Z := [0; 100; 320; 330; 500; 900; 20000].

(** The signed value one square adds to [score]; every piece not White's
    counts as Black's. *)
Definition square_value (board : Board) (lrc : Z * Z * Z) : Z :=
  let '(layer, row, col) := lrc in
  let current_square := sq board layer row col in
  if negb (piece_eqb (piece current_square) EMPTY) then
    let value0 := nth (piece_index (piece current_square)) piece_values 0 in
    let value1 :=
      if (row >=? 2) && (row <=? 5) && ((col >=? 2) && (col <=? 5))
      then value0 + 10 else value0 in
    let value := value1 + layer * 15 in
    if color_eqb (color current_square) P_WHITE then value else - value
  else 0.

Definition evaluate_board (board : Board) : Z :=
  fold_left (fun score' lrc => score' + square_value board lrc) all_squares 0.

(** *** Game over and search *)

(** [is_game_over]: the result, and the board as [generate_legal_moves]
    leaves it. *)
Definition is_game_over (board : Board) : bool * Board :=
  let '(legal_moves, board') := generate_legal_moves board in
  let legal_move_count := Z.of_nat (List.length legal_moves) in
  if legal_move_count =? 0 then (true, board') else (false, board').

(** The loop of the maximizing branch of [minimax] over the remaining
    moves, with the undo written in line; [child] is the recursive call at
    [depth - 1]. *)
Fixpoint maximize (child : Board -> Z -> Z -> Z * Board) (board : Board)
    (legal_moves : list Move) (alpha beta max_eval : Z) : Z * Board :=
  match legal_moves with
  | [] => (max_eval, board)
  | m :: rest =>
    let captured_square := sq board (to_layer m) (to_row m) (to_col m) in
    let original_player := current_player board in
    let made := make_move board m in
    let '(eval, after) := child made alpha beta in
    let max_eval' := if eval >? max_eval then eval else max_eval in
    let alpha' := if alpha >? eval then alpha else eval in
    let undone := inline_undo after m captured_square original_player in
    if beta <=? alpha' then (max_eval', undone)
    else maximize child undone rest alpha' beta max_eval'
  end.

Fixpoint minimize (child : Board -> Z -> Z -> Z * Board) (board : Board)
    (legal_moves : list Move) (alpha beta min_eval : Z) : Z * Board :=
  match legal_moves with
  | [] => (min_eval, board)
  | m :: rest =>
    let captured_square := sq board (to_layer m) (to_row m) (to_col m) in
    let original_player := current_player board in
    let made := make_move board m in
    let '(eval, after) := child made alpha beta in
    let min_eval' := if eval <? min_eval then eval else min_eval in
    let beta' := if beta <? eval then beta else eval in
    let undone := inline_undo after m captured_square original_player in
    if beta' <=? alpha then (min_eval', undone)
    else minimize child undone rest alpha beta' min_eval'
  end.

(** [minimax] of the 3D engine: the value returned and the board as the
    call leaves it.  The test [depth == 0 || is_game_over (board)] comes
    first and answers with the static evaluation; the block on
    [move_count == 0] that follows it is kept as the C code has it. *)
Fixpoint minimax (board : Board) (depth : nat) (alpha beta : Z)
    (maximizing_player : bool) {struct depth} : Z * Board :=
  match depth with
  | O => (evaluate_board board, board)
  | S depth' =>
    let '(over, board1) := is_game_over board in
    if over then (evaluate_board board1, board1)
    else
      let '(legal_moves, board2) := generate_legal_moves board1 in
      let move_count := Z.of_nat (List.length legal_moves) in
      if move_count =? 0 then
        if is_king_in_check board2 (current_player board2)
        then (if maximizing_player then - INFINITY else INFINITY, board2)
        else (0, board2)
      else if maximizing_player then
        maximize (fun b a be => minimax b depth' a be false)
          board2 legal_moves alpha beta (- INFINITY)
      else
        minimize (fun b a be => minimax b depth' a be true)
          board2 legal_moves alpha beta INFINITY
  end.

(** *** Notions used to state the properties *)

(** The move starts on the square of layer [layer], row [row], column
    [col]. *)
Definition starts_at (layer row col : Z) (m : Move) : Prop :=
  from_layer m = layer /\ from_row m = row /\ from_col m = col.

(** No square of the board holds a king of color [c]. *)
Definition no_king (board : Board) (c : PieceColor) : Prop :=
  forall layer row col,
    is_valid_position layer row col = true ->
    ~ (piece (sq board layer row col) = KING /\ color (sq board layer row col) = c).

(** The move takes a pawn two rows away from its origin, within its
    layer. *)
Definition is_double_push (board : Board) (move : Move) : bool :=
  piece_eqb (piece (sq board (from_layer move) (from_row move) (from_col move))) PAWN
  && (Z.abs (to_row move - from_row move) =? 2)
  && (from_layer move =? to_layer move).

Definition opponent_of (c : PieceColor) : PieceColor :=
  if color_eqb c P_WHITE then P_BLACK else P_WHITE.

(** The home row of the king of color [c] on the castling layer. *)
Definition home_row (c : PieceColor) : Z := if color_eqb c P_WHITE then 7 else 0.

Definition castling_right (board : Board) (c : PieceColor) (kingside : bool) : bool :=
  match color_eqb c P_WHITE, kingside with
  | true, true => white_castle_kingside board
  | true, false => white_castle_queenside board
  | false, true => black_castle_kingside board
  | false, false => black_castle_queenside board
  end.

(** What castling requires of the board, for a king of color [c] on column
    4 of its home row on layer 0 and a rook corner on column 7 (king side)
    or 0 (queen side): the king is not in check, the right is there, the
    squares strictly between king and rook are empty, and the squares the
    king crosses, landing square included, are not attacked. *)
Definition castling_conditions (board : Board) (c : PieceColor) (kingside : bool) : Prop :=
  is_king_in_check board c = false
  /\ castling_right board c kingside = true
  /\ (forall col,
        (if kingside then 4 < col < 7 else 0 < col < 4) ->
        piece (sq board 0 (home_row c) col) = EMPTY)
  /\ (forall col,
        (if kingside then 4 < col <= 6 else 2 <= col < 4) ->
        is_square_attacked board 0 (home_row c) col (opponent_of c) = false).

(** *** Positions used as test inputs *)

(** The squares of a board that holds the listed pieces and nothing else. *)
Definition place (pieces : list (Z * Z * Z * Square)) : list Square :=
  fold_left (fun sqs p => let '(l, r, c, s) := p in sq_set sqs l r c s)
    pieces (repeat empty_square 192).

(** A board without any piece, White to move. *)
Definition bare_board : Board :=
  mkBoard (place []) P_WHITE false false false false (-1) (-1) (-1) 0 1.

(** The initial placement again after fifty moves of each side without a
    pawn move or a capture (knights going out and back): White to move,
    halfmove clock 100, fullmove number 51. *)
Definition fifty_moves : Board :=
  mkBoard (squares init_board) P_WHITE false false true true (-1) (-1) (-1) 100 51.

(** The double push of White's a-pawn from the initial position. *)
Definition a_pawn_double_push : Move := gen_move 2 6 0 2 4 0 EMPTY false.

(** Black to move with king and both rooks at home on layer 0, rights
    intact and nothing in between. *)
Definition castle_ready : Board :=
  mkBoard
    (place [ (0, 0, 0, mkSquare ROOK P_BLACK);
             (0, 0, 4, mkSquare KING P_BLACK);
             (0, 0, 7, mkSquare ROOK P_BLACK);
             (2, 7, 4, mkSquare KING P_WHITE) ])
    P_BLACK false false true true (-1) (-1) (-1) 0 1.

Definition black_castles_kingside : Move := gen_move 0 0 4 0 0 6 EMPTY false.

(** Black to move, not in check, and every neighbour of the black king
    covered by a white queen or rook: a stalemate. *)
Definition stalemate : Board :=
  mkBoard
    (place [ (0, 0, 0, mkSquare KING P_BLACK);
             (0, 1, 2, mkSquare QUEEN P_WHITE);
             (1, 1, 2, mkSquare QUEEN P_WHITE);
             (1, 0, 7, mkSquare ROOK P_WHITE);
             (2, 7, 7, mkSquare KING P_WHITE) ])
    P_BLACK false false false false (-1) (-1) (-1) 0 1.

(** White to move after Black's pawn went d7-d5 on layer 0 (rows 1 to 3
    of column 3): the pawn checks the white king on (0, 4, 2), the en
    passant target is (0, 2, 3), and the white pawn on (0, 3, 4) can take
    en passant. *)
Definition en_passant_check : Board :=
  mkBoard
    (place [ (0, 0, 4, mkSquare KING P_BLACK);
             (0, 3, 3, mkSquare PAWN P_BLACK);
             (0, 3, 4, mkSquare PAWN P_WHITE);
             (0, 4, 2, mkSquare KING P_WHITE) ])
    P_WHITE false false false false 0 2 3 0 1.

(** The en passant capture available in [en_passant_check]. *)
Definition en_passant_capture : Move := gen_move 0 3 4 0 2 3 EMPTY true.

(** White to move after Black's pawn went b7-b5 on layer 0 (rows 1 to 3
    of column 1): the pawn checks the white king on (0, 4, 0) and is
    guarded by the rook on its column, the black rooks cover every free
    square next to the king, and the white pawn on (0, 3, 0) can take en
    passant on (0, 2, 1). *)
Definition only_en_passant : Board :=
  mkBoard
    (place [ (0, 3, 0, mkSquare PAWN P_WHITE);
             (0, 3, 1, mkSquare PAWN P_BLACK);
             (0, 4, 0, mkSquare KING P_WHITE);
             (0, 7, 1, mkSquare ROOK P_BLACK);
             (1, 6, 0, mkSquare ROOK P_BLACK);
             (1, 7, 1, mkSquare ROOK P_BLACK);
             (2, 0, 7, mkSquare KING P_BLACK) ])
    P_WHITE false false false false 0 2 1 0 30.

(** The en passant capture available in [only_en_passant]. *)
Definition en_passant_escape : Move := gen_move 0 3 0 0 2 1 EMPTY true.

(** *** Further notions used to state properties *)

(** What holds of the origin and the destination of a move that is safe to
    make: both on the board and distinct, the origin holding a piece of
    the side to move, the destination not holding a piece of the same
    color. *)
Record sound_move (board : Board) (m : Move) : Prop := mk_sound_move {
  sm_from : is_valid_position (from_layer m) (from_row m) (from_col m) = true;
  sm_to : is_valid_position (to_layer m) (to_row m) (to_col m) = true;
  sm_distinct :
    from_layer m <> to_layer m \/ from_row m <> to_row m \/ from_col m <> to_col m;
  sm_piece : piece (sq board (from_layer m) (from_row m) (from_col m)) <> EMPTY;
  sm_color :
    color (sq board (from_layer m) (from_row m) (from_col m)) = current_player board;
  sm_target :
    piece (sq board (to_layer m) (to_row m) (to_col m)) = EMPTY
    \/ color (sq board (to_layer m) (to_row m) (to_col m))
       <> color (sq board (from_layer m) (from_row m) (from_col m))
}.

(** The en passant target, when it is a square of the board, is empty. *)
Definition en_passant_target_empty (board : Board) : Prop :=
  is_valid_position (en_passant_layer board) (en_passant_row board)
    (en_passant_col board) = true ->
  piece (sq board (en_passant_layer board) (en_passant_row board)
           (en_passant_col board)) = EMPTY.

(** The far row, on which a pawn of color [c] promotes. *)
Definition promotion_row (c : PieceColor) : Z :=
  if color_eqb c P_WHITE then 0 else 7.

(** The board after the moves of [ms], made one after the other. *)
Definition make_moves (board : Board) (ms : list Move) : Board :=
  fold_left make_move ms board.

(** The square with the colors White and Black exchanged. *)
Definition flip_square (s : Square) : Square :=
  mkSquare (piece s)
    (match color s with
     | P_WHITE => P_BLACK
     | P_BLACK => P_WHITE
     | P_NONE => P_NONE
     end).

(** The board with the colors of all pieces exchanged. *)
Definition swap_colors (board : Board) : Board :=
  with_squares board (map flip_square (squares board)).

(** Every piece on the board is White's or Black's. *)
Definition pieces_colored (board : Board) : Prop :=
  forall layer row col,
    is_valid_position layer row col = true ->
    piece (sq board layer row col) <> EMPTY ->
    color (sq board layer row col) = P_WHITE
    \/ color (sq board layer row col) = P_BLACK.

(** What the generators guarantee of each move they write: origin and
    destination on the board and distinct, a piece of the side to move on
    the origin, the flag [is_capture] set whenever the destination holds a
    piece, no piece of the mover's color on the destination as long as the
    en passant target is empty, and a promotion only for a pawn that
    reaches the far row within its layer. *)
Record generated (board : Board) (m : Move) : Prop := mk_generated {
  g_sound : en_passant_target_empty board -> sound_move board m;
  g_from : is_valid_position (from_layer m) (from_row m) (from_col m) = true;
  g_to : is_valid_position (to_layer m) (to_row m) (to_col m) = true;
  g_flag :
    is_capture m = false ->
    piece (sq board (to_layer m) (to_row m) (to_col m)) = EMPTY;
  g_promotion :
    promotion m = EMPTY
    \/ (In (promotion m) promo_pieces
        /\ piece (sq board (from_layer m) (from_row m) (from_col m)) = PAWN
        /\ to_layer m = from_layer m
        /\ to_row m
           = promotion_row
               (color (sq board (from_layer m) (from_row m) (from_col m))))
}.

(** *** Further positions *)

(** White to move; the white rook on (0, 7, 0) faces the black rook on
    (0, 0, 0) along an empty column. *)
Definition rook_duel : Board :=
  mkBoard
    (place [ (0, 0, 0, mkSquare ROOK P_BLACK);
             (0, 0, 4, mkSquare KING P_BLACK);
             (0, 7, 0, mkSquare ROOK P_WHITE);
             (2, 7, 4, mkSquare KING P_WHITE) ])
    P_WHITE false false false false (-1) (-1) (-1) 0 1.

(** The white rook of [rook_duel] taking the black rook. *)
Definition rook_takes_rook : Move := gen_move 0 7 0 0 0 0 EMPTY true.

(** White to move with a pawn on (1, 1, 0), one step from the far row. *)
Definition promotion_ready : Board :=
  mkBoard
    (place [ (0, 0, 4, mkSquare KING P_BLACK);
             (1, 1, 0, mkSquare PAWN P_WHITE);
             (2, 7, 4, mkSquare KING P_WHITE) ])
    P_WHITE false false false false (-1) (-1) (-1) 0 1.

(** The pawn of [promotion_ready] promoting to a queen within its layer. *)
Definition pawn_promotes : Move := gen_move 1 1 0 1 0 0 QUEEN false.

(** The same pawn stepping to the far row of the layer above. *)
Definition pawn_changes_layer : Move := gen_move 1 1 0 2 0 0 EMPTY false.

(** A move that [make_move] carries out by moving one piece and nothing
    more, judged on the squares [sqs]: origin and destination are two
    different squares of the board, there is no promotion, the move is not
    a diagonal pawn step onto an empty square (the shape of an en passant
    capture) and not a king step of two columns on layer 0 (the shape of a
    castling move). *)
Definition simple_move (sqs : list Square) (m : Move) : bool :=
  is_valid_position (from_layer m) (from_row m) (from_col m)
  && is_valid_position (to_layer m) (to_row m) (to_col m)
  && negb ((from_layer m =? to_layer m) && (from_row m =? to_row m)
           && (from_col m =? to_col m))
  && piece_eqb (promotion m) EMPTY
  && negb (piece_eqb (piece (sq_at sqs (from_layer m) (from_row m) (from_col m))) PAWN
           && negb (to_col m =? from_col m)
           && piece_eqb (piece (sq_at sqs (to_layer m) (to_row m) (to_col m))) EMPTY)
  && negb (piece_eqb (piece (sq_at sqs (from_layer m) (from_row m) (from_col m))) KING
           && (Z.abs (to_col m - from_col m) =? 2)
           && (from_layer m =? 0) && (to_layer m =? 0)).

(** The test the loop of [is_square_attacked] applies to the piece it
    meets along [(l_dir, r_dir, c_dir)]. *)
Definition slides_along (p : Piece) (l_dir r_dir c_dir : Z) : bool :=
  let is_diagonal := negb (r_dir =? 0) && negb (c_dir =? 0) in
  let is_straight :=
    negb is_diagonal && (negb (r_dir =? 0) || negb (c_dir =? 0)) in
  let is_vertical := negb (l_dir =? 0) && (r_dir =? 0) && (c_dir =? 0) in
  let is_layer_diag := negb (l_dir =? 0) && is_diagonal in
  let is_layer_straight := negb (l_dir =? 0) && is_straight in
  if piece_eqb p QUEEN then true
  else if piece_eqb p ROOK && (is_straight || is_vertical || is_layer_straight)
  then true
  else if piece_eqb p BISHOP && (is_diagonal || is_layer_diag) then true
  else false.

End Chess3D.

(** ** The console front end of the 3D engine *)

(** The functions of the console variant that read a move typed by the
    player.  The variant has the same [struct Move] and the same
    [is_valid_position] as the 3D engine above. *)
Module Console3D.

Definition BOARD_LAYERS : Z := 3.

Record Move : Type := mkMove {
  from_layer : Z;
  from_row : Z;
  from_col : Z;
  to_layer : Z;
  to_row : Z;
  to_col : Z;
  promotion : Piece;
  score : Z;
  is_capture : bool
}.

Definition is_valid_position (layer row col : Z) : bool :=
  (layer >=? 0) && (layer <? BOARD_LAYERS)
  && (row >=? 0) && (row <? BOARD_SIZE)
  && (col >=? 0) && (col <? BOARD_SIZE).

(** [input[i]] for a C string whose characters before the terminating
    NUL are those of [input]: the code of the character, and 0 for the
    NUL at index [strlen (input)].  Characters are read as codes 0 to
    255; on ASCII input this is what every platform does. *)
Definition char_at (input : string) (i : nat) : Z :=
  match String.get i input with
  | Some a => Z.of_nat (Ascii.nat_of_ascii a)
  | None => 0
  end.

(** [tolower] in the C locale. *)
Definition tolower (c : Z) : Z :=
  if (65 <=? c) && (c <=? 90) then c + 32 else c.

(** [parse_move]: the result, and the move as the function leaves it
    (fields are written also when the result is [false]). *)
Definition parse_move (input : string) (move : Move) : bool * Move :=
  if (Z.of_nat (String.length input) <? 5) then (false, move)
  else
    let parsed (promo : Piece) :=
      {| from_layer := char_at input 0 - 49;
         from_col := tolower (char_at input 1) - 97;
         from_row := 8 - (char_at input 2 - 48);
         to_layer := char_at input 3 - 49;
         to_col := tolower (char_at input 4) - 97;
         to_row := 8 - (char_at input 5 - 48);
         promotion := promo;
         score := score move;
         is_capture := is_capture move |} in
    let checked (m : Move) :=
      (is_valid_position (from_layer m) (from_row m) (from_col m)
       && is_valid_position (to_layer m) (to_row m) (to_col m), m) in
    if Z.of_nat (String.length input) =? 7 then
      let c := tolower (char_at input 6) in
      if c =? 113 then checked (parsed QUEEN)
      else if c =? 114 then checked (parsed ROOK)
      else if c =? 98 then checked (parsed BISHOP)
      else if c =? 110 then checked (parsed KNIGHT)
      else (false, parsed EMPTY)
    else checked (parsed EMPTY).

(** *** Notions used to state the properties *)

(** The character code [c] is one of the digits ['1'] to [last]. *)
Definition digit_up_to (last c : Z) : Prop := 49 <= c <= last.

(** The character code [c] is a letter from a to h, in either case. *)
Definition column_letter (c : Z) : Prop := 97 <= c <= 104 \/ 65 <= c <= 72.

(** The character code [c] is one of q, r, b, n, in either case. *)
Definition promotion_letter (c : Z) : Prop :=
  In c [113; 114; 98; 110; 81; 82; 66; 78].

(** A move to fill in. *)
Definition blank_move : Move := mkMove 0 0 0 0 0 0 EMPTY 0 false.

End Console3D.

(** * Properties *)

(** ** Evaluations at given positions *)

(** C8.  From the position [init_board] sets up, the legal-move generator
    of the 2D engine returns exactly 20 moves for White, the side to
    move. *)
Theorem initial_position_has_20_legal_moves :
  Chess2D.current_player Chess2D.init_board = Chess2D.PLAYER_WHITE
  /\ List.length (Chess2D.generate_legal_moves Chess2D.init_board) = 20%nat.
Proof. split; vm_compute; reflexivity. Qed.

(** C1, on the 3D engine.  In the initial position the double push of
    White's a-pawn is a legal move; making it and undoing it with
    [undo_move] does not give the initial position back: the en passant
    target (2, 5, 0) set by [make_move] stays on the board.  The undo the
    3D engine writes in line behaves the same. *)
Theorem undo3_keeps_en_passant_target :
  let b := Chess3D.init_board in
  let m := Chess3D.a_pawn_double_push in
  let b' := Chess3D.undo_move (Chess3D.make_move b m) m in
  let b'' :=
    Chess3D.inline_undo (Chess3D.make_move b m) m
      (Chess3D.sq b (Chess3D.to_layer m) (Chess3D.to_row m) (Chess3D.to_col m))
      (Chess3D.current_player b) in
  nth_error (fst (Chess3D.generate_legal_moves b)) 1 = Some m
  /\ (Chess3D.en_passant_layer b, Chess3D.en_passant_row b, Chess3D.en_passant_col b)
     = (-1, -1, -1)
  /\ (Chess3D.en_passant_layer b', Chess3D.en_passant_row b', Chess3D.en_passant_col b')
     = (2, 5, 0)
  /\ (Chess3D.en_passant_layer b'', Chess3D.en_passant_row b'', Chess3D.en_passant_col b'')
     = (2, 5, 0)
  /\ b' <> b /\ b'' <> b.
Proof.
  cbv zeta.
  split; [vm_compute; reflexivity |].
  split; [vm_compute; reflexivity |].
  split; [vm_compute; reflexivity |].
  split; [vm_compute; reflexivity |].
  split; intro H; apply (f_equal Chess3D.en_passant_row) in H;
    vm_compute in H; discriminate H.
Qed.

(** C3, on the 3D engine.  [generate_legal_moves] works on the caller's
    board; called on the initial position it hands the board back with the
    halfmove clock at 48 instead of 0. *)
Theorem generate_legal_moves3_changes_the_board :
  let b := Chess3D.init_board in
  let b' := snd (Chess3D.generate_legal_moves b) in
  Chess3D.halfmove_clock b = 0
  /\ Chess3D.halfmove_clock b' = 48
  /\ b' <> b.
Proof.
  cbv zeta.
  split; [vm_compute; reflexivity |].
  split; [vm_compute; reflexivity |].
  intro H; apply (f_equal Chess3D.halfmove_clock) in H.
  vm_compute in H; discriminate H.
Qed.

(** C2, on the 3D engine.  In [en_passant_check] the en passant capture is
    a pseudo-legal move of White after which the white king is not
    attacked; the legal-move generator does not return it.  The forward
    move of the same pawn is simulated first, [make_move] clears the en
    passant target, the undo written in line does not restore it, and the
    capture is then simulated as a plain diagonal step that leaves the
    checking pawn on the board. *)
Theorem generate_legal_moves3_drops_en_passant :
  let b := Chess3D.en_passant_check in
  let m := Chess3D.en_passant_capture in
  In m (Chess3D.generate_pseudo_legal_moves b)
  /\ Chess3D.is_king_in_check (Chess3D.make_move b m) (Chess3D.current_player b) = false
  /\ ~ In m (fst (Chess3D.generate_legal_moves b)).
Proof.
  cbv zeta. split; [| split].
  - assert (E : nth_error (Chess3D.generate_pseudo_legal_moves Chess3D.en_passant_check) 1
                = Some Chess3D.en_passant_capture) by (vm_compute; reflexivity).
    exact (nth_error_In _ _ E).
  - vm_compute. reflexivity.
  - intro H.
    assert (E : forallb (fun m' => Chess3D.from_row m' =? 4)
                  (fst (Chess3D.generate_legal_moves Chess3D.en_passant_check)) = true)
      by (vm_compute; reflexivity).
    rewrite forallb_forall in E. apply E in H. discriminate H.
Qed.

(** When [is_game_over] answers [true], [minimax] of the 3D engine called
    with a positive depth returns the static evaluation of the board. *)
Lemma minimax3_when_game_over :
  forall b depth alpha beta maximizing_player,
    fst (Chess3D.is_game_over b) = true ->
    Chess3D.minimax b (S depth) alpha beta maximizing_player
    = (Chess3D.evaluate_board (snd (Chess3D.is_game_over b)),
       snd (Chess3D.is_game_over b)).
Proof.
  intros b depth alpha beta mx H.
  cbn [Chess3D.minimax].
  destruct (Chess3D.is_game_over b) as [over b1].
  cbn [fst snd] in *. subst over. reflexivity.
Qed.

(** C6, on the 3D engine.  In [stalemate] Black, to move, has no legal
    move and is not in check; [minimax] called with depth 2 (or any
    positive depth) returns the static evaluation 2360, not 0. *)
Theorem minimax3_scores_stalemate_statically :
  let b := Chess3D.stalemate in
  fst (Chess3D.generate_legal_moves b) = []
  /\ Chess3D.is_king_in_check b (Chess3D.current_player b) = false
  /\ fst (Chess3D.minimax b 2 (- INFINITY) INFINITY false) = 2360
  /\ forall depth alpha beta maximizing_player,
       fst (Chess3D.minimax b (S depth) alpha beta maximizing_player) = 2360.
Proof.
  cbv zeta.
  split; [vm_compute; reflexivity |].
  split; [vm_compute; reflexivity |].
  split; [vm_compute; reflexivity |].
  intros depth alpha beta mx.
  rewrite minimax3_when_game_over by (vm_compute; reflexivity).
  vm_compute. reflexivity.
Qed.

(** C7, on the 3D engine.  In [fifty_moves] the halfmove clock is at 100,
    White has 72 legal moves and both kings are on the board;
    [is_game_over] answers [false].  [make_move] keeps the clock, and
    [is_game_over] never reads it: the source leaves the 50-move rule as
    a TODO, while [is_game_over] of the 2D engine tests it
    ([Facts2D.is_game_over_iff]). *)
Lemma is_game_over3_ignores_halfmove_clock :
  let b := Chess3D.fifty_moves in
  Chess3D.halfmove_clock b = 100
  /\ List.length (fst (Chess3D.generate_legal_moves b)) = 72%nat
  /\ Chess3D.find_king b Chess3D.P_WHITE = Some (2, 7, 4)
  /\ Chess3D.find_king b Chess3D.P_BLACK = Some (0, 0, 4)
  /\ fst (Chess3D.is_game_over b) = false.
Proof.
  cbv zeta.
  split; [reflexivity |].
  split; [vm_compute; reflexivity |].
  split; [vm_compute; reflexivity |].
  split; vm_compute; reflexivity.
Qed.

(** ** Tools shared by the proofs on both engines *)

(** Membership in the lists the generators build, taken apart. *)
Ltac in_inv :=
  repeat match goal with
  | H : In _ (_ ++ _) |- _ => apply in_app_or in H; destruct H as [H | H]
  | H : In _ (flat_map _ _) |- _ =>
      apply in_flat_map in H; destruct H as (? & ? & H); cbv beta zeta in H
  | H : In _ (map _ _) |- _ =>
      apply in_map_iff in H; destruct H as (? & H & ?); cbv beta zeta in H
  | H : In _ (if ?c then _ else _) |- _ => destruct c eqn:?
  | H : In _ [] |- _ => destruct H
  | H : In _ (_ :: _) |- _ => destruct H as [H | H]
  | H : _ = ?x |- _ => is_var x; subst x
  end.

Lemma find_none_iff {A : Type} (f : A -> bool) (l : list A) :
  find f l = None <-> forall x, In x l -> f x = false.
Proof.
  split.
  - intros H x Hx. exact (find_none f l H x Hx).
  - induction l as [| a l IH]; intros H; [reflexivity |].
    cbn [find]. rewrite (H a (or_introl eq_refl)).
    apply IH. intros x Hx. apply H. right. exact Hx.
Qed.

Lemma piece_eqb_eq (a b : Piece) : piece_eqb a b = true <-> a = b.
Proof. destruct a, b; cbn; split; intro H; try reflexivity; discriminate H. Qed.

Lemma piece_eqb_neq (a b : Piece) : piece_eqb a b = false <-> a <> b.
Proof.
  destruct a, b; cbn; split; intro H; try reflexivity; try discriminate H;
    try (exfalso; apply H; reflexivity); intro E; discriminate E.
Qed.

Lemma length_upd {A : Type} (l : list A) n x : List.length (upd l n x) = List.length l.
Proof.
  revert n. induction l as [| a l IH]; intros [| n]; cbn; try reflexivity.
  rewrite IH. reflexivity.
Qed.

Lemma nth_upd_same {A : Type} (l : list A) n x d :
  (n < List.length l)%nat -> nth n (upd l n x) d = x.
Proof.
  revert n. induction l as [| a l IH]; intros [| n] H; cbn in *; try lia.
  - reflexivity.
  - apply IH. lia.
Qed.

Lemma nth_upd_other {A : Type} (l : list A) n m x d :
  n <> m -> nth m (upd l n x) d = nth m l d.
Proof.
  revert n m. induction l as [| a l IH]; intros [| n] [| m] H; cbn;
    try reflexivity; try congruence.
  apply IH. congruence.
Qed.

(** ** The 2D engine *)

Module Facts2D.
Import Chess2D.

Lemma color_eqb_eq (a b : PlayerColor) : color_eqb a b = true <-> a = b.
Proof. destruct a, b; cbn; split; intro H; try reflexivity; discriminate H. Qed.

Lemma color_eqb_neq (a b : PlayerColor) : color_eqb a b = false <-> a <> b.
Proof.
  destruct a, b; cbn; split; intro H; try reflexivity; try discriminate H;
    try (exfalso; apply H; reflexivity); intro E; discriminate E.
Qed.

Lemma is_valid_position_iff (row col : Z) :
  is_valid_position row col = true <-> 0 <= row < 8 /\ 0 <= col < 8.
Proof. unfold is_valid_position, BOARD_SIZE. lia. Qed.

(** Every square the scanning loops visit is on the board. *)
Lemma all_squares_valid :
  forall rc, In rc all_squares -> is_valid_position (fst rc) (snd rc) = true.
Proof.
  apply Forall_forall. vm_compute. repeat constructor.
Qed.

(** And they visit every square of the board. *)
Lemma all_squares_complete (row col : Z) :
  is_valid_position row col = true -> In (row, col) all_squares.
Proof.
  rewrite is_valid_position_iff. intros [Hr Hc].
  unfold all_squares. apply in_flat_map. exists row. split.
  - unfold range8. cbn [In]. lia.
  - apply in_map. unfold range8. cbn [In]. lia.
Qed.

(** *** Where generated moves start and how far the king goes *)

Lemma ray_moves_start fuel board row col row_dir col_dir cc nr nc m :
  In m (ray_moves fuel board row col row_dir col_dir cc nr nc) ->
  starts_at row col m.
Proof.
  revert nr nc. induction fuel as [| fuel IH]; intros nr nc H; cbn [ray_moves] in H.
  - destruct H.
  - in_inv; try (split; reflexivity).
    eapply IH; eassumption.
Qed.

Lemma generate_pawn_moves_start board row col m :
  In m (generate_pawn_moves board row col) -> starts_at row col m.
Proof.
  unfold generate_pawn_moves, promo_pieces, offsets2. intro H.
  in_inv; split; reflexivity.
Qed.

Lemma generate_knight_moves_start board row col m :
  In m (generate_knight_moves board row col) -> starts_at row col m.
Proof.
  unfold generate_knight_moves, knight_moves. intro H.
  in_inv; split; reflexivity.
Qed.

Lemma generate_bishop_moves_start board row col m :
  In m (generate_bishop_moves board row col) -> starts_at row col m.
Proof.
  unfold generate_bishop_moves, generate_directional_moves. intro H.
  apply in_flat_map in H. destruct H as (d & _ & H).
  eapply ray_moves_start; eassumption.
Qed.

Lemma generate_rook_moves_start board row col m :
  In m (generate_rook_moves board row col) -> starts_at row col m.
Proof.
  unfold generate_rook_moves, generate_directional_moves. intro H.
  apply in_flat_map in H. destruct H as (d & _ & H).
  eapply ray_moves_start; eassumption.
Qed.

Lemma generate_queen_moves_start board row col m :
  In m (generate_queen_moves board row col) -> starts_at row col m.
Proof.
  unfold generate_queen_moves. intro H. apply in_app_or in H.
  destruct H as [H | H];
    [eapply generate_bishop_moves_start | eapply generate_rook_moves_start];
    eassumption.
Qed.

(** A king move goes to one of the eight neighbours of its origin. *)
Lemma generate_king_moves_step board row col m :
  In m (generate_king_moves board row col) ->
  starts_at row col m
  /\ Z.abs (to_row m - row) <= 1 /\ Z.abs (to_col m - col) <= 1.
Proof.
  unfold generate_king_moves, offsets3. intro H.
  in_inv; cbn; (split; [split; reflexivity | lia]).
Qed.

(** The pseudo-legal moves are the moves of the pieces of the side to
    move, each generated from the square the piece stands on. *)
Lemma generate_pseudo_legal_moves_inv board m :
  In m (generate_pseudo_legal_moves board) ->
  exists row col,
    is_valid_position row col = true
    /\ piece (sq board row col) <> EMPTY
    /\ color (sq board row col) = current_player board
    /\ starts_at row col m
    /\ match piece (sq board row col) with
       | PAWN => In m (generate_pawn_moves board row col)
       | KNIGHT => In m (generate_knight_moves board row col)
       | BISHOP => In m (generate_bishop_moves board row col)
       | ROOK => In m (generate_rook_moves board row col)
       | QUEEN => In m (generate_queen_moves board row col)
       | KING => In m (generate_king_moves board row col)
       | EMPTY => False
       end.
Proof.
  unfold generate_pseudo_legal_moves. intro H.
  apply in_flat_map in H. destruct H as ([row col] & Hin & H).
  cbn [fst snd] in H.
  destruct (negb (piece_eqb (piece (sq board row col)) EMPTY)
            && color_eqb (color (sq board row col)) (current_player board)) eqn:E;
    [| destruct H].
  apply andb_true_iff in E. destruct E as [E1 E2].
  apply negb_true_iff, piece_eqb_neq in E1. apply color_eqb_eq in E2.
  exists row, col.
  split; [exact (all_squares_valid _ Hin) |].
  split; [exact E1 |]. split; [exact E2 |].
  destruct (piece (sq board row col)) eqn:P; (split; [| exact H]).
  - destruct H.
  - eapply generate_pawn_moves_start; eassumption.
  - eapply generate_knight_moves_start; eassumption.
  - eapply generate_bishop_moves_start; eassumption.
  - eapply generate_rook_moves_start; eassumption.
  - eapply generate_queen_moves_start; eassumption.
  - eapply generate_king_moves_step; eassumption.
Qed.

(** A pseudo-legal move whose origin holds a king goes to a neighbouring
    square: the 2D generator writes no castling move. *)
Lemma pseudo_legal_king_move_is_a_step board m :
  In m (generate_pseudo_legal_moves board) ->
  piece (sq board (from_row m) (from_col m)) = KING ->
  Z.abs (to_row m - from_row m) <= 1 /\ Z.abs (to_col m - from_col m) <= 1.
Proof.
  intros H K.
  destruct (generate_pseudo_legal_moves_inv _ _ H)
    as (row & col & _ & _ & _ & [S1 S2] & G).
  rewrite S1, S2 in *. rewrite K in G.
  destruct (generate_king_moves_step _ _ _ _ G) as (_ & A & B).
  split; assumption.
Qed.

(** *** The legal-move list *)

Lemma make_move_same board m : same_move m (snd (make_move board m)).
Proof. unfold same_move, make_move. cbn. repeat split; reflexivity. Qed.

(** Whatever the filtering loop keeps is a candidate it was given, with
    the snapshot of [make_move] stored in it. *)
Lemma legal_filter_sub temp_board player pseudo m' :
  In m' (legal_filter temp_board player pseudo) ->
  exists m, In m pseudo /\ same_move m m'.
Proof.
  revert temp_board.
  induction pseudo as [| m rest IH]; intros temp_board H; cbn [legal_filter] in H.
  - destruct H.
  - destruct (make_move temp_board m) as [made m1] eqn:E.
    apply in_app_or in H. destruct H as [H | H].
    + destruct (negb (is_king_in_check made player)); [| destruct H].
      destruct H as [H | []]. subst m'. exists m. split; [left; reflexivity |].
      replace m1 with (snd (make_move temp_board m)) by (rewrite E; reflexivity).
      apply make_move_same.
    + destruct (IH _ H) as (m0 & Hin & Hs). exists m0. split; [right |]; assumption.
Qed.

(** A legal move whose origin holds a king goes to a neighbouring square. *)
Lemma legal_king_move_is_a_step board m :
  In m (generate_legal_moves board) ->
  piece (sq board (from_row m) (from_col m)) = KING ->
  Z.abs (to_row m - from_row m) <= 1 /\ Z.abs (to_col m - from_col m) <= 1.
Proof.
  unfold generate_legal_moves. intros H K.
  destruct (legal_filter_sub _ _ _ _ H) as (m0 & Hin & Hs).
  destruct Hs as (E1 & E2 & E3 & E4 & _).
  rewrite <- E1, <- E2, <- E3, <- E4 in *.
  destruct (generate_pseudo_legal_moves_inv _ _ Hin)
    as (row & col & _ & _ & _ & [S1 S2] & G).
  rewrite S1, S2 in *. rewrite K in G.
  destruct (generate_king_moves_step _ _ _ _ G) as (_ & A & B).
  split; assumption.
Qed.

(** *** Kings and check *)

Lemma find_king_false_iff board c :
  fst (find_king board c) = false <-> no_king board c.
Proof.
  unfold find_king, no_king.
  destruct (find _ all_squares) as [rc |] eqn:F; cbn [fst]; split; intro H.
  - discriminate H.
  - exfalso. apply find_some in F. destruct F as [Hin F].
    apply andb_true_iff in F. destruct F as [F1 F2].
    apply piece_eqb_eq in F1. apply color_eqb_eq in F2.
    apply (H (fst rc) (snd rc) (all_squares_valid _ Hin)). split; assumption.
  - intros row col V [P C].
    rewrite find_none_iff in F.
    specialize (F (row, col) (all_squares_complete _ _ V)). cbn [fst snd] in F.
    rewrite P, C in F. cbn in F.
    assert (E : color_eqb c c = true) by (apply color_eqb_eq; reflexivity).
    rewrite E in F. discriminate F.
  - reflexivity.
Qed.

Lemma find_king_no_king board c :
  no_king board c -> find_king board c = (false, (-1, -1)).
Proof.
  intro H. apply find_king_false_iff in H. unfold find_king in *.
  destruct (find _ all_squares); [discriminate H | reflexivity].
Qed.

Lemma is_king_in_check_no_king board c :
  no_king board c -> is_king_in_check board c = false.
Proof.
  intro H. unfold is_king_in_check. rewrite (find_king_no_king _ _ H). reflexivity.
Qed.

(** *** Game over and the leaves of the search *)

Lemma is_game_over_iff board :
  fst (is_game_over board) = true
  <-> generate_legal_moves board = []
      \/ halfmove_clock board >= 100
      \/ no_king board PLAYER_WHITE \/ no_king board PLAYER_BLACK.
Proof.
  rewrite <- !find_king_false_iff. unfold is_game_over.
  destruct (generate_legal_moves board) as [| m l] eqn:L.
  - cbn. destruct (is_king_in_check board (current_player board));
      cbn [fst]; split; auto.
  - replace (Z.of_nat (Datatypes.length (m :: l)) =? 0) with false
      by (symmetry; apply Z.eqb_neq; cbn [Datatypes.length]; lia).
    destruct (halfmove_clock board >=? 100) eqn:Hm; cbn [fst].
    + split; [intros _ | reflexivity]. right. left. lia.
    + destruct (fst (find_king board PLAYER_WHITE)),
               (fst (find_king board PLAYER_BLACK)); cbn; split; intro H;
        try reflexivity; try discriminate H; auto;
        destruct H as [H | [H | [H | H]]]; try discriminate H; lia.
Qed.

(** With no legal move, [is_game_over] reports checkmate when the side to
    move is in check and stalemate when it is not. *)
Lemma is_game_over_no_moves board :
  generate_legal_moves board = [] ->
  exists msg,
    is_game_over board = (true, msg)
    /\ strstr msg "Checkmate" = is_king_in_check board (current_player board).
Proof.
  intro L. unfold is_game_over. rewrite L. cbn [Datatypes.length Z.of_nat Z.eqb].
  destruct (is_king_in_check board (current_player board)).
  - eexists. split; [reflexivity |].
    destruct (color_eqb (current_player board) PLAYER_WHITE); vm_compute; reflexivity.
  - eexists. split; [reflexivity |]. vm_compute. reflexivity.
Qed.

Lemma minimax_no_legal_moves qsort board depth alpha beta maximizing_player :
  generate_legal_moves board = [] ->
  minimax qsort board depth alpha beta maximizing_player
  = (if is_king_in_check board (current_player board)
     then if color_eqb (current_player board) PLAYER_WHITE
          then - (MATE_SCORE + Z.of_nat depth)
          else MATE_SCORE + Z.of_nat depth
     else 0, board).
Proof.
  intro L. destruct (is_game_over_no_moves _ L) as (msg & G & S).
  destruct depth as [| depth']; cbn [minimax]; rewrite G, S;
    destruct (is_king_in_check board (current_player board));
    try reflexivity;
    destruct (color_eqb (current_player board) PLAYER_WHITE);
    f_equal; lia.
Qed.

(** *** The en passant target after a move *)

Lemma make_move_en_passant board move :
  let board' := fst (make_move board move) in
  if is_double_push board move
  then en_passant_row board' = Z.quot (from_row move + to_row move) 2
       /\ en_passant_col board' = from_col move
       /\ is_valid_position (from_row move) (from_col move) = true
  else en_passant_row board' = -1 /\ en_passant_col board' = -1.
Proof.
  unfold is_double_push, make_move. cbn [fst en_passant_row en_passant_col].
  destruct (piece_eqb (piece (sq board (from_row move) (from_col move))) PAWN
            && (Z.abs (to_row move - from_row move) =? 2)) eqn:D.
  - split; [reflexivity |]. split; [reflexivity |].
    apply andb_true_iff in D. destruct D as [D _].
    unfold sq, sq_at in D.
    destruct (is_valid_position (from_row move) (from_col move));
      [reflexivity | discriminate D].
  - split; reflexivity.
Qed.

(** *** Eight iterations exhaust a ray *)

Lemma ray_moves_more_fuel board row col row_dir col_dir cc extra :
  forall n nr nc,
    is_valid_position (nr + Z.of_nat n * row_dir) (nc + Z.of_nat n * col_dir) = false ->
    ray_moves (S n + extra) board row col row_dir col_dir cc nr nc
    = ray_moves (S n) board row col row_dir col_dir cc nr nc.
Proof.
  induction n as [| n IH]; intros nr nc H.
  - cbn [Z.of_nat] in H. rewrite !Z.mul_0_l, !Z.add_0_r in H.
    cbn [Nat.add ray_moves]. rewrite H. reflexivity.
  - change (S (S n) + extra)%nat with (S (S n + extra)).
    cbn [ray_moves].
    rewrite IH; [reflexivity |].
    rewrite <- H. f_equal; lia.
Qed.

(** From a square of the board and along a direction that is not (0, 0),
    the loop of [generate_directional_moves] stops by itself within eight
    iterations: more fuel does not change its result. *)
Lemma generate_directional_moves_fuel board row col row_dir col_dir extra :
  is_valid_position row col = true ->
  row_dir <> 0 \/ col_dir <> 0 ->
  ray_moves (8 + extra) board row col row_dir col_dir (color (sq board row col))
    (row + row_dir) (col + col_dir)
  = generate_directional_moves board row col row_dir col_dir.
Proof.
  intros V D. unfold generate_directional_moves.
  apply (ray_moves_more_fuel board row col row_dir col_dir _ extra 7).
  apply is_valid_position_iff in V.
  destruct (is_valid_position _ _) eqn:E; [| reflexivity].
  apply is_valid_position_iff in E. lia.
Qed.

Lemma ray_attacked_more_fuel board row col dr dc attacker extra :
  forall n j,
    is_valid_position (row + (j + Z.of_nat n) * dr) (col + (j + Z.of_nat n) * dc) = false ->
    ray_attacked (S n + extra) board row col dr dc attacker j
    = ray_attacked (S n) board row col dr dc attacker j.
Proof.
  induction n as [| n IH]; intros j H.
  - cbn [Z.of_nat] in H. rewrite !Z.add_0_r in H.
    cbn [Nat.add ray_attacked]. rewrite H. reflexivity.
  - change (S (S n) + extra)%nat with (S (S n + extra)).
    cbn [ray_attacked].
    rewrite IH; [reflexivity |].
    rewrite <- H. f_equal; lia.
Qed.

(** The same for the ray loops of [is_square_attacked], from any target
    square of the board. *)
Lemma is_square_attacked_fuel board row col dr dc attacker extra :
  is_valid_position row col = true ->
  dr <> 0 \/ dc <> 0 ->
  ray_attacked (8 + extra) board row col dr dc attacker 1
  = ray_attacked 8 board row col dr dc attacker 1.
Proof.
  intros V D.
  apply (ray_attacked_more_fuel board row col dr dc attacker extra 7).
  apply is_valid_position_iff in V.
  destruct (is_valid_position _ _) eqn:E; [| reflexivity].
  apply is_valid_position_iff in E. lia.
Qed.

(** *** The array of squares *)

Lemma length_sq_set sqs row col s :
  List.length (sq_set sqs row col s) = List.length sqs.
Proof. unfold sq_set. destruct (is_valid_position row col); [apply length_upd | reflexivity]. Qed.

Lemma cell_lt row col : is_valid_position row col = true -> (cell row col < 64)%nat.
Proof. rewrite is_valid_position_iff. unfold cell, BOARD_SIZE. lia. Qed.

Lemma cell_inj row col row' col' :
  is_valid_position row col = true -> is_valid_position row' col' = true ->
  cell row col = cell row' col' -> row = row' /\ col = col'.
Proof. rewrite !is_valid_position_iff. unfold cell, BOARD_SIZE. lia. Qed.

(** Reading a square after a write. *)
Lemma sq_at_set sqs row col s row' col' :
  List.length sqs = 64%nat ->
  sq_at (sq_set sqs row col s) row' col'
  = if is_valid_position row col && (row =? row') && (col =? col')
    then s else sq_at sqs row' col'.
Proof.
  intro L. unfold sq_at, sq_set.
  destruct (is_valid_position row col) eqn:V; cbn [andb].
  - destruct (Z.eqb_spec row row') as [-> | Nr]; cbn [andb].
    + destruct (Z.eqb_spec col col') as [-> | Nc].
      * rewrite V. apply nth_upd_same. rewrite L. apply cell_lt. exact V.
      * destruct (is_valid_position row' col') eqn:V'; [| reflexivity].
        apply nth_upd_other. intro E.
        apply (cell_inj _ _ _ _ V V') in E. destruct E. contradiction.
    + destruct (is_valid_position row' col') eqn:V'; [| reflexivity].
      apply nth_upd_other. intro E.
      apply (cell_inj _ _ _ _ V V') in E. destruct E. contradiction.
  - reflexivity.
Qed.

(** Two arrays of 64 squares that agree on every square of the board are
    equal. *)
Lemma squares_ext sqs sqs' :
  List.length sqs = 64%nat -> List.length sqs' = 64%nat ->
  (forall row col, is_valid_position row col = true ->
     sq_at sqs row col = sq_at sqs' row col) ->
  sqs = sqs'.
Proof.
  intros L L' H. apply (nth_ext _ _ empty_square empty_square); [congruence |].
  intros n Hn. rewrite L in Hn.
  assert (V : is_valid_position (Z.of_nat n / 8) (Z.of_nat n mod 8) = true).
  { apply is_valid_position_iff. split.
    - split; [apply Z.div_pos; lia | apply Z.div_lt_upper_bound; lia].
    - apply Z.mod_pos_bound. lia. }
  specialize (H _ _ V). unfold sq_at in H. rewrite V in H.
  assert (C : cell (Z.of_nat n / 8) (Z.of_nat n mod 8) = n).
  { unfold cell, BOARD_SIZE.
    rewrite (Z.mul_comm (Z.of_nat n / 8) 8), <- Z.div_mod by lia.
    apply Nat2Z.id. }
  rewrite C in H. exact H.
Qed.

(** *** Making and undoing a generated move *)

Lemma square_eta (s : Square) : mkSquare (piece s) (color s) = s.
Proof. destruct s. reflexivity. Qed.

Lemma wrap_int_range z : int_range (wrap_int z).
Proof.
  unfold int_range, wrap_int.
  pose proof (Z.mod_pos_bound (z + 2147483648) 4294967296 ltac:(lia)). lia.
Qed.

Lemma wrap_int_small z : int_range z -> wrap_int z = z.
Proof.
  unfold int_range, wrap_int. intro H. rewrite Z.mod_small by lia. lia.
Qed.

(** Incrementing and then decrementing an [int] gives it back, also at
    [INT_MAX]. *)
Lemma wrap_int_round_trip z : int_range z -> wrap_int (wrap_int (z + 1) - 1) = z.
Proof.
  intro H. destruct (Z.eq_dec z 2147483647) as [-> | N].
  - vm_compute. reflexivity.
  - rewrite (wrap_int_small (z + 1)) by (unfold int_range in *; lia).
    replace (z + 1 - 1) with z by lia. apply wrap_int_small. exact H.
Qed.

Lemma opponent_of_involutive c :
  c = PLAYER_WHITE \/ c = PLAYER_BLACK -> opponent_of (opponent_of c) = c.
Proof. intros [-> | ->]; reflexivity. Qed.

(** The squares a plain move leaves behind. *)
Lemma make_move_plain_squares board m :
  generated board m -> plain_move board m -> well_formed board ->
  squares (fst (make_move board m))
  = sq_set
      (sq_set (squares board) (to_row m) (to_col m)
         (mkSquare
            (if negb (piece_eqb (promotion m) EMPTY) then promotion m
             else piece (sq board (from_row m) (from_col m)))
            (current_player board)))
      (from_row m) (from_col m) empty_square.
Proof.
  intros G P W. unfold make_move. cbv zeta. cbn [fst squares captured_piece
    prev_en_passant_row prev_en_passant_col].
  assert (C : piece_eqb (piece (sq board (from_row m) (from_col m))) KING
              && (Z.abs (to_col m - from_col m) =? 2) = false).
  { destruct (piece_eqb _ KING) eqn:K; [| reflexivity].
    apply piece_eqb_eq in K. apply (pm_king _ _ P) in K.
    cbn [andb]. apply Z.eqb_neq. lia. }
  rewrite C.
  assert (E : piece_eqb (piece (sq board (from_row m) (from_col m))) PAWN
              && (to_row m =? en_passant_row board)
              && (to_col m =? en_passant_col board)
              && piece_eqb (captured_piece (previous_state m)) PAWN
              && piece_eqb (piece (sq_at (squares board) (to_row m) (to_col m))) EMPTY
              = false).
  { pose proof (pm_target _ _ P) as T. unfold sq in T. rewrite T. cbn [piece].
    destruct (captured_piece (previous_state m)); cbn;
      rewrite ?andb_false_r; reflexivity. }
  rewrite E. rewrite (g_color _ _ G). reflexivity.
Qed.

(** The scalar fields after a make and its undo: [undo_move] takes the
    castling rights, the en passant target and the halfmove clock from the
    snapshot that [make_move] stored in the move. *)
Lemma undo_make_snapshot board m :
  let board' := undo_move (fst (make_move board m)) (snd (make_move board m)) in
  white_castle_kingside board' = white_castle_kingside board
  /\ white_castle_queenside board' = white_castle_queenside board
  /\ black_castle_kingside board' = black_castle_kingside board
  /\ black_castle_queenside board' = black_castle_queenside board
  /\ en_passant_row board' = en_passant_row board
  /\ en_passant_col board' = en_passant_col board
  /\ halfmove_clock board' = halfmove_clock board.
Proof. cbv zeta. repeat split; reflexivity. Qed.

Lemma undo_make_player board m :
  well_formed board ->
  color (sq board (from_row m) (from_col m)) = current_player board ->
  let board' := undo_move (fst (make_move board m)) (snd (make_move board m)) in
  current_player board' = current_player board
  /\ fullmove_number board' = fullmove_number board.
Proof.
  intros W C. cbv zeta. unfold undo_move, make_move.
  cbn [fst snd current_player fullmove_number]. rewrite C.
  destruct (wf_player _ W) as [E | E]; rewrite E; cbn.
  - split; reflexivity.
  - split; [reflexivity |]. apply wrap_int_round_trip. exact (wf_fullmove _ W).
Qed.

Lemma board_ext (b b' : Board) :
  squares b = squares b' ->
  current_player b = current_player b' ->
  white_castle_kingside b = white_castle_kingside b' ->
  white_castle_queenside b = white_castle_queenside b' ->
  black_castle_kingside b = black_castle_kingside b' ->
  black_castle_queenside b = black_castle_queenside b' ->
  en_passant_row b = en_passant_row b' ->
  en_passant_col b = en_passant_col b' ->
  halfmove_clock b = halfmove_clock b' ->
  fullmove_number b = fullmove_number b' ->
  b = b'.
Proof. destruct b, b'. cbn. intros. subst. reflexivity. Qed.

Ltac stamped_fields board m :=
  change (from_row (snd (make_move board m))) with (from_row m);
  change (from_col (snd (make_move board m))) with (from_col m);
  change (to_row (snd (make_move board m))) with (to_row m);
  change (to_col (snd (make_move board m))) with (to_col m);
  change (promotion (snd (make_move board m))) with (promotion m);
  change (captured_piece (previous_state (snd (make_move board m))))
    with (captured_piece (previous_state m));
  change (captured_color (previous_state (snd (make_move board m))))
    with (captured_color (previous_state m));
  change (prev_en_passant_row (previous_state (snd (make_move board m))))
    with (en_passant_row board);
  change (prev_en_passant_col (previous_state (snd (make_move board m))))
    with (en_passant_col board).

(** The side to move after [make_move] is the opponent of the color that
    moved. *)
Lemma make_move_player board m :
  current_player (fst (make_move board m))
  = opponent_of (color (sq board (from_row m) (from_col m))).
Proof. reflexivity. Qed.

Lemma undo_make_plain_squares board m :
  well_formed board -> generated board m -> plain_move board m ->
  squares (undo_move (fst (make_move board m)) (snd (make_move board m)))
  = squares board.
Proof.
  intros W G P.
  pose proof (make_move_plain_squares _ _ G P W) as S.
  pose proof (wf_length _ W) as L.
  pose proof (g_from _ _ G) as Vf. pose proof (g_to _ _ G) as Vt.
  pose proof (g_distinct _ _ G) as D.
  (* the piece found on the destination is the piece that moved *)
  assert (OMP : (if negb (piece_eqb (promotion m) EMPTY) then PAWN
                 else piece (sq (fst (make_move board m)) (to_row m) (to_col m)))
                = piece (sq board (from_row m) (from_col m))).
  { destruct (negb (piece_eqb (promotion m) EMPTY)) eqn:Pr.
    - symmetry. apply (pm_promotion _ _ P).
      apply negb_true_iff, piece_eqb_neq in Pr. exact Pr.
    - unfold sq. rewrite S.
      rewrite sq_at_set by (rewrite length_sq_set; exact L).
      rewrite sq_at_set by exact L.
      rewrite Vf, Vt. cbn [andb].
      destruct (Z.eqb_spec (from_row m) (to_row m)),
               (Z.eqb_spec (from_col m) (to_col m)); cbn [andb];
        try (exfalso; lia);
        rewrite !Z.eqb_refl; reflexivity. }
  assert (PL : (if color_eqb (current_player (fst (make_move board m))) PLAYER_WHITE
                then PLAYER_BLACK else PLAYER_WHITE) = current_player board).
  { rewrite make_move_player. rewrite (g_color _ _ G).
    destruct (wf_player _ W) as [E | E]; rewrite E; reflexivity. }
  assert (C : piece_eqb (piece (sq board (from_row m) (from_col m))) KING && (Z.abs (to_col m - from_col m) =? 2)
              = false).
  { destruct (piece_eqb _ KING) eqn:K; [| reflexivity].
    apply piece_eqb_eq in K. apply (pm_king _ _ P) in K.
    cbn [andb]. apply Z.eqb_neq. lia. }
  assert (E : piece_eqb (piece (sq board (from_row m) (from_col m))) PAWN
              && (to_row m =? en_passant_row board)
              && (to_col m =? en_passant_col board)
              && piece_eqb (captured_piece (previous_state m)) PAWN = false).
  { destruct (piece_eqb (piece (sq board (from_row m) (from_col m))) PAWN); [| reflexivity].
    destruct (Z.eqb_spec (to_row m) (en_passant_row board)) as [R |];
      [| reflexivity].
    destruct (Z.eqb_spec (to_col m) (en_passant_col board)) as [Cc |];
      [| reflexivity].
    cbn [andb]. apply piece_eqb_neq. intro Cp.
    pose proof (wf_en_passant _ W) as EP. rewrite <- R, <- Cc in EP.
    destruct (EP Vt) as [Em _].
    rewrite (pm_target _ _ P) in Em. cbn [piece] in Em. congruence. }
  unfold undo_move. cbv zeta. cbn [squares]. stamped_fields board m.
  rewrite OMP, PL, C, E. rewrite S.
  apply squares_ext.
  - rewrite !length_sq_set. exact L.
  - exact L.
  - intros row col V.
    assert (Hfrom : mkSquare (piece (sq board (from_row m) (from_col m)))
                      (current_player board)
                    = sq_at (squares board) (from_row m) (from_col m)).
    { rewrite <- (g_color _ _ G). apply square_eta. }
    repeat (rewrite sq_at_set by (rewrite ?length_sq_set; exact L)).
    rewrite Vf, Vt. cbn [andb].
    destruct (Z.eqb_spec (to_row m) row) as [Er |];
      destruct (Z.eqb_spec (to_col m) col) as [Ec |]; cbn [andb];
      try (rewrite <- Er, <- Ec; symmetry; exact (pm_target _ _ P));
      destruct (Z.eqb_spec (from_row m) row) as [Fr |];
      destruct (Z.eqb_spec (from_col m) col) as [Fc |]; cbn [andb];
      try reflexivity;
      rewrite <- Fr, <- Fc; exact Hfrom.
Qed.

Lemma pawn_direction_unit c : pawn_direction c = 1 \/ pawn_direction c = -1.
Proof. unfold pawn_direction. destruct (color_eqb c PLAYER_WHITE); lia. Qed.

(** The squares an en passant capture leaves behind. *)
Lemma make_move_en_passant_squares board m :
  generated board m -> en_passant_move board m ->
  squares (fst (make_move board m))
  = sq_set
      (sq_set
         (sq_set (squares board) (from_row m) (to_col m) empty_square)
         (to_row m) (to_col m) (mkSquare PAWN (current_player board)))
      (from_row m) (from_col m) empty_square.
Proof.
  intros G P. unfold make_move. cbv zeta. cbn [fst squares captured_piece
    prev_en_passant_row prev_en_passant_col].
  rewrite (g_color _ _ G).
  fold (sq board (from_row m) (from_col m)).
  fold (sq board (to_row m) (to_col m)).
  rewrite (em_pawn _ _ P), (em_piece _ _ P), (em_promotion _ _ P).
  cbn [piece_eqb andb negb].
  fold (sq board (to_row m) (to_col m)).
  rewrite (em_empty _ _ P).
  rewrite <- (em_row _ _ P), <- (em_col _ _ P), !Z.eqb_refl.
  reflexivity.
Qed.

Lemma undo_make_en_passant_squares board m :
  well_formed board -> generated board m -> en_passant_move board m ->
  squares (undo_move (fst (make_move board m)) (snd (make_move board m)))
  = squares board.
Proof.
  intros W G P.
  pose proof (make_move_en_passant_squares _ _ G P) as S.
  pose proof (wf_length _ W) as L.
  pose proof (g_from _ _ G) as Vf. pose proof (g_to _ _ G) as Vt.
  pose proof (em_side _ _ P) as Side.
  pose proof (em_step _ _ P) as Step.
  pose proof (pawn_direction_unit (current_player board)) as U.
  assert (Vc : is_valid_position (from_row m) (to_col m) = true).
  { apply is_valid_position_iff. apply is_valid_position_iff in Vf, Vt. lia. }
  assert (OMP : (if negb (piece_eqb (promotion m) EMPTY) then PAWN
                 else piece (sq (fst (make_move board m)) (to_row m) (to_col m)))
                = PAWN).
  { rewrite (em_promotion _ _ P). cbn [piece_eqb negb].
    unfold sq. rewrite S.
    repeat (rewrite sq_at_set by (rewrite ?length_sq_set; exact L)).
    rewrite Vf, Vt. cbn [andb].
    destruct (Z.eqb_spec (from_col m) (to_col m)); [congruence |].
    rewrite andb_false_r, !Z.eqb_refl. reflexivity. }
  assert (PL : (if color_eqb (current_player (fst (make_move board m))) PLAYER_WHITE
                then PLAYER_BLACK else PLAYER_WHITE) = current_player board).
  { rewrite make_move_player. rewrite (g_color _ _ G).
    destruct (wf_player _ W) as [E | E]; rewrite E; reflexivity. }
  pose proof (wf_en_passant _ W) as EP.
  rewrite <- (em_row _ _ P), <- (em_col _ _ P) in EP.
  destruct (EP Vt) as [_ Cap]. clear EP.
  replace (to_row m - pawn_direction (current_player board)) with (from_row m)
    in Cap by lia.
  assert (Emp : sq_at (squares board) (to_row m) (to_col m) = empty_square).
  { pose proof (em_empty _ _ P) as Em.
    pose proof (wf_empty _ W _ _ Em) as Co.
    rewrite <- (square_eta (sq board (to_row m) (to_col m))) in *.
    cbn [piece color] in *. fold (sq board (to_row m) (to_col m)).
    rewrite <- (square_eta (sq board (to_row m) (to_col m))).
    rewrite Em, Co. reflexivity. }
  assert (Hfrom : mkSquare PAWN (current_player board)
                  = sq_at (squares board) (from_row m) (from_col m)).
  { rewrite <- (g_color _ _ G), <- (em_pawn _ _ P). apply square_eta. }
  unfold undo_move. cbv zeta. cbn [squares]. stamped_fields board m.
  rewrite OMP, PL. cbn [piece_eqb andb].
  rewrite (em_piece _ _ P), (em_color _ _ P).
  rewrite <- (em_row _ _ P), <- (em_col _ _ P), !Z.eqb_refl.
  cbn [piece_eqb andb]. rewrite S.
  apply squares_ext.
  - rewrite !length_sq_set. exact L.
  - exact L.
  - intros row col V.
    repeat (rewrite sq_at_set by (rewrite ?length_sq_set; exact L)).
    rewrite Vf, Vt, Vc. cbn [andb].
    destruct (Z.eqb_spec (from_row m) row) as [Fr |];
      destruct (Z.eqb_spec (to_col m) col) as [Tc |]; cbn [andb];
      try (rewrite <- Fr, <- Tc; symmetry; exact Cap);
      destruct (Z.eqb_spec (to_row m) row) as [Tr |]; cbn [andb];
      try (rewrite <- Tr, <- Tc; symmetry; exact Emp);
      destruct (Z.eqb_spec (from_col m) col) as [Fc |]; cbn [andb];
      try reflexivity;
      try (rewrite <- Fr, <- Fc; exact Hfrom);
      exfalso; lia.
Qed.

(** Making a generated move on a well-formed board and undoing it gives
    the board back, field for field. *)
Lemma undo_make_generated board m :
  well_formed board -> generated board m ->
  undo_move (fst (make_move board m)) (snd (make_move board m)) = board.
Proof.
  intros W G.
  destruct (undo_make_snapshot board m) as (A1 & A2 & A3 & A4 & A5 & A6 & A7).
  destruct (undo_make_player board m W (g_color _ _ G)) as [B1 B2].
  apply board_ext; try assumption.
  destruct (g_kind _ _ G) as [P | P].
  - apply undo_make_plain_squares; assumption.
  - apply undo_make_en_passant_squares; assumption.
Qed.

(** *** What the generators guarantee *)

Ltac bools :=
  repeat match goal with
  | H : _ && _ = true |- _ => apply andb_true_iff in H; destruct H
  | H : negb _ = true |- _ => apply negb_true_iff in H
  | H : negb _ = false |- _ => apply negb_false_iff in H
  | H : piece_eqb _ _ = true |- _ => apply piece_eqb_eq in H
  | H : piece_eqb _ _ = false |- _ => apply piece_eqb_neq in H
  | H : color_eqb _ _ = true |- _ => apply color_eqb_eq in H
  | H : color_eqb _ _ = false |- _ => apply color_eqb_neq in H
  | H : (_ =? _) = true |- _ => apply Z.eqb_eq in H
  | H : (_ =? _) = false |- _ => apply Z.eqb_neq in H
  end.

(** An empty square of a well-formed board is the empty square. *)
Lemma empty_square_eq board row col :
  well_formed board -> piece (sq board row col) = EMPTY ->
  sq board row col = mkSquare EMPTY NONE.
Proof.
  intros W E. pose proof (wf_empty _ W _ _ E) as C.
  rewrite <- (square_eta (sq board row col)), E, C. reflexivity.
Qed.

(** A move of a piece other than a pawn, without promotion, onto the
    square whose content it records. *)
Lemma piece_move_generated board row col nr nc cp cc :
  is_valid_position row col = true ->
  is_valid_position nr nc = true ->
  row <> nr \/ col <> nc ->
  piece (sq board row col) <> EMPTY ->
  piece (sq board row col) <> PAWN ->
  color (sq board row col) = current_player board ->
  sq board nr nc = mkSquare cp cc ->
  (piece (sq board row col) = KING -> Z.abs (nc - col) <= 1) ->
  generated board (gen_move row col nr nc EMPTY cp cc).
Proof.
  intros V Vt D P NP C T K.
  constructor; cbn; try assumption.
  left. constructor; cbn; try assumption.
  - intro A. exfalso. apply A. reflexivity.
  - intros A. contradiction.
Qed.

Ltac plain_kind W P E :=
  left; constructor; cbn;
  [ first [ apply empty_square_eq; assumption | symmetry; apply square_eta ]
  | intros _; exact P
  | rewrite P; discriminate
  | intros _ A; rewrite E; cbn;
    first [ exfalso; lia
          | repeat split; first [ lia | assumption | reflexivity ] ] ].

Ltac en_passant_kind P E :=
  right; constructor; cbn; rewrite ?E; cbn;
  first [ assumption | reflexivity | lia | exact P ].

Lemma generate_pawn_moves_generated board row col m :
  well_formed board ->
  is_valid_position row col = true ->
  piece (sq board row col) = PAWN ->
  color (sq board row col) = current_player board ->
  In m (generate_pawn_moves board row col) ->
  generated board m.
Proof.
  intros W V P C H. unfold generate_pawn_moves in H. cbv zeta in H.
  rewrite C in H. unfold promo_pieces, offsets2 in H.
  destruct (wf_player _ W) as [E | E]; rewrite E in H; cbn [color_eqb] in H;
    in_inv; bools.
  all: constructor; cbn; try assumption; try lia; try (rewrite P; discriminate).
  all: first [ plain_kind W P E | en_passant_kind P E ].
Qed.

Lemma generate_knight_moves_generated board row col m :
  is_valid_position row col = true ->
  piece (sq board row col) = KNIGHT ->
  color (sq board row col) = current_player board ->
  In m (generate_knight_moves board row col) ->
  generated board m.
Proof.
  intros V P C H. unfold generate_knight_moves, knight_moves in H.
  in_inv; cbn [fst snd] in *;
    (apply piece_move_generated;
     [ exact V | assumption | lia | rewrite P; discriminate
     | rewrite P; discriminate | exact C | symmetry; apply square_eta
     | rewrite P; discriminate ]).
Qed.

(** The moves of a ray, the ray being [k] steps away from the origin. *)
Lemma ray_moves_generated board row col row_dir col_dir :
  well_formed board ->
  is_valid_position row col = true ->
  piece (sq board row col) <> EMPTY ->
  piece (sq board row col) <> PAWN ->
  piece (sq board row col) <> KING ->
  color (sq board row col) = current_player board ->
  row_dir <> 0 \/ col_dir <> 0 ->
  forall fuel k m,
    1 <= k ->
    In m (ray_moves fuel board row col row_dir col_dir (color (sq board row col))
            (row + k * row_dir) (col + k * col_dir)) ->
    generated board m.
Proof.
  intros W V P NP NK C D.
  induction fuel as [| fuel IH]; intros k m K H; cbn [ray_moves] in H.
  - destruct H.
  - destruct (is_valid_position (row + k * row_dir) (col + k * col_dir)) eqn:Vt;
      [| destruct H].
    assert (Far : row <> row + k * row_dir \/ col <> col + k * col_dir) by nia.
    destruct (piece_eqb (piece (sq board (row + k * row_dir) (col + k * col_dir)))
                EMPTY) eqn:Em.
    + destruct H as [H | H].
      * subst m. apply piece_move_generated; try assumption.
        -- apply empty_square_eq; [exact W |]. apply piece_eqb_eq. exact Em.
        -- intro A. contradiction.
      * apply (IH (k + 1) m); [lia |].
        replace (row + (k + 1) * row_dir) with (row + k * row_dir + row_dir) by lia.
        replace (col + (k + 1) * col_dir) with (col + k * col_dir + col_dir) by lia.
        exact H.
    + destruct (negb _); [| destruct H].
      destruct H as [H | []]. subst m.
      apply piece_move_generated; try assumption.
      * symmetry. apply square_eta.
      * intro A. contradiction.
Qed.

Lemma generate_directional_moves_generated board row col row_dir col_dir m :
  well_formed board ->
  is_valid_position row col = true ->
  piece (sq board row col) <> EMPTY ->
  piece (sq board row col) <> PAWN ->
  piece (sq board row col) <> KING ->
  color (sq board row col) = current_player board ->
  row_dir <> 0 \/ col_dir <> 0 ->
  In m (generate_directional_moves board row col row_dir col_dir) ->
  generated board m.
Proof.
  intros W V P NP NK C D H. unfold generate_directional_moves in H.
  apply (ray_moves_generated board row col row_dir col_dir W V P NP NK C D 8%nat 1 m);
    [lia |].
  rewrite !Z.mul_1_l. exact H.
Qed.

Lemma generate_bishop_moves_generated board row col m :
  well_formed board ->
  is_valid_position row col = true ->
  piece (sq board row col) <> EMPTY ->
  piece (sq board row col) <> PAWN ->
  piece (sq board row col) <> KING ->
  color (sq board row col) = current_player board ->
  In m (generate_bishop_moves board row col) ->
  generated board m.
Proof.
  intros W V P NP NK C H. unfold generate_bishop_moves, bishop_directions in H.
  apply in_flat_map in H. destruct H as (d & Hd & H).
  eapply generate_directional_moves_generated; try eassumption.
  cbn [In] in Hd.
  repeat (destruct Hd as [Hd | Hd]; [subst d; cbn; lia |]). destruct Hd.
Qed.

Lemma generate_rook_moves_generated board row col m :
  well_formed board ->
  is_valid_position row col = true ->
  piece (sq board row col) <> EMPTY ->
  piece (sq board row col) <> PAWN ->
  piece (sq board row col) <> KING ->
  color (sq board row col) = current_player board ->
  In m (generate_rook_moves board row col) ->
  generated board m.
Proof.
  intros W V P NP NK C H. unfold generate_rook_moves, rook_directions in H.
  apply in_flat_map in H. destruct H as (d & Hd & H).
  eapply generate_directional_moves_generated; try eassumption.
  cbn [In] in Hd.
  repeat (destruct Hd as [Hd | Hd]; [subst d; cbn; lia |]). destruct Hd.
Qed.

Lemma generate_king_moves_generated board row col m :
  is_valid_position row col = true ->
  piece (sq board row col) = KING ->
  color (sq board row col) = current_player board ->
  In m (generate_king_moves board row col) ->
  generated board m.
Proof.
  intros V P C H. unfold generate_king_moves, offsets3 in H.
  in_inv; bools; try discriminate;
    (apply piece_move_generated;
     [ exact V | assumption | lia | rewrite P; discriminate
     | rewrite P; discriminate | exact C | symmetry; apply square_eta
     | intros _; lia ]).
Qed.

(** Every pseudo-legal move of a well-formed board is a generated move in
    the sense above. *)
Lemma generate_pseudo_legal_moves_generated board m :
  well_formed board ->
  In m (generate_pseudo_legal_moves board) ->
  generated board m.
Proof.
  intros W H.
  destruct (generate_pseudo_legal_moves_inv _ _ H)
    as (row & col & V & P & C & _ & G).
  destruct (piece (sq board row col)) eqn:K.
  - destruct G.
  - eapply generate_pawn_moves_generated; eassumption.
  - eapply generate_knight_moves_generated; eassumption.
  - eapply generate_bishop_moves_generated; try eassumption;
      rewrite K; discriminate.
  - eapply generate_rook_moves_generated; try eassumption;
      rewrite K; discriminate.
  - unfold generate_queen_moves in G. apply in_app_or in G. destruct G as [G | G].
    + eapply generate_bishop_moves_generated; try eassumption;
        rewrite K; discriminate.
    + eapply generate_rook_moves_generated; try eassumption;
        rewrite K; discriminate.
  - eapply generate_king_moves_generated; eassumption.
Qed.

(** *** Well-formed boards stay well-formed *)

Lemma init_board_well_formed : well_formed init_board.
Proof.
  constructor.
  - reflexivity.
  - left. reflexivity.
  - intros row col. unfold sq, sq_at.
    destruct (is_valid_position row col) eqn:V; [| reflexivity].
    assert (F : Forall (fun rc =>
                  let s := nth (cell (fst rc) (snd rc)) (squares init_board)
                             empty_square in
                  piece s = EMPTY -> color s = NONE) all_squares).
    { vm_compute. repeat constructor; intro A; discriminate A. }
    rewrite Forall_forall in F.
    exact (F (row, col) (all_squares_complete _ _ V)).
  - intro A. discriminate A.
  - unfold int_range. cbn. lia.
Qed.

Lemma pawn_direction_opponent c :
  c = PLAYER_WHITE \/ c = PLAYER_BLACK ->
  pawn_direction (opponent_of c) = - pawn_direction c.
Proof. intros [-> | ->]; reflexivity. Qed.

Lemma opponent_of_player c :
  c = PLAYER_WHITE \/ c = PLAYER_BLACK ->
  opponent_of c = PLAYER_WHITE \/ opponent_of c = PLAYER_BLACK.
Proof. intros [-> | ->]; [right | left]; reflexivity. Qed.

(** The en passant target [make_move] sets. *)
Lemma make_move_en_passant_fields board m :
  en_passant_row (fst (make_move board m))
  = (if is_double_push board m then Z.quot (from_row m + to_row m) 2 else -1)
  /\ en_passant_col (fst (make_move board m))
     = (if is_double_push board m then from_col m else -1).
Proof. split; reflexivity. Qed.

Lemma make_move_fullmove_range board m :
  int_range (fullmove_number board) ->
  int_range (fullmove_number (fst (make_move board m))).
Proof.
  intro R. unfold make_move. cbn [fst fullmove_number].
  destruct (color_eqb _ _); [apply wrap_int_range | exact R].
Qed.

(** Making a generated move keeps a board well-formed. *)
Lemma make_move_well_formed board m :
  well_formed board -> generated board m ->
  well_formed (fst (make_move board m)).
Proof.
  intros W G.
  pose proof (wf_length _ W) as L.
  pose proof (g_from _ _ G) as Vf. pose proof (g_to _ _ G) as Vt.
  pose proof (g_distinct _ _ G) as D.
  pose proof (wf_player _ W) as Pl.
  pose proof (pawn_direction_unit (current_player board)) as U.
  assert (Cur : current_player (fst (make_move board m))
                = opponent_of (current_player board)).
  { rewrite make_move_player, (g_color _ _ G). reflexivity. }
  destruct (g_kind _ _ G) as [P | P].
  - (* a plain move *)
    pose proof (make_move_plain_squares _ _ G P W) as S.
    constructor.
    + rewrite S, !length_sq_set. exact L.
    + rewrite Cur. apply opponent_of_player. exact Pl.
    + intros row col. unfold sq. rewrite S.
      repeat (rewrite sq_at_set by (rewrite ?length_sq_set; exact L)).
      destruct (is_valid_position (from_row m) (from_col m)
                && (from_row m =? row) && (from_col m =? col));
        [reflexivity |].
      destruct (is_valid_position (to_row m) (to_col m)
                && (to_row m =? row) && (to_col m =? col)).
      * cbn [piece color]. intro A. exfalso.
        destruct (negb (piece_eqb (promotion m) EMPTY)) eqn:Pr.
        -- apply negb_true_iff, piece_eqb_neq in Pr. contradiction.
        -- exact (g_piece _ _ G A).
      * apply (wf_empty _ W).
    + destruct (make_move_en_passant_fields board m) as [Er Ec].
      rewrite Er, Ec. unfold is_double_push.
      destruct (piece_eqb (piece (sq board (from_row m) (from_col m))) PAWN) eqn:Pw;
        cbn [andb]; [| intro A; discriminate A].
      destruct (Z.eqb_spec (Z.abs (to_row m - from_row m)) 2) as [Two |];
        [| intro A; discriminate A].
      apply piece_eqb_eq in Pw.
      destruct (pm_double _ _ P Pw Two) as (Tc & Tr & Pr & Cp & Mid).
      intros _. rewrite Cur, (pawn_direction_opponent _ Pl).
      replace (Z.quot (from_row m + to_row m) 2)
        with (from_row m + pawn_direction (current_player board))
        by (rewrite Tr;
            replace (from_row m + (from_row m + 2 * pawn_direction (current_player board)))
              with ((from_row m + pawn_direction (current_player board)) * 2) by lia;
            symmetry; apply Z.quot_mul; lia).
      unfold sq. rewrite S.
      repeat (rewrite sq_at_set by (rewrite ?length_sq_set; exact L)).
      rewrite Vf, Vt. cbn [andb]. split.
      * destruct (Z.eqb_spec (from_row m)
                    (from_row m + pawn_direction (current_player board)));
          [exfalso; lia |].
        destruct (Z.eqb_spec (to_row m)
                    (from_row m + pawn_direction (current_player board)));
          [exfalso; lia |].
        cbn [andb]. exact Mid.
      * replace (from_row m + pawn_direction (current_player board)
                 - - pawn_direction (current_player board))
          with (to_row m) by lia.
        destruct (Z.eqb_spec (from_row m) (to_row m)); [exfalso; lia |].
        cbn [andb]. rewrite Z.eqb_refl, Tc, Z.eqb_refl. cbn [andb].
        rewrite Pr. cbn [piece_eqb negb]. rewrite Pw.
        rewrite (opponent_of_involutive _ Pl). reflexivity.
    + apply make_move_fullmove_range. exact (wf_fullmove _ W).
  - (* an en passant capture *)
    pose proof (make_move_en_passant_squares _ _ G P) as S.
    constructor.
    + rewrite S, !length_sq_set. exact L.
    + rewrite Cur. apply opponent_of_player. exact Pl.
    + intros row col. unfold sq. rewrite S.
      repeat (rewrite sq_at_set by (rewrite ?length_sq_set; exact L)).
      destruct (is_valid_position (from_row m) (from_col m)
                && (from_row m =? row) && (from_col m =? col));
        [reflexivity |].
      destruct (is_valid_position (to_row m) (to_col m)
                && (to_row m =? row) && (to_col m =? col)).
      * cbn [piece]. intro A. discriminate A.
      * destruct (is_valid_position (from_row m) (to_col m)
                  && (from_row m =? row) && (to_col m =? col));
          [reflexivity | apply (wf_empty _ W)].
    + destruct (make_move_en_passant_fields board m) as [Er Ec].
      rewrite Er, Ec. unfold is_double_push.
      replace (Z.abs (to_row m - from_row m) =? 2) with false
        by (symmetry; apply Z.eqb_neq; pose proof (em_step _ _ P); lia).
      rewrite andb_false_r. intro A. discriminate A.
    + apply make_move_fullmove_range. exact (wf_fullmove _ W).
Qed.

(** *** Reachable positions, and the 2D legality filter *)

(** [make_move] reads of a move what the generator wrote, not the score
    nor an older snapshot. *)
Lemma make_move_same_board board m m' :
  same_move m m' -> fst (make_move board m) = fst (make_move board m').
Proof.
  destruct m as [fr fc tr tc pr sc [cp cc a1 a2 a3 a4 a5 a6 a7]].
  destruct m' as [fr' fc' tr' tc' pr' sc' [cp' cc' b1 b2 b3 b4 b5 b6 b7]].
  unfold same_move. cbn. intros (-> & -> & -> & -> & -> & -> & ->).
  reflexivity.
Qed.

Lemma undo_move_same board m m' :
  same_move m m' ->
  undo_move (fst (make_move board m)) (snd (make_move board m))
  = undo_move (fst (make_move board m')) (snd (make_move board m')).
Proof.
  destruct m as [fr fc tr tc pr sc [cp cc a1 a2 a3 a4 a5 a6 a7]].
  destruct m' as [fr' fc' tr' tc' pr' sc' [cp' cc' b1 b2 b3 b4 b5 b6 b7]].
  unfold same_move. cbn. intros (-> & -> & -> & -> & -> & -> & ->).
  reflexivity.
Qed.

Lemma generated_same board m m' :
  same_move m m' -> generated board m -> generated board m'.
Proof.
  destruct m as [fr fc tr tc pr sc [cp cc a1 a2 a3 a4 a5 a6 a7]].
  destruct m' as [fr' fc' tr' tc' pr' sc' [cp' cc' b1 b2 b3 b4 b5 b6 b7]].
  unfold same_move. cbn. intros (-> & -> & -> & -> & -> & -> & ->) G.
  destruct G as [g1 g2 g3 g4 g5 [P | P]]; constructor; cbn in *; try assumption;
    [left | right]; destruct P; constructor; cbn in *; assumption.
Qed.

(** A legal move is a generated move. *)
Lemma generate_legal_moves_generated board m :
  well_formed board -> In m (generate_legal_moves board) -> generated board m.
Proof.
  intros W H. unfold generate_legal_moves in H.
  destruct (legal_filter_sub _ _ _ _ H) as (m0 & Hin & Hs).
  apply (generated_same _ _ _ Hs).
  apply generate_pseudo_legal_moves_generated; assumption.
Qed.

(** Every position of a game is well-formed. *)
Lemma reachable_well_formed board : reachable board -> well_formed board.
Proof.
  induction 1 as [| board m R IH Hin].
  - exact init_board_well_formed.
  - apply make_move_well_formed; [exact IH |].
    apply generate_legal_moves_generated; assumption.
Qed.

(** On a well-formed board the filtering loop finds its private copy
    intact before every candidate: it keeps exactly the candidates after
    which, made on the board itself, the mover's king is not in check. *)
Lemma legal_filter_spec board player pseudo :
  well_formed board ->
  (forall m, In m pseudo -> generated board m) ->
  legal_filter board player pseudo
  = flat_map (fun m =>
               if negb (is_king_in_check (fst (make_move board m)) player)
               then [snd (make_move board m)] else []) pseudo.
Proof.
  intros W. induction pseudo as [| m rest IH]; intros G; [reflexivity |].
  cbn [legal_filter flat_map].
  destruct (make_move board m) as [made m'] eqn:E.
  assert (U : undo_move made m' = board).
  { replace made with (fst (make_move board m)) by (rewrite E; reflexivity).
    replace m' with (snd (make_move board m)) by (rewrite E; reflexivity).
    apply undo_make_generated; [exact W |]. apply G. left. reflexivity. }
  rewrite U, IH by (intros m0 H0; apply G; right; exact H0).
  reflexivity.
Qed.

(** The legal-move list of the 2D engine on a well-formed board. *)
Lemma generate_legal_moves_spec board :
  well_formed board ->
  generate_legal_moves board
  = flat_map (fun m =>
               if negb (is_king_in_check (fst (make_move board m))
                          (current_player board))
               then [snd (make_move board m)] else [])
      (generate_pseudo_legal_moves board).
Proof.
  intro W. unfold generate_legal_moves.
  apply legal_filter_spec; [exact W |].
  intros m H. apply generate_pseudo_legal_moves_generated; assumption.
Qed.

(** In the 2D engine, a pseudo-legal move of a well-formed board is kept
    (with the snapshot of [make_move] stored in it) exactly when the
    mover's king is not in check after it. *)
Lemma generate_legal_moves_keeps board m :
  well_formed board ->
  In m (generate_pseudo_legal_moves board) ->
  In (snd (make_move board m)) (generate_legal_moves board)
  <-> is_king_in_check (fst (make_move board m)) (current_player board) = false.
Proof.
  intros W H. rewrite (generate_legal_moves_spec _ W). split.
  - intro I. apply in_flat_map in I. destruct I as (m0 & H0 & I).
    destruct (negb (is_king_in_check (fst (make_move board m0)) (current_player board)))
      eqn:K; [| destruct I].
    destruct I as [I | []].
    assert (S : same_move m0 m).
    { pose proof (make_move_same board m0) as A.
      pose proof (make_move_same board m) as B.
      rewrite I in A. unfold same_move in *.
      destruct A as (A1 & A2 & A3 & A4 & A5 & A6 & A7).
      destruct B as (B1 & B2 & B3 & B4 & B5 & B6 & B7).
      repeat split; congruence. }
    rewrite <- (make_move_same_board board m0 m S).
    apply negb_true_iff. exact K.
  - intro K. apply in_flat_map. exists m. split; [exact H |].
    rewrite K. left. reflexivity.
Qed.

(** In the 2D engine, making a legal move of a position of a game and
    undoing it restores the board field for field. *)
Lemma undo_make_legal board m :
  reachable board ->
  In m (generate_legal_moves board) ->
  undo_move (fst (make_move board m)) (snd (make_move board m)) = board.
Proof.
  intros R H. pose proof (reachable_well_formed _ R) as W.
  apply undo_make_generated; [exact W |].
  apply generate_legal_moves_generated; assumption.
Qed.

(** *** A double push among the generated moves *)

(** A pseudo-legal move that takes a pawn two rows away is a straight
    advance over an empty square, and that square is the en passant
    target [make_move] sets. *)
Lemma generated_double_push board m :
  well_formed board ->
  In m (generate_pseudo_legal_moves board) ->
  is_double_push board m = true ->
  let skipped_row := from_row m + pawn_direction (current_player board) in
  to_col m = from_col m
  /\ to_row m = skipped_row + pawn_direction (current_player board)
  /\ is_valid_position skipped_row (from_col m) = true
  /\ piece (sq board skipped_row (from_col m)) = EMPTY
  /\ en_passant_row (fst (make_move board m)) = skipped_row
  /\ en_passant_col (fst (make_move board m)) = from_col m.
Proof.
  intros W H D. cbv zeta.
  pose proof (generate_pseudo_legal_moves_generated _ _ W H) as G.
  pose proof (pawn_direction_unit (current_player board)) as U.
  pose proof (g_from _ _ G) as Vf. pose proof (g_to _ _ G) as Vt.
  destruct (make_move_en_passant_fields board m) as [Er Ec].
  rewrite Er, Ec, D.
  unfold is_double_push in D. apply andb_true_iff in D. destruct D as [Pw Two].
  apply piece_eqb_eq in Pw. apply Z.eqb_eq in Two.
  destruct (g_kind _ _ G) as [P | P].
  - destruct (pm_double _ _ P Pw Two) as (Tc & Tr & _ & _ & Mid).
    split; [exact Tc |]. split; [lia |]. split.
    + apply is_valid_position_iff. apply is_valid_position_iff in Vf, Vt. lia.
    + split; [exact Mid |]. split; [| reflexivity].
      rewrite Tr.
      replace (from_row m + (from_row m + 2 * pawn_direction (current_player board)))
        with ((from_row m + pawn_direction (current_player board)) * 2) by lia.
      apply Z.quot_mul. lia.
  - pose proof (em_step _ _ P). exfalso. lia.
Qed.

End Facts2D.

(** ** The 3D engine *)

Module Facts3D.
Import Chess3D.

Lemma color_eqb_eq3 (a b : PieceColor) : color_eqb a b = true <-> a = b.
Proof. destruct a, b; cbn; split; intro H; try reflexivity; discriminate H. Qed.

Lemma is_valid_position_iff3 (layer row col : Z) :
  is_valid_position layer row col = true
  <-> 0 <= layer < 3 /\ 0 <= row < 8 /\ 0 <= col < 8.
Proof. unfold is_valid_position, BOARD_LAYERS, BOARD_SIZE. lia. Qed.

(** Every square the scanning loops visit is on the board. *)
Lemma all_squares_valid3 :
  forall lrc, In lrc all_squares ->
    is_valid_position (fst (fst lrc)) (snd (fst lrc)) (snd lrc) = true.
Proof.
  apply Forall_forall. vm_compute. repeat constructor.
Qed.

(** And they visit every square of the board. *)
Lemma all_squares_complete3 (layer row col : Z) :
  is_valid_position layer row col = true -> In (layer, row, col) all_squares.
Proof.
  rewrite is_valid_position_iff3. intros (Hl & Hr & Hc).
  unfold all_squares. apply in_flat_map. exists layer. split.
  - cbn [In]. lia.
  - apply in_flat_map. exists row. split.
    + unfold range8. cbn [In]. lia.
    + apply in_map. unfold range8. cbn [In]. lia.
Qed.

(** *** Where generated moves start *)

Ltac start_done := split; [reflexivity | split; reflexivity].

Lemma ray_moves_start3 fuel board layer row col row_dir col_dir layer_dir cl cr cc m :
  In m (ray_moves fuel board layer row col row_dir col_dir layer_dir cl cr cc) ->
  starts_at layer row col m.
Proof.
  revert cl cr cc.
  induction fuel as [| fuel IH]; intros cl cr cc H; cbn [ray_moves] in H.
  - destruct H.
  - in_inv; try start_done.
    eapply IH; eassumption.
Qed.

Lemma generate_directional_moves_start board layer row col row_dir col_dir layer_dir m :
  In m (generate_directional_moves board layer row col row_dir col_dir layer_dir) ->
  starts_at layer row col m.
Proof. apply ray_moves_start3. Qed.

Lemma generate_pawn_moves_start3 board layer row col m :
  In m (generate_pawn_moves board layer row col) -> starts_at layer row col m.
Proof.
  unfold generate_pawn_moves, promo_pieces, offsets2. intro H.
  in_inv; start_done.
Qed.

Lemma generate_knight_moves_start3 board layer row col m :
  In m (generate_knight_moves board layer row col) -> starts_at layer row col m.
Proof.
  unfold generate_knight_moves, knight_moves, offsets3. intro H.
  in_inv; start_done.
Qed.

Lemma generate_bishop_moves_start3 board layer row col m :
  In m (generate_bishop_moves board layer row col) -> starts_at layer row col m.
Proof.
  unfold generate_bishop_moves. intro H.
  apply in_app_or in H. destruct H as [H | H].
  - apply in_flat_map in H. destruct H as (d & _ & H).
    eapply generate_directional_moves_start; eassumption.
  - apply in_flat_map in H. destruct H as (lc & _ & H).
    apply in_flat_map in H. destruct H as (d & _ & H).
    eapply generate_directional_moves_start; eassumption.
Qed.

Lemma generate_rook_moves_start3 board layer row col m :
  In m (generate_rook_moves board layer row col) -> starts_at layer row col m.
Proof.
  unfold generate_rook_moves. intro H.
  apply in_app_or in H. destruct H as [H | H].
  - apply in_flat_map in H. destruct H as (d & _ & H).
    eapply generate_directional_moves_start; eassumption.
  - apply in_flat_map in H. destruct H as (lc & _ & H).
    repeat (apply in_app_or in H; destruct H as [H | H];
            [eapply generate_directional_moves_start; eassumption |]).
    eapply generate_directional_moves_start; eassumption.
Qed.

Lemma generate_queen_moves_start3 board layer row col m :
  In m (generate_queen_moves board layer row col) -> starts_at layer row col m.
Proof.
  unfold generate_queen_moves. intro H. apply in_app_or in H.
  destruct H as [H | H];
    [eapply generate_bishop_moves_start3 | eapply generate_rook_moves_start3];
    eassumption.
Qed.

(** A one-step king move changes the column by at most one. *)
Lemma king_steps_step board layer row col m :
  In m (king_steps board layer row col) ->
  starts_at layer row col m /\ Z.abs (to_col m - col) <= 1.
Proof.
  unfold king_steps, offsets3. intro H.
  in_inv; cbn; (split; [start_done | lia]).
Qed.

(** What [generate_king_moves] checked before it wrote a castling move. *)
Lemma king_castles_inv board layer row col m :
  In m (king_castles board layer row col) ->
  let c := color (sq board layer row col) in
  layer = 0 /\ row = home_row c /\ col = 4
  /\ starts_at 0 (home_row c) 4 m
  /\ to_layer m = 0 /\ to_row m = home_row c
  /\ ((to_col m = 6 /\ castling_conditions board c true)
      \/ (to_col m = 2 /\ castling_conditions board c false)).
Proof.
  unfold king_castles. cbv zeta. intro H.
  destruct (layer =? 0) eqn:L; [| destruct H]. apply Z.eqb_eq in L. subst layer.
  fold (home_row (color (sq board 0 row col))) in H.
  set (c := color (sq board 0 row col)) in *.
  destruct ((row =? home_row c) && (col =? 4)) eqn:RC; [| destruct H].
  apply andb_true_iff in RC. destruct RC as [R C].
  apply Z.eqb_eq in R. apply Z.eqb_eq in C.
  destruct (negb (is_king_in_check board c)) eqn:K; [| destruct H].
  apply negb_true_iff in K.
  fold (opponent_of c) in H.
  assert (RK : (if color_eqb c P_WHITE then white_castle_kingside board
                else black_castle_kingside board) = castling_right board c true)
    by (unfold castling_right; destruct (color_eqb c P_WHITE); reflexivity).
  assert (RQ : (if color_eqb c P_WHITE then white_castle_queenside board
                else black_castle_queenside board) = castling_right board c false)
    by (unfold castling_right; destruct (color_eqb c P_WHITE); reflexivity).
  rewrite RK, RQ in H. clear RK RQ.
  split; [reflexivity |]. split; [exact R |]. split; [exact C |].
  apply in_app_or in H. destruct H as [H | H].
  - match type of H with In _ (if ?g then _ else _) => destruct g eqn:G end;
      [| destruct H].
    destruct H as [H | []]. subst m. cbn.
    split; [split; [reflexivity | split; assumption] |].
    split; [reflexivity |]. split; [reflexivity |].
    left. split; [reflexivity |].
    repeat (apply andb_true_iff in G; destruct G as [G ?]).
    repeat match goal with
           | X : negb _ = true |- _ => apply negb_true_iff in X
           | X : piece_eqb _ _ = true |- _ => apply piece_eqb_eq in X
           end.
    split; [exact K |]. split; [exact G |]. split.
    + intros x Hx. assert (x = 5 \/ x = 6) as [-> | ->] by lia; assumption.
    + intros x Hx. assert (x = 5 \/ x = 6) as [-> | ->] by lia; assumption.
  - match type of H with In _ (if ?g then _ else _) => destruct g eqn:G end;
      [| destruct H].
    destruct H as [H | []]. subst m. cbn.
    split; [split; [reflexivity | split; assumption] |].
    split; [reflexivity |]. split; [reflexivity |].
    right. split; [reflexivity |].
    repeat (apply andb_true_iff in G; destruct G as [G ?]).
    repeat match goal with
           | X : negb _ = true |- _ => apply negb_true_iff in X
           | X : piece_eqb _ _ = true |- _ => apply piece_eqb_eq in X
           end.
    split; [exact K |]. split; [exact G |]. split.
    + intros x Hx. assert (x = 1 \/ x = 2 \/ x = 3) as [-> | [-> | ->]] by lia;
        assumption.
    + intros x Hx. assert (x = 2 \/ x = 3) as [-> | ->] by lia; assumption.
Qed.

(** The pseudo-legal moves are the moves of the pieces of the side to
    move, each generated from the square the piece stands on. *)
Lemma generate_pseudo_legal_moves_inv3 board m :
  In m (generate_pseudo_legal_moves board) ->
  exists layer row col,
    is_valid_position layer row col = true
    /\ color (sq board layer row col) = current_player board
    /\ starts_at layer row col m
    /\ In m (generate_moves_for_piece board layer row col).
Proof.
  unfold generate_pseudo_legal_moves. intro H.
  apply in_flat_map in H. destruct H as ([[layer row] col] & Hin & H).
  destruct (color_eqb (color (sq board layer row col)) (current_player board)) eqn:E;
    [| destruct H].
  apply color_eqb_eq3 in E.
  exists layer, row, col.
  split; [exact (all_squares_valid3 _ Hin) |]. split; [exact E |].
  split; [| exact H].
  unfold generate_moves_for_piece in H.
  destruct (piece (sq board layer row col)).
  - destruct H.
  - eapply generate_pawn_moves_start3; eassumption.
  - eapply generate_knight_moves_start3; eassumption.
  - eapply generate_bishop_moves_start3; eassumption.
  - eapply generate_rook_moves_start3; eassumption.
  - eapply generate_queen_moves_start3; eassumption.
  - unfold generate_king_moves in H. apply in_app_or in H. destruct H as [H | H].
    + eapply king_steps_step; eassumption.
    + destruct (king_castles_inv _ _ _ _ _ H) as (L & R & C & S & _).
      destruct S as (A & B & D). repeat split; congruence.
Qed.

(** C5.  A pseudo-legal move of the 3D engine that takes a king two
    columns away starts from column 4 of the king's home row on layer 0
    and lands on column 6 or 2 of that row, and the board meets the
    castling conditions of that wing: the king is not in check, the right
    is there, the squares strictly between king and rook corner are empty,
    and the squares the king crosses, its landing square included, are not
    attacked by the opponent. *)
Theorem castling_only_when_allowed board m :
  In m (generate_pseudo_legal_moves board) ->
  piece (sq board (from_layer m) (from_row m) (from_col m)) = KING ->
  Z.abs (to_col m - from_col m) = 2 ->
  let c := color (sq board (from_layer m) (from_row m) (from_col m)) in
  starts_at 0 (home_row c) 4 m
  /\ to_layer m = 0 /\ to_row m = home_row c
  /\ ((to_col m = 6 /\ castling_conditions board c true)
      \/ (to_col m = 2 /\ castling_conditions board c false)).
Proof.
  intros H K D.
  destruct (generate_pseudo_legal_moves_inv3 _ _ H)
    as (layer & row & col & _ & _ & (S1 & S2 & S3) & G).
  rewrite S1, S2, S3 in *. cbv zeta.
  unfold generate_moves_for_piece in G. rewrite K in G.
  unfold generate_king_moves in G. apply in_app_or in G. destruct G as [G | G].
  - destruct (king_steps_step _ _ _ _ _ G) as (_ & B). lia.
  - destruct (king_castles_inv _ _ _ _ _ G) as (_ & _ & _ & S & T).
    split; [exact S | exact T].
Qed.

(** *** The legal-move list *)

(** Whatever the filtering loop keeps is a candidate it was given. *)
Lemma legal_filter_sub3 board player pseudo m :
  In m (fst (legal_filter board player pseudo)) -> In m pseudo.
Proof.
  revert board.
  induction pseudo as [| m0 rest IH]; intros board H; cbn [legal_filter] in H.
  - destruct H.
  - destruct (legal_filter _ player rest) as [kept final] eqn:E.
    cbn [fst] in H. apply in_app_or in H. destruct H as [H | H].
    + destruct (negb _); [| destruct H]. destruct H as [H | []]. left. exact H.
    + right. eapply IH. rewrite E. exact H.
Qed.

(** *** Kings and check *)

Lemma find_king_none_iff board c :
  find_king board c = None <-> no_king board c.
Proof.
  unfold find_king, no_king. rewrite find_none_iff. split; intro H.
  - intros layer row col V [P C].
    specialize (H (layer, row, col) (all_squares_complete3 _ _ _ V)).
    cbv beta iota in H. rewrite P, C in H. cbn in H.
    assert (E : color_eqb c c = true) by (apply color_eqb_eq3; reflexivity).
    rewrite E in H. discriminate H.
  - intros [[layer row] col] Hin.
    destruct (piece_eqb (piece (sq board layer row col)) KING
              && color_eqb (color (sq board layer row col)) c) eqn:F;
      [| reflexivity].
    exfalso. apply andb_true_iff in F. destruct F as [F1 F2].
    apply piece_eqb_eq in F1. apply color_eqb_eq3 in F2.
    apply (H layer row col (all_squares_valid3 _ Hin)). split; assumption.
Qed.

Lemma is_king_in_check_no_king3 board c :
  no_king board c -> is_king_in_check board c = false.
Proof.
  intro H. apply find_king_none_iff in H. unfold is_king_in_check.
  rewrite H. reflexivity.
Qed.

(** *** Game over *)

Lemma is_game_over_iff3 board :
  fst (is_game_over board) = true <-> fst (generate_legal_moves board) = [].
Proof.
  unfold is_game_over.
  destruct (generate_legal_moves board) as [[| m l] board']; cbn; split;
    intro H; try reflexivity; discriminate H.
Qed.

(** *** The en passant target after a move *)

Lemma make_move_en_passant3 board move :
  let board' := make_move board move in
  if is_double_push board move
  then en_passant_layer board' = from_layer move
       /\ en_passant_row board' = Z.quot (from_row move + to_row move) 2
       /\ en_passant_col board' = from_col move
       /\ is_valid_position (from_layer move) (from_row move) (from_col move) = true
  else en_passant_layer board' = -1
       /\ en_passant_row board' = -1 /\ en_passant_col board' = -1.
Proof.
  unfold is_double_push, make_move.
  cbn [en_passant_layer en_passant_row en_passant_col].
  destruct (piece_eqb
              (piece (sq board (from_layer move) (from_row move) (from_col move))) PAWN
            && (Z.abs (to_row move - from_row move) =? 2)
            && (from_layer move =? to_layer move)) eqn:D.
  - split; [reflexivity |]. split; [reflexivity |]. split; [reflexivity |].
    apply andb_true_iff in D. destruct D as [D _].
    apply andb_true_iff in D. destruct D as [D _].
    unfold sq, sq_at in D.
    destruct (is_valid_position (from_layer move) (from_row move) (from_col move));
      [reflexivity | discriminate D].
  - split; [reflexivity |]. split; reflexivity.
Qed.

(** *** Eight iterations exhaust a ray *)

Lemma ray_moves_more_fuel3 board layer row col row_dir col_dir layer_dir extra :
  forall n cl cr cc,
    is_valid_position (cl + Z.of_nat n * layer_dir) (cr + Z.of_nat n * row_dir)
      (cc + Z.of_nat n * col_dir) = false ->
    ray_moves (S n + extra) board layer row col row_dir col_dir layer_dir cl cr cc
    = ray_moves (S n) board layer row col row_dir col_dir layer_dir cl cr cc.
Proof.
  induction n as [| n IH]; intros cl cr cc H.
  - cbn [Z.of_nat] in H. rewrite !Z.mul_0_l, !Z.add_0_r in H.
    cbn [Nat.add ray_moves]. rewrite H. reflexivity.
  - change (S (S n) + extra)%nat with (S (S n + extra)).
    cbn [ray_moves].
    rewrite IH; [reflexivity |].
    rewrite <- H. f_equal; lia.
Qed.

(** From a square of the board and along a direction that is not
    (0, 0, 0), the loop of [generate_directional_moves] stops by itself
    within eight iterations: more fuel does not change its result. *)
Lemma generate_directional_moves_fuel3 board layer row col row_dir col_dir layer_dir extra :
  is_valid_position layer row col = true ->
  row_dir <> 0 \/ col_dir <> 0 \/ layer_dir <> 0 ->
  ray_moves (8 + extra) board layer row col row_dir col_dir layer_dir
    (layer + layer_dir) (row + row_dir) (col + col_dir)
  = generate_directional_moves board layer row col row_dir col_dir layer_dir.
Proof.
  intros V D. unfold generate_directional_moves.
  apply (ray_moves_more_fuel3 board layer row col row_dir col_dir layer_dir extra 7).
  apply is_valid_position_iff3 in V.
  destruct (is_valid_position _ _ _) eqn:E; [| reflexivity].
  apply is_valid_position_iff3 in E. lia.
Qed.

Lemma ray_attacked_more_fuel3 board tl tr tc l_dir r_dir c_dir attacker extra :
  forall n step,
    is_valid_position (tl + (step + Z.of_nat n) * l_dir)
      (tr + (step + Z.of_nat n) * r_dir) (tc + (step + Z.of_nat n) * c_dir) = false ->
    ray_attacked (S n + extra) board tl tr tc l_dir r_dir c_dir attacker step
    = ray_attacked (S n) board tl tr tc l_dir r_dir c_dir attacker step.
Proof.
  induction n as [| n IH]; intros step H.
  - cbn [Z.of_nat] in H. rewrite !Z.add_0_r in H.
    cbn [Nat.add ray_attacked]. rewrite H. reflexivity.
  - change (S (S n) + extra)%nat with (S (S n + extra)).
    cbn [ray_attacked].
    rewrite IH; [reflexivity |].
    rewrite <- H. f_equal; lia.
Qed.

(** The same for the ray loops of [is_square_attacked], from any target
    square of the board. *)
Lemma is_square_attacked_fuel3 board tl tr tc l_dir r_dir c_dir attacker extra :
  is_valid_position tl tr tc = true ->
  l_dir <> 0 \/ r_dir <> 0 \/ c_dir <> 0 ->
  ray_attacked (8 + extra) board tl tr tc l_dir r_dir c_dir attacker 1
  = ray_attacked 8 board tl tr tc l_dir r_dir c_dir attacker 1.
Proof.
  intros V D.
  apply (ray_attacked_more_fuel3 board tl tr tc l_dir r_dir c_dir attacker extra 7).
  apply is_valid_position_iff3 in V.
  destruct (is_valid_position _ _ _) eqn:E; [| reflexivity].
  apply is_valid_position_iff3 in E. lia.
Qed.

(** *** A double push among the generated moves *)

Ltac bools3 :=
  repeat match goal with
  | H : _ && _ = true |- _ => apply andb_true_iff in H; destruct H
  | H : negb _ = true |- _ => apply negb_true_iff in H
  | H : piece_eqb _ _ = true |- _ => apply piece_eqb_eq in H
  | H : piece_eqb _ _ = false |- _ => apply piece_eqb_neq in H
  | H : (_ =? _) = true |- _ => apply Z.eqb_eq in H
  | H : (_ =? _) = false |- _ => apply Z.eqb_neq in H
  end.

(** A pseudo-legal move that takes a pawn two rows away within its layer
    is a straight advance over an empty square, and that square is the en
    passant target [make_move] sets. *)
Lemma generated_double_push3 board m :
  In m (generate_pseudo_legal_moves board) ->
  is_double_push board m = true ->
  let direction :=
    if color_eqb (color (sq board (from_layer m) (from_row m) (from_col m))) P_WHITE
    then -1 else 1 in
  let skipped_row := from_row m + direction in
  to_col m = from_col m
  /\ to_row m = skipped_row + direction
  /\ piece (sq board (from_layer m) skipped_row (from_col m)) = EMPTY
  /\ en_passant_layer (make_move board m) = from_layer m
  /\ en_passant_row (make_move board m) = skipped_row
  /\ en_passant_col (make_move board m) = from_col m.
Proof.
  intros H D. cbv zeta.
  pose proof (make_move_en_passant3 board m) as EP. cbv zeta in EP.
  rewrite D in EP. destruct EP as (El & Er & Ec & _).
  rewrite El, Er, Ec.
  unfold is_double_push in D.
  apply andb_true_iff in D. destruct D as [D Same].
  apply andb_true_iff in D. destruct D as [Pw Two].
  apply piece_eqb_eq in Pw. apply Z.eqb_eq in Two.
  destruct (generate_pseudo_legal_moves_inv3 _ _ H)
    as (layer & row & col & _ & _ & (S1 & S2 & S3) & G).
  rewrite S1, S2, S3 in *.
  unfold generate_moves_for_piece in G. rewrite Pw in G.
  unfold generate_pawn_moves, promo_pieces, offsets2 in G. cbv zeta in G.
  destruct (color_eqb (color (sq board layer row col)) P_WHITE);
    in_inv; bools3; cbn in *; try (exfalso; lia);
    (split; [reflexivity |]; split; [lia |]; split; [assumption |];
     split; [reflexivity |]; split; [| reflexivity]).
  - replace (row + (row + -2)) with ((row + -1) * 2) by lia. apply Z.quot_mul. lia.
  - replace (row + (row + 2)) with ((row + 1) * 2) by lia. apply Z.quot_mul. lia.
Qed.

End Facts3D.

(** ** Statements over both engines *)

(** C4.  After [make_move], in either engine and for every board and
    every move, the en passant target is the square half-way between the
    origin and the destination of the move, in the column of the origin,
    when the move took a pawn two rows away (within its layer, in the 3D
    engine), and that square lies in a column of the board; after every
    other move the target is cleared, all its coordinates being -1. *)
Theorem en_passant_target_after_make :
  (forall (board : Chess2D.Board) (move : Chess2D.Move),
     let board' := fst (Chess2D.make_move board move) in
     if Chess2D.is_double_push board move
     then Chess2D.en_passant_row board'
            = Z.quot (Chess2D.from_row move + Chess2D.to_row move) 2
          /\ Chess2D.en_passant_col board' = Chess2D.from_col move
          /\ 0 <= Chess2D.en_passant_col board' < 8
     else Chess2D.en_passant_row board' = -1 /\ Chess2D.en_passant_col board' = -1)
  /\
  (forall (board : Chess3D.Board) (move : Chess3D.Move),
     let board' := Chess3D.make_move board move in
     if Chess3D.is_double_push board move
     then Chess3D.en_passant_layer board' = Chess3D.from_layer move
          /\ Chess3D.en_passant_row board'
             = Z.quot (Chess3D.from_row move + Chess3D.to_row move) 2
          /\ Chess3D.en_passant_col board' = Chess3D.from_col move
          /\ 0 <= Chess3D.en_passant_col board' < 8
     else Chess3D.en_passant_layer board' = -1
          /\ Chess3D.en_passant_row board' = -1
          /\ Chess3D.en_passant_col board' = -1).
Proof.
  split; intros board move; cbv zeta.
  - pose proof (Facts2D.make_move_en_passant board move) as H. cbv zeta in H.
    destruct (Chess2D.is_double_push board move); [| exact H].
    destruct H as (R & C & V). split; [exact R |]. split; [exact C |].
    rewrite C. apply Facts2D.is_valid_position_iff in V. lia.
  - pose proof (Facts3D.make_move_en_passant3 board move) as H. cbv zeta in H.
    destruct (Chess3D.is_double_push board move); [| exact H].
    destruct H as (L & R & C & V).
    split; [exact L |]. split; [exact R |]. split; [exact C |].
    rewrite C. apply Facts3D.is_valid_position_iff3 in V. lia.
Qed.

(** Black's king-side castling in [castle_ready] is such a move. *)
Lemma castling_only_when_allowed_witness :
  In Chess3D.black_castles_kingside
    (Chess3D.generate_pseudo_legal_moves Chess3D.castle_ready)
  /\ Chess3D.castling_conditions Chess3D.castle_ready Chess3D.P_BLACK true.
Proof.
  assert (I : In Chess3D.black_castles_kingside
                (Chess3D.generate_pseudo_legal_moves Chess3D.castle_ready)).
  { assert (E : nth_error (Chess3D.generate_pseudo_legal_moves Chess3D.castle_ready) 27
                = Some Chess3D.black_castles_kingside) by (vm_compute; reflexivity).
    exact (nth_error_In _ _ E). }
  split; [exact I |].
  destruct (Facts3D.castling_only_when_allowed
              Chess3D.castle_ready Chess3D.black_castles_kingside I)
    as (_ & _ & _ & [[_ C] | [T _]]).
  - vm_compute. reflexivity.
  - vm_compute. reflexivity.
  - exact C.
  - vm_compute in T. discriminate T.
Defined.

(** [is_game_over] of the 3D engine counts what [generate_legal_moves]
    returns, and that list can be empty while a move is left.  In
    [only_en_passant] White has 13 pseudo-legal moves, and after exactly
    one of them, the en passant capture of the checking pawn, the white
    king is not attacked.  [generate_legal_moves] first simulates the
    forward step of the same pawn, which clears the en passant target,
    then drops the capture with the other moves: [is_game_over] answers
    [true] with the clock at 0 and both kings on the board. *)
Lemma is_game_over3_with_a_move_left :
  let b := Chess3D.only_en_passant in
  let m := Chess3D.en_passant_escape in
  List.length (Chess3D.generate_pseudo_legal_moves b) = 13%nat
  /\ filter (fun m' =>
               negb (Chess3D.is_king_in_check (Chess3D.make_move b m')
                       (Chess3D.current_player b)))
       (Chess3D.generate_pseudo_legal_moves b) = [m]
  /\ Chess3D.halfmove_clock b = 0
  /\ Chess3D.find_king b Chess3D.P_WHITE = Some (0, 4, 0)
  /\ Chess3D.find_king b Chess3D.P_BLACK = Some (2, 0, 7)
  /\ fst (Chess3D.generate_legal_moves b) = []
  /\ fst (Chess3D.is_game_over b) = true.
Proof.
  cbv zeta.
  assert (E : fst (Chess3D.generate_legal_moves Chess3D.only_en_passant) = [])
    by (vm_compute; reflexivity).
  split; [vm_compute; reflexivity |].
  split; [vm_compute; reflexivity |].
  split; [reflexivity |].
  split; [vm_compute; reflexivity |].
  split; [vm_compute; reflexivity |].
  split; [exact E |].
  apply Facts3D.is_game_over_iff3. exact E.
Qed.

(** C9.  On a board without a king of the queried color, in either engine,
    [find_king] reports that there is none (result [false]; the 2D engine
    also sets both output coordinates to -1) and [is_king_in_check]
    answers [false]; the scan only reads squares of the board. *)
Theorem missing_king_is_tolerated :
  forall (b2 : Chess2D.Board) (c2 : Chess2D.PlayerColor)
         (b3 : Chess3D.Board) (c3 : Chess3D.PieceColor),
    Chess2D.no_king b2 c2 ->
    Chess3D.no_king b3 c3 ->
    Chess2D.find_king b2 c2 = (false, (-1, -1))
    /\ Chess2D.is_king_in_check b2 c2 = false
    /\ Chess3D.find_king b3 c3 = None
    /\ Chess3D.is_king_in_check b3 c3 = false
    /\ (forall rc, In rc Chess2D.all_squares ->
          Chess2D.is_valid_position (fst rc) (snd rc) = true)
    /\ (forall lrc, In lrc Chess3D.all_squares ->
          Chess3D.is_valid_position (fst (fst lrc)) (snd (fst lrc)) (snd lrc) = true).
Proof.
  intros b2 c2 b3 c3 H2 H3.
  split; [exact (Facts2D.find_king_no_king _ _ H2) |].
  split; [exact (Facts2D.is_king_in_check_no_king _ _ H2) |].
  split; [exact (proj2 (Facts3D.find_king_none_iff _ _) H3) |].
  split; [exact (Facts3D.is_king_in_check_no_king3 _ _ H3) |].
  split; [exact Facts2D.all_squares_valid | exact Facts3D.all_squares_valid3].
Qed.

(** The boards without any piece are such boards. *)
Lemma missing_king_is_tolerated_witness :
  Chess2D.no_king Chess2D.bare_board Chess2D.PLAYER_WHITE
  /\ Chess3D.no_king Chess3D.bare_board Chess3D.P_BLACK
  /\ Chess2D.is_king_in_check Chess2D.bare_board Chess2D.PLAYER_WHITE = false
  /\ Chess3D.is_king_in_check Chess3D.bare_board Chess3D.P_BLACK = false.
Proof.
  assert (H2 : Chess2D.no_king Chess2D.bare_board Chess2D.PLAYER_WHITE)
    by (apply Facts2D.find_king_false_iff; vm_compute; reflexivity).
  assert (H3 : Chess3D.no_king Chess3D.bare_board Chess3D.P_BLACK)
    by (apply Facts3D.find_king_none_iff; vm_compute; reflexivity).
  split; [exact H2 |]. split; [exact H3 |].
  destruct (missing_king_is_tolerated _ _ _ _ H2 H3) as (_ & A & _ & B & _).
  split; [exact A | exact B].
Defined.

(** C10.  No move the legal-move generator of the 2D engine returns takes
    a king two columns away from where it stands, on any board. *)
Theorem no_castling_among_2d_legal_moves :
  forall (board : Chess2D.Board) (m : Chess2D.Move),
    In m (Chess2D.generate_legal_moves board) ->
    Chess2D.piece (Chess2D.sq board (Chess2D.from_row m) (Chess2D.from_col m)) = KING ->
    Z.abs (Chess2D.to_col m - Chess2D.from_col m) <> 2.
Proof.
  intros board m H K.
  destruct (Facts2D.legal_king_move_is_a_step board m H K) as [_ B]. lia.
Qed.

(** A step of the white king in [castle_ready] is such a move. *)
Lemma no_castling_among_2d_legal_moves_witness :
  In Chess2D.white_king_step (Chess2D.generate_legal_moves Chess2D.castle_ready)
  /\ Z.abs (Chess2D.to_col Chess2D.white_king_step
            - Chess2D.from_col Chess2D.white_king_step) <> 2.
Proof.
  assert (I : In Chess2D.white_king_step
                (Chess2D.generate_legal_moves Chess2D.castle_ready)).
  { assert (E : nth_error (Chess2D.generate_legal_moves Chess2D.castle_ready) 10
                = Some Chess2D.white_king_step) by (vm_compute; reflexivity).
    exact (nth_error_In _ _ E). }
  split; [exact I |].
  apply (no_castling_among_2d_legal_moves Chess2D.castle_ready _ I).
  vm_compute. reflexivity.
Defined.

(** In [castle_ready] every castling precondition of the specification
    holds for White on both wings, the 2D generator returns 24 legal moves
    none of which is a castling move, and [make_move], handed the castling
    move all the same, relocates the rook from (7, 7) to (7, 5). *)
Lemma castle_ready_2d_facts :
  let b := Chess2D.castle_ready in
  let b' := fst (Chess2D.make_move b Chess2D.white_castles_kingside) in
  (Chess2D.white_castle_kingside b = true /\ Chess2D.white_castle_queenside b = true)
  /\ Chess2D.is_king_in_check b Chess2D.PLAYER_WHITE = false
  /\ forallb (fun col => piece_eqb (Chess2D.piece (Chess2D.sq b 7 col)) EMPTY)
       [1; 2; 3; 5; 6] = true
  /\ forallb (fun col => negb (Chess2D.is_square_attacked b 7 col Chess2D.PLAYER_BLACK))
       [2; 3; 5; 6] = true
  /\ List.length (Chess2D.generate_legal_moves b) = 24%nat
  /\ Chess2D.sq b' 7 6 = Chess2D.mkSquare KING Chess2D.PLAYER_WHITE
  /\ Chess2D.sq b' 7 5 = Chess2D.mkSquare ROOK Chess2D.PLAYER_WHITE
  /\ Chess2D.sq b' 7 7 = Chess2D.empty_square.
Proof.
  cbv zeta.
  split; [split; reflexivity |].
  split; [vm_compute; reflexivity |].
  split; [vm_compute; reflexivity |].
  split; [vm_compute; reflexivity |].
  split; [vm_compute; reflexivity |].
  split; [vm_compute; reflexivity |].
  split; vm_compute; reflexivity.
Qed.

(** * Further properties of the engines *)

(** ** The 2D engine *)

Module Further2D.
Import Chess2D.
Import Facts2D.

(** A board that passes the test [well_formedb] is well-formed. *)
Lemma well_formedb_sound board : well_formedb board = true -> well_formed board.
Proof.
  unfold well_formedb. intro H.
  repeat (apply andb_true_iff in H; destruct H as [H ?]).
  constructor.
  - apply Nat.eqb_eq. assumption.
  - match goal with X : _ || _ = true |- _ \/ _ =>
      apply orb_true_iff in X; destruct X as [X | X]; apply color_eqb_eq in X;
      [left | right]; exact X end.
  - intros row col E. unfold sq, sq_at in *.
    destruct (is_valid_position row col) eqn:V; [| reflexivity].
    match goal with X : forallb _ _ = true |- _ =>
      rewrite forallb_forall in X;
      specialize (X (row, col) (all_squares_complete _ _ V)); cbn [fst snd] in X;
      unfold sq, sq_at in X; rewrite V in X; rewrite E in X; cbn in X;
      apply color_eqb_eq in X; exact X end.
  - intro V.
    match goal with X : negb (is_valid_position _ _) || _ = true |- _ =>
      rewrite V in X; cbn [negb orb] in X;
      repeat (apply andb_true_iff in X; destruct X as [X ?]);
      apply piece_eqb_eq in X end.
    repeat match goal with
           | X : piece_eqb _ _ = true |- _ => apply piece_eqb_eq in X
           | X : color_eqb _ _ = true |- _ => apply color_eqb_eq in X
           end.
    split; [assumption |].
    rewrite <- (square_eta (sq board _ _)). f_equal; assumption.
  - unfold int_range. lia.
Qed.

(** X1.  In the 2D engine, making a legal move of a position of a game
    and undoing it with the move as [make_move] left it restores the
    board in every field. *)
Theorem make_then_undo_restores_the_board (board : Board) (m : Move) :
  reachable board ->
  In m (generate_legal_moves board) ->
  undo_move (fst (make_move board m)) (snd (make_move board m)) = board.
Proof. apply undo_make_legal. Qed.

(** The step of the a-pawn from the initial position is such a move. *)
Lemma make_then_undo_restores_the_board_witness :
  reachable init_board
  /\ In a_pawn_step (generate_legal_moves init_board)
  /\ undo_move (fst (make_move init_board a_pawn_step))
       (snd (make_move init_board a_pawn_step)) = init_board.
Proof.
  assert (I : In a_pawn_step (generate_legal_moves init_board)).
  { assert (E : nth_error (generate_legal_moves init_board) 0 = Some a_pawn_step)
      by (vm_compute; reflexivity).
    exact (nth_error_In _ _ E). }
  split; [exact reach_init |]. split; [exact I |].
  exact (make_then_undo_restores_the_board init_board a_pawn_step reach_init I).
Defined.

(** X2.  Every position of a game of the 2D engine is well-formed: the
    board has its 64 squares, White or Black is to move, no empty square
    carries a color, the en passant target, when it is a square of the
    board, is empty and lies right behind a pawn of the side that just
    moved, and the fullmove number is within [int]. *)
Theorem positions_of_a_game_are_well_formed (board : Board) :
  reachable board -> well_formed board.
Proof. apply reachable_well_formed. Qed.

(** The position after the step of the a-pawn is such a position. *)
Lemma positions_of_a_game_are_well_formed_witness :
  reachable (fst (make_move init_board a_pawn_step))
  /\ well_formed (fst (make_move init_board a_pawn_step)).
Proof.
  assert (R : reachable (fst (make_move init_board a_pawn_step))).
  { apply reach_move; [exact reach_init |].
    assert (E : nth_error (generate_legal_moves init_board) 0 = Some a_pawn_step)
      by (vm_compute; reflexivity).
    exact (nth_error_In _ _ E). }
  split; [exact R |].
  exact (positions_of_a_game_are_well_formed _ R).
Defined.

(** After a legal move of a well-formed board the king of the side that
    moved is not in check. *)
Lemma legal_move_leaves_king_safe board m :
  well_formed board ->
  In m (generate_legal_moves board) ->
  is_king_in_check (fst (make_move board m)) (current_player board) = false.
Proof.
  intros W H. rewrite (generate_legal_moves_spec _ W) in H.
  apply in_flat_map in H. destruct H as (m0 & _ & H).
  destruct (negb (is_king_in_check (fst (make_move board m0)) (current_player board)))
    eqn:K; [| destruct H].
  destruct H as [H | []]. subst m.
  rewrite <- (make_move_same_board board m0 _ (make_move_same board m0)).
  apply negb_true_iff. exact K.
Qed.

Lemma opponent_not_in_check board :
  reachable board ->
  is_king_in_check board (opponent_of (current_player board)) = false.
Proof.
  induction 1 as [| board m R IH Hin].
  - vm_compute. reflexivity.
  - pose proof (reachable_well_formed _ R) as W.
    pose proof (generate_legal_moves_generated _ _ W Hin) as G.
    rewrite make_move_player, (g_color _ _ G).
    rewrite (opponent_of_involutive _ (wf_player _ W)).
    apply legal_move_leaves_king_safe; assumption.
Qed.

(** X3.  In every position of a game of the 2D engine, the side that is
    not to move is not in check. *)
Theorem side_not_to_move_is_not_in_check (board : Board) :
  reachable board ->
  is_king_in_check board (opponent_of (current_player board)) = false.
Proof. apply opponent_not_in_check. Qed.

(** The position after the step of the a-pawn is such a position. *)
Lemma side_not_to_move_is_not_in_check_witness :
  reachable (fst (make_move init_board a_pawn_step))
  /\ is_king_in_check (fst (make_move init_board a_pawn_step)) PLAYER_WHITE = false.
Proof.
  assert (R : reachable (fst (make_move init_board a_pawn_step))).
  { apply reach_move; [exact reach_init |].
    assert (E : nth_error (generate_legal_moves init_board) 0 = Some a_pawn_step)
      by (vm_compute; reflexivity).
    exact (nth_error_In _ _ E). }
  split; [exact R |].
  exact (side_not_to_move_is_not_in_check _ R).
Defined.

(** X4.  On a well-formed board the 2D legal-move generator keeps a
    pseudo-legal move, with the snapshot of [make_move] stored in it,
    exactly when the king of the side to move is not in check in the
    position the move leads to. *)
Theorem legal_moves_are_the_safe_pseudo_legal_moves (board : Board) (m : Move) :
  well_formed board ->
  In m (generate_pseudo_legal_moves board) ->
  In (snd (make_move board m)) (generate_legal_moves board)
  <-> is_king_in_check (fst (make_move board m)) (current_player board) = false.
Proof. apply generate_legal_moves_keeps. Qed.

(** In [pinned_rook] the rook that leaves the column of its king is a
    pseudo-legal move that exposes the king: it is not among the legal
    moves. *)
Lemma legal_moves_are_the_safe_pseudo_legal_moves_witness :
  well_formed pinned_rook
  /\ In rook_leaves_the_pin (generate_pseudo_legal_moves pinned_rook)
  /\ is_king_in_check (fst (make_move pinned_rook rook_leaves_the_pin))
       (current_player pinned_rook) = true
  /\ ~ In (snd (make_move pinned_rook rook_leaves_the_pin))
         (generate_legal_moves pinned_rook).
Proof.
  assert (W : well_formed pinned_rook)
    by (apply well_formedb_sound; vm_compute; reflexivity).
  assert (I : In rook_leaves_the_pin (generate_pseudo_legal_moves pinned_rook)).
  { assert (E : nth_error (generate_pseudo_legal_moves pinned_rook) 9
                = Some rook_leaves_the_pin) by (vm_compute; reflexivity).
    exact (nth_error_In _ _ E). }
  assert (K : is_king_in_check (fst (make_move pinned_rook rook_leaves_the_pin))
                (current_player pinned_rook) = true) by (vm_compute; reflexivity).
  split; [exact W |]. split; [exact I |]. split; [exact K |].
  intro L.
  apply (legal_moves_are_the_safe_pseudo_legal_moves pinned_rook _ W I) in L.
  rewrite K in L. discriminate L.
Defined.

(** One call of [make_move] clears castling rights or leaves them as they
    are. *)
Lemma make_move_rights board m :
  Bool.le (white_castle_kingside (fst (make_move board m)))
    (white_castle_kingside board)
  /\ Bool.le (white_castle_queenside (fst (make_move board m)))
       (white_castle_queenside board)
  /\ Bool.le (black_castle_kingside (fst (make_move board m)))
       (black_castle_kingside board)
  /\ Bool.le (black_castle_queenside (fst (make_move board m)))
       (black_castle_queenside board).
Proof.
  unfold make_move. cbv zeta.
  cbn [fst white_castle_kingside white_castle_queenside
       black_castle_kingside black_castle_queenside].
  destruct (white_castle_kingside board), (white_castle_queenside board),
           (black_castle_kingside board), (black_castle_queenside board);
    repeat split;
    repeat match goal with
           | |- context [if ?c then _ else _] => destruct c
           end; reflexivity.
Qed.

Lemma le_bool_trans (a b c : bool) : Bool.le a b -> Bool.le b c -> Bool.le a c.
Proof. destruct a, b, c; cbn; intros; congruence. Qed.

(** X5.  In the 2D engine a castling right that [make_move] has cleared
    never comes back: after any sequence of calls of [make_move], whatever
    the moves, each of the four rights that is set was set on the board the
    sequence started from. *)
Theorem castling_rights_are_never_regained (board : Board) (ms : list Move) :
  Bool.le (white_castle_kingside (make_moves board ms))
    (white_castle_kingside board)
  /\ Bool.le (white_castle_queenside (make_moves board ms))
       (white_castle_queenside board)
  /\ Bool.le (black_castle_kingside (make_moves board ms))
       (black_castle_kingside board)
  /\ Bool.le (black_castle_queenside (make_moves board ms))
       (black_castle_queenside board).
Proof.
  revert board. induction ms as [| m ms IH]; intro board.
  - unfold make_moves. cbn [fold_left].
    repeat split; match goal with |- Bool.le ?b ?b => destruct b; reflexivity end.
  - unfold make_moves in *. cbn [fold_left].
    destruct (IH (fst (make_move board m))) as (A1 & A2 & A3 & A4).
    destruct (make_move_rights board m) as (B1 & B2 & B3 & B4).
    repeat split; eapply le_bool_trans; eassumption.
Qed.

(** X6.  The ordering scores of the 2D engine rank every promotion ahead
    of every capture that does not promote, and every such capture ahead
    of every quiet move: with the scores of [score_move] written into the
    moves, [compare_moves] is negative in both cases, so [qsort] places
    them in this order. *)
Theorem promotions_before_captures_before_quiet_moves
    (board : Board) (mp mc mq : Move) :
  promotion mp <> EMPTY ->
  promotion mc = EMPTY -> captured_piece (previous_state mc) <> EMPTY ->
  promotion mq = EMPTY -> captured_piece (previous_state mq) = EMPTY ->
  compare_moves (with_score mp (score_move board mp))
    (with_score mc (score_move board mc)) < 0
  /\ compare_moves (with_score mc (score_move board mc))
       (with_score mq (score_move board mq)) < 0.
Proof.
  intros Pp Pc Cc Pq Cq.
  unfold compare_moves, with_score, score_move. cbn [score].
  rewrite Pc, Pq, Cq. cbn [piece_eqb negb].
  destruct (promotion mp); try contradiction;
    destruct (captured_piece (previous_state mc)); try contradiction;
    destruct (piece (sq board (from_row mc) (from_col mc)));
    vm_compute; split; reflexivity.
Qed.

(** A promoting push, a capture by a rook and a quiet move, on the initial
    board. *)
Lemma promotions_before_captures_before_quiet_moves_witness :
  compare_moves
    (with_score (gen_move 1 0 0 0 QUEEN EMPTY NONE)
       (score_move init_board (gen_move 1 0 0 0 QUEEN EMPTY NONE)))
    (with_score (gen_move 7 0 1 0 EMPTY PAWN PLAYER_BLACK)
       (score_move init_board (gen_move 7 0 1 0 EMPTY PAWN PLAYER_BLACK))) < 0
  /\ compare_moves
       (with_score (gen_move 7 0 1 0 EMPTY PAWN PLAYER_BLACK)
          (score_move init_board (gen_move 7 0 1 0 EMPTY PAWN PLAYER_BLACK)))
       (with_score (gen_move 6 0 5 0 EMPTY EMPTY NONE)
          (score_move init_board (gen_move 6 0 5 0 EMPTY EMPTY NONE))) < 0.
Proof.
  apply (promotions_before_captures_before_quiet_moves init_board
           (gen_move 1 0 0 0 QUEEN EMPTY NONE)
           (gen_move 7 0 1 0 EMPTY PAWN PLAYER_BLACK)
           (gen_move 6 0 5 0 EMPTY EMPTY NONE));
    cbn; first [ discriminate | reflexivity ].
Defined.

(** The scanning order lists square [(row, col)] at index [cell row col]. *)
Lemma nth_all_squares row col :
  is_valid_position row col = true ->
  nth (cell row col) all_squares (0, 0) = (row, col).
Proof.
  intro V.
  assert (F : Forall (fun rc => nth (cell (fst rc) (snd rc)) all_squares (0, 0) = rc)
                all_squares).
  { vm_compute. repeat constructor. }
  rewrite Forall_forall in F.
  exact (F (row, col) (all_squares_complete _ _ V)).
Qed.

(** The squares of the mirrored board. *)
Lemma sq_mirror board row col :
  is_valid_position row col = true ->
  sq (mirror board) row col = flip_square (sq board (7 - row) col).
Proof.
  intro V. unfold sq at 1, sq_at. rewrite V. unfold mirror. cbn [squares].
  rewrite (nth_indep _ empty_square
             (flip_square (sq board (7 - fst (0, 0)) (snd (0, 0))))).
  - rewrite (map_nth (fun rc => flip_square (sq board (7 - fst rc) (snd rc)))).
    rewrite (nth_all_squares _ _ V). reflexivity.
  - rewrite length_map. apply cell_lt. exact V.
Qed.

(** What a square of the mirrored board adds to the two scores. *)
Lemma square_scores_mirror board rc :
  pieces_colored board ->
  In rc all_squares ->
  square_scores (mirror board) rc
  = (- fst (square_scores board (7 - fst rc, snd rc)),
     - snd (square_scores board (7 - fst rc, snd rc))).
Proof.
  intros PC Hin. pose proof (all_squares_valid _ Hin) as V.
  destruct rc as [r c]. cbn [fst snd] in *.
  assert (V' : is_valid_position (7 - r) c = true).
  { apply is_valid_position_iff. apply is_valid_position_iff in V. lia. }
  unfold square_scores. cbn [fst snd]. rewrite (sq_mirror _ _ _ V).
  unfold flip_square. cbn [piece color].
  destruct (piece_eqb (piece (sq board (7 - r) c)) EMPTY) eqn:E;
    cbn [negb]; [reflexivity |].
  apply piece_eqb_neq in E.
  destruct (PC _ _ V' E) as [C | C]; rewrite C; cbn [color_eqb fst snd].
  - reflexivity.
  - replace (7 - (7 - r)) with r by lia. f_equal; lia.
Qed.

Lemma fold_left_sum_ext {A : Type} (f g : A -> Z) (l : list A) (a : Z) :
  (forall x, In x l -> f x = g x) ->
  fold_left (fun acc x => acc + f x) l a = fold_left (fun acc x => acc + g x) l a.
Proof.
  revert a. induction l as [| x l IH]; intros a H; [reflexivity |].
  cbn [fold_left]. rewrite (H x (or_introl eq_refl)).
  apply IH. intros y Hy. apply H. right. exact Hy.
Qed.

(** Summing over the squares row by row from the far side gives the
    same total. *)
Lemma sum_all_squares_mirror (h : Z * Z -> Z) :
  fold_left (fun acc rc => acc + - h (7 - fst rc, snd rc)) all_squares 0
  = - fold_left (fun acc rc => acc + h rc) all_squares 0.
Proof.
  unfold all_squares, range8.
  cbn [flat_map map app fold_left fst snd].
  repeat match goal with
         | |- context [7 - ?n] =>
             let v := eval vm_compute in (7 - n) in change (7 - n) with v
         end.
  lia.
Qed.

(** X7.  The evaluation of the 2D engine is antisymmetric: on a board
    whose pieces are all White's or Black's, exchanging the two sides
    (rows reversed, colors exchanged) negates [evaluate_board]. *)
Theorem evaluate_board_of_the_mirrored_board (board : Board) :
  pieces_colored board ->
  evaluate_board (mirror board) = - evaluate_board board.
Proof.
  intro PC. unfold evaluate_board. cbv zeta.
  rewrite (fold_left_sum_ext
             (fun rc => fst (square_scores (mirror board) rc))
             (fun rc => - (fun x => fst (square_scores board x)) (7 - fst rc, snd rc)))
    by (intros rc Hin; rewrite (square_scores_mirror _ _ PC Hin); reflexivity).
  rewrite (fold_left_sum_ext
             (fun rc => snd (square_scores (mirror board) rc))
             (fun rc => - (fun x => snd (square_scores board x)) (7 - fst rc, snd rc)))
    by (intros rc Hin; rewrite (square_scores_mirror _ _ PC Hin); reflexivity).
  rewrite (sum_all_squares_mirror (fun x => fst (square_scores board x))).
  rewrite (sum_all_squares_mirror (fun x => snd (square_scores board x))).
  lia.
Qed.

(** The position after the step of White's a-pawn, and its mirror image. *)
Lemma evaluate_board_of_the_mirrored_board_witness :
  pieces_colored (fst (make_move init_board a_pawn_step))
  /\ evaluate_board (mirror (fst (make_move init_board a_pawn_step)))
     = - evaluate_board (fst (make_move init_board a_pawn_step)).
Proof.
  assert (PC : pieces_colored (fst (make_move init_board a_pawn_step))).
  { intros row col V.
    assert (F : forallb (fun rc =>
                  let s := sq (fst (make_move init_board a_pawn_step))
                             (fst rc) (snd rc) in
                  piece_eqb (piece s) EMPTY
                  || color_eqb (color s) PLAYER_WHITE
                  || color_eqb (color s) PLAYER_BLACK) all_squares = true)
      by (vm_compute; reflexivity).
    rewrite forallb_forall in F.
    specialize (F (row, col) (all_squares_complete _ _ V)).
    cbv zeta in F. cbn [fst snd] in F. intro NE.
    apply orb_true_iff in F. destruct F as [F | F];
      [| right; apply color_eqb_eq; exact F].
    apply orb_true_iff in F. destruct F as [F | F];
      [| left; apply color_eqb_eq; exact F].
    apply piece_eqb_eq in F. contradiction. }
  split; [exact PC |].
  apply (evaluate_board_of_the_mirrored_board _ PC).
Defined.

Lemma ray_moves_sound board row col row_dir col_dir :
  is_valid_position row col = true ->
  piece (sq board row col) <> EMPTY ->
  color (sq board row col) = current_player board ->
  row_dir <> 0 \/ col_dir <> 0 ->
  forall fuel k m,
    1 <= k ->
    In m (ray_moves fuel board row col row_dir col_dir (color (sq board row col))
            (row + k * row_dir) (col + k * col_dir)) ->
    sound_move board m.
Proof.
  intros V P C D.
  induction fuel as [| fuel IH]; intros k m K H; cbn [ray_moves] in H.
  - destruct H.
  - destruct (is_valid_position (row + k * row_dir) (col + k * col_dir)) eqn:Vt;
      [| destruct H].
    assert (Far : row <> row + k * row_dir \/ col <> col + k * col_dir) by nia.
    destruct (piece_eqb (piece (sq board (row + k * row_dir) (col + k * col_dir)))
                EMPTY) eqn:Em.
    + destruct H as [H | H].
      * subst m. constructor; cbn; try assumption.
        left. apply piece_eqb_eq. exact Em.
      * apply (IH (k + 1) m); [lia |].
        replace (row + (k + 1) * row_dir) with (row + k * row_dir + row_dir) by lia.
        replace (col + (k + 1) * col_dir) with (col + k * col_dir + col_dir) by lia.
        exact H.
    + destruct (negb _) eqn:Op; [| destruct H].
      destruct H as [H | []]. subst m.
      constructor; cbn; try assumption.
      right. apply negb_true_iff, color_eqb_neq in Op. exact Op.
Qed.

Lemma directions_sound board row col dirs m :
  is_valid_position row col = true ->
  piece (sq board row col) <> EMPTY ->
  color (sq board row col) = current_player board ->
  (forall d, In d dirs -> fst d <> 0 \/ snd d <> 0) ->
  In m (flat_map (fun d => generate_directional_moves board row col (fst d) (snd d))
          dirs) ->
  sound_move board m.
Proof.
  intros V P C D H. apply in_flat_map in H. destruct H as (d & Hd & H).
  unfold generate_directional_moves in H.
  apply (ray_moves_sound board row col (fst d) (snd d) V P C (D d Hd) 8%nat 1 m);
    [lia |].
  rewrite !Z.mul_1_l. exact H.
Qed.

Lemma bishop_directions_nonzero d :
  In d bishop_directions -> fst d <> 0 \/ snd d <> 0.
Proof.
  unfold bishop_directions. cbn [In]. intro H.
  repeat (destruct H as [H | H]; [subst d; cbn; lia |]). destruct H.
Qed.

Lemma rook_directions_nonzero d :
  In d rook_directions -> fst d <> 0 \/ snd d <> 0.
Proof.
  unfold rook_directions. cbn [In]. intro H.
  repeat (destruct H as [H | H]; [subst d; cbn; lia |]). destruct H.
Qed.

Lemma generate_pawn_moves_sound board row col m :
  is_valid_position row col = true ->
  piece (sq board row col) <> EMPTY ->
  color (sq board row col) = current_player board ->
  In m (generate_pawn_moves board row col) ->
  sound_move board m.
Proof.
  intros V P C H. unfold generate_pawn_moves in H. cbv zeta in H.
  unfold promo_pieces, offsets2 in H.
  destruct (color (sq board row col)) eqn:Co; cbn [color_eqb] in H;
    in_inv; bools.
  all: constructor; cbn; try assumption; try lia; try (rewrite Co; exact C).
  all: first [ left; assumption
             | right; rewrite Co; congruence ].
Qed.

Lemma generate_knight_moves_sound board row col m :
  is_valid_position row col = true ->
  piece (sq board row col) <> EMPTY ->
  color (sq board row col) = current_player board ->
  In m (generate_knight_moves board row col) ->
  sound_move board m.
Proof.
  intros V P C H. unfold generate_knight_moves, knight_moves in H.
  in_inv; bools; cbn [fst snd] in *;
    (constructor; cbn; [ exact V | assumption | lia | exact P | exact C
                       | right; assumption ]).
Qed.

Lemma generate_king_moves_sound board row col m :
  is_valid_position row col = true ->
  piece (sq board row col) <> EMPTY ->
  color (sq board row col) = current_player board ->
  In m (generate_king_moves board row col) ->
  sound_move board m.
Proof.
  intros V P C H. unfold generate_king_moves, offsets3 in H.
  in_inv; bools; try discriminate;
    (constructor; cbn; [ exact V | assumption | lia | exact P | exact C
                       | right; assumption ]).
Qed.

Lemma pseudo_legal_sound board m :
  In m (generate_pseudo_legal_moves board) -> sound_move board m.
Proof.
  intro H.
  destruct (generate_pseudo_legal_moves_inv _ _ H)
    as (row & col & V & P & C & _ & G).
  destruct (piece (sq board row col)) eqn:K.
  - destruct G.
  - apply (generate_pawn_moves_sound board row col); try assumption.
    rewrite K. discriminate.
  - apply (generate_knight_moves_sound board row col); try assumption.
    rewrite K. discriminate.
  - apply (directions_sound board row col bishop_directions); try assumption;
      [rewrite K; discriminate | exact bishop_directions_nonzero].
  - apply (directions_sound board row col rook_directions); try assumption;
      [rewrite K; discriminate | exact rook_directions_nonzero].
  - unfold generate_queen_moves in G. apply in_app_or in G. destruct G as [G | G].
    + apply (directions_sound board row col bishop_directions); try assumption;
        [rewrite K; discriminate | exact bishop_directions_nonzero].
    + apply (directions_sound board row col rook_directions); try assumption;
        [rewrite K; discriminate | exact rook_directions_nonzero].
  - apply (generate_king_moves_sound board row col); try assumption.
    rewrite K. discriminate.
Qed.

(** X8.  Whatever the board holds, every move [generate_pseudo_legal_moves]
    of the 2D engine writes starts and ends on the board, on two different
    squares, moves a piece of the side to move, and does not land on a
    piece of the color that moves. *)
Theorem pseudo_legal_moves_are_sound (board : Board) (m : Move) :
  In m (generate_pseudo_legal_moves board) -> sound_move board m.
Proof. apply pseudo_legal_sound. Qed.

(** The rook that leaves the pin in [pinned_rook]. *)
Lemma pseudo_legal_moves_are_sound_witness :
  In rook_leaves_the_pin (generate_pseudo_legal_moves pinned_rook)
  /\ sound_move pinned_rook rook_leaves_the_pin.
Proof.
  assert (I : In rook_leaves_the_pin (generate_pseudo_legal_moves pinned_rook)).
  { assert (E : nth_error (generate_pseudo_legal_moves pinned_rook) 9
                = Some rook_leaves_the_pin) by (vm_compute; reflexivity).
    exact (nth_error_In _ _ E). }
  split; [exact I |].
  apply (pseudo_legal_moves_are_sound _ _ I).
Defined.

(** *** The search and the board it works on *)

Lemma with_score_same m v : same_move m (with_score m v).
Proof. unfold same_move, with_score. cbn. repeat split; reflexivity. Qed.

Lemma insert_sorted_permutation cmp m l :
  Permutation (insert_sorted cmp m l) (m :: l).
Proof.
  induction l as [| h t IH]; cbn [insert_sorted]; [apply Permutation_refl |].
  destruct (cmp m h <=? 0); [apply Permutation_refl |].
  apply (Permutation_trans (l' := h :: m :: t)).
  - apply perm_skip. exact IH.
  - apply perm_swap.
Qed.

Lemma insertion_sort_permutation cmp l : Permutation (insertion_sort cmp l) l.
Proof.
  unfold insertion_sort. induction l as [| m l IH]; cbn [fold_right];
    [apply perm_nil |].
  apply (Permutation_trans (insert_sorted_permutation _ _ _)).
  apply perm_skip. exact IH.
Qed.

Section SearchFrame.

Variable qsort : (Move -> Move -> Z) -> list Move -> list Move.
Hypothesis qsort_permutes : forall cmp l, Permutation (qsort cmp l) l.

(** The moves a node of the search loops over. *)
Lemma sorted_moves_generated board m :
  well_formed board ->
  In m (qsort compare_moves
          (map (fun m => with_score m (score_move board m))
             (generate_legal_moves board))) ->
  exists m0, In m0 (generate_legal_moves board) /\ same_move m0 m
             /\ generated board m.
Proof.
  intros W H.
  apply (Permutation_in _ (qsort_permutes _ _)) in H.
  apply in_map_iff in H. destruct H as (m0 & E & H0). subst m.
  exists m0. split; [exact H0 |]. split; [apply with_score_same |].
  apply (generated_same _ m0); [apply with_score_same |].
  apply generate_legal_moves_generated; assumption.
Qed.

Lemma maximize_frame (child : Board -> Z -> Z -> Z * Board) :
  (forall b a be, well_formed b -> snd (child b a be) = b) ->
  forall moves board alpha beta max_eval,
    well_formed board ->
    (forall m, In m moves -> generated board m) ->
    snd (maximize child board moves alpha beta max_eval) = board.
Proof.
  intros Hc. induction moves as [| m rest IH]; intros board alpha beta mx W G;
    cbn [maximize]; [reflexivity |].
  pose proof (G m (or_introl eq_refl)) as Gm.
  pose proof (undo_make_generated board m W Gm) as U.
  pose proof (Hc (fst (make_move board m)) alpha beta
                (make_move_well_formed _ _ W Gm)) as F.
  destruct (make_move board m) as [made m'] eqn:E. cbn [fst snd] in *.
  destruct (child made alpha beta) as [eval after] eqn:C. cbn [snd] in F.
  subst after. rewrite U.
  match goal with |- context [if ?c then (_, _) else _] => destruct c end;
    [reflexivity |].
  apply IH; [exact W |]. intros m0 H0. apply G. right. exact H0.
Qed.

Lemma minimize_frame (child : Board -> Z -> Z -> Z * Board) :
  (forall b a be, well_formed b -> snd (child b a be) = b) ->
  forall moves board alpha beta min_eval,
    well_formed board ->
    (forall m, In m moves -> generated board m) ->
    snd (minimize child board moves alpha beta min_eval) = board.
Proof.
  intros Hc. induction moves as [| m rest IH]; intros board alpha beta mx W G;
    cbn [minimize]; [reflexivity |].
  pose proof (G m (or_introl eq_refl)) as Gm.
  pose proof (undo_make_generated board m W Gm) as U.
  pose proof (Hc (fst (make_move board m)) alpha beta
                (make_move_well_formed _ _ W Gm)) as F.
  destruct (make_move board m) as [made m'] eqn:E. cbn [fst snd] in *.
  destruct (child made alpha beta) as [eval after] eqn:C. cbn [snd] in F.
  subst after. rewrite U.
  match goal with |- context [if ?c then (_, _) else _] => destruct c end;
    [reflexivity |].
  apply IH; [exact W |]. intros m0 H0. apply G. right. exact H0.
Qed.

Lemma minimax_frame depth :
  forall board alpha beta maximizing_player,
    well_formed board ->
    snd (minimax qsort board depth alpha beta maximizing_player) = board.
Proof.
  induction depth as [| depth IH]; intros board alpha beta mx W; cbn [minimax].
  - destruct (is_game_over board) as [over msg].
    destruct over; [destruct (strstr msg "Checkmate") |]; reflexivity.
  - destruct (is_game_over board) as [over msg].
    destruct over; [destruct (strstr msg "Checkmate"); reflexivity |].
    destruct mx.
    + apply maximize_frame; [| exact W |].
      * intros b a be Wb. apply IH. exact Wb.
      * intros m H. destruct (sorted_moves_generated _ _ W H) as (_ & _ & _ & G).
        exact G.
    + apply minimize_frame; [| exact W |].
      * intros b a be Wb. apply IH. exact Wb.
      * intros m H. destruct (sorted_moves_generated _ _ W H) as (_ & _ & _ & G).
        exact G.
Qed.

(** The loop of [ai_make_move]: it leaves the board as it found it,
    rewrites the moves without changing what [make_move] reads of them,
    and its best index stays within the moves it went over. *)
Lemma root_loop_spec search_depth is_ai_white board :
  well_formed board ->
  forall moves i best_eval best_move_index,
    (forall m, In m moves -> generated board m) ->
    let r := root_loop qsort search_depth is_ai_white board moves i best_eval
               best_move_index in
    fst (fst r) = board
    /\ Forall2 same_move moves (snd (fst r))
    /\ (snd r = best_move_index
        \/ (i <= snd r < i + List.length moves)%nat).
Proof.
  intro W. induction moves as [| m rest IH]; intros i be bi G; cbv zeta.
  - cbn. split; [reflexivity |]. split; [constructor | left; reflexivity].
  - cbn [root_loop].
    pose proof (G m (or_introl eq_refl)) as Gm.
    pose proof (undo_make_generated board m W Gm) as U.
    pose proof (minimax_frame search_depth (fst (make_move board m))
                  (- INFINITY - 1) (INFINITY + 1) (negb is_ai_white)
                  (make_move_well_formed _ _ W Gm)) as F.
    pose proof (make_move_same board m) as Sm.
    destruct (make_move board m) as [made m'] eqn:E. cbn [fst snd] in *.
    destruct (minimax qsort made search_depth (- INFINITY - 1) (INFINITY + 1)
                (negb is_ai_white)) as [eval after] eqn:C.
    cbn [snd] in F. subst after. rewrite U.
    set (better := if is_ai_white then eval >? be else eval <? be).
    specialize (IH (S i) (if better then eval else be) (if better then i else bi)
                  (fun m0 H0 => G m0 (or_intror H0))).
    cbv zeta in IH.
    destruct (root_loop qsort search_depth is_ai_white board rest (S i)
                (if better then eval else be) (if better then i else bi))
      as [[final rest'] best] eqn:R.
    cbn [fst snd] in *. destruct IH as (I1 & I2 & I3).
    split; [exact I1 |]. split.
    + constructor; [| exact I2].
      unfold same_move in *. unfold with_score. cbn. exact Sm.
    + cbn [List.length]. destruct I3 as [I3 | I3].
      * destruct better; [right; lia | left; exact I3].
      * right. lia.
Qed.

Lemma Forall2_same_nth (l l' : list Move) (n : nat) (d : Move) :
  Forall2 same_move l l' -> (n < List.length l)%nat ->
  same_move (nth n l d) (nth n l' d).
Proof.
  intro F. revert n. induction F as [| x y l l' R F IH]; intros n H; cbn in H.
  - lia.
  - destruct n as [| n]; cbn [nth]; [exact R |]. apply IH. lia.
Qed.

Lemma ai_make_move_spec board difficulty :
  well_formed board ->
  (generate_legal_moves board = []
   /\ ai_make_move qsort board difficulty = board)
  \/ (exists m, In m (generate_legal_moves board)
                /\ ai_make_move qsort board difficulty = fst (make_move board m)).
Proof.
  intro W. unfold ai_make_move. cbv zeta.
  destruct (generate_legal_moves board) as [| m1 ms] eqn:L.
  - left. split; reflexivity.
  - right.
    replace (Z.of_nat (Datatypes.length (m1 :: ms)) =? 0) with false
      by (symmetry; apply Z.eqb_neq; cbn [Datatypes.length]; lia).
    set (sorted := qsort compare_moves
                     (map (fun m => with_score m (score_move board m)) (m1 :: ms))).
    set (d := if difficulty =? 1 then 1%nat
              else if difficulty =? 2 then 2%nat
              else if difficulty =? 3 then 3%nat else 2%nat).
    set (be := if color_eqb (current_player board) PLAYER_WHITE
               then - INFINITY - 1 else INFINITY + 1).
    assert (Gs : forall m, In m sorted ->
                 exists m0, In m0 (m1 :: ms) /\ same_move m0 m /\ generated board m).
    { intros m H. rewrite <- L. apply sorted_moves_generated; [exact W |].
      rewrite L. exact H. }
    assert (Gg : forall m, In m sorted -> generated board m).
    { intros m H. destruct (Gs m H) as (_ & _ & _ & G). exact G. }
    assert (Len : List.length sorted = S (List.length ms)).
    { unfold sorted. rewrite (Permutation_length (qsort_permutes _ _)).
      rewrite length_map. reflexivity. }
    pose proof (root_loop_spec d (color_eqb (current_player board) PLAYER_WHITE)
                  board W sorted 0%nat be 0%nat Gg) as Spec.
    cbv zeta in Spec.
    destruct (root_loop qsort d (color_eqb (current_player board) PLAYER_WHITE)
                board sorted 0%nat be 0%nat) as [[board' moves'] best].
    cbn [fst snd] in Spec. destruct Spec as (S1 & S2 & S3). subst board'.
    assert (B : (best < List.length sorted)%nat) by lia.
    pose proof (Forall2_same_nth _ _ best (gen_move 0 0 0 0 EMPTY EMPTY NONE) S2 B)
      as Same.
    destruct (Gs _ (nth_In sorted (gen_move 0 0 0 0 EMPTY EMPTY NONE) B))
      as (m0 & H0 & Same0 & _).
    exists m0. split; [exact H0 |].
    rewrite <- (make_move_same_board board _ _ Same).
    rewrite <- (make_move_same_board board _ _ Same0).
    reflexivity.
Qed.

End SearchFrame.

(** X9.  The search of the 2D engine gives the board back: for every
    sorting routine that returns its input rearranged, [minimax] called
    on a well-formed board leaves the board, which it makes and undoes
    moves on at every level, exactly as it found it. *)
Theorem minimax_restores_the_board
    (qsort : (Move -> Move -> Z) -> list Move -> list Move)
    (board : Board) (depth : nat) (alpha beta : Z) (maximizing_player : bool) :
  (forall cmp l, Permutation (qsort cmp l) l) ->
  well_formed board ->
  snd (minimax qsort board depth alpha beta maximizing_player) = board.
Proof. intros Q W. apply minimax_frame; assumption. Qed.

(** A search of depth 3 from the initial position, moves sorted by
    insertion. *)
Lemma minimax_restores_the_board_witness :
  snd (minimax insertion_sort init_board 3 (- INFINITY - 1) (INFINITY + 1) true)
  = init_board.
Proof.
  apply (minimax_restores_the_board insertion_sort init_board 3
           (- INFINITY - 1) (INFINITY + 1) true).
  - exact insertion_sort_permutation.
  - exact init_board_well_formed.
Defined.

(** X10.  The move of the 2D engine is a legal move: for every sorting
    routine that returns its input rearranged, [ai_make_move] called on a
    well-formed board leaves it unchanged when there is no legal move, and
    otherwise leaves exactly the board that [make_move] produces for one of
    the moves of [generate_legal_moves], whatever the difficulty. *)
Theorem ai_make_move_makes_a_legal_move
    (qsort : (Move -> Move -> Z) -> list Move -> list Move)
    (board : Board) (difficulty : Z) :
  (forall cmp l, Permutation (qsort cmp l) l) ->
  well_formed board ->
  (generate_legal_moves board = []
   /\ ai_make_move qsort board difficulty = board)
  \/ (exists m, In m (generate_legal_moves board)
                /\ ai_make_move qsort board difficulty = fst (make_move board m)).
Proof. intros Q W. apply ai_make_move_spec; assumption. Qed.

(** The engine to move in the initial position, at difficulty 1, moves
    sorted by insertion. *)
Lemma ai_make_move_makes_a_legal_move_witness :
  (generate_legal_moves init_board = []
   /\ ai_make_move insertion_sort init_board 1 = init_board)
  \/ (exists m, In m (generate_legal_moves init_board)
                /\ ai_make_move insertion_sort init_board 1
                   = fst (make_move init_board m)).
Proof.
  apply (ai_make_move_makes_a_legal_move insertion_sort init_board 1).
  - exact insertion_sort_permutation.
  - exact init_board_well_formed.
Defined.

(** *** Promotion *)

Lemma ray_moves_promotion fuel board row col row_dir col_dir cc nr nc m :
  In m (ray_moves fuel board row col row_dir col_dir cc nr nc) ->
  promotion m = EMPTY.
Proof.
  revert nr nc. induction fuel as [| fuel IH]; intros nr nc H; cbn [ray_moves] in H.
  - destruct H.
  - in_inv; try reflexivity. eapply IH; eassumption.
Qed.

Lemma directions_promotion board row col dirs m :
  In m (flat_map (fun d => generate_directional_moves board row col (fst d) (snd d))
          dirs) ->
  promotion m = EMPTY.
Proof.
  intro H. apply in_flat_map in H. destruct H as (d & _ & H).
  unfold generate_directional_moves in H. eapply ray_moves_promotion; eassumption.
Qed.

(** Where the pawn generator writes a promotion. *)
Lemma generate_pawn_moves_promotion board row col m :
  color (sq board row col) = current_player board ->
  en_passant_row board <> promotion_rank (current_player board) ->
  In m (generate_pawn_moves board row col) ->
  (promotion m <> EMPTY <-> to_row m = promotion_rank (current_player board))
  /\ (promotion m = EMPTY \/ In (promotion m) promo_pieces).
Proof.
  intros C EP H. unfold generate_pawn_moves in H. cbv zeta in H.
  rewrite C in H. unfold promotion_rank in *. unfold promo_pieces, offsets2 in *.
  destruct (color_eqb (current_player board) PLAYER_WHITE);
    in_inv; bools; cbn [promotion to_row gen_move In];
    (split;
     [ split; intro A; first [ lia | discriminate | assumption
                             | exfalso; apply A; reflexivity | exfalso; lia ]
     | first [ left; reflexivity | right; tauto ] ]).
Qed.

(** A pseudo-legal move promotes exactly when it takes a pawn to the far
    row, provided the en passant target does not lie on that row. *)
Lemma pseudo_legal_promotion board m :
  en_passant_row board <> promotion_rank (current_player board) ->
  In m (generate_pseudo_legal_moves board) ->
  (promotion m <> EMPTY
   <-> piece (sq board (from_row m) (from_col m)) = PAWN
       /\ to_row m = promotion_rank (current_player board))
  /\ (promotion m = EMPTY \/ In (promotion m) promo_pieces).
Proof.
  intros EP H.
  destruct (generate_pseudo_legal_moves_inv _ _ H)
    as (row & col & V & P & C & [S1 S2] & G).
  rewrite S1, S2.
  assert (Other : piece (sq board row col) <> PAWN -> promotion m = EMPTY ->
                  (promotion m <> EMPTY
                   <-> piece (sq board row col) = PAWN
                       /\ to_row m = promotion_rank (current_player board))
                  /\ (promotion m = EMPTY \/ In (promotion m) promo_pieces)).
  { intros NP E. split; [| left; exact E].
    split; [intro A; contradiction | intros [A _]; contradiction]. }
  destruct (piece (sq board row col)) eqn:K.
  - destruct G.
  - destruct (generate_pawn_moves_promotion _ _ _ _ C EP G) as [A B].
    split; [| exact B]. rewrite A. tauto.
  - apply Other; [discriminate |].
    unfold generate_knight_moves, knight_moves in G. in_inv; reflexivity.
  - apply Other; [discriminate |]. eapply directions_promotion; exact G.
  - apply Other; [discriminate |]. eapply directions_promotion; exact G.
  - apply Other; [discriminate |].
    unfold generate_queen_moves in G. apply in_app_or in G.
    destruct G as [G | G]; eapply directions_promotion; exact G.
  - apply Other; [discriminate |].
    unfold generate_king_moves, offsets3 in G. in_inv; reflexivity.
Qed.

(** In a game the en passant target, when there is one, lies on one of
    the six inner rows. *)
Lemma reachable_en_passant_row board :
  reachable board -> en_passant_row board = -1 \/ 1 <= en_passant_row board <= 6.
Proof.
  induction 1 as [| board m R IH Hin].
  - left. reflexivity.
  - pose proof (reachable_well_formed _ R) as W.
    pose proof (generate_legal_moves_generated _ _ W Hin) as G.
    destruct (make_move_en_passant_fields board m) as [Er _]. rewrite Er.
    unfold is_double_push.
    destruct (piece_eqb (piece (sq board (from_row m) (from_col m))) PAWN) eqn:Pw;
      cbn [andb]; [| left; reflexivity].
    destruct (Z.eqb_spec (Z.abs (to_row m - from_row m)) 2) as [Two |];
      [| left; reflexivity].
    right. apply piece_eqb_eq in Pw.
    pose proof (g_from _ _ G) as Vf. pose proof (g_to _ _ G) as Vt.
    apply is_valid_position_iff in Vf, Vt.
    pose proof (pawn_direction_unit (current_player board)) as U.
    destruct (g_kind _ _ G) as [P | P].
    + destruct (pm_double _ _ P Pw Two) as (_ & Tr & _).
      rewrite Tr.
      replace (from_row m + (from_row m + 2 * pawn_direction (current_player board)))
        with ((from_row m + pawn_direction (current_player board)) * 2) by lia.
      rewrite Z.quot_mul by lia. lia.
    + pose proof (em_step _ _ P). exfalso. lia.
Qed.

Lemma legal_move_promotion board m :
  reachable board ->
  In m (generate_legal_moves board) ->
  (promotion m <> EMPTY
   <-> piece (sq board (from_row m) (from_col m)) = PAWN
       /\ to_row m = promotion_rank (current_player board))
  /\ (promotion m = EMPTY \/ In (promotion m) promo_pieces).
Proof.
  intros R H. unfold generate_legal_moves in H.
  destruct (legal_filter_sub _ _ _ _ H) as (m0 & Hin & Hs).
  destruct Hs as (E1 & E2 & E3 & _ & E5 & _).
  rewrite <- E1, <- E2, <- E3, <- E5.
  apply pseudo_legal_promotion; [| exact Hin].
  unfold promotion_rank.
  destruct (reachable_en_passant_row _ R);
    destruct (color_eqb (current_player board) PLAYER_WHITE); lia.
Qed.

(** X11.  In a game of the 2D engine a legal move carries a promotion
    exactly when it takes a pawn to the far row of its side, and the piece
    it promotes to is a queen, a rook, a bishop or a knight. *)
Theorem promotion_exactly_on_the_far_row (board : Board) (m : Move) :
  reachable board ->
  In m (generate_legal_moves board) ->
  (promotion m <> EMPTY
   <-> piece (sq board (from_row m) (from_col m)) = PAWN
       /\ to_row m = promotion_rank (current_player board))
  /\ (promotion m = EMPTY \/ In (promotion m) promo_pieces).
Proof. apply legal_move_promotion. Qed.

(** The step of White's a-pawn in the initial position: no promotion. *)
Lemma promotion_exactly_on_the_far_row_witness :
  (promotion a_pawn_step <> EMPTY
   <-> piece (sq init_board (from_row a_pawn_step) (from_col a_pawn_step)) = PAWN
       /\ to_row a_pawn_step = promotion_rank (current_player init_board))
  /\ (promotion a_pawn_step = EMPTY \/ In (promotion a_pawn_step) promo_pieces).
Proof.
  apply (promotion_exactly_on_the_far_row init_board a_pawn_step).
  - exact reach_init.
  - assert (E : nth_error (generate_legal_moves init_board) 0 = Some a_pawn_step)
      by (vm_compute; reflexivity).
    exact (nth_error_In _ _ E).
Defined.

(** *** The en passant capture *)

Lemma opponent_of_other c : opponent_of c <> c.
Proof. destruct c; discriminate. Qed.

(** On a well-formed board, a pawn move that lands on the en passant
    target is the en passant capture. *)
Lemma pawn_move_onto_the_target board row col m :
  well_formed board ->
  is_valid_position row col = true ->
  piece (sq board row col) = PAWN ->
  color (sq board row col) = current_player board ->
  In m (generate_pawn_moves board row col) ->
  to_row m = en_passant_row board ->
  to_col m = en_passant_col board ->
  en_passant_move board m.
Proof.
  intros W V P C H Tr Tc.
  pose proof (generate_pawn_moves_generated _ _ _ _ W V P C H) as G.
  destruct (g_kind _ _ G) as [Pl | Ep]; [exfalso | exact Ep].
  pose proof (g_to _ _ G) as Vt. rewrite Tr, Tc in Vt.
  destruct (wf_en_passant _ W Vt) as [Em Pw].
  pose proof (opponent_of_other (current_player board)) as Op.
  unfold generate_pawn_moves in H. cbv zeta in H.
  rewrite C in H. unfold promo_pieces, offsets2 in H.
  unfold pawn_direction in Pw.
  destruct (color_eqb (current_player board) PLAYER_WHITE);
    in_inv; bools; cbn [to_row to_col gen_move] in Tr, Tc;
    rewrite <- ?Tr, <- ?Tc in *;
    first
      [ (* a capture lands on a piece *)
        congruence
      | (* the en passant capture is no plain move *)
        pose proof (pm_target _ _ Pl) as T; cbn in T; rewrite T in Em;
        discriminate Em
      | (* a single step: the pawn itself would be the passed pawn *)
        match type of Pw with
        | sq board ?r ?c = _ =>
            replace r with row in Pw by lia;
            rewrite Pw in C; cbn [color] in C; apply Op; exact C
        end
      | (* a double step: the skipped square would hold the passed pawn *)
        match type of Pw with
        | sq board ?r ?c = _ =>
            match goal with
            | E : piece (sq board ?r' c) = EMPTY |- _ =>
                replace r with r' in Pw by lia;
                rewrite Pw in E; discriminate E
            end
        end ].
Qed.

(** X12.  The en passant capture of the 2D engine.  On a well-formed
    board, a pseudo-legal pawn move onto the en passant target is a
    diagonal step; [make_move] removes the enemy pawn that stands beside
    the origin, in the column of the target, puts the capturing pawn on
    the target, empties the origin and touches no other square. *)
Theorem en_passant_capture_removes_the_passed_pawn (board : Board) (m : Move) :
  well_formed board ->
  In m (generate_pseudo_legal_moves board) ->
  piece (sq board (from_row m) (from_col m)) = PAWN ->
  to_row m = en_passant_row board ->
  to_col m = en_passant_col board ->
  let board' := fst (make_move board m) in
  to_col m <> from_col m
  /\ sq board (from_row m) (to_col m)
     = mkSquare PAWN (opponent_of (current_player board))
  /\ sq board' (from_row m) (to_col m) = empty_square
  /\ sq board' (to_row m) (to_col m) = mkSquare PAWN (current_player board)
  /\ sq board' (from_row m) (from_col m) = empty_square
  /\ forall row col,
       (row, col) <> (from_row m, to_col m) ->
       (row, col) <> (to_row m, to_col m) ->
       (row, col) <> (from_row m, from_col m) ->
       sq board' row col = sq board row col.
Proof.
  intros W H Pw Tr Tc. cbv zeta.
  pose proof (generate_pseudo_legal_moves_generated _ _ W H) as G.
  assert (Ep : en_passant_move board m).
  { destruct (generate_pseudo_legal_moves_inv _ _ H)
      as (row & col & V & _ & C & [S1 S2] & Gen).
    rewrite S1, S2 in Pw. rewrite Pw in Gen.
    eapply pawn_move_onto_the_target; eassumption. }
  pose proof (make_move_en_passant_squares _ _ G Ep) as S.
  pose proof (wf_length _ W) as L.
  pose proof (g_from _ _ G) as Vf. pose proof (g_to _ _ G) as Vt.
  pose proof (em_side _ _ Ep) as Side.
  pose proof (em_step _ _ Ep) as Step.
  pose proof (pawn_direction_unit (current_player board)) as U.
  assert (Vc : is_valid_position (from_row m) (to_col m) = true).
  { apply is_valid_position_iff. apply is_valid_position_iff in Vf, Vt. lia. }
  split; [exact Side |]. split.
  { pose proof (wf_en_passant _ W) as EP. rewrite <- Tr, <- Tc in EP.
    destruct (EP Vt) as [_ Cap].
    replace (to_row m - pawn_direction (current_player board)) with (from_row m)
      in Cap by lia.
    exact Cap. }
  unfold sq. rewrite S.
  repeat split.
  - repeat (rewrite sq_at_set by (rewrite ?length_sq_set; exact L)).
    rewrite Vf, Vt, Vc, !Z.eqb_refl. cbn [andb].
    destruct (Z.eqb_spec (from_col m) (to_col m)); [congruence |].
    destruct (Z.eqb_spec (to_row m) (from_row m)); [exfalso; lia |].
    cbn [andb]. reflexivity.
  - repeat (rewrite sq_at_set by (rewrite ?length_sq_set; exact L)).
    rewrite Vf, Vt, !Z.eqb_refl. cbn [andb].
    destruct (Z.eqb_spec (from_row m) (to_row m)); [exfalso; lia |].
    cbn [andb]. reflexivity.
  - repeat (rewrite sq_at_set by (rewrite ?length_sq_set; exact L)).
    rewrite Vf, !Z.eqb_refl. reflexivity.
  - intros row col N1 N2 N3.
    repeat (rewrite sq_at_set by (rewrite ?length_sq_set; exact L)).
    rewrite Vf, Vt, Vc. cbn [andb].
    destruct (Z.eqb_spec (from_row m) row) as [Fr |];
      destruct (Z.eqb_spec (from_col m) col) as [Fc |]; cbn [andb];
      try (exfalso; apply N3; congruence);
      destruct (Z.eqb_spec (to_row m) row) as [Tr' |];
      destruct (Z.eqb_spec (to_col m) col) as [Tc' |]; cbn [andb];
      try (exfalso; apply N2; congruence);
      try (exfalso; apply N1; congruence);
      reflexivity.
Qed.

(** The capture [takes_en_passant] in [en_passant_ready]. *)
Lemma en_passant_capture_removes_the_passed_pawn_witness :
  let board' := fst (make_move en_passant_ready takes_en_passant) in
  to_col takes_en_passant <> from_col takes_en_passant
  /\ sq en_passant_ready (from_row takes_en_passant) (to_col takes_en_passant)
     = mkSquare PAWN (opponent_of (current_player en_passant_ready))
  /\ sq board' (from_row takes_en_passant) (to_col takes_en_passant) = empty_square
  /\ sq board' (to_row takes_en_passant) (to_col takes_en_passant)
     = mkSquare PAWN (current_player en_passant_ready)
  /\ sq board' (from_row takes_en_passant) (from_col takes_en_passant) = empty_square
  /\ forall row col,
       (row, col) <> (from_row takes_en_passant, to_col takes_en_passant) ->
       (row, col) <> (to_row takes_en_passant, to_col takes_en_passant) ->
       (row, col) <> (from_row takes_en_passant, from_col takes_en_passant) ->
       sq board' row col = sq en_passant_ready row col.
Proof.
  apply (en_passant_capture_removes_the_passed_pawn en_passant_ready takes_en_passant).
  - apply well_formedb_sound. vm_compute. reflexivity.
  - assert (E : nth_error (generate_pseudo_legal_moves en_passant_ready) 1
                = Some takes_en_passant) by (vm_compute; reflexivity).
    exact (nth_error_In _ _ E).
  - vm_compute. reflexivity.
  - reflexivity.
  - reflexivity.
Defined.

(** *** What the generators reach and what [is_square_attacked] sees *)

(** [is_square_attacked] as a disjunction of its five tests. *)
Lemma is_square_attacked_or board row col attacker :
  is_square_attacked board row col attacker
  = (let holds (r c : Z) (p : Piece) :=
       is_valid_position r c
       && piece_eqb (piece (sq board r c)) p
       && color_eqb (color (sq board r c)) attacker in
     let pawn_dir := if color_eqb attacker PLAYER_WHITE then 1 else -1 in
     holds (row + pawn_dir) (col - 1) PAWN
     || holds (row + pawn_dir) (col + 1) PAWN
     || existsb (fun d => holds (row + fst d) (col + snd d) KNIGHT) knight_moves
     || existsb (fun d => ray_attacked 8 board row col (fst d) (snd d) attacker 1)
          slide_directions
     || existsb (fun dr =>
          existsb (fun dc =>
            if (dr =? 0) && (dc =? 0) then false
            else holds (row + dr) (col + dc) KING) offsets3) offsets3).
Proof.
  unfold is_square_attacked. cbv zeta.
  repeat match goal with
         | |- (if ?c then true else _) = _ => destruct c; cbn [orb]; [reflexivity |]
         end.
  reflexivity.
Qed.

(** A move of a ray ends [j] steps from the origin, beyond empty squares. *)
Lemma ray_moves_reach board row col row_dir col_dir cc :
  forall fuel k m,
    In m (ray_moves fuel board row col row_dir col_dir cc
            (row + k * row_dir) (col + k * col_dir)) ->
    exists j,
      k <= j
      /\ to_row m = row + j * row_dir /\ to_col m = col + j * col_dir
      /\ is_valid_position (to_row m) (to_col m) = true
      /\ forall i, k <= i < j ->
           is_valid_position (row + i * row_dir) (col + i * col_dir) = true
           /\ piece (sq board (row + i * row_dir) (col + i * col_dir)) = EMPTY.
Proof.
  induction fuel as [| fuel IH]; intros k m H; cbn [ray_moves] in H.
  - destruct H.
  - destruct (is_valid_position (row + k * row_dir) (col + k * col_dir)) eqn:Vt;
      [| destruct H].
    destruct (piece_eqb (piece (sq board (row + k * row_dir) (col + k * col_dir)))
                EMPTY) eqn:Em.
    + destruct H as [H | H].
      * subst m. exists k. cbn. repeat split; try lia; try assumption; lia.
      * replace (row + k * row_dir + row_dir) with (row + (k + 1) * row_dir)
          in H by lia.
        replace (col + k * col_dir + col_dir) with (col + (k + 1) * col_dir)
          in H by lia.
        destruct (IH _ _ H) as (j & J & Tr & Tc & V & Emp).
        exists j. split; [lia |]. split; [exact Tr |]. split; [exact Tc |].
        split; [exact V |].
        intros i Hi. destruct (Z.eq_dec i k) as [-> | N].
        -- split; [exact Vt | apply piece_eqb_eq; exact Em].
        -- apply Emp. lia.
    + destruct (negb _); [| destruct H].
      destruct H as [H | []]. subst m. exists k. cbn.
      repeat split; try lia; try assumption; lia.
Qed.

(** Walking back from the target over the same empty squares, the loop of
    [is_square_attacked] meets the piece at the origin. *)
Lemma ray_attacked_hit board row col dr dc attacker j :
  is_valid_position row col = true ->
  piece (sq board row col) <> EMPTY ->
  color (sq board row col) = attacker ->
  (forall i, 1 <= i < j ->
     is_valid_position (row + i * dr) (col + i * dc) = true
     /\ piece (sq board (row + i * dr) (col + i * dc)) = EMPTY) ->
  forall fuel i,
    1 <= i <= j -> (Z.to_nat (j - i) < fuel)%nat ->
    ray_attacked fuel board (row + j * dr) (col + j * dc) (- dr) (- dc) attacker i
    = (piece_eqb (piece (sq board row col)) QUEEN
       || (negb (- dr =? 0) && negb (- dc =? 0)
           && piece_eqb (piece (sq board row col)) BISHOP)
       || (((- dr =? 0) || (- dc =? 0))
           && piece_eqb (piece (sq board row col)) ROOK)).
Proof.
  intros V P C Emp.
  induction fuel as [| fuel IH]; intros i Hi Hf; [lia |].
  cbn [ray_attacked]. cbv zeta.
  replace (row + j * dr + i * - dr) with (row + (j - i) * dr) by lia.
  replace (col + j * dc + i * - dc) with (col + (j - i) * dc) by lia.
  destruct (Z.eq_dec i j) as [-> | N].
  - replace (j - j) with 0 by lia. rewrite !Z.mul_0_l, !Z.add_0_r.
    rewrite V. cbn [negb].
    apply piece_eqb_neq in P. rewrite P. cbn [negb].
    assert (E : color_eqb (color (sq board row col)) attacker = true)
      by (apply color_eqb_eq; exact C).
    rewrite E. reflexivity.
  - destruct (Emp (j - i) ltac:(lia)) as [Vi Ei].
    rewrite Vi. cbn [negb]. rewrite Ei. cbn [piece_eqb negb].
    apply IH; lia.
Qed.

Lemma holds_true board r c p a :
  is_valid_position r c = true ->
  piece (sq board r c) = p ->
  color (sq board r c) = a ->
  is_valid_position r c && piece_eqb (piece (sq board r c)) p
  && color_eqb (color (sq board r c)) a = true.
Proof.
  intros V P C. rewrite V.
  assert (E1 : piece_eqb (piece (sq board r c)) p = true)
    by (apply piece_eqb_eq; exact P).
  assert (E2 : color_eqb (color (sq board r c)) a = true)
    by (apply color_eqb_eq; exact C).
  rewrite E1, E2. reflexivity.
Qed.

Lemma attacked_by_pawn board row col attacker c' :
  c' = col - 1 \/ c' = col + 1 ->
  is_valid_position (row + attack_dir attacker) c' = true ->
  piece (sq board (row + attack_dir attacker) c') = PAWN ->
  color (sq board (row + attack_dir attacker) c') = attacker ->
  is_square_attacked board row col attacker = true.
Proof.
  intros Side V P C. rewrite is_square_attacked_or. cbv beta zeta.
  fold (attack_dir attacker).
  pose proof (holds_true _ _ _ _ _ V P C) as Hd.
  destruct Side as [-> | ->]; rewrite Hd, ?orb_true_r; reflexivity.
Qed.

Lemma attacked_by_knight board row col attacker r' c' :
  In (r' - row, c' - col) knight_moves ->
  is_valid_position r' c' = true ->
  piece (sq board r' c') = KNIGHT ->
  color (sq board r' c') = attacker ->
  is_square_attacked board row col attacker = true.
Proof.
  intros D V P C. rewrite is_square_attacked_or. cbv beta zeta.
  assert (E : existsb (fun d =>
                 is_valid_position (row + fst d) (col + snd d)
                 && piece_eqb (piece (sq board (row + fst d) (col + snd d))) KNIGHT
                 && color_eqb (color (sq board (row + fst d) (col + snd d))) attacker)
                knight_moves = true).
  { apply existsb_exists. exists (r' - row, c' - col). split; [exact D |].
    cbn [fst snd].
    replace (row + (r' - row)) with r' by lia.
    replace (col + (c' - col)) with c' by lia.
    apply holds_true; assumption. }
  rewrite E. rewrite !orb_true_r. reflexivity.
Qed.

Lemma attacked_by_king board row col attacker r' c' :
  In (r' - row) offsets3 -> In (c' - col) offsets3 ->
  r' <> row \/ c' <> col ->
  is_valid_position r' c' = true ->
  piece (sq board r' c') = KING ->
  color (sq board r' c') = attacker ->
  is_square_attacked board row col attacker = true.
Proof.
  intros Dr Dc N V P C. rewrite is_square_attacked_or. cbv beta zeta.
  assert (E : existsb (fun dr =>
                 existsb (fun dc =>
                   if (dr =? 0) && (dc =? 0) then false
                   else is_valid_position (row + dr) (col + dc)
                        && piece_eqb (piece (sq board (row + dr) (col + dc))) KING
                        && color_eqb (color (sq board (row + dr) (col + dc))) attacker)
                   offsets3) offsets3 = true).
  { apply existsb_exists. exists (r' - row). split; [exact Dr |].
    apply existsb_exists. exists (c' - col). split; [exact Dc |].
    replace ((r' - row =? 0) && (c' - col =? 0)) with false
      by (symmetry; apply andb_false_iff; rewrite !Z.eqb_neq; lia).
    replace (row + (r' - row)) with r' by lia.
    replace (col + (c' - col)) with c' by lia.
    apply holds_true; assumption. }
  rewrite E. rewrite !orb_true_r. reflexivity.
Qed.

(** A piece that slides along [(dr, dc)] over empty squares attacks the
    square it reaches. *)
Lemma attacked_by_slider board row col dr dc j attacker :
  In (- dr, - dc) slide_directions ->
  1 <= j ->
  is_valid_position row col = true ->
  is_valid_position (row + j * dr) (col + j * dc) = true ->
  (forall i, 1 <= i < j ->
     is_valid_position (row + i * dr) (col + i * dc) = true
     /\ piece (sq board (row + i * dr) (col + i * dc)) = EMPTY) ->
  color (sq board row col) = attacker ->
  piece (sq board row col) = QUEEN
  \/ (piece (sq board row col) = BISHOP /\ dr <> 0 /\ dc <> 0)
  \/ (piece (sq board row col) = ROOK /\ (dr = 0 \/ dc = 0)) ->
  is_square_attacked board (row + j * dr) (col + j * dc) attacker = true.
Proof.
  intros D J V Vt Emp C Kind. rewrite is_square_attacked_or. cbv beta zeta.
  assert (NE : piece (sq board row col) <> EMPTY).
  { destruct Kind as [K | [[K _] | [K _]]]; rewrite K; discriminate. }
  assert (Small : j <= 7).
  { apply is_valid_position_iff in V, Vt.
    unfold slide_directions in D. cbn [In] in D.
    repeat (destruct D as [D | D];
            [injection D as D1 D2; nia |]).
    destruct D. }
  assert (E : existsb (fun d =>
                 ray_attacked 8 board (row + j * dr) (col + j * dc) (fst d) (snd d)
                   attacker 1) slide_directions = true).
  { apply existsb_exists. exists (- dr, - dc). split; [exact D |].
    cbn [fst snd].
    rewrite (ray_attacked_hit board row col dr dc attacker j V NE C Emp 8%nat 1)
      by lia.
    destruct Kind as [K | [(K & A & B) | [K A]]]; rewrite K; cbn [piece_eqb orb].
    - reflexivity.
    - replace (- dr =? 0) with false by (symmetry; apply Z.eqb_neq; lia).
      replace (- dc =? 0) with false by (symmetry; apply Z.eqb_neq; lia).
      reflexivity.
    - replace ((- dr =? 0) || (- dc =? 0)) with true
        by (symmetry; apply orb_true_iff; rewrite !Z.eqb_eq; lia).
      rewrite !orb_true_r. reflexivity. }
  rewrite E. rewrite !orb_true_r. reflexivity.
Qed.

Lemma directions_attack board row col dirs m :
  (forall d, In d dirs -> In (- fst d, - snd d) slide_directions) ->
  is_valid_position row col = true ->
  (piece (sq board row col) = QUEEN
   \/ (piece (sq board row col) = BISHOP
       /\ forall d, In d dirs -> fst d <> 0 /\ snd d <> 0)
   \/ (piece (sq board row col) = ROOK
       /\ forall d, In d dirs -> fst d = 0 \/ snd d = 0)) ->
  In m (flat_map (fun d => generate_directional_moves board row col (fst d) (snd d))
          dirs) ->
  is_square_attacked board (to_row m) (to_col m) (color (sq board row col)) = true.
Proof.
  intros Dirs V Kind H. apply in_flat_map in H. destruct H as (d & Hd & H).
  unfold generate_directional_moves in H.
  replace (row + fst d) with (row + 1 * fst d) in H by lia.
  replace (col + snd d) with (col + 1 * snd d) in H by lia.
  destruct (ray_moves_reach _ _ _ _ _ _ _ _ _ H) as (j & J & Tr & Tc & Vt & Emp).
  rewrite Tr, Tc in *.
  apply attacked_by_slider; try assumption; try reflexivity.
  - apply Dirs. exact Hd.
  - destruct Kind as [K | [[K A] | [K A]]].
    + left. exact K.
    + right. left. split; [exact K | apply A; exact Hd].
    + right. right. split; [exact K | apply A; exact Hd].
Qed.

Lemma bishop_directions_back d :
  In d bishop_directions ->
  In (- fst d, - snd d) slide_directions /\ fst d <> 0 /\ snd d <> 0.
Proof.
  unfold bishop_directions, slide_directions. cbn [In]. intro H.
  repeat (destruct H as [H | H]; [subst d; cbn; split; [tauto | lia] |]).
  destruct H.
Qed.

Lemma rook_directions_back d :
  In d rook_directions ->
  In (- fst d, - snd d) slide_directions /\ (fst d = 0 \/ snd d = 0).
Proof.
  unfold rook_directions, slide_directions. cbn [In]. intro H.
  repeat (destruct H as [H | H]; [subst d; cbn; split; [tauto | lia] |]).
  destruct H.
Qed.

Lemma pawn_capture_attacks board row col m :
  is_valid_position row col = true ->
  piece (sq board row col) = PAWN ->
  In m (generate_pawn_moves board row col) ->
  piece (sq board (to_row m) (to_col m)) <> EMPTY ->
  is_square_attacked board (to_row m) (to_col m) (color (sq board row col)) = true.
Proof.
  intros V P H NE. unfold generate_pawn_moves in H. cbv zeta in H.
  unfold promo_pieces, offsets2 in H.
  pose proof (eq_refl (attack_dir (color (sq board row col)))) as AD.
  unfold attack_dir at 2 in AD.
  destruct (color_eqb (color (sq board row col)) PLAYER_WHITE) eqn:Co;
    in_inv; bools; cbn [to_row to_col gen_move] in *;
    try contradiction;
    (apply (attacked_by_pawn _ _ _ _ col); rewrite ?AD;
     [ lia
     | match goal with |- is_valid_position ?r _ = _ =>
         replace r with row by lia end; exact V
     | match goal with |- piece (sq _ ?r _) = _ =>
         replace r with row by lia end; exact P
     | match goal with |- color (sq _ ?r _) = _ =>
         replace r with row by lia end; reflexivity ]).
Qed.

Lemma knight_move_attacks board row col m :
  is_valid_position row col = true ->
  piece (sq board row col) = KNIGHT ->
  In m (generate_knight_moves board row col) ->
  is_square_attacked board (to_row m) (to_col m) (color (sq board row col)) = true.
Proof.
  intros V P H. unfold generate_knight_moves, knight_moves in H.
  in_inv; cbn [fst snd to_row to_col gen_move] in *;
    (apply (attacked_by_knight _ _ _ _ row col);
     [ match goal with |- In (?a, ?b) _ =>
         let x := fresh in let y := fresh in
         remember a as x; remember b as y;
         match goal with
         | Hx : x = _, Hy : y = _ |- _ =>
             ring_simplify in Hx; ring_simplify in Hy; subst x y
         end
       end; unfold knight_moves; cbn [In]; tauto
     | exact V | exact P | reflexivity ]).
Qed.

Lemma king_move_attacks board row col m :
  is_valid_position row col = true ->
  piece (sq board row col) = KING ->
  In m (generate_king_moves board row col) ->
  is_square_attacked board (to_row m) (to_col m) (color (sq board row col)) = true.
Proof.
  intros V P H. unfold generate_king_moves, offsets3 in H.
  in_inv; bools; try discriminate; cbn [to_row to_col gen_move] in *;
    (apply (attacked_by_king _ _ _ _ row col);
     [ match goal with |- In ?a _ =>
         let x := fresh in remember a as x;
         match goal with Hx : x = _ |- _ => ring_simplify in Hx; subst x end
       end; unfold offsets3; cbn [In]; tauto
     | match goal with |- In ?a _ =>
         let x := fresh in remember a as x;
         match goal with Hx : x = _ |- _ => ring_simplify in Hx; subst x end
       end; unfold offsets3; cbn [In]; tauto
     | lia | exact V | exact P | reflexivity ]).
Qed.

(** Every pseudo-legal move that lands on a piece lands on a square that
    [is_square_attacked] reports as attacked by the side to move. *)
Lemma capture_is_attack board m :
  In m (generate_pseudo_legal_moves board) ->
  piece (sq board (to_row m) (to_col m)) <> EMPTY ->
  is_square_attacked board (to_row m) (to_col m) (current_player board) = true.
Proof.
  intros H NE.
  destruct (generate_pseudo_legal_moves_inv _ _ H)
    as (row & col & V & P & C & _ & G).
  rewrite <- C.
  destruct (piece (sq board row col)) eqn:K.
  - destruct G.
  - apply pawn_capture_attacks; assumption.
  - apply knight_move_attacks; assumption.
  - apply (directions_attack board row col bishop_directions); try assumption.
    + intros d Hd. apply bishop_directions_back. exact Hd.
    + right. left. split; [exact K |]. intros d Hd.
      apply bishop_directions_back. exact Hd.
  - apply (directions_attack board row col rook_directions); try assumption.
    + intros d Hd. apply rook_directions_back. exact Hd.
    + right. right. split; [exact K |]. intros d Hd.
      apply rook_directions_back. exact Hd.
  - unfold generate_queen_moves in G. apply in_app_or in G. destruct G as [G | G].
    + apply (directions_attack board row col bishop_directions); try assumption.
      * intros d Hd. apply bishop_directions_back. exact Hd.
      * left. exact K.
    + apply (directions_attack board row col rook_directions); try assumption.
      * intros d Hd. apply rook_directions_back. exact Hd.
      * left. exact K.
  - apply king_move_attacks; assumption.
Qed.

(** X13.  The move generators and the attack test of the 2D engine agree
    on captures: whatever the board holds, a pseudo-legal move that lands
    on a piece lands on a square that [is_square_attacked] reports as
    attacked by the side to move. *)
Theorem captures_are_seen_by_is_square_attacked (board : Board) (m : Move) :
  In m (generate_pseudo_legal_moves board) ->
  piece (sq board (to_row m) (to_col m)) <> EMPTY ->
  is_square_attacked board (to_row m) (to_col m) (current_player board) = true.
Proof. apply capture_is_attack. Qed.

(** The pinned rook of [pinned_rook] taking the rook that pins it. *)
Lemma captures_are_seen_by_is_square_attacked_witness :
  is_square_attacked pinned_rook (to_row rook_takes_rook) (to_col rook_takes_rook)
    (current_player pinned_rook) = true.
Proof.
  apply (captures_are_seen_by_is_square_attacked pinned_rook rook_takes_rook).
  - assert (E : nth_error (generate_pseudo_legal_moves pinned_rook) 5
                = Some rook_takes_rook) by (vm_compute; reflexivity).
    exact (nth_error_In _ _ E).
  - vm_compute. discriminate.
Defined.

(** *** The kings in the positions of a game *)

(** The squares after a generated move: the origin is empty, the
    destination holds the piece that moved (or the piece it promotes to),
    and every other square is as it was, but for the pawn an en passant
    capture removes. *)
Lemma make_move_sq board m :
  well_formed board -> generated board m ->
  let board' := fst (make_move board m) in
  sq board' (from_row m) (from_col m) = empty_square
  /\ sq board' (to_row m) (to_col m)
     = mkSquare (if negb (piece_eqb (promotion m) EMPTY) then promotion m
                 else piece (sq board (from_row m) (from_col m)))
         (current_player board)
  /\ forall row col,
       (row, col) <> (from_row m, from_col m) ->
       (row, col) <> (to_row m, to_col m) ->
       sq board' row col = sq board row col
       \/ (sq board' row col = empty_square /\ piece (sq board row col) = PAWN).
Proof.
  intros W G. cbv zeta.
  pose proof (wf_length _ W) as L.
  pose proof (g_from _ _ G) as Vf. pose proof (g_to _ _ G) as Vt.
  pose proof (g_distinct _ _ G) as D.
  destruct (g_kind _ _ G) as [P | P].
  - pose proof (make_move_plain_squares _ _ G P W) as S.
    unfold sq. rewrite S. repeat split.
    + repeat (rewrite sq_at_set by (rewrite ?length_sq_set; exact L)).
      rewrite Vf, !Z.eqb_refl. reflexivity.
    + repeat (rewrite sq_at_set by (rewrite ?length_sq_set; exact L)).
      rewrite Vf, Vt, !Z.eqb_refl. cbn [andb].
      destruct (Z.eqb_spec (from_row m) (to_row m));
        destruct (Z.eqb_spec (from_col m) (to_col m)); cbn [andb];
        try reflexivity.
      exfalso. lia.
    + intros row col N1 N2. left.
      repeat (rewrite sq_at_set by (rewrite ?length_sq_set; exact L)).
      rewrite Vf, Vt. cbn [andb].
      destruct (Z.eqb_spec (from_row m) row) as [Fr |];
        destruct (Z.eqb_spec (from_col m) col) as [Fc |]; cbn [andb];
        try (exfalso; apply N1; congruence);
        destruct (Z.eqb_spec (to_row m) row) as [Tr' |];
        destruct (Z.eqb_spec (to_col m) col) as [Tc' |]; cbn [andb];
        try (exfalso; apply N2; congruence);
        reflexivity.
  - pose proof (make_move_en_passant_squares _ _ G P) as S.
    pose proof (em_side _ _ P) as Side.
    pose proof (em_step _ _ P) as Step.
    pose proof (pawn_direction_unit (current_player board)) as U.
    assert (Vc : is_valid_position (from_row m) (to_col m) = true).
    { apply is_valid_position_iff. apply is_valid_position_iff in Vf, Vt. lia. }
    pose proof (wf_en_passant _ W) as EP.
    rewrite <- (em_row _ _ P), <- (em_col _ _ P) in EP.
    destruct (EP Vt) as [_ Cap]. clear EP.
    replace (to_row m - pawn_direction (current_player board)) with (from_row m)
      in Cap by lia.
    rewrite (em_promotion _ _ P), (em_pawn _ _ P). cbn [piece_eqb negb].
    unfold sq. rewrite S. repeat split.
    + repeat (rewrite sq_at_set by (rewrite ?length_sq_set; exact L)).
      rewrite Vf, !Z.eqb_refl. reflexivity.
    + repeat (rewrite sq_at_set by (rewrite ?length_sq_set; exact L)).
      rewrite Vf, Vt, !Z.eqb_refl. cbn [andb].
      destruct (Z.eqb_spec (from_row m) (to_row m)); [exfalso; lia |].
      cbn [andb]. reflexivity.
    + intros row col N1 N2.
      repeat (rewrite sq_at_set by (rewrite ?length_sq_set; exact L)).
      rewrite Vf, Vt, Vc. cbn [andb].
      destruct (Z.eqb_spec (from_row m) row) as [Fr |];
        destruct (Z.eqb_spec (from_col m) col) as [Fc |]; cbn [andb];
        try (exfalso; apply N1; congruence);
        destruct (Z.eqb_spec (to_row m) row) as [Tr' |];
        destruct (Z.eqb_spec (to_col m) col) as [Tc' |]; cbn [andb];
        try (exfalso; apply N2; congruence);
        try (left; reflexivity);
        right; (split; [reflexivity |]);
        rewrite <- ?Fr, <- ?Tc'; fold (sq board (from_row m) (to_col m));
        rewrite Cap; reflexivity.
Qed.

(** The square [find_king] returns holds the king it was asked for. *)
Lemma find_king_found board c :
  fst (find_king board c) = true ->
  is_valid_position (fst (snd (find_king board c))) (snd (snd (find_king board c)))
  = true
  /\ piece (sq board (fst (snd (find_king board c))) (snd (snd (find_king board c))))
     = KING
  /\ color (sq board (fst (snd (find_king board c))) (snd (snd (find_king board c))))
     = c.
Proof.
  unfold find_king.
  destruct (find _ all_squares) as [rc |] eqn:F; cbn [fst snd]; intro H;
    [| discriminate H].
  apply find_some in F. destruct F as [Hin F].
  apply andb_true_iff in F. destruct F as [F1 F2].
  apply piece_eqb_eq in F1. apply color_eqb_eq in F2.
  split; [exact (all_squares_valid _ Hin) |]. split; assumption.
Qed.

(** Where a side has exactly one king, [is_king_in_check] asks whether
    the square of that king is attacked by the other side. *)
Lemma is_king_in_check_one_king board c row col :
  is_valid_position row col = true ->
  sq board row col = mkSquare KING c ->
  (forall row' col',
     is_valid_position row' col' = true ->
     sq board row' col' = mkSquare KING c -> row' = row /\ col' = col) ->
  is_king_in_check board c
  = is_square_attacked board row col (opponent_of c).
Proof.
  intros V K U. unfold is_king_in_check.
  assert (F : fst (find_king board c) = true).
  { destruct (fst (find_king board c)) eqn:E; [reflexivity |].
    apply find_king_false_iff in E. exfalso. apply (E row col V).
    rewrite K. split; reflexivity. }
  destruct (find_king_found _ _ F) as (Vk & Pk & Ck).
  destruct (find_king board c) as [found [kr kc]]. cbn [fst snd] in *.
  subst found. cbn [negb].
  destruct (U kr kc Vk) as [-> ->].
  { rewrite <- (square_eta (sq board kr kc)), Pk, Ck. reflexivity. }
  reflexivity.
Qed.

(** A legal move of a position where every piece has a color and the
    side not to move has one king, not in check, does not take that
    king. *)
Lemma legal_move_spares_the_king board m :
  well_formed board ->
  pieces_colored board ->
  one_king board (opponent_of (current_player board)) ->
  is_king_in_check board (opponent_of (current_player board)) = false ->
  In m (generate_legal_moves board) ->
  piece (sq board (to_row m) (to_col m)) <> KING.
Proof.
  intros W PC (kr & kc & Vk & K & U) Chk H Cap.
  unfold generate_legal_moves in H.
  destruct (legal_filter_sub _ _ _ _ H) as (m0 & Hin & Hs).
  destruct Hs as (E1 & E2 & E3 & E4 & _).
  rewrite <- E3, <- E4 in Cap.
  pose proof (pseudo_legal_sound _ _ Hin) as S.
  assert (NE : piece (sq board (to_row m0) (to_col m0)) <> EMPTY)
    by (rewrite Cap; discriminate).
  pose proof (capture_is_attack _ _ Hin NE) as A.
  assert (Co : color (sq board (to_row m0) (to_col m0))
               = opponent_of (current_player board)).
  { destruct (sm_target _ _ S) as [T | T]; [contradiction |].
    rewrite (sm_color _ _ S) in T.
    destruct (PC _ _ (sm_to _ _ S) NE) as [C | C];
      destruct (wf_player _ W) as [Pl | Pl]; rewrite C, Pl in *;
      try reflexivity; exfalso; apply T; reflexivity. }
  destruct (U _ _ (sm_to _ _ S)) as [Er Ec].
  { rewrite <- (square_eta (sq board (to_row m0) (to_col m0))), Cap, Co.
    reflexivity. }
  rewrite (is_king_in_check_one_king _ _ _ _ Vk K U) in Chk.
  rewrite (opponent_of_involutive _ (wf_player _ W)) in Chk.
  rewrite Er, Ec in A. rewrite A in Chk. discriminate Chk.
Qed.

Lemma sound_same board m m' :
  same_move m m' -> sound_move board m -> sound_move board m'.
Proof.
  intros (E1 & E2 & E3 & E4 & _) S. destruct S as [s1 s2 s3 s4 s5 s6].
  rewrite E1, E2, E3, E4 in *. constructor; assumption.
Qed.

Lemma legal_move_sound board m :
  In m (generate_legal_moves board) -> sound_move board m.
Proof.
  unfold generate_legal_moves. intro H.
  destruct (legal_filter_sub _ _ _ _ H) as (m0 & Hin & Hs).
  apply (sound_same _ _ _ Hs). apply pseudo_legal_sound. exact Hin.
Qed.

(** A move that takes no king keeps the pieces colored. *)
Lemma pieces_colored_step board m :
  well_formed board -> generated board m ->
  pieces_colored board -> pieces_colored (fst (make_move board m)).
Proof.
  intros W G PC row col V NE.
  destruct (make_move_sq _ _ W G) as (A & B & Cc).
  destruct (Z.eq_dec row (from_row m)) as [Fr | Fr];
    [destruct (Z.eq_dec col (from_col m)) as [Fc | Fc] |].
  - rewrite Fr, Fc, A in NE. exfalso. apply NE. reflexivity.
  - destruct (Z.eq_dec row (to_row m)) as [Tr | Tr];
      [destruct (Z.eq_dec col (to_col m)) as [Tc | Tc] |].
    + rewrite Tr, Tc, B. cbn [color]. exact (wf_player _ W).
    + destruct (Cc row col) as [E | [E _]]; try congruence.
      * rewrite E in *. apply PC; assumption.
      * rewrite E in NE. exfalso. apply NE. reflexivity.
    + destruct (Cc row col) as [E | [E _]]; try congruence.
      * rewrite E in *. apply PC; assumption.
      * rewrite E in NE. exfalso. apply NE. reflexivity.
  - destruct (Z.eq_dec row (to_row m)) as [Tr | Tr];
      [destruct (Z.eq_dec col (to_col m)) as [Tc | Tc] |].
    + rewrite Tr, Tc, B. cbn [color]. exact (wf_player _ W).
    + destruct (Cc row col) as [E | [E _]]; try congruence.
      * rewrite E in *. apply PC; assumption.
      * rewrite E in NE. exfalso. apply NE. reflexivity.
    + destruct (Cc row col) as [E | [E _]]; try congruence.
      * rewrite E in *. apply PC; assumption.
      * rewrite E in NE. exfalso. apply NE. reflexivity.
Qed.

(** A generated move that promotes, if at all, to one of the four
    promotion pieces and does not land on a king keeps the one king of
    each side. *)
Lemma one_king_step board m c :
  well_formed board -> generated board m ->
  promotion m = EMPTY \/ In (promotion m) promo_pieces ->
  piece (sq board (to_row m) (to_col m)) <> KING ->
  one_king board c -> one_king (fst (make_move board m)) c.
Proof.
  intros W G Pr NK (kr & kc & Vk & K & U).
  destruct (make_move_sq _ _ W G) as (A & B & Cc).
  pose proof (g_from _ _ G) as Vf. pose proof (g_to _ _ G) as Vt.
  assert (Other : forall row col,
            sq (fst (make_move board m)) row col = mkSquare KING c ->
            (row, col) <> (from_row m, from_col m) ->
            (row, col) <> (to_row m, to_col m) ->
            sq board row col = mkSquare KING c).
  { intros row col E N1 N2. destruct (Cc row col N1 N2) as [E' | [E' _]].
    - rewrite <- E'. exact E.
    - rewrite E' in E. discriminate E. }
  assert (NotFrom : forall row col,
            sq (fst (make_move board m)) row col = mkSquare KING c ->
            (row, col) <> (from_row m, from_col m)).
  { intros row col E N. injection N as -> ->. rewrite A in E. discriminate E. }
  assert (KeepsKing : (kr, kc) <> (from_row m, from_col m) ->
                      sq (fst (make_move board m)) kr kc = mkSquare KING c).
  { intro N1.
    assert (N2 : (kr, kc) <> (to_row m, to_col m)).
    { intro N. injection N as -> ->. rewrite K in NK. apply NK. reflexivity. }
    destruct (Cc kr kc N1 N2) as [E | [_ E]].
    - rewrite E. exact K.
    - rewrite K in E. discriminate E. }
  destruct (Z.eq_dec kr (from_row m)) as [Fr | Fr];
    [destruct (Z.eq_dec kc (from_col m)) as [Fc | Fc] |].
  - (* the king moves *)
    subst kr kc.
    assert (Cur : current_player board = c).
    { rewrite <- (g_color _ _ G), K. reflexivity. }
    assert (NoPromo : promotion m = EMPTY).
    { destruct (g_kind _ _ G) as [P | P].
      - destruct (piece_eqb (promotion m) EMPTY) eqn:E;
          [apply piece_eqb_eq; exact E |].
        apply piece_eqb_neq in E. apply (pm_promotion _ _ P) in E.
        rewrite K in E. discriminate E.
      - exact (em_promotion _ _ P). }
    rewrite NoPromo, K, Cur in B. cbn [piece_eqb negb piece] in B.
    exists (to_row m), (to_col m). split; [exact Vt |]. split; [exact B |].
    intros row col V E.
    destruct (Z.eq_dec row (to_row m)) as [Tr | Tr];
      [destruct (Z.eq_dec col (to_col m)) as [Tc | Tc] |].
    + split; assumption.
    + exfalso. pose proof (NotFrom _ _ E) as N1.
      assert (N2 : (row, col) <> (to_row m, to_col m)) by congruence.
      destruct (U _ _ V (Other _ _ E N1 N2)). apply N1. congruence.
    + exfalso. pose proof (NotFrom _ _ E) as N1.
      assert (N2 : (row, col) <> (to_row m, to_col m)) by congruence.
      destruct (U _ _ V (Other _ _ E N1 N2)). apply N1. congruence.
  - (* another piece moves *)
    assert (N1 : (kr, kc) <> (from_row m, from_col m)) by congruence.
    exists kr, kc. split; [exact Vk |]. split; [exact (KeepsKing N1) |].
    intros row col V E. pose proof (NotFrom _ _ E) as N.
    destruct (Z.eq_dec row (to_row m)) as [Tr | Tr];
      [destruct (Z.eq_dec col (to_col m)) as [Tc | Tc] |].
    + exfalso. rewrite Tr, Tc, B in E. injection E as E1 E2.
      destruct (piece_eqb (promotion m) EMPTY) eqn:Em; cbn [negb] in E1.
      * destruct (U _ _ Vf) as [X Y]; [| apply N1; congruence].
        rewrite <- (square_eta (sq board (from_row m) (from_col m))),
          E1, (g_color _ _ G), E2. reflexivity.
      * rewrite E1 in Pr. destruct Pr as [Pr | Pr]; [discriminate Pr |].
        unfold promo_pieces in Pr. cbn [In] in Pr.
        repeat (destruct Pr as [Pr | Pr]; [discriminate Pr |]). destruct Pr.
    + apply (U _ _ V). apply Other; [exact E | exact N | congruence].
    + apply (U _ _ V). apply Other; [exact E | exact N | congruence].
  - assert (N1 : (kr, kc) <> (from_row m, from_col m)) by congruence.
    exists kr, kc. split; [exact Vk |]. split; [exact (KeepsKing N1) |].
    intros row col V E. pose proof (NotFrom _ _ E) as N.
    destruct (Z.eq_dec row (to_row m)) as [Tr | Tr];
      [destruct (Z.eq_dec col (to_col m)) as [Tc | Tc] |].
    + exfalso. rewrite Tr, Tc, B in E. injection E as E1 E2.
      destruct (piece_eqb (promotion m) EMPTY) eqn:Em; cbn [negb] in E1.
      * destruct (U _ _ Vf) as [X Y]; [| apply N1; congruence].
        rewrite <- (square_eta (sq board (from_row m) (from_col m))),
          E1, (g_color _ _ G), E2. reflexivity.
      * rewrite E1 in Pr. destruct Pr as [Pr | Pr]; [discriminate Pr |].
        unfold promo_pieces in Pr. cbn [In] in Pr.
        repeat (destruct Pr as [Pr | Pr]; [discriminate Pr |]). destruct Pr.
    + apply (U _ _ V). apply Other; [exact E | exact N | congruence].
    + apply (U _ _ V). apply Other; [exact E | exact N | congruence].
Qed.

Lemma init_board_kings : kings_in_place init_board.
Proof.
  assert (One : forall c kr kc,
            forallb (fun rc =>
                       negb (piece_eqb (piece (sq init_board (fst rc) (snd rc))) KING
                             && color_eqb (color (sq init_board (fst rc) (snd rc))) c)
                       || ((fst rc =? kr) && (snd rc =? kc))) all_squares = true ->
            is_valid_position kr kc = true ->
            sq init_board kr kc = mkSquare KING c ->
            one_king init_board c).
  { intros c kr kc F V K. exists kr, kc. split; [exact V |]. split; [exact K |].
    intros row col V' E. rewrite forallb_forall in F.
    specialize (F (row, col) (all_squares_complete _ _ V')). cbn [fst snd] in F.
    rewrite E in F. cbn [piece color piece_eqb andb] in F.
    assert (Cc : color_eqb c c = true) by (apply color_eqb_eq; reflexivity).
    rewrite Cc in F. cbn [negb orb] in F. lia. }
  constructor.
  - intros row col V NE.
    assert (F : forallb (fun rc =>
                  piece_eqb (piece (sq init_board (fst rc) (snd rc))) EMPTY
                  || color_eqb (color (sq init_board (fst rc) (snd rc))) PLAYER_WHITE
                  || color_eqb (color (sq init_board (fst rc) (snd rc))) PLAYER_BLACK)
                  all_squares = true)
      by (vm_compute; reflexivity).
    rewrite forallb_forall in F.
    specialize (F (row, col) (all_squares_complete _ _ V)). cbn [fst snd] in F.
    apply orb_true_iff in F. destruct F as [F | F];
      [| right; apply color_eqb_eq; exact F].
    apply orb_true_iff in F. destruct F as [F | F];
      [| left; apply color_eqb_eq; exact F].
    apply piece_eqb_eq in F. contradiction.
  - apply (One PLAYER_WHITE 7 4); vm_compute; reflexivity.
  - apply (One PLAYER_BLACK 0 4); vm_compute; reflexivity.
Qed.

Lemma one_king_of_player board c :
  kings_in_place board -> c = PLAYER_WHITE \/ c = PLAYER_BLACK -> one_king board c.
Proof. intros [_ Kw Kb] [-> | ->]; assumption. Qed.

(** The positions of a game keep their two kings, and no legal move of
    such a position lands on a king. *)
Lemma reachable_kings board : reachable board -> kings_in_place board.
Proof.
  induction 1 as [| board m R IH Hin].
  - exact init_board_kings.
  - pose proof (reachable_well_formed _ R) as W.
    pose proof (generate_legal_moves_generated _ _ W Hin) as G.
    destruct (legal_move_promotion _ _ R Hin) as [_ Pr].
    assert (NK : piece (sq board (to_row m) (to_col m)) <> KING).
    { apply legal_move_spares_the_king; try assumption.
      - exact (kp_colored _ IH).
      - apply one_king_of_player; [exact IH |].
        apply opponent_of_player. exact (wf_player _ W).
      - apply opponent_not_in_check. exact R. }
    constructor.
    + apply pieces_colored_step; [exact W | exact G | exact (kp_colored _ IH)].
    + apply one_king_step; try assumption. exact (kp_white _ IH).
    + apply one_king_step; try assumption. exact (kp_black _ IH).
Qed.

Lemma one_king_found board c : one_king board c -> fst (find_king board c) = true.
Proof.
  intros (kr & kc & V & K & _).
  destruct (fst (find_king board c)) eqn:E; [reflexivity |].
  apply find_king_false_iff in E. exfalso. apply (E kr kc V).
  rewrite K. split; reflexivity.
Qed.

(** X14.  In every position of a game of the 2D engine every piece is
    White's or Black's and each side has exactly one king. *)
Theorem both_kings_stay_on_the_board (board : Board) :
  reachable board -> kings_in_place board.
Proof. apply reachable_kings. Qed.

(** The position after the step of White's a-pawn. *)
Lemma both_kings_stay_on_the_board_witness :
  kings_in_place (fst (make_move init_board a_pawn_step)).
Proof.
  apply (both_kings_stay_on_the_board (fst (make_move init_board a_pawn_step))).
  apply reach_move; [exact reach_init |].
  assert (E : nth_error (generate_legal_moves init_board) 0 = Some a_pawn_step)
    by (vm_compute; reflexivity).
  exact (nth_error_In _ _ E).
Defined.

(** X15.  In a game of the 2D engine no legal move takes a king: the
    square a legal move lands on never holds one. *)
Theorem no_legal_move_takes_a_king (board : Board) (m : Move) :
  reachable board ->
  In m (generate_legal_moves board) ->
  piece (sq board (to_row m) (to_col m)) <> KING.
Proof.
  intros R H. pose proof (reachable_well_formed _ R) as W.
  pose proof (reachable_kings _ R) as Kp.
  apply legal_move_spares_the_king; try assumption.
  - exact (kp_colored _ Kp).
  - apply one_king_of_player; [exact Kp |].
    apply opponent_of_player. exact (wf_player _ W).
  - apply opponent_not_in_check. exact R.
Qed.

(** The step of White's a-pawn in the initial position. *)
Lemma no_legal_move_takes_a_king_witness :
  In a_pawn_step (generate_legal_moves init_board)
  /\ piece (sq init_board (to_row a_pawn_step) (to_col a_pawn_step)) <> KING.
Proof.
  assert (I : In a_pawn_step (generate_legal_moves init_board)).
  { assert (E : nth_error (generate_legal_moves init_board) 0 = Some a_pawn_step)
      by (vm_compute; reflexivity).
    exact (nth_error_In _ _ E). }
  split; [exact I |].
  exact (no_legal_move_takes_a_king init_board a_pawn_step reach_init I).
Defined.

(** X16.  In a game of the 2D engine the test of [is_game_over] for a
    missing king never fires: in a position of a game the function
    answers [true] exactly when the side to move has no legal move or the
    halfmove clock has reached 100, and its message is never the one for
    a missing king. *)
Theorem game_over_in_a_game (board : Board) :
  reachable board ->
  (fst (is_game_over board) = true
   <-> generate_legal_moves board = [] \/ halfmove_clock board >= 100)
  /\ snd (is_game_over board) <> "Game Over! A king is missing."%string.
Proof.
  intro R. pose proof (reachable_kings _ R) as Kp.
  pose proof (one_king_found _ _ (kp_white _ Kp)) as Fw.
  pose proof (one_king_found _ _ (kp_black _ Kp)) as Fb.
  split.
  - rewrite is_game_over_iff. rewrite <- !find_king_false_iff.
    rewrite Fw, Fb. intuition discriminate.
  - unfold is_game_over. rewrite Fw, Fb. cbn [negb orb].
    destruct (Z.of_nat (Datatypes.length (generate_legal_moves board)) =? 0).
    + destruct (is_king_in_check board (current_player board)); cbn [snd].
      * destruct (color_eqb (current_player board) PLAYER_WHITE);
          vm_compute; discriminate.
      * vm_compute; discriminate.
    + destruct (halfmove_clock board >=? 100); cbn [snd]; vm_compute; discriminate.
Qed.

(** The initial position. *)
Lemma game_over_in_a_game_witness :
  (fst (is_game_over init_board) = true
   <-> generate_legal_moves init_board = [] \/ halfmove_clock init_board >= 100)
  /\ snd (is_game_over init_board) <> "Game Over! A king is missing."%string.
Proof.
  apply (game_over_in_a_game init_board). exact reach_init.
Defined.

(** *** From an attack to a capture *)

(** The loop of [is_square_attacked] over one direction answers [true]
    only when it meets, beyond empty squares, a piece of the attacker
    that slides along that direction. *)
Lemma ray_attacked_inv board row col dr dc attacker :
  forall fuel j,
    ray_attacked fuel board row col dr dc attacker j = true ->
    exists i,
      j <= i
      /\ (Z.to_nat (i - j) < fuel)%nat
      /\ is_valid_position (row + i * dr) (col + i * dc) = true
      /\ color (sq board (row + i * dr) (col + i * dc)) = attacker
      /\ (piece (sq board (row + i * dr) (col + i * dc)) = QUEEN
          \/ (piece (sq board (row + i * dr) (col + i * dc)) = BISHOP
              /\ dr <> 0 /\ dc <> 0)
          \/ (piece (sq board (row + i * dr) (col + i * dc)) = ROOK
              /\ (dr = 0 \/ dc = 0)))
      /\ forall i', j <= i' < i ->
           is_valid_position (row + i' * dr) (col + i' * dc) = true
           /\ piece (sq board (row + i' * dr) (col + i' * dc)) = EMPTY.
Proof.
  induction fuel as [| fuel IH]; intros j H; cbn [ray_attacked] in H;
    [discriminate H |].
  cbv zeta in H.
  destruct (is_valid_position (row + j * dr) (col + j * dc)) eqn:V;
    cbn [negb] in H; [| discriminate H].
  destruct (piece_eqb (piece (sq board (row + j * dr) (col + j * dc))) EMPTY) eqn:E;
    cbn [negb] in H.
  - destruct (IH _ H) as (i & J & F & Vi & C & K & Emp).
    exists i. split; [lia |]. split; [lia |]. split; [exact Vi |].
    split; [exact C |]. split; [exact K |].
    intros i' Hi. destruct (Z.eq_dec i' j) as [-> | N].
    + split; [exact V | apply piece_eqb_eq; exact E].
    + apply Emp. lia.
  - destruct (color_eqb (color (sq board (row + j * dr) (col + j * dc))) attacker)
      eqn:C; [| discriminate H].
    apply color_eqb_eq in C.
    exists j. split; [lia |]. split; [lia |]. split; [exact V |].
    split; [exact C |]. split; [| intros i' Hi; lia].
    apply orb_true_iff in H. destruct H as [H | H].
    + apply orb_true_iff in H. destruct H as [H | H].
      * left. apply piece_eqb_eq. exact H.
      * right. left. bools. repeat split; assumption.
    + right. right. apply andb_true_iff in H. destruct H as [H1 H2].
      apply piece_eqb_eq in H2. split; [exact H2 |].
      apply orb_true_iff in H1. rewrite !Z.eqb_eq in H1. exact H1.
Qed.

(** A ray that runs over empty squares up to a square that holds a piece
    of another color ends with the capture of that piece. *)
Lemma ray_moves_hit board row col dr dc cc j :
  is_valid_position (row + j * dr) (col + j * dc) = true ->
  piece (sq board (row + j * dr) (col + j * dc)) <> EMPTY ->
  color (sq board (row + j * dr) (col + j * dc)) <> cc ->
  forall fuel k,
    k <= j -> (Z.to_nat (j - k) < fuel)%nat ->
    (forall i, k <= i < j ->
       is_valid_position (row + i * dr) (col + i * dc) = true
       /\ piece (sq board (row + i * dr) (col + i * dc)) = EMPTY) ->
    exists m,
      In m (ray_moves fuel board row col dr dc cc (row + k * dr) (col + k * dc))
      /\ to_row m = row + j * dr /\ to_col m = col + j * dc.
Proof.
  intros Vt NE Co.
  induction fuel as [| fuel IH]; intros k K F Emp; [lia |].
  cbn [ray_moves].
  destruct (Z.eq_dec k j) as [-> | N].
  - rewrite Vt. apply piece_eqb_neq in NE. rewrite NE.
    apply color_eqb_neq in Co. rewrite Co. cbn [negb].
    eexists. split; [left; reflexivity |]. split; reflexivity.
  - destruct (Emp k ltac:(lia)) as [Vk Ek]. rewrite Vk, Ek. cbn [piece_eqb].
    destruct (IH (k + 1) ltac:(lia) ltac:(lia)) as (m & Hin & Tr & Tc).
    { intros i Hi. apply Emp. lia. }
    exists m. split; [| split; assumption]. right.
    replace (row + k * dr + dr) with (row + (k + 1) * dr) by lia.
    replace (col + k * dc + dc) with (col + (k + 1) * dc) by lia.
    exact Hin.
Qed.

(** The moves of the piece on [(row, col)] are among the pseudo-legal
    moves when the piece belongs to the side to move. *)
Lemma pseudo_legal_of_piece board row col m :
  is_valid_position row col = true ->
  color (sq board row col) = current_player board ->
  match piece (sq board row col) with
  | PAWN => In m (generate_pawn_moves board row col)
  | KNIGHT => In m (generate_knight_moves board row col)
  | BISHOP => In m (generate_bishop_moves board row col)
  | ROOK => In m (generate_rook_moves board row col)
  | QUEEN => In m (generate_queen_moves board row col)
  | KING => In m (generate_king_moves board row col)
  | EMPTY => False
  end ->
  In m (generate_pseudo_legal_moves board).
Proof.
  intros V C H. unfold generate_pseudo_legal_moves.
  apply in_flat_map. exists (row, col).
  split; [apply all_squares_complete; exact V |].
  cbn [fst snd].
  assert (E : color_eqb (color (sq board row col)) (current_player board) = true)
    by (apply color_eqb_eq; exact C).
  rewrite E.
  destruct (piece (sq board row col)); cbn [piece_eqb negb andb];
    [destruct H | exact H ..].
Qed.

Lemma pawn_attack_is_capture board row col c' :
  c' = col - 1 \/ c' = col + 1 ->
  is_valid_position row col = true ->
  piece (sq board row col) <> EMPTY ->
  color (sq board row col) = opponent_of (current_player board) ->
  is_valid_position (row + attack_dir (current_player board)) c' = true ->
  piece (sq board (row + attack_dir (current_player board)) c') = PAWN ->
  color (sq board (row + attack_dir (current_player board)) c')
  = current_player board ->
  exists m,
    In m (generate_pawn_moves board (row + attack_dir (current_player board)) c')
    /\ to_row m = row /\ to_col m = col.
Proof.
  intros Side V NE Co Va Pa Ca.
  unfold generate_pawn_moves. cbv zeta. rewrite Ca.
  unfold attack_dir, opponent_of in *.
  assert (Back : row + (if color_eqb (current_player board) PLAYER_WHITE
                        then 1 else -1)
                 + (if color_eqb (current_player board) PLAYER_WHITE
                    then -1 else 1) = row)
    by (destruct (color_eqb (current_player board) PLAYER_WHITE); lia).
  rewrite Back.
  assert (Hit : forall off, c' + off = col ->
            exists m,
              In m ((fun col_offset =>
                       let capture_col := c' + col_offset in
                       if is_valid_position row capture_col then
                         let target := sq board row capture_col in
                         if negb (piece_eqb (piece target) EMPTY)
                            && color_eqb (color target)
                                 (if color_eqb (current_player board) PLAYER_WHITE
                                  then PLAYER_BLACK else PLAYER_WHITE)
                         then
                           if row =? (if color_eqb (current_player board) PLAYER_WHITE
                                      then 0 else 7)
                           then map (fun p => gen_move
                                       (row + (if color_eqb (current_player board)
                                                    PLAYER_WHITE then 1 else -1))
                                       c' row capture_col p
                                       (piece target) (color target)) promo_pieces
                           else [gen_move
                                   (row + (if color_eqb (current_player board)
                                              PLAYER_WHITE then 1 else -1))
                                   c' row capture_col EMPTY
                                   (piece target) (color target)]
                         else if (row =? en_passant_row board)
                                 && (capture_col =? en_passant_col board)
                                 && piece_eqb (piece target) EMPTY
                         then [gen_move
                                 (row + (if color_eqb (current_player board)
                                            PLAYER_WHITE then 1 else -1))
                                 c' row capture_col EMPTY PAWN
                                 (if color_eqb (current_player board) PLAYER_WHITE
                                  then PLAYER_BLACK else PLAYER_WHITE)]
                         else []
                       else []) off)
              /\ to_row m = row /\ to_col m = col).
  { intros off E. cbv beta zeta. rewrite E, V.
    apply piece_eqb_neq in NE. rewrite NE. cbn [negb andb].
    assert (Ce : color_eqb (color (sq board row col))
                   (if color_eqb (current_player board) PLAYER_WHITE
                    then PLAYER_BLACK else PLAYER_WHITE) = true)
      by (apply color_eqb_eq; exact Co).
    rewrite Ce.
    destruct (row =? (if color_eqb (current_player board) PLAYER_WHITE
                      then 0 else 7)).
    - eexists. split; [left; reflexivity |]. split; reflexivity.
    - eexists. split; [left; reflexivity |]. split; reflexivity. }
  destruct Side as [Sd | Sd].
  - destruct (Hit 1 ltac:(lia)) as (m & Hin & T).
    exists m. split; [| exact T]. apply in_or_app. right.
    apply in_flat_map. exists 1. split; [unfold offsets2; cbn; tauto | exact Hin].
  - destruct (Hit (-1) ltac:(lia)) as (m & Hin & T).
    exists m. split; [| exact T]. apply in_or_app. right.
    apply in_flat_map. exists (-1). split; [unfold offsets2; cbn; tauto | exact Hin].
Qed.

Lemma knight_attack_is_capture board row col d :
  In d knight_moves ->
  is_valid_position row col = true ->
  color (sq board row col) <> color (sq board (row + fst d) (col + snd d)) ->
  exists m,
    In m (generate_knight_moves board (row + fst d) (col + snd d))
    /\ to_row m = row /\ to_col m = col.
Proof.
  intros D V Co. unfold generate_knight_moves.
  assert (Back : In (- fst d, - snd d) knight_moves).
  { unfold knight_moves in *. cbn [In] in D.
    repeat (destruct D as [D | D]; [subst d; cbn; tauto |]). destruct D. }
  exists (gen_move (row + fst d) (col + snd d) row col EMPTY
            (piece (sq board row col)) (color (sq board row col))).
  split; [| split; reflexivity].
  apply in_flat_map. exists (- fst d, - snd d). split; [exact Back |].
  cbn [fst snd].
  replace (row + fst d + - fst d) with row by lia.
  replace (col + snd d + - snd d) with col by lia.
  rewrite V. apply color_eqb_neq in Co. rewrite Co. cbn [negb].
  left. reflexivity.
Qed.

Lemma king_attack_is_capture board row col dr dc :
  In dr offsets3 -> In dc offsets3 -> (dr =? 0) && (dc =? 0) = false ->
  is_valid_position row col = true ->
  color (sq board row col) <> color (sq board (row + dr) (col + dc)) ->
  exists m,
    In m (generate_king_moves board (row + dr) (col + dc))
    /\ to_row m = row /\ to_col m = col.
Proof.
  intros Dr Dc NZ V Co. unfold generate_king_moves.
  exists (gen_move (row + dr) (col + dc) row col EMPTY
            (piece (sq board row col)) (color (sq board row col))).
  split; [| split; reflexivity].
  apply in_flat_map. exists (- dr). split.
  { unfold offsets3 in *. cbn [In] in *. lia. }
  apply in_flat_map. exists (- dc). split.
  { unfold offsets3 in *. cbn [In] in *. lia. }
  replace ((- dr =? 0) && (- dc =? 0)) with false.
  2:{ symmetry. apply andb_false_iff. apply andb_false_iff in NZ.
      rewrite !Z.eqb_neq in *. lia. }
  replace (row + dr + - dr) with row by lia.
  replace (col + dc + - dc) with col by lia.
  rewrite V. apply color_eqb_neq in Co. rewrite Co. cbn [negb].
  left. reflexivity.
Qed.

Lemma slider_attack_is_capture board row col d :
  In d slide_directions ->
  is_valid_position row col = true ->
  piece (sq board row col) <> EMPTY ->
  color (sq board row col) <> current_player board ->
  ray_attacked 8 board row col (fst d) (snd d) (current_player board) 1 = true ->
  exists m,
    In m (generate_pseudo_legal_moves board)
    /\ to_row m = row /\ to_col m = col.
Proof.
  intros D V NE Co H.
  destruct (ray_attacked_inv _ _ _ _ _ _ _ _ H) as (i & I & F & Vi & C & K & Emp).
  set (R := row + i * fst d) in *. set (C' := col + i * snd d) in *.
  assert (Er : R + i * - fst d = row) by (unfold R; lia).
  assert (Ec : C' + i * - snd d = col) by (unfold C'; lia).
  destruct (ray_moves_hit board R C' (- fst d) (- snd d) (color (sq board R C')) i)
    with (fuel := 8%nat) (k := 1) as (m & Hin & Tr & Tc).
  - rewrite Er, Ec. exact V.
  - rewrite Er, Ec. exact NE.
  - rewrite Er, Ec, C. exact Co.
  - exact I.
  - lia.
  - intros i' Hi.
    replace (R + i' * - fst d) with (row + (i - i') * fst d) by (unfold R; lia).
    replace (C' + i' * - snd d) with (col + (i - i') * snd d) by (unfold C'; lia).
    apply Emp. lia.
  - rewrite Er in Tr. rewrite Ec in Tc.
    exists m. split; [| split; assumption].
    replace (R + 1 * - fst d) with (R + - fst d) in Hin by lia.
    replace (C' + 1 * - snd d) with (C' + - snd d) in Hin by lia.
    fold (generate_directional_moves board R C' (- fst d) (- snd d)) in Hin.
    apply (pseudo_legal_of_piece board R C'); [exact Vi | exact C |].
    assert (Diag : fst d <> 0 /\ snd d <> 0 ->
                   In (- fst d, - snd d) bishop_directions).
    { unfold slide_directions, bishop_directions in *. cbn [In] in D.
      intros [A B].
      repeat (destruct D as [D | D];
              [subst d; cbn in *; first [ tauto | exfalso; lia ] |]).
      destruct D. }
    assert (Straight : fst d = 0 \/ snd d = 0 ->
                       In (- fst d, - snd d) rook_directions).
    { unfold slide_directions, rook_directions in *. cbn [In] in D.
      intros A.
      repeat (destruct D as [D | D];
              [subst d; cbn in *; first [ tauto | exfalso; lia ] |]).
      destruct D. }
    assert (Any : (fst d <> 0 /\ snd d <> 0) \/ (fst d = 0 \/ snd d = 0)) by lia.
    destruct K as [K | [(K & A & B) | [K A]]]; rewrite K.
    + unfold generate_queen_moves. apply in_or_app.
      destruct Any as [A | A]; [left | right].
      * unfold generate_bishop_moves. apply in_flat_map.
        exists (- fst d, - snd d). split; [apply Diag; exact A | exact Hin].
      * unfold generate_rook_moves. apply in_flat_map.
        exists (- fst d, - snd d). split; [apply Straight; exact A | exact Hin].
    + unfold generate_bishop_moves. apply in_flat_map.
      exists (- fst d, - snd d). split; [apply Diag; split; assumption | exact Hin].
    + unfold generate_rook_moves. apply in_flat_map.
      exists (- fst d, - snd d). split; [apply Straight; exact A | exact Hin].
Qed.

(** Every piece of the side not to move that [is_square_attacked] reports
    as attacked by the side to move is the target of a pseudo-legal
    move. *)
Lemma attack_is_capture board row col :
  is_valid_position row col = true ->
  piece (sq board row col) <> EMPTY ->
  color (sq board row col) = opponent_of (current_player board) ->
  is_square_attacked board row col (current_player board) = true ->
  exists m,
    In m (generate_pseudo_legal_moves board)
    /\ to_row m = row /\ to_col m = col.
Proof.
  intros V NE Co H.
  assert (Other : color (sq board row col) <> current_player board).
  { rewrite Co. apply opponent_of_other. }
  rewrite is_square_attacked_or in H. cbv beta zeta in H.
  fold (attack_dir (current_player board)) in H.
  apply orb_true_iff in H. destruct H as [H | H].
  2:{ apply existsb_exists in H. destruct H as (dr & Dr & H).
      apply existsb_exists in H. destruct H as (dc & Dc & H).
      destruct ((dr =? 0) && (dc =? 0)) eqn:NZ; [discriminate H |].
      apply andb_true_iff in H. destruct H as [H Hc].
      apply andb_true_iff in H. destruct H as [Hv Hp].
      apply piece_eqb_eq in Hp. apply color_eqb_eq in Hc.
      destruct (king_attack_is_capture board row col dr dc Dr Dc NZ V)
        as (m & Hin & T); [congruence |].
      exists m. split; [| exact T].
      apply (pseudo_legal_of_piece board (row + dr) (col + dc)); try assumption.
      rewrite Hp. exact Hin. }
  apply orb_true_iff in H. destruct H as [H | H].
  2:{ apply existsb_exists in H. destruct H as (d & D & H).
      apply (slider_attack_is_capture board row col d); assumption. }
  apply orb_true_iff in H. destruct H as [H | H].
  2:{ apply existsb_exists in H. destruct H as (d & D & H).
      apply andb_true_iff in H. destruct H as [H Hc].
      apply andb_true_iff in H. destruct H as [Hv Hp].
      apply piece_eqb_eq in Hp. apply color_eqb_eq in Hc.
      destruct (knight_attack_is_capture board row col d D V) as (m & Hin & T);
        [congruence |].
      exists m. split; [| exact T].
      apply (pseudo_legal_of_piece board (row + fst d) (col + snd d));
        try assumption.
      rewrite Hp. exact Hin. }
  apply orb_true_iff in H. destruct H as [H | H].
  - apply andb_true_iff in H. destruct H as [H Hc].
    apply andb_true_iff in H. destruct H as [Hv Hp].
    apply piece_eqb_eq in Hp. apply color_eqb_eq in Hc.
    destruct (pawn_attack_is_capture board row col (col - 1))
      as (m & Hin & T); try assumption; [left; reflexivity |].
    exists m. split; [| exact T].
    apply (pseudo_legal_of_piece board
             (row + attack_dir (current_player board)) (col - 1));
      try assumption.
    rewrite Hp. exact Hin.
  - apply andb_true_iff in H. destruct H as [H Hc].
    apply andb_true_iff in H. destruct H as [Hv Hp].
    apply piece_eqb_eq in Hp. apply color_eqb_eq in Hc.
    destruct (pawn_attack_is_capture board row col (col + 1))
      as (m & Hin & T); try assumption; [right; reflexivity |].
    exists m. split; [| exact T].
    apply (pseudo_legal_of_piece board
             (row + attack_dir (current_player board)) (col + 1));
      try assumption.
    rewrite Hp. exact Hin.
Qed.

(** X17.  The attack test of the 2D engine reports no attack that the
    move generators do not know: whatever the board holds, when
    [is_square_attacked] reports a piece of the side not to move as
    attacked by the side to move, [generate_pseudo_legal_moves] writes a
    move that lands on it. *)
Theorem attacked_pieces_can_be_taken (board : Board) (row col : Z) :
  is_valid_position row col = true ->
  piece (sq board row col) <> EMPTY ->
  color (sq board row col) = opponent_of (current_player board) ->
  is_square_attacked board row col (current_player board) = true ->
  exists m,
    In m (generate_pseudo_legal_moves board)
    /\ to_row m = row /\ to_col m = col.
Proof. apply attack_is_capture. Qed.

(** The black rook on (0, 4) of [pinned_rook], attacked by the white
    rook. *)
Lemma attacked_pieces_can_be_taken_witness :
  exists m,
    In m (generate_pseudo_legal_moves pinned_rook)
    /\ to_row m = 0 /\ to_col m = 4.
Proof.
  apply (attacked_pieces_can_be_taken pinned_rook 0 4).
  - reflexivity.
  - vm_compute. discriminate.
  - vm_compute. reflexivity.
  - vm_compute. reflexivity.
Defined.

(** *** The leaves of the search *)

(** The value [minimax] gives a position in which the game is over. *)
Lemma minimax_game_over qsort board depth alpha beta maximizing_player :
  fst (is_game_over board) = true ->
  minimax qsort board depth alpha beta maximizing_player
  = (if Nat.eqb (List.length (generate_legal_moves board)) 0
        && is_king_in_check board (current_player board)
     then if color_eqb (current_player board) PLAYER_WHITE
          then - MATE_SCORE - Z.of_nat depth
          else MATE_SCORE + Z.of_nat depth
     else 0, board).
Proof.
  intro Over.
  assert (E : exists msg,
            is_game_over board = (true, msg)
            /\ strstr msg "Checkmate"
               = Nat.eqb (List.length (generate_legal_moves board)) 0
                 && is_king_in_check board (current_player board)).
  { unfold is_game_over in *.
    destruct (generate_legal_moves board) as [| m l].
    - cbn [Datatypes.length Z.of_nat Z.eqb Nat.eqb andb] in *.
      destruct (is_king_in_check board (current_player board)).
      + eexists. split; [reflexivity |].
        destruct (color_eqb (current_player board) PLAYER_WHITE);
          vm_compute; reflexivity.
      + eexists. split; [reflexivity |]. vm_compute. reflexivity.
    - replace (Z.of_nat (Datatypes.length (m :: l)) =? 0) with false in *
        by (symmetry; apply Z.eqb_neq; cbn [Datatypes.length]; lia).
      cbn [Datatypes.length Nat.eqb andb].
      destruct (halfmove_clock board >=? 100).
      + eexists. split; [reflexivity |]. vm_compute. reflexivity.
      + destruct (negb (fst (find_king board PLAYER_WHITE))
                  || negb (fst (find_king board PLAYER_BLACK)));
          [| discriminate Over].
        eexists. split; [reflexivity |]. vm_compute. reflexivity. }
  destruct E as (msg & G & S).
  destruct depth as [| depth']; cbn [minimax]; rewrite G, S;
    destruct (Nat.eqb (Datatypes.length (generate_legal_moves board)) 0
              && is_king_in_check board (current_player board));
    reflexivity.
Qed.

(** X18.  At a position in which [is_game_over] of the 2D engine answers
    [true], [minimax] returns at once, at every depth and for every
    window, leaving the board alone: the mate score of the winner,
    larger in absolute value the more depth remains, when the side to
    move has no legal move and is in check, and 0 in every other case
    (stalemate, the 50-move rule, a missing king). *)
Theorem minimax_at_the_end_of_the_game
    (qsort : (Move -> Move -> Z) -> list Move -> list Move)
    (board : Board) (depth : nat) (alpha beta : Z) (maximizing_player : bool) :
  fst (is_game_over board) = true ->
  minimax qsort board depth alpha beta maximizing_player
  = (if Nat.eqb (List.length (generate_legal_moves board)) 0
        && is_king_in_check board (current_player board)
     then if color_eqb (current_player board) PLAYER_WHITE
          then - MATE_SCORE - Z.of_nat depth
          else MATE_SCORE + Z.of_nat depth
     else 0, board).
Proof. apply minimax_game_over. Qed.

(** Black is mated in [corner_mate]: with two plies left, White's mate
    is worth [MATE_SCORE + 2]. *)
Lemma minimax_at_the_end_of_the_game_witness :
  minimax insertion_sort corner_mate 2 (- INFINITY - 1) (INFINITY + 1) false
  = (MATE_SCORE + 2, corner_mate).
Proof.
  rewrite (minimax_at_the_end_of_the_game insertion_sort corner_mate 2
             (- INFINITY - 1) (INFINITY + 1) false)
    by (vm_compute; reflexivity).
  vm_compute. reflexivity.
Defined.

(** *** Pruning and move ordering *)

Lemma fold_left_max_base (l : list Z) (a b : Z) :
  b <= a -> fold_left Z.max l a = Z.max a (fold_left Z.max l b).
Proof.
  revert a b. induction l as [| x l IH]; intros a b H; cbn [fold_left]; [lia |].
  rewrite (IH (Z.max a x) (Z.max b x)) by lia.
  pose proof (IH (Z.max b x) (Z.max b x) ltac:(lia)). lia.
Qed.

Lemma fold_left_min_base (l : list Z) (a b : Z) :
  a <= b -> fold_left Z.min l a = Z.min a (fold_left Z.min l b).
Proof.
  revert a b. induction l as [| x l IH]; intros a b H; cbn [fold_left]; [lia |].
  rewrite (IH (Z.min a x) (Z.min b x)) by lia.
  pose proof (IH (Z.min b x) (Z.min b x) ltac:(lia)). lia.
Qed.

Lemma fold_left_max_perm (l l' : list Z) :
  Permutation l l' -> forall a, fold_left Z.max l a = fold_left Z.max l' a.
Proof.
  induction 1 as [| x l l' P IH | x y l | l l' l'' P1 IH1 P2 IH2]; intro a;
    cbn [fold_left].
  - reflexivity.
  - apply IH.
  - f_equal. lia.
  - rewrite IH1. apply IH2.
Qed.

Lemma fold_left_min_perm (l l' : list Z) :
  Permutation l l' -> forall a, fold_left Z.min l a = fold_left Z.min l' a.
Proof.
  induction 1 as [| x l l' P IH | x y l | l l' l'' P1 IH1 P2 IH2]; intro a;
    cbn [fold_left].
  - reflexivity.
  - apply IH.
  - f_equal. lia.
  - rewrite IH1. apply IH2.
Qed.

Section Pruning.

Variable qsort : (Move -> Move -> Z) -> list Move -> list Move.
Hypothesis qsort_permutes : forall cmp l, Permutation (qsort cmp l) l.

(** The maximizing loop, for a child call that gives the board back and
    whose result stands to the value [cv] of the child as [within_window]
    says. *)
Lemma maximize_value (child : Board -> Z -> Z -> Z * Board) (cv : Board -> Z) :
  (forall b a be,
     well_formed b -> - INFINITY - 1 <= a -> a < be -> be <= INFINITY + 1 ->
     snd (child b a be) = b /\ within_window a be (cv b) (fst (child b a be))) ->
  forall moves board alpha beta max_eval,
    well_formed board ->
    (forall m, In m moves -> generated board m) ->
    - INFINITY - 1 <= alpha -> max_eval <= alpha -> alpha < beta ->
    beta <= INFINITY + 1 ->
    within_window alpha beta
      (fold_left Z.max (map (fun m => cv (fst (make_move board m))) moves) max_eval)
      (fst (maximize child board moves alpha beta max_eval)).
Proof.
  intros Hc. induction moves as [| m rest IH];
    intros board alpha beta mx W G Lo Mx AB Hi; cbn [maximize map fold_left].
  - unfold within_window. cbn [fst]. lia.
  - pose proof (G m (or_introl eq_refl)) as Gm.
    pose proof (undo_make_generated board m W Gm) as U.
    destruct (Hc (fst (make_move board m)) alpha beta
                (make_move_well_formed _ _ W Gm) Lo AB Hi) as [F Ch].
    set (v := cv (fst (make_move board m))) in *.
    destruct (make_move board m) as [made m'] eqn:E. cbn [fst snd] in *.
    destruct (child made alpha beta) as [eval after] eqn:C. cbn [fst snd] in *.
    subst after. rewrite U.
    replace (if eval >? mx then eval else mx) with (Z.max eval mx)
      by (destruct (Z.gtb_spec eval mx); lia).
    replace (if alpha >? Z.max eval mx then alpha else Z.max eval mx)
      with (Z.max alpha (Z.max eval mx))
      by (destruct (Z.gtb_spec alpha (Z.max eval mx)); lia).
    rewrite (fold_left_max_base _ (Z.max mx v) mx) by lia.
    set (T := fold_left Z.max (map (fun m0 => cv (fst (make_move board m0))) rest) mx).
    assert (TM : mx <= T).
    { unfold T. rewrite (fold_left_max_base _ mx mx) by lia. lia. }
    destruct (Z.leb_spec beta (Z.max alpha (Z.max eval mx))) as [Cut | NoCut].
    + cbn [fst]. unfold within_window in *. lia.
    + specialize (IH board (Z.max alpha (Z.max eval mx)) beta (Z.max eval mx) W
                    (fun m0 H0 => G m0 (or_intror H0))
                    ltac:(lia) ltac:(lia) ltac:(lia) Hi).
      rewrite (fold_left_max_base _ (Z.max eval mx) mx) in IH by lia.
      fold T in IH. unfold within_window in *. lia.
Qed.

Lemma minimize_value (child : Board -> Z -> Z -> Z * Board) (cv : Board -> Z) :
  (forall b a be,
     well_formed b -> - INFINITY - 1 <= a -> a < be -> be <= INFINITY + 1 ->
     snd (child b a be) = b /\ within_window a be (cv b) (fst (child b a be))) ->
  forall moves board alpha beta min_eval,
    well_formed board ->
    (forall m, In m moves -> generated board m) ->
    - INFINITY - 1 <= alpha -> beta <= min_eval -> alpha < beta ->
    beta <= INFINITY + 1 ->
    within_window alpha beta
      (fold_left Z.min (map (fun m => cv (fst (make_move board m))) moves) min_eval)
      (fst (minimize child board moves alpha beta min_eval)).
Proof.
  intros Hc. induction moves as [| m rest IH];
    intros board alpha beta mn W G Lo Mn AB Hi; cbn [minimize map fold_left].
  - unfold within_window. cbn [fst]. lia.
  - pose proof (G m (or_introl eq_refl)) as Gm.
    pose proof (undo_make_generated board m W Gm) as U.
    destruct (Hc (fst (make_move board m)) alpha beta
                (make_move_well_formed _ _ W Gm) Lo AB Hi) as [F Ch].
    set (v := cv (fst (make_move board m))) in *.
    destruct (make_move board m) as [made m'] eqn:E. cbn [fst snd] in *.
    destruct (child made alpha beta) as [eval after] eqn:C. cbn [fst snd] in *.
    subst after. rewrite U.
    replace (if eval <? mn then eval else mn) with (Z.min eval mn)
      by (destruct (Z.ltb_spec eval mn); lia).
    replace (if beta <? Z.min eval mn then beta else Z.min eval mn)
      with (Z.min beta (Z.min eval mn))
      by (destruct (Z.ltb_spec beta (Z.min eval mn)); lia).
    rewrite (fold_left_min_base _ (Z.min mn v) mn) by lia.
    set (T := fold_left Z.min (map (fun m0 => cv (fst (make_move board m0))) rest) mn).
    assert (TM : T <= mn).
    { unfold T. rewrite (fold_left_min_base _ mn mn) by lia. lia. }
    destruct (Z.leb_spec (Z.min beta (Z.min eval mn)) alpha) as [Cut | NoCut].
    + cbn [fst]. unfold within_window in *. lia.
    + specialize (IH board alpha (Z.min beta (Z.min eval mn)) (Z.min eval mn) W
                    (fun m0 H0 => G m0 (or_intror H0))
                    Lo ltac:(lia) ltac:(lia) ltac:(lia)).
      rewrite (fold_left_min_base _ (Z.min eval mn) mn) in IH by lia.
      fold T in IH. unfold within_window in *. lia.
Qed.

(** The values of the children, over the sorted moves and over the legal
    moves as generated. *)
Lemma sorted_children board (f : Board -> Z) :
  Permutation
    (map (fun m => f (fst (make_move board m)))
       (qsort compare_moves
          (map (fun m => with_score m (score_move board m))
             (generate_legal_moves board))))
    (map (fun m => f (fst (make_move board m))) (generate_legal_moves board)).
Proof.
  apply (Permutation_trans (Permutation_map _ (qsort_permutes _ _))).
  rewrite map_map.
  erewrite map_ext; [apply Permutation_refl |].
  intro m. cbv beta.
  rewrite <- (make_move_same_board board m _ (with_score_same m _)).
  reflexivity.
Qed.

Lemma minimax_value depth :
  forall board alpha beta maximizing_player,
    well_formed board ->
    - INFINITY - 1 <= alpha -> alpha < beta -> beta <= INFINITY + 1 ->
    within_window alpha beta (full_search board depth maximizing_player)
      (fst (minimax qsort board depth alpha beta maximizing_player)).
Proof.
  induction depth as [| depth IH]; intros board alpha beta mx W Lo AB Hi;
    cbn [minimax full_search].
  - destruct (is_game_over board) as [over msg].
    destruct over; [destruct (strstr msg "Checkmate") |];
      cbn [fst]; unfold within_window; lia.
  - destruct (is_game_over board) as [over msg].
    destruct over;
      [destruct (strstr msg "Checkmate"); cbn [fst]; unfold within_window; lia |].
    assert (Gs : forall m,
              In m (qsort compare_moves
                      (map (fun m => with_score m (score_move board m))
                         (generate_legal_moves board))) ->
              generated board m).
    { intros m H.
      destruct (sorted_moves_generated qsort qsort_permutes _ _ W H)
        as (_ & _ & _ & G). exact G. }
    destruct mx; cbn [negb].
    + rewrite <- (fold_left_max_perm _ _
                    (sorted_children board (fun b => full_search b depth false))).
      apply (maximize_value (fun b a be => minimax qsort b depth a be false)
               (fun b => full_search b depth false)); try assumption; try lia.
      intros b a be Wb La ab Hb. split.
      * apply (minimax_frame qsort qsort_permutes). exact Wb.
      * apply IH; assumption.
    + rewrite <- (fold_left_min_perm _ _
                    (sorted_children board (fun b => full_search b depth true))).
      apply (minimize_value (fun b a be => minimax qsort b depth a be true)
               (fun b => full_search b depth true)); try assumption; try lia.
      intros b a be Wb La ab Hb. split.
      * apply (minimax_frame qsort qsort_permutes). exact Wb.
      * apply IH; assumption.
Qed.

End Pruning.

(** X19.  Pruning and move ordering do not change what the search of the
    2D engine computes.  For every sorting routine that returns its input
    rearranged, on a well-formed board and for a window
    [- INFINITY - 1 <= alpha < beta <= INFINITY + 1], the result of
    [minimax] is the value of the search without window when that value
    lies strictly inside the window; when it does not, the result lies on
    the same side of the window and bounds that value. *)
Theorem pruning_keeps_the_value
    (qsort : (Move -> Move -> Z) -> list Move -> list Move)
    (board : Board) (depth : nat) (alpha beta : Z) (maximizing_player : bool) :
  (forall cmp l, Permutation (qsort cmp l) l) ->
  well_formed board ->
  - INFINITY - 1 <= alpha -> alpha < beta -> beta <= INFINITY + 1 ->
  within_window alpha beta (full_search board depth maximizing_player)
    (fst (minimax qsort board depth alpha beta maximizing_player)).
Proof. intros Q W Lo AB Hi. apply minimax_value; assumption. Qed.

(** The search the engine starts from the initial position at difficulty
    1 for the reply to a first move: depth 1, the full window. *)
Lemma pruning_keeps_the_value_witness :
  within_window (- INFINITY - 1) (INFINITY + 1)
    (full_search (fst (make_move init_board a_pawn_step)) 1 false)
    (fst (minimax insertion_sort (fst (make_move init_board a_pawn_step)) 1
            (- INFINITY - 1) (INFINITY + 1) false)).
Proof.
  apply (pruning_keeps_the_value insertion_sort
           (fst (make_move init_board a_pawn_step)) 1
           (- INFINITY - 1) (INFINITY + 1) false).
  - exact insertion_sort_permutation.
  - apply well_formedb_sound. vm_compute. reflexivity.
  - lia.
  - vm_compute. reflexivity.
  - lia.
Defined.

End Further2D.

(** ** The 3D engine *)

Module Further3D.
Import Chess3D.
Import Facts3D.

(** *** Castling rights *)

(** One call of [make_move] clears castling rights or leaves them as they
    are. *)
Lemma make_move_rights3 board m :
  Bool.le (white_castle_kingside (make_move board m))
    (white_castle_kingside board)
  /\ Bool.le (white_castle_queenside (make_move board m))
       (white_castle_queenside board)
  /\ Bool.le (black_castle_kingside (make_move board m))
       (black_castle_kingside board)
  /\ Bool.le (black_castle_queenside (make_move board m))
       (black_castle_queenside board).
Proof.
  unfold make_move. cbv zeta.
  cbn [white_castle_kingside white_castle_queenside
       black_castle_kingside black_castle_queenside].
  destruct (white_castle_kingside board), (white_castle_queenside board),
           (black_castle_kingside board), (black_castle_queenside board);
    repeat split;
    repeat match goal with
           | |- context [if ?c then _ else _] => destruct c
           end; reflexivity.
Qed.

Lemma le_bool_trans3 (a b c : bool) : Bool.le a b -> Bool.le b c -> Bool.le a c.
Proof. destruct a, b, c; cbn; intros; congruence. Qed.

Lemma le_bool_refl3 (a : bool) : Bool.le a a.
Proof. destruct a; reflexivity. Qed.

(** X20.  In the 3D engine a castling right that [make_move] has cleared
    never comes back: after any sequence of calls of [make_move], whatever
    the moves, each of the four rights that is set was set on the board
    the sequence started from. *)
Theorem castling_rights_are_never_regained3 (board : Board) (ms : list Move) :
  Bool.le (white_castle_kingside (make_moves board ms))
    (white_castle_kingside board)
  /\ Bool.le (white_castle_queenside (make_moves board ms))
       (white_castle_queenside board)
  /\ Bool.le (black_castle_kingside (make_moves board ms))
       (black_castle_kingside board)
  /\ Bool.le (black_castle_queenside (make_moves board ms))
       (black_castle_queenside board).
Proof.
  revert board. induction ms as [| m ms IH]; intro board.
  - unfold make_moves. cbn [fold_left]. repeat split; apply le_bool_refl3.
  - unfold make_moves in *. cbn [fold_left].
    destruct (IH (make_move board m)) as (A1 & A2 & A3 & A4).
    destruct (make_move_rights3 board m) as (B1 & B2 & B3 & B4).
    repeat split; eapply le_bool_trans3; eassumption.
Qed.

(** *** What the generators guarantee *)

Lemma color_eqb_neq3 (a b : PieceColor) : color_eqb a b = false <-> a <> b.
Proof.
  destruct a, b; cbn; split; intro H; try reflexivity; try discriminate H;
    try (exfalso; apply H; reflexivity); intro E; discriminate E.
Qed.

Ltac bools3' :=
  repeat match goal with
  | H : _ && _ = true |- _ => apply andb_true_iff in H; destruct H
  | H : _ || _ = false |- _ => apply orb_false_iff in H; destruct H
  | H : negb _ = true |- _ => apply negb_true_iff in H
  | H : negb _ = false |- _ => apply negb_false_iff in H
  | H : piece_eqb _ _ = true |- _ => apply piece_eqb_eq in H
  | H : piece_eqb _ _ = false |- _ => apply piece_eqb_neq in H
  | H : color_eqb _ _ = true |- _ => apply color_eqb_eq3 in H
  | H : color_eqb _ _ = false |- _ => apply color_eqb_neq3 in H
  | H : (_ =? _) = true |- _ => apply Z.eqb_eq in H
  | H : (_ =? _) = false |- _ => apply Z.eqb_neq in H
  | H : layer_off_board _ = false |- _ => unfold layer_off_board in H
  | H : (_ <? _) = false |- _ => apply Z.ltb_ge in H
  | H : (_ >=? _) = false |- _ => rewrite Z.geb_leb in H; apply Z.leb_gt in H
  end.

(** A move without promotion onto a square of the board that is empty, or
    holds a piece of another color and is flagged as a capture. *)
Lemma plain_move_generated3 board layer row col tl tr tc cap :
  is_valid_position layer row col = true ->
  is_valid_position tl tr tc = true ->
  layer <> tl \/ row <> tr \/ col <> tc ->
  piece (sq board layer row col) <> EMPTY ->
  color (sq board layer row col) = current_player board ->
  (cap = false -> piece (sq board tl tr tc) = EMPTY) ->
  (piece (sq board tl tr tc) = EMPTY
   \/ color (sq board tl tr tc) <> color (sq board layer row col)) ->
  generated board (gen_move layer row col tl tr tc EMPTY cap).
Proof.
  intros V Vt D P C F T.
  constructor; cbn; try assumption.
  - intros _. constructor; cbn; assumption.
  - left. reflexivity.
Qed.

Lemma ray_moves_generated3 board layer row col row_dir col_dir layer_dir :
  is_valid_position layer row col = true ->
  piece (sq board layer row col) <> EMPTY ->
  color (sq board layer row col) = current_player board ->
  row_dir <> 0 \/ col_dir <> 0 \/ layer_dir <> 0 ->
  forall fuel k m,
    1 <= k ->
    In m (ray_moves fuel board layer row col row_dir col_dir layer_dir
            (layer + k * layer_dir) (row + k * row_dir) (col + k * col_dir)) ->
    generated board m.
Proof.
  intros V P C D.
  induction fuel as [| fuel IH]; intros k m K H; cbn [ray_moves] in H.
  - destruct H.
  - destruct (is_valid_position (layer + k * layer_dir) (row + k * row_dir)
                (col + k * col_dir)) eqn:Vt; [| destruct H].
    assert (Far : layer <> layer + k * layer_dir \/ row <> row + k * row_dir
                  \/ col <> col + k * col_dir) by nia.
    destruct (piece_eqb (piece (sq board (layer + k * layer_dir) (row + k * row_dir)
                                  (col + k * col_dir))) EMPTY) eqn:Em.
    + destruct H as [H | H].
      * subst m. apply piece_eqb_eq in Em.
        apply plain_move_generated3; try assumption.
        -- intros _. exact Em.
        -- left. exact Em.
      * apply (IH (k + 1) m); [lia |].
        replace (layer + (k + 1) * layer_dir) with (layer + k * layer_dir + layer_dir)
          by lia.
        replace (row + (k + 1) * row_dir) with (row + k * row_dir + row_dir) by lia.
        replace (col + (k + 1) * col_dir) with (col + k * col_dir + col_dir) by lia.
        exact H.
    + destruct (negb _) eqn:Op; [| destruct H].
      destruct H as [H | []]. subst m.
      apply plain_move_generated3; try assumption.
      * intro A. discriminate A.
      * right. apply negb_true_iff, color_eqb_neq3 in Op. exact Op.
Qed.

Lemma generate_directional_moves_generated3 board layer row col row_dir col_dir
    layer_dir m :
  is_valid_position layer row col = true ->
  piece (sq board layer row col) <> EMPTY ->
  color (sq board layer row col) = current_player board ->
  row_dir <> 0 \/ col_dir <> 0 \/ layer_dir <> 0 ->
  In m (generate_directional_moves board layer row col row_dir col_dir layer_dir) ->
  generated board m.
Proof.
  intros V P C D H. unfold generate_directional_moves in H.
  apply (ray_moves_generated3 board layer row col row_dir col_dir layer_dir
           V P C D 8%nat 1 m); [lia |].
  rewrite !Z.mul_1_l. exact H.
Qed.

Lemma generate_bishop_moves_generated3 board layer row col m :
  is_valid_position layer row col = true ->
  piece (sq board layer row col) <> EMPTY ->
  color (sq board layer row col) = current_player board ->
  In m (generate_bishop_moves board layer row col) ->
  generated board m.
Proof.
  intros V P C H. unfold generate_bishop_moves, bishop_directions, offsets2 in H.
  apply in_app_or in H. destruct H as [H | H].
  - apply in_flat_map in H. destruct H as (d & Hd & H).
    eapply generate_directional_moves_generated3; try eassumption.
    cbn [In] in Hd.
    repeat (destruct Hd as [Hd | Hd]; [subst d; cbn; lia |]). destruct Hd.
  - apply in_flat_map in H. destruct H as (lc & Hl & H).
    apply in_flat_map in H. destruct H as (d & Hd & H).
    eapply generate_directional_moves_generated3; try eassumption.
    cbn [In] in Hd.
    repeat (destruct Hd as [Hd | Hd]; [subst d; cbn; lia |]). destruct Hd.
Qed.

Lemma generate_rook_moves_generated3 board layer row col m :
  is_valid_position layer row col = true ->
  piece (sq board layer row col) <> EMPTY ->
  color (sq board layer row col) = current_player board ->
  In m (generate_rook_moves board layer row col) ->
  generated board m.
Proof.
  intros V P C H. unfold generate_rook_moves, rook_directions, offsets2 in H.
  apply in_app_or in H. destruct H as [H | H].
  - apply in_flat_map in H. destruct H as (d & Hd & H).
    eapply generate_directional_moves_generated3; try eassumption.
    cbn [In] in Hd.
    repeat (destruct Hd as [Hd | Hd]; [subst d; cbn; lia |]). destruct Hd.
  - apply in_flat_map in H. destruct H as (lc & Hl & H).
    cbn [In] in Hl.
    repeat (apply in_app_or in H; destruct H as [H | H];
            [eapply generate_directional_moves_generated3; try eassumption; lia |]).
    eapply generate_directional_moves_generated3; try eassumption. lia.
Qed.

Lemma generate_knight_moves_generated3 board layer row col m :
  is_valid_position layer row col = true ->
  piece (sq board layer row col) <> EMPTY ->
  color (sq board layer row col) = current_player board ->
  In m (generate_knight_moves board layer row col) ->
  generated board m.
Proof.
  intros V P C H. unfold generate_knight_moves, knight_moves, offsets3 in H.
  in_inv; cbn [fst snd] in *;
    (apply plain_move_generated3;
     [ exact V | assumption | lia | exact P | exact C
     | intro A; apply negb_false_iff, piece_eqb_eq in A; exact A
     | match goal with
       | X : _ || _ = true |- _ =>
           apply orb_true_iff in X; destruct X as [X | X];
           [ left; apply piece_eqb_eq; exact X
           | right; apply negb_true_iff, color_eqb_neq3 in X; exact X ]
       end ]).
Qed.

Lemma king_steps_generated3 board layer row col m :
  is_valid_position layer row col = true ->
  piece (sq board layer row col) <> EMPTY ->
  color (sq board layer row col) = current_player board ->
  In m (king_steps board layer row col) ->
  generated board m.
Proof.
  intros V P C H. unfold king_steps, offsets3 in H. cbv zeta in H.
  in_inv;
    match goal with
    | X : (_ =? 0) && _ && _ = true |- _ => cbn in X; discriminate X
    | _ => idtac
    end;
    (apply plain_move_generated3;
     [ exact V | assumption | lia | exact P | exact C
     | intro A; apply negb_false_iff, piece_eqb_eq in A; exact A
     | match goal with
       | X : _ || _ = true |- _ =>
           apply orb_true_iff in X; destruct X as [X | X];
           [ left; apply piece_eqb_eq; exact X
           | right; apply negb_true_iff, color_eqb_neq3 in X; exact X ]
       end ]).
Qed.

Lemma home_row_valid c : 0 <= home_row c < 8.
Proof. unfold home_row. destruct (color_eqb c P_WHITE); lia. Qed.

Lemma king_castles_generated3 board layer row col m :
  is_valid_position layer row col = true ->
  piece (sq board layer row col) <> EMPTY ->
  color (sq board layer row col) = current_player board ->
  In m (king_castles board layer row col) ->
  generated board m.
Proof.
  intros V P C H.
  destruct (king_castles_inv _ _ _ _ _ H) as (L & R & Cc & (S1 & S2 & S3) & Tl & Tr & T).
  cbv zeta in *.
  pose proof (home_row_valid (color (sq board layer row col))) as HR.
  assert (E : m = gen_move layer row col (to_layer m) (to_row m) (to_col m) EMPTY false).
  { unfold king_castles in H. cbv zeta in H.
    repeat match type of H with
           | In _ (if ?c then _ else _) => destruct c; [| destruct H]
           end.
    apply in_app_or in H.
    destruct H as [H | H];
      (match type of H with
       | In _ (if ?c then _ else _) => destruct c; [| destruct H]
       end; destruct H as [H | []]; subst m; reflexivity). }
  assert (Em : piece (sq board (to_layer m) (to_row m) (to_col m)) = EMPTY).
  { rewrite Tl, Tr.
    destruct T as [[Tc (_ & _ & Ee & _)] | [Tc (_ & _ & Ee & _)]];
      rewrite Tc; apply Ee; lia. }
  rewrite E. apply plain_move_generated3; try assumption.
  - apply is_valid_position_iff3. rewrite Tl, Tr.
    destruct T as [[Tc _] | [Tc _]]; rewrite Tc; lia.
  - right. right. destruct T as [[Tc _] | [Tc _]]; rewrite Tc; lia.
  - intros _. exact Em.
  - left. exact Em.
Qed.

Lemma generate_pawn_moves_generated3 board layer row col m :
  is_valid_position layer row col = true ->
  piece (sq board layer row col) = PAWN ->
  color (sq board layer row col) = current_player board ->
  In m (generate_pawn_moves board layer row col) ->
  generated board m.
Proof.
  intros V P C H. unfold generate_pawn_moves in H. cbv zeta in H.
  unfold promo_pieces, offsets2 in H.
  assert (NE : piece (sq board layer row col) <> EMPTY) by (rewrite P; discriminate).
  pose proof (eq_refl (promotion_row (color (sq board layer row col)))) as PR.
  unfold promotion_row at 2 in PR.
  destruct (color_eqb (color (sq board layer row col)) P_WHITE) eqn:Co;
    in_inv; bools3'.
  all: constructor; cbn [from_layer from_row from_col to_layer to_row to_col
                         promotion is_capture gen_move];
    try assumption.
  all: try (intros EPE; constructor;
            cbn [from_layer from_row from_col to_layer to_row to_col gen_move];
            try assumption; try lia;
            first [ left; assumption
                  | right; assumption
                  | left; unfold en_passant_target_empty in EPE;
                    match goal with
                    | A : _ = en_passant_layer ?b,
                      B : _ = en_passant_row ?b,
                      D : _ = en_passant_col ?b |- _ =>
                        rewrite <- A, <- B, <- D in EPE; apply EPE; assumption
                    end ]).
  all: try (intro A; first [ assumption | discriminate A ]).
  all: try (left; reflexivity).
  all: right; rewrite PR;
    (split; [unfold promo_pieces; cbn [In]; tauto |]);
    (split; [exact P |]); split; [reflexivity | lia].
Qed.

(** Every pseudo-legal move is a generated move in the sense above. *)
Lemma generate_pseudo_legal_moves_generated3 board m :
  In m (generate_pseudo_legal_moves board) -> generated board m.
Proof.
  intro H.
  destruct (generate_pseudo_legal_moves_inv3 _ _ H)
    as (layer & row & col & V & C & _ & G).
  unfold generate_moves_for_piece in G.
  destruct (piece (sq board layer row col)) eqn:K.
  - destruct G.
  - eapply generate_pawn_moves_generated3; eassumption.
  - eapply generate_knight_moves_generated3; try eassumption.
    rewrite K. discriminate.
  - eapply generate_bishop_moves_generated3; try eassumption.
    rewrite K. discriminate.
  - eapply generate_rook_moves_generated3; try eassumption.
    rewrite K. discriminate.
  - unfold generate_queen_moves in G. apply in_app_or in G. destruct G as [G | G].
    + eapply generate_bishop_moves_generated3; try eassumption.
      rewrite K. discriminate.
    + eapply generate_rook_moves_generated3; try eassumption.
      rewrite K. discriminate.
  - unfold generate_king_moves in G. apply in_app_or in G. destruct G as [G | G].
    + eapply king_steps_generated3; try eassumption. rewrite K. discriminate.
    + eapply king_castles_generated3; try eassumption. rewrite K. discriminate.
Qed.

(** X21.  In the 3D engine every pseudo-legal move that lands on a piece
    carries the flag [is_capture], whatever the board holds. *)
Theorem moves_onto_a_piece_are_flagged_as_captures (board : Board) (m : Move) :
  In m (generate_pseudo_legal_moves board) ->
  piece (sq board (to_layer m) (to_row m) (to_col m)) <> EMPTY ->
  is_capture m = true.
Proof.
  intros H NE.
  pose proof (g_flag _ _ (generate_pseudo_legal_moves_generated3 _ _ H)) as F.
  destruct (is_capture m); [reflexivity |].
  exfalso. apply NE. apply F. reflexivity.
Qed.

(** The rook of [rook_duel] taking the rook it faces. *)
Lemma moves_onto_a_piece_are_flagged_as_captures_witness :
  In rook_takes_rook (generate_pseudo_legal_moves rook_duel)
  /\ piece (sq rook_duel 0 0 0) = ROOK
  /\ is_capture rook_takes_rook = true.
Proof.
  assert (I : In rook_takes_rook (generate_pseudo_legal_moves rook_duel)).
  { assert (E : nth_error (generate_pseudo_legal_moves rook_duel) 6
                = Some rook_takes_rook) by (vm_compute; reflexivity).
    exact (nth_error_In _ _ E). }
  split; [exact I |]. split; [vm_compute; reflexivity |].
  apply (moves_onto_a_piece_are_flagged_as_captures rook_duel rook_takes_rook I).
  vm_compute. discriminate.
Defined.

(** X22.  In the 3D engine a pseudo-legal move carries a promotion only
    when it takes a pawn to the far row of its side within its layer, and
    the piece it promotes to is a queen, a rook, a bishop or a knight; a
    move that changes the layer never promotes. *)
Theorem promotion_only_within_a_layer (board : Board) (m : Move) :
  In m (generate_pseudo_legal_moves board) ->
  (promotion m <> EMPTY ->
   In (promotion m) promo_pieces
   /\ piece (sq board (from_layer m) (from_row m) (from_col m)) = PAWN
   /\ to_layer m = from_layer m
   /\ to_row m = promotion_row (current_player board))
  /\ (to_layer m <> from_layer m -> promotion m = EMPTY).
Proof.
  intro H.
  pose proof (generate_pseudo_legal_moves_generated3 _ _ H) as G.
  destruct (generate_pseudo_legal_moves_inv3 _ _ H)
    as (layer & row & col & _ & C & (S1 & S2 & S3) & _).
  rewrite <- S1, <- S2, <- S3 in C.
  destruct (g_promotion _ _ G) as [E | (A1 & A2 & A3 & A4)].
  - split; [intro N; contradiction | intros _; exact E].
  - rewrite C in A4. split.
    + intros _. repeat split; assumption.
    + intro N. contradiction.
Qed.

(** The pawn of [promotion_ready] promoting within its layer. *)
Lemma promotion_only_within_a_layer_witness :
  In pawn_promotes (generate_pseudo_legal_moves promotion_ready)
  /\ (promotion pawn_promotes <> EMPTY ->
      In (promotion pawn_promotes) promo_pieces
      /\ piece (sq promotion_ready (from_layer pawn_promotes)
                  (from_row pawn_promotes) (from_col pawn_promotes)) = PAWN
      /\ to_layer pawn_promotes = from_layer pawn_promotes
      /\ to_row pawn_promotes = promotion_row (current_player promotion_ready))
  /\ (to_layer pawn_promotes <> from_layer pawn_promotes ->
      promotion pawn_promotes = EMPTY).
Proof.
  assert (I : In pawn_promotes (generate_pseudo_legal_moves promotion_ready)).
  { assert (E : nth_error (generate_pseudo_legal_moves promotion_ready) 0
                = Some pawn_promotes) by (vm_compute; reflexivity).
    exact (nth_error_In _ _ E). }
  split; [exact I |].
  exact (promotion_only_within_a_layer promotion_ready pawn_promotes I).
Defined.

(** X23.  On a board of the 3D engine whose en passant target, if it is
    a square of the board, is empty, every pseudo-legal move starts and
    ends on the board, on two different squares, moves a piece of the side
    to move, and does not land on a piece of the color that moves. *)
Theorem pseudo_legal_moves_are_sound3 (board : Board) (m : Move) :
  en_passant_target_empty board ->
  In m (generate_pseudo_legal_moves board) ->
  sound_move board m.
Proof.
  intros E H. exact (g_sound _ _ (generate_pseudo_legal_moves_generated3 _ _ H) E).
Qed.

(** The rook of [rook_duel] taking the rook it faces. *)
Lemma pseudo_legal_moves_are_sound3_witness :
  en_passant_target_empty rook_duel
  /\ In rook_takes_rook (generate_pseudo_legal_moves rook_duel)
  /\ sound_move rook_duel rook_takes_rook.
Proof.
  assert (E : en_passant_target_empty rook_duel).
  { intro A. vm_compute in A. discriminate A. }
  assert (I : In rook_takes_rook (generate_pseudo_legal_moves rook_duel)).
  { assert (N : nth_error (generate_pseudo_legal_moves rook_duel) 6
                = Some rook_takes_rook) by (vm_compute; reflexivity).
    exact (nth_error_In _ _ N). }
  split; [exact E |]. split; [exact I |].
  exact (pseudo_legal_moves_are_sound3 rook_duel rook_takes_rook E I).
Defined.

(** *** The evaluation *)

Lemma sq_swap_colors board layer row col :
  sq (swap_colors board) layer row col = flip_square (sq board layer row col).
Proof.
  unfold sq, sq_at, swap_colors, with_squares. cbn [squares].
  destruct (is_valid_position layer row col); [| reflexivity].
  change empty_square with (flip_square empty_square) at 1.
  apply map_nth.
Qed.

Lemma square_value_swap board lrc :
  pieces_colored board ->
  In lrc all_squares ->
  square_value (swap_colors board) lrc = - square_value board lrc.
Proof.
  intros PC Hin. pose proof (all_squares_valid3 _ Hin) as V.
  destruct lrc as [[l r] c]. cbn [fst snd] in V.
  unfold square_value. rewrite sq_swap_colors.
  unfold flip_square. cbn [piece color].
  destruct (piece_eqb (piece (sq board l r c)) EMPTY) eqn:E;
    cbn [negb]; [reflexivity |].
  apply piece_eqb_neq in E.
  destruct (PC _ _ _ V E) as [C | C]; rewrite C; cbn [color_eqb]; lia.
Qed.

Lemma fold_left_sum_opp {A : Type} (f g : A -> Z) (l : list A) :
  (forall x, In x l -> g x = - f x) ->
  forall a,
    fold_left (fun acc x => acc + g x) l (- a)
    = - fold_left (fun acc x => acc + f x) l a.
Proof.
  induction l as [| x l IH]; intros H a; [reflexivity |].
  cbn [fold_left]. rewrite (H x (or_introl eq_refl)).
  replace (- a + - f x) with (- (a + f x)) by lia.
  apply IH. intros y Hy. apply H. right. exact Hy.
Qed.

(** X24.  The evaluation of the 3D engine treats the two sides alike: on
    a board whose pieces are all White's or Black's, exchanging the colors
    of all pieces negates [evaluate_board]. *)
Theorem evaluate_board_after_a_change_of_colors (board : Board) :
  pieces_colored board ->
  evaluate_board (swap_colors board) = - evaluate_board board.
Proof.
  intro PC. unfold evaluate_board.
  change 0 with (- 0) at 1.
  apply fold_left_sum_opp.
  intros lrc Hin. apply square_value_swap; assumption.
Qed.

(** The initial position of the 3D engine. *)
Lemma evaluate_board_after_a_change_of_colors_witness :
  pieces_colored init_board
  /\ evaluate_board (swap_colors init_board) = - evaluate_board init_board.
Proof.
  assert (PC : pieces_colored init_board).
  { intros layer row col V NE.
    assert (F : forallb (fun lrc =>
                  let s := sq init_board (fst (fst lrc)) (snd (fst lrc)) (snd lrc) in
                  piece_eqb (piece s) EMPTY
                  || color_eqb (color s) P_WHITE
                  || color_eqb (color s) P_BLACK) all_squares = true)
      by (vm_compute; reflexivity).
    rewrite forallb_forall in F.
    specialize (F (layer, row, col) (all_squares_complete3 _ _ _ V)).
    cbv zeta in F. cbn [fst snd] in F.
    apply orb_true_iff in F. destruct F as [F | F];
      [| right; apply color_eqb_eq3; exact F].
    apply orb_true_iff in F. destruct F as [F | F];
      [| left; apply color_eqb_eq3; exact F].
    apply piece_eqb_eq in F. contradiction. }
  split; [exact PC |].
  exact (evaluate_board_after_a_change_of_colors init_board PC).
Defined.

(** *** The array of squares *)

Lemma length_sq_set3 sqs layer row col s :
  List.length (sq_set sqs layer row col s) = List.length sqs.
Proof.
  unfold sq_set. destruct (is_valid_position layer row col);
    [apply length_upd | reflexivity].
Qed.

Lemma cell_lt3 layer row col :
  is_valid_position layer row col = true -> (cell layer row col < 192)%nat.
Proof. rewrite is_valid_position_iff3. unfold cell, BOARD_SIZE. lia. Qed.

Lemma cell_inj3 layer row col layer' row' col' :
  is_valid_position layer row col = true ->
  is_valid_position layer' row' col' = true ->
  cell layer row col = cell layer' row' col' ->
  layer = layer' /\ row = row' /\ col = col'.
Proof. rewrite !is_valid_position_iff3. unfold cell, BOARD_SIZE. lia. Qed.

(** Reading a square after a write. *)
Lemma sq_at_set3 sqs layer row col s layer' row' col' :
  List.length sqs = 192%nat ->
  sq_at (sq_set sqs layer row col s) layer' row' col'
  = if is_valid_position layer row col
       && (layer =? layer') && (row =? row') && (col =? col')
    then s else sq_at sqs layer' row' col'.
Proof.
  intro L. unfold sq_at, sq_set.
  destruct (is_valid_position layer row col) eqn:V; cbn [andb]; [| reflexivity].
  destruct (Z.eqb_spec layer layer') as [El | Nl]; cbn [andb];
    [destruct (Z.eqb_spec row row') as [Er | Nr]; cbn [andb];
     [destruct (Z.eqb_spec col col') as [Ec | Nc] | ] | ].
  - subst. rewrite V. apply nth_upd_same. rewrite L. apply cell_lt3. exact V.
  - destruct (is_valid_position layer' row' col') eqn:V'; [| reflexivity].
    apply nth_upd_other. intro E.
    apply (cell_inj3 _ _ _ _ _ _ V V') in E. destruct E as (_ & _ & E). contradiction.
  - destruct (is_valid_position layer' row' col') eqn:V'; [| reflexivity].
    apply nth_upd_other. intro E.
    apply (cell_inj3 _ _ _ _ _ _ V V') in E. destruct E as (_ & E & _). contradiction.
  - destruct (is_valid_position layer' row' col') eqn:V'; [| reflexivity].
    apply nth_upd_other. intro E.
    apply (cell_inj3 _ _ _ _ _ _ V V') in E. destruct E as (E & _ & _). contradiction.
Qed.

(** Two arrays of 192 squares that agree on every square of the board
    are equal. *)
Lemma squares_ext3 sqs sqs' :
  List.length sqs = 192%nat -> List.length sqs' = 192%nat ->
  (forall layer row col, is_valid_position layer row col = true ->
     sq_at sqs layer row col = sq_at sqs' layer row col) ->
  sqs = sqs'.
Proof.
  intros L L' H. apply (nth_ext _ _ empty_square empty_square); [congruence |].
  intros n Hn. rewrite L in Hn.
  set (z := Z.of_nat n).
  assert (Zr : 0 <= z < 192) by (unfold z; lia).
  assert (V : is_valid_position (z / 64) ((z / 8) mod 8) (z mod 8) = true).
  { apply is_valid_position_iff3. split; [| split].
    - split; [apply Z.div_pos; lia | apply Z.div_lt_upper_bound; lia].
    - apply Z.mod_pos_bound. lia.
    - apply Z.mod_pos_bound. lia. }
  specialize (H _ _ _ V). unfold sq_at in H. rewrite V in H.
  assert (C : cell (z / 64) ((z / 8) mod 8) (z mod 8) = n).
  { unfold cell, BOARD_SIZE.
    assert (E : (z / 64 * 8 + (z / 8) mod 8) * 8 + z mod 8 = z).
    { pose proof (Z.div_mod z 8 ltac:(lia)) as A.
      pose proof (Z.div_mod (z / 8) 8 ltac:(lia)) as B.
      rewrite Z.div_div in B by lia. change (8 * 8) with 64 in B. lia. }
    rewrite E. unfold z. apply Nat2Z.id. }
  rewrite C in H. exact H.
Qed.

(** *** Making a move and undoing it in line *)

Lemma simple_move_inv sqs m :
  simple_move sqs m = true ->
  is_valid_position (from_layer m) (from_row m) (from_col m) = true
  /\ is_valid_position (to_layer m) (to_row m) (to_col m) = true
  /\ (from_layer m <> to_layer m \/ from_row m <> to_row m
      \/ from_col m <> to_col m)
  /\ promotion m = EMPTY
  /\ piece_eqb (piece (sq_at sqs (from_layer m) (from_row m) (from_col m))) PAWN
     && negb (to_col m =? from_col m)
     && piece_eqb (piece (sq_at sqs (to_layer m) (to_row m) (to_col m))) EMPTY = false
  /\ piece_eqb (piece (sq_at sqs (from_layer m) (from_row m) (from_col m))) KING
     && (Z.abs (to_col m - from_col m) =? 2)
     && (from_layer m =? 0) && (to_layer m =? 0) = false.
Proof.
  unfold simple_move. intro H.
  apply andb_true_iff in H. destruct H as [H H6].
  apply andb_true_iff in H. destruct H as [H H5].
  apply andb_true_iff in H. destruct H as [H H4].
  apply andb_true_iff in H. destruct H as [H H3].
  apply andb_true_iff in H. destruct H as [H1 H2].
  apply negb_true_iff in H3, H5, H6. apply piece_eqb_eq in H4.
  repeat split; try assumption.
  apply andb_false_iff in H3. destruct H3 as [X | X];
    [apply andb_false_iff in X; destruct X as [X | X] |];
    apply Z.eqb_neq in X; tauto.
Qed.

(** The squares a simple move leaves behind. *)
Lemma make_move_simple_squares board m :
  simple_move (squares board) m = true ->
  squares (make_move board m)
  = sq_set
      (sq_set (squares board) (to_layer m) (to_row m) (to_col m)
         (sq board (from_layer m) (from_row m) (from_col m)))
      (from_layer m) (from_row m) (from_col m) empty_square.
Proof.
  intro S. destruct (simple_move_inv _ _ S) as (_ & _ & _ & Pr & NE & NC).
  unfold make_move. cbv zeta. cbn [squares]. unfold sq.
  rewrite Pr. cbn [piece_eqb negb].
  replace (piece_eqb
             (piece (sq_at (squares board) (from_layer m) (from_row m) (from_col m)))
             PAWN
           && negb (to_col m =? from_col m)
           && piece_eqb
                (piece (sq_at (squares board) (to_layer m) (to_row m) (to_col m)))
                EMPTY
           && (to_layer m =? en_passant_layer board)
           && (to_row m =? en_passant_row board)
           && (to_col m =? en_passant_col board)) with false
    by (rewrite NE; reflexivity).
  rewrite NC. reflexivity.
Qed.

(** Making a simple move and undoing it in line gives the squares and the
    side to move back. *)
Lemma inline_undo_simple board m :
  List.length (squares board) = 192%nat ->
  simple_move (squares board) m = true ->
  squares (inline_undo (make_move board m) m
             (sq board (to_layer m) (to_row m) (to_col m)) (current_player board))
  = squares board
  /\ current_player (inline_undo (make_move board m) m
                       (sq board (to_layer m) (to_row m) (to_col m))
                       (current_player board))
     = current_player board.
Proof.
  intros L S. split; [| reflexivity].
  pose proof (make_move_simple_squares _ _ S) as E.
  destruct (simple_move_inv _ _ S) as (Vf & Vt & D & _).
  unfold inline_undo, with_player, with_squares. cbn [squares]. unfold sq.
  rewrite E.
  apply squares_ext3.
  - rewrite !length_sq_set3. exact L.
  - exact L.
  - intros layer row col V.
    repeat (rewrite sq_at_set3 by (rewrite ?length_sq_set3; exact L)).
    rewrite Vf, Vt, !Z.eqb_refl. cbn [andb].
    replace ((from_layer m =? to_layer m) && (from_row m =? to_row m)
             && (from_col m =? to_col m)) with false
      by (symmetry; rewrite !andb_false_iff, !Z.eqb_neq; tauto).
    destruct ((to_layer m =? layer) && (to_row m =? row) && (to_col m =? col)) eqn:T.
    + apply andb_true_iff in T. destruct T as [T T3].
      apply andb_true_iff in T. destruct T as [T1 T2].
      apply Z.eqb_eq in T1, T2, T3. subst layer row col. reflexivity.
    + destruct ((from_layer m =? layer) && (from_row m =? row)
                && (from_col m =? col)) eqn:F; [| reflexivity].
      apply andb_true_iff in F. destruct F as [F F3].
      apply andb_true_iff in F. destruct F as [F1 F2].
      apply Z.eqb_eq in F1, F2, F3. subst layer row col. reflexivity.
Qed.

(** *** Check depends on the squares only *)

Lemma existsb_ext_in {A : Type} (f g : A -> bool) (l : list A) :
  (forall x, In x l -> f x = g x) -> existsb f l = existsb g l.
Proof.
  induction l as [| x l IH]; intro H; [reflexivity |].
  cbn [existsb]. rewrite (H x (or_introl eq_refl)).
  rewrite IH; [reflexivity |]. intros y Hy. apply H. right. exact Hy.
Qed.

Lemma ray_attacked_squares board board' tl tr tc l_dir r_dir c_dir attacker :
  squares board = squares board' ->
  forall fuel step,
    ray_attacked fuel board tl tr tc l_dir r_dir c_dir attacker step
    = ray_attacked fuel board' tl tr tc l_dir r_dir c_dir attacker step.
Proof.
  intro E. induction fuel as [| fuel IH]; intro step; [reflexivity |].
  cbn [ray_attacked]. unfold sq. rewrite E, IH. reflexivity.
Qed.

Lemma is_square_attacked_squares board board' tl tr tc attacker :
  squares board = squares board' ->
  is_square_attacked board tl tr tc attacker
  = is_square_attacked board' tl tr tc attacker.
Proof.
  intro E. unfold is_square_attacked. cbv zeta. unfold sq. rewrite E.
  rewrite (existsb_ext_in
             (fun d => let '(l_dir, r_dir, c_dir) := d in
                       ray_attacked 8 board tl tr tc l_dir r_dir c_dir attacker 1)
             (fun d => let '(l_dir, r_dir, c_dir) := d in
                       ray_attacked 8 board' tl tr tc l_dir r_dir c_dir attacker 1))
    by (intros [[l r] c] _; apply ray_attacked_squares; exact E).
  reflexivity.
Qed.

Lemma is_king_in_check_squares board board' c :
  squares board = squares board' ->
  is_king_in_check board c = is_king_in_check board' c.
Proof.
  intro E. unfold is_king_in_check.
  assert (F : find_king board c = find_king board' c).
  { unfold find_king, sq. rewrite E. reflexivity. }
  rewrite F. destruct (find_king board' c) as [[[l r] cc] |]; [| reflexivity].
  apply is_square_attacked_squares. exact E.
Qed.

(** The filtering loop over simple moves: it finds the squares and the
    side to move intact before every candidate. *)
Lemma legal_filter_simple board0 player :
  List.length (squares board0) = 192%nat ->
  forall pseudo board,
    squares board = squares board0 ->
    current_player board = player ->
    (forall m, In m pseudo -> simple_move (squares board0) m = true) ->
    fst (legal_filter board player pseudo)
    = filter (fun m => negb (is_king_in_check (make_move board0 m) player)) pseudo
    /\ squares (snd (legal_filter board player pseudo)) = squares board0
    /\ current_player (snd (legal_filter board player pseudo)) = player.
Proof.
  intro L. induction pseudo as [| m rest IH]; intros board E P S.
  - cbn. repeat split; assumption.
  - cbn [legal_filter filter].
    pose proof (S m (or_introl eq_refl)) as Sm.
    assert (Sb : simple_move (squares board) m = true) by (rewrite E; exact Sm).
    assert (Lb : List.length (squares board) = 192%nat) by (rewrite E; exact L).
    destruct (inline_undo_simple board m Lb Sb) as [U1 U2].
    rewrite P in U1, U2.
    assert (K : is_king_in_check (make_move board m) player
                = is_king_in_check (make_move board0 m) player).
    { apply is_king_in_check_squares.
      rewrite (make_move_simple_squares _ _ Sb), (make_move_simple_squares _ _ Sm).
      unfold sq. rewrite E. reflexivity. }
    specialize (IH (inline_undo (make_move board m) m
                      (sq board (to_layer m) (to_row m) (to_col m)) player)
                  (eq_trans U1 E) U2 (fun m0 H0 => S m0 (or_intror H0))).
    destruct (legal_filter
                (inline_undo (make_move board m) m
                   (sq board (to_layer m) (to_row m) (to_col m)) player)
                player rest) as [kept final] eqn:R.
    cbn [fst snd] in *. destruct IH as (I1 & I2 & I3).
    rewrite K, I1.
    split; [| split; assumption].
    destruct (negb (is_king_in_check (make_move board0 m) player)); reflexivity.
Qed.

(** X25.  In the 3D engine, making a simple move (one that moves one
    piece and nothing more: no promotion, no en passant capture, no
    castling) on a board of 192 squares and undoing it the way
    [generate_legal_moves] and [minimax] do in line gives the squares and
    the side to move back. *)
Theorem inline_undo_restores_a_simple_move (board : Board) (m : Move) :
  List.length (squares board) = 192%nat ->
  simple_move (squares board) m = true ->
  squares (inline_undo (make_move board m) m
             (sq board (to_layer m) (to_row m) (to_col m)) (current_player board))
  = squares board
  /\ current_player (inline_undo (make_move board m) m
                       (sq board (to_layer m) (to_row m) (to_col m))
                       (current_player board))
     = current_player board.
Proof. apply inline_undo_simple. Qed.

(** The capture of [rook_duel]. *)
Lemma inline_undo_restores_a_simple_move_witness :
  squares (inline_undo (make_move rook_duel rook_takes_rook) rook_takes_rook
             (sq rook_duel (to_layer rook_takes_rook) (to_row rook_takes_rook)
                (to_col rook_takes_rook)) (current_player rook_duel))
  = squares rook_duel
  /\ current_player
       (inline_undo (make_move rook_duel rook_takes_rook) rook_takes_rook
          (sq rook_duel (to_layer rook_takes_rook) (to_row rook_takes_rook)
             (to_col rook_takes_rook)) (current_player rook_duel))
     = current_player rook_duel.
Proof.
  apply (inline_undo_restores_a_simple_move rook_duel rook_takes_rook).
  - vm_compute. reflexivity.
  - vm_compute. reflexivity.
Defined.

(** X26.  Where the 3D legality filter is faithful.  On a board of 192
    squares all of whose pseudo-legal moves are simple (no promotion, no
    en passant capture, no castling), [generate_legal_moves] returns, in
    their order, exactly the pseudo-legal moves after which the king of
    the side to move is not in check, and it gives the caller's board its
    squares and its side to move back. *)
Theorem legal_moves_when_all_moves_are_simple (board : Board) :
  List.length (squares board) = 192%nat ->
  (forall m, In m (generate_pseudo_legal_moves board) ->
             simple_move (squares board) m = true) ->
  fst (generate_legal_moves board)
  = filter (fun m => negb (is_king_in_check (make_move board m)
                             (current_player board)))
      (generate_pseudo_legal_moves board)
  /\ squares (snd (generate_legal_moves board)) = squares board
  /\ current_player (snd (generate_legal_moves board)) = current_player board.
Proof.
  intros L S. unfold generate_legal_moves.
  apply legal_filter_simple; try assumption; reflexivity.
Qed.

(** The initial position of the 3D engine: every pseudo-legal move is
    simple. *)
Lemma legal_moves_when_all_moves_are_simple_witness :
  fst (generate_legal_moves init_board)
  = filter (fun m => negb (is_king_in_check (make_move init_board m)
                             (current_player init_board)))
      (generate_pseudo_legal_moves init_board)
  /\ squares (snd (generate_legal_moves init_board)) = squares init_board
  /\ current_player (snd (generate_legal_moves init_board))
     = current_player init_board.
Proof.
  apply (legal_moves_when_all_moves_are_simple init_board).
  - reflexivity.
  - apply forallb_forall. vm_compute. reflexivity.
Defined.

(** *** What the generators reach and what [is_square_attacked] sees *)

(** [is_square_attacked] as a disjunction of its five tests. *)
Lemma is_square_attacked_or3 board tl tr tc attacker :
  is_square_attacked board tl tr tc attacker
  = (let holds (l r c : Z) (p : Piece) :=
       is_valid_position l r c
       && piece_eqb (piece (sq board l r c)) p
       && color_eqb (color (sq board l r c)) attacker in
     let pawn_direction := if color_eqb attacker P_WHITE then -1 else 1 in
     let pawn_start_row := tr - pawn_direction in
     existsb (fun col_offset => holds tl pawn_start_row (tc + col_offset) PAWN)
       offsets2
     || existsb (fun layer_offset =>
                   let pawn_layer := tl + layer_offset in
                   if layer_off_board pawn_layer then false
                   else existsb (fun col_offset =>
                          holds pawn_layer pawn_start_row (tc + col_offset) PAWN)
                        offsets2)
          offsets2
     || existsb (fun l_offset =>
                   let knight_layer := tl + l_offset in
                   if layer_off_board knight_layer then false
                   else existsb (fun d =>
                          holds knight_layer (tr + fst d) (tc + snd d) KNIGHT)
                        knight_moves)
          offsets3
     || existsb (fun d =>
                   let '(l_dir, r_dir, c_dir) := d in
                   ray_attacked 8 board tl tr tc l_dir r_dir c_dir attacker 1)
          slide_directions
     || existsb (fun l_offset =>
          existsb (fun r_offset =>
            existsb (fun c_offset =>
              if (l_offset =? 0) && (r_offset =? 0) && (c_offset =? 0) then false
              else holds (tl + l_offset) (tr + r_offset) (tc + c_offset) KING)
              offsets3) offsets3) offsets3).
Proof.
  unfold is_square_attacked. cbv zeta.
  repeat match goal with
         | |- (if ?c then true else _) = _ => destruct c; cbn [orb]; [reflexivity |]
         end.
  reflexivity.
Qed.

Lemma holds_true3 board l r c p a :
  is_valid_position l r c = true ->
  piece (sq board l r c) = p ->
  color (sq board l r c) = a ->
  is_valid_position l r c && piece_eqb (piece (sq board l r c)) p
  && color_eqb (color (sq board l r c)) a = true.
Proof.
  intros V P C. rewrite V.
  assert (E1 : piece_eqb (piece (sq board l r c)) p = true)
    by (apply piece_eqb_eq; exact P).
  assert (E2 : color_eqb (color (sq board l r c)) a = true)
    by (apply color_eqb_eq3; exact C).
  rewrite E1, E2. reflexivity.
Qed.

Lemma layer_on_board layer :
  0 <= layer < 3 -> layer_off_board layer = false.
Proof. unfold layer_off_board, BOARD_LAYERS. lia. Qed.

(** A pawn of the attacker one row behind the target, one column aside,
    on the layer of the target or on an adjacent layer. *)
Lemma attacked_by_pawn3 board tl tr tc attacker l' c' :
  l' = tl \/ l' = tl - 1 \/ l' = tl + 1 ->
  c' = tc - 1 \/ c' = tc + 1 ->
  is_valid_position l' (tr - (if color_eqb attacker P_WHITE then -1 else 1)) c'
  = true ->
  piece (sq board l' (tr - (if color_eqb attacker P_WHITE then -1 else 1)) c')
  = PAWN ->
  color (sq board l' (tr - (if color_eqb attacker P_WHITE then -1 else 1)) c')
  = attacker ->
  is_square_attacked board tl tr tc attacker = true.
Proof.
  intros Lay Side V P C. rewrite is_square_attacked_or3. cbv beta zeta.
  pose proof (holds_true3 _ _ _ _ _ _ V P C) as Hd.
  assert (Lv : 0 <= l' < 3) by (apply is_valid_position_iff3 in V; lia).
  destruct Lay as [-> | Lay].
  - assert (E : existsb (fun col_offset =>
                   is_valid_position tl
                     (tr - (if color_eqb attacker P_WHITE then -1 else 1))
                     (tc + col_offset)
                   && piece_eqb
                        (piece (sq board tl
                                  (tr - (if color_eqb attacker P_WHITE then -1 else 1))
                                  (tc + col_offset))) PAWN
                   && color_eqb
                        (color (sq board tl
                                  (tr - (if color_eqb attacker P_WHITE then -1 else 1))
                                  (tc + col_offset))) attacker) offsets2 = true).
    { apply existsb_exists. exists (c' - tc). split.
      - unfold offsets2. cbn [In]. lia.
      - replace (tc + (c' - tc)) with c' by lia. exact Hd. }
    rewrite E. reflexivity.
  - assert (E : existsb (fun layer_offset =>
                   if layer_off_board (tl + layer_offset) then false
                   else existsb (fun col_offset =>
                          is_valid_position (tl + layer_offset)
                            (tr - (if color_eqb attacker P_WHITE then -1 else 1))
                            (tc + col_offset)
                          && piece_eqb
                               (piece (sq board (tl + layer_offset)
                                         (tr - (if color_eqb attacker P_WHITE
                                                then -1 else 1))
                                         (tc + col_offset))) PAWN
                          && color_eqb
                               (color (sq board (tl + layer_offset)
                                         (tr - (if color_eqb attacker P_WHITE
                                                then -1 else 1))
                                         (tc + col_offset))) attacker) offsets2)
                  offsets2 = true).
    { apply existsb_exists. exists (l' - tl). split.
      - unfold offsets2. cbn [In]. lia.
      - replace (tl + (l' - tl)) with l' by lia.
        rewrite (layer_on_board _ Lv).
        apply existsb_exists. exists (c' - tc). split.
        + unfold offsets2. cbn [In]. lia.
        + replace (tc + (c' - tc)) with c' by lia. exact Hd. }
    rewrite E, !orb_true_r. reflexivity.
Qed.

Lemma attacked_by_knight3 board tl tr tc attacker l' r' c' :
  In (l' - tl) offsets3 ->
  In (r' - tr, c' - tc) knight_moves ->
  is_valid_position l' r' c' = true ->
  piece (sq board l' r' c') = KNIGHT ->
  color (sq board l' r' c') = attacker ->
  is_square_attacked board tl tr tc attacker = true.
Proof.
  intros Dl D V P C. rewrite is_square_attacked_or3. cbv beta zeta.
  assert (Lv : 0 <= l' < 3) by (apply is_valid_position_iff3 in V; lia).
  assert (E : existsb (fun l_offset =>
                 if layer_off_board (tl + l_offset) then false
                 else existsb (fun d =>
                        is_valid_position (tl + l_offset) (tr + fst d) (tc + snd d)
                        && piece_eqb
                             (piece (sq board (tl + l_offset) (tr + fst d)
                                       (tc + snd d))) KNIGHT
                        && color_eqb
                             (color (sq board (tl + l_offset) (tr + fst d)
                                       (tc + snd d))) attacker) knight_moves)
                offsets3 = true).
  { apply existsb_exists. exists (l' - tl). split; [exact Dl |].
    replace (tl + (l' - tl)) with l' by lia.
    rewrite (layer_on_board _ Lv).
    apply existsb_exists. exists (r' - tr, c' - tc). split; [exact D |].
    cbn [fst snd].
    replace (tr + (r' - tr)) with r' by lia.
    replace (tc + (c' - tc)) with c' by lia.
    apply holds_true3; assumption. }
  rewrite E, !orb_true_r. reflexivity.
Qed.

Lemma attacked_by_king3 board tl tr tc attacker l' r' c' :
  In (l' - tl) offsets3 -> In (r' - tr) offsets3 -> In (c' - tc) offsets3 ->
  l' <> tl \/ r' <> tr \/ c' <> tc ->
  is_valid_position l' r' c' = true ->
  piece (sq board l' r' c') = KING ->
  color (sq board l' r' c') = attacker ->
  is_square_attacked board tl tr tc attacker = true.
Proof.
  intros Dl Dr Dc N V P C. rewrite is_square_attacked_or3. cbv beta zeta.
  assert (E : existsb (fun l_offset =>
                 existsb (fun r_offset =>
                   existsb (fun c_offset =>
                     if (l_offset =? 0) && (r_offset =? 0) && (c_offset =? 0)
                     then false
                     else is_valid_position (tl + l_offset) (tr + r_offset)
                            (tc + c_offset)
                          && piece_eqb
                               (piece (sq board (tl + l_offset) (tr + r_offset)
                                         (tc + c_offset))) KING
                          && color_eqb
                               (color (sq board (tl + l_offset) (tr + r_offset)
                                         (tc + c_offset))) attacker)
                     offsets3) offsets3) offsets3 = true).
  { apply existsb_exists. exists (l' - tl). split; [exact Dl |].
    apply existsb_exists. exists (r' - tr). split; [exact Dr |].
    apply existsb_exists. exists (c' - tc). split; [exact Dc |].
    replace ((l' - tl =? 0) && (r' - tr =? 0) && (c' - tc =? 0)) with false
      by (symmetry; rewrite !andb_false_iff, !Z.eqb_neq; lia).
    replace (tl + (l' - tl)) with l' by lia.
    replace (tr + (r' - tr)) with r' by lia.
    replace (tc + (c' - tc)) with c' by lia.
    apply holds_true3; assumption. }
  rewrite E, !orb_true_r. reflexivity.
Qed.

(** A move of a ray ends [j] steps from the origin, beyond empty squares. *)
Lemma ray_moves_reach3 board layer row col row_dir col_dir layer_dir :
  forall fuel k m,
    In m (ray_moves fuel board layer row col row_dir col_dir layer_dir
            (layer + k * layer_dir) (row + k * row_dir) (col + k * col_dir)) ->
    exists j,
      k <= j
      /\ to_layer m = layer + j * layer_dir
      /\ to_row m = row + j * row_dir /\ to_col m = col + j * col_dir
      /\ is_valid_position (to_layer m) (to_row m) (to_col m) = true
      /\ forall i, k <= i < j ->
           is_valid_position (layer + i * layer_dir) (row + i * row_dir)
             (col + i * col_dir) = true
           /\ piece (sq board (layer + i * layer_dir) (row + i * row_dir)
                       (col + i * col_dir)) = EMPTY.
Proof.
  induction fuel as [| fuel IH]; intros k m H; cbn [ray_moves] in H.
  - destruct H.
  - destruct (is_valid_position (layer + k * layer_dir) (row + k * row_dir)
                (col + k * col_dir)) eqn:Vt; [| destruct H].
    destruct (piece_eqb (piece (sq board (layer + k * layer_dir) (row + k * row_dir)
                                  (col + k * col_dir))) EMPTY) eqn:Em.
    + destruct H as [H | H].
      * subst m. exists k. cbn. repeat split; try lia; try assumption; lia.
      * replace (layer + k * layer_dir + layer_dir)
          with (layer + (k + 1) * layer_dir) in H by lia.
        replace (row + k * row_dir + row_dir) with (row + (k + 1) * row_dir)
          in H by lia.
        replace (col + k * col_dir + col_dir) with (col + (k + 1) * col_dir)
          in H by lia.
        destruct (IH _ _ H) as (j & J & Tl & Tr & Tc & V & Emp).
        exists j. split; [lia |]. split; [exact Tl |]. split; [exact Tr |].
        split; [exact Tc |]. split; [exact V |].
        intros i Hi. destruct (Z.eq_dec i k) as [-> | N].
        -- split; [exact Vt | apply piece_eqb_eq; exact Em].
        -- apply Emp. lia.
    + destruct (negb _); [| destruct H].
      destruct H as [H | []]. subst m. exists k. cbn.
      repeat split; try lia; try assumption; lia.
Qed.


(** Walking back from the target over the same empty squares, the loop of
    [is_square_attacked] meets the piece at the origin. *)
Lemma ray_attacked_hit3 board layer row col ld rd cd attacker j :
  is_valid_position layer row col = true ->
  piece (sq board layer row col) <> EMPTY ->
  color (sq board layer row col) = attacker ->
  (forall i, 1 <= i < j ->
     is_valid_position (layer + i * ld) (row + i * rd) (col + i * cd) = true
     /\ piece (sq board (layer + i * ld) (row + i * rd) (col + i * cd)) = EMPTY) ->
  forall fuel i,
    1 <= i <= j -> (Z.to_nat (j - i) < fuel)%nat ->
    ray_attacked fuel board (layer + j * ld) (row + j * rd) (col + j * cd)
      (- ld) (- rd) (- cd) attacker i
    = slides_along (piece (sq board layer row col)) (- ld) (- rd) (- cd).
Proof.
  intros V P C Emp.
  induction fuel as [| fuel IH]; intros i Hi Hf; [lia |].
  cbn [ray_attacked]. cbv zeta.
  replace (layer + j * ld + i * - ld) with (layer + (j - i) * ld) by lia.
  replace (row + j * rd + i * - rd) with (row + (j - i) * rd) by lia.
  replace (col + j * cd + i * - cd) with (col + (j - i) * cd) by lia.
  destruct (Z.eq_dec i j) as [-> | N].
  - replace (j - j) with 0 by lia. rewrite !Z.mul_0_l, !Z.add_0_r.
    rewrite V. cbn [negb].
    apply piece_eqb_neq in P. rewrite P. cbn [negb].
    assert (E : color_eqb (color (sq board layer row col)) attacker = true)
      by (apply color_eqb_eq3; exact C).
    rewrite E. reflexivity.
  - destruct (Emp (j - i) ltac:(lia)) as [Vi Ei].
    rewrite Vi. cbn [negb]. rewrite Ei. cbn [piece_eqb negb].
    apply IH; lia.
Qed.

(** A piece that slides along [(ld, rd, cd)] over empty squares attacks
    the square it reaches. *)
Lemma attacked_by_slider3 board layer row col ld rd cd j attacker :
  In (- ld, - rd, - cd) slide_directions ->
  1 <= j ->
  is_valid_position layer row col = true ->
  is_valid_position (layer + j * ld) (row + j * rd) (col + j * cd) = true ->
  (forall i, 1 <= i < j ->
     is_valid_position (layer + i * ld) (row + i * rd) (col + i * cd) = true
     /\ piece (sq board (layer + i * ld) (row + i * rd) (col + i * cd)) = EMPTY) ->
  piece (sq board layer row col) <> EMPTY ->
  color (sq board layer row col) = attacker ->
  slides_along (piece (sq board layer row col)) (- ld) (- rd) (- cd) = true ->
  is_square_attacked board (layer + j * ld) (row + j * rd) (col + j * cd) attacker
  = true.
Proof.
  intros D J V Vt Emp NE C Kind. rewrite is_square_attacked_or3. cbv beta zeta.
  assert (Small : j <= 7).
  { apply is_valid_position_iff3 in V, Vt.
    unfold slide_directions, offsets2 in D. cbn [In flat_map app] in D.
    repeat (destruct D as [D | D];
            [injection D as D1 D2 D3; nia |]).
    destruct D. }
  assert (E : existsb (fun d =>
                 let '(l_dir, r_dir, c_dir) := d in
                 ray_attacked 8 board (layer + j * ld) (row + j * rd) (col + j * cd)
                   l_dir r_dir c_dir attacker 1) slide_directions = true).
  { apply existsb_exists. exists (- ld, - rd, - cd). split; [exact D |].
    rewrite (ray_attacked_hit3 board layer row col ld rd cd attacker j V NE C Emp
               8%nat 1) by lia.
    exact Kind. }
  rewrite E, !orb_true_r. reflexivity.
Qed.

Lemma directional_attack3 board layer row col rd cd ld m :
  In (- ld, - rd, - cd) slide_directions ->
  is_valid_position layer row col = true ->
  piece (sq board layer row col) <> EMPTY ->
  slides_along (piece (sq board layer row col)) (- ld) (- rd) (- cd) = true ->
  In m (generate_directional_moves board layer row col rd cd ld) ->
  is_square_attacked board (to_layer m) (to_row m) (to_col m)
    (color (sq board layer row col)) = true.
Proof.
  intros D V NE Kind H. unfold generate_directional_moves in H.
  replace (layer + ld) with (layer + 1 * ld) in H by lia.
  replace (row + rd) with (row + 1 * rd) in H by lia.
  replace (col + cd) with (col + 1 * cd) in H by lia.
  destruct (ray_moves_reach3 _ _ _ _ _ _ _ _ _ _ H)
    as (j & J & Tl & Tr & Tc & Vt & Emp).
  rewrite Tl, Tr, Tc in *.
  apply attacked_by_slider3; try assumption. reflexivity.
Qed.

Lemma bishop_move_attacks3 board layer row col m :
  is_valid_position layer row col = true ->
  piece (sq board layer row col) = BISHOP \/ piece (sq board layer row col) = QUEEN ->
  In m (generate_bishop_moves board layer row col) ->
  is_square_attacked board (to_layer m) (to_row m) (to_col m)
    (color (sq board layer row col)) = true.
Proof.
  intros V K H. unfold generate_bishop_moves, bishop_directions, offsets2 in H.
  assert (NE : piece (sq board layer row col) <> EMPTY)
    by (destruct K as [K | K]; rewrite K; discriminate).
  apply in_app_or in H. destruct H as [H | H].
  - apply in_flat_map in H. destruct H as (d & Hd & H).
    apply (directional_attack3 _ _ _ _ _ _ _ _) with (5 := H); try assumption;
      cbn [In] in Hd;
      repeat (destruct Hd as [Hd | Hd];
              [subst d; cbn [fst snd];
               first [ unfold slide_directions, offsets2; cbn; tauto
                     | destruct K as [K | K]; rewrite K; reflexivity ] |]);
      destruct Hd.
  - apply in_flat_map in H. destruct H as (lc & Hl & H).
    apply in_flat_map in H. destruct H as (d & Hd & H).
    apply (directional_attack3 _ _ _ _ _ _ _ _) with (5 := H); try assumption;
      cbn [In] in Hd, Hl;
      repeat (destruct Hl as [Hl | Hl];
              [subst lc;
               repeat (destruct Hd as [Hd | Hd];
                       [subst d; cbn [fst snd];
                        first [ unfold slide_directions, offsets2; cbn; tauto
                              | destruct K as [K | K]; rewrite K; reflexivity ] |]);
               destruct Hd |]);
      destruct Hl.
Qed.

Lemma rook_move_attacks3 board layer row col m :
  is_valid_position layer row col = true ->
  piece (sq board layer row col) = ROOK \/ piece (sq board layer row col) = QUEEN ->
  In m (generate_rook_moves board layer row col) ->
  is_square_attacked board (to_layer m) (to_row m) (to_col m)
    (color (sq board layer row col)) = true.
Proof.
  intros V K H. unfold generate_rook_moves, rook_directions, offsets2 in H.
  assert (NE : piece (sq board layer row col) <> EMPTY)
    by (destruct K as [K | K]; rewrite K; discriminate).
  apply in_app_or in H. destruct H as [H | H].
  - apply in_flat_map in H. destruct H as (d & Hd & H).
    apply (directional_attack3 _ _ _ _ _ _ _ _) with (5 := H); try assumption;
      cbn [In] in Hd;
      repeat (destruct Hd as [Hd | Hd];
              [subst d; cbn [fst snd];
               first [ unfold slide_directions, offsets2; cbn; tauto
                     | destruct K as [K | K]; rewrite K; reflexivity ] |]);
      destruct Hd.
  - apply in_flat_map in H. destruct H as (lc & Hl & H).
    cbn [In] in Hl.
    repeat (apply in_app_or in H; destruct H as [H | H];
            [apply (directional_attack3 _ _ _ _ _ _ _ _) with (5 := H);
             try assumption;
             repeat (destruct Hl as [Hl | Hl];
                     [subst lc;
                      first [ unfold slide_directions, offsets2; cbn; tauto
                            | destruct K as [K | K]; rewrite K; reflexivity ] |]);
             destruct Hl |]).
    apply (directional_attack3 _ _ _ _ _ _ _ _) with (5 := H); try assumption;
      repeat (destruct Hl as [Hl | Hl];
              [subst lc;
               first [ unfold slide_directions, offsets2; cbn; tauto
                     | destruct K as [K | K]; rewrite K; reflexivity ] |]);
      destruct Hl.
Qed.

Lemma pawn_capture_attacks3 board layer row col m :
  is_valid_position layer row col = true ->
  piece (sq board layer row col) = PAWN ->
  In m (generate_pawn_moves board layer row col) ->
  piece (sq board (to_layer m) (to_row m) (to_col m)) <> EMPTY ->
  is_square_attacked board (to_layer m) (to_row m) (to_col m)
    (color (sq board layer row col)) = true.
Proof.
  intros V P H NE. unfold generate_pawn_moves in H. cbv zeta in H.
  unfold promo_pieces, offsets2 in H.
  assert (Back : forall tl tc,
            tl = layer \/ tl = layer + 1 \/ tl = layer - 1 ->
            tc = col + 1 \/ tc = col - 1 ->
            is_square_attacked board tl
              (row + (if color_eqb (color (sq board layer row col)) P_WHITE
                      then -1 else 1)) tc
              (color (sq board layer row col)) = true).
  { intros tl tc Hl Hc.
    destruct (color_eqb (color (sq board layer row col)) P_WHITE) eqn:Co;
      (apply (attacked_by_pawn3 _ _ _ _ _ layer col); rewrite ?Co; try lia;
       match goal with
       | |- context [sq board layer ?r col] => replace r with row by lia
       | |- is_valid_position layer ?r col = true => replace r with row by lia
       end; first [ exact V | exact P | reflexivity ]). }
  destruct (color_eqb (color (sq board layer row col)) P_WHITE) eqn:Co;
    in_inv; bools3';
    cbn [to_layer to_row to_col gen_move] in *;
    try contradiction;
    apply Back; lia.
Qed.

Lemma knight_move_attacks3 board layer row col m :
  is_valid_position layer row col = true ->
  piece (sq board layer row col) = KNIGHT ->
  In m (generate_knight_moves board layer row col) ->
  is_square_attacked board (to_layer m) (to_row m) (to_col m)
    (color (sq board layer row col)) = true.
Proof.
  intros V P H. unfold generate_knight_moves, knight_moves, offsets3 in H.
  in_inv; cbn [fst snd to_layer to_row to_col gen_move] in *;
    (apply (attacked_by_knight3 _ _ _ _ _ layer row col);
     [ match goal with |- In ?a _ =>
         let x := fresh in remember a as x;
         match goal with Hx : x = _ |- _ => ring_simplify in Hx; subst x end
       end; unfold offsets3; cbn [In]; tauto
     | match goal with |- In (?a, ?b) _ =>
         let x := fresh in let y := fresh in
         remember a as x; remember b as y;
         match goal with
         | Hx : x = _, Hy : y = _ |- _ =>
             ring_simplify in Hx; ring_simplify in Hy; subst x y
         end
       end; unfold knight_moves; cbn [In]; tauto
     | exact V | exact P | reflexivity ]).
Qed.

Lemma king_step_attacks3 board layer row col m :
  is_valid_position layer row col = true ->
  piece (sq board layer row col) = KING ->
  In m (king_steps board layer row col) ->
  is_square_attacked board (to_layer m) (to_row m) (to_col m)
    (color (sq board layer row col)) = true.
Proof.
  intros V P H. unfold king_steps, offsets3 in H. cbv zeta in H.
  in_inv;
    match goal with
    | X : (_ =? 0) && _ && _ = true |- _ => cbn in X; discriminate X
    | _ => idtac
    end;
    cbn [to_layer to_row to_col gen_move] in *;
    (apply (attacked_by_king3 _ _ _ _ _ layer row col);
     [ match goal with |- In ?a _ =>
         let x := fresh in remember a as x;
         match goal with Hx : x = _ |- _ => ring_simplify in Hx; subst x end
       end; unfold offsets3; cbn [In]; tauto
     | match goal with |- In ?a _ =>
         let x := fresh in remember a as x;
         match goal with Hx : x = _ |- _ => ring_simplify in Hx; subst x end
       end; unfold offsets3; cbn [In]; tauto
     | match goal with |- In ?a _ =>
         let x := fresh in remember a as x;
         match goal with Hx : x = _ |- _ => ring_simplify in Hx; subst x end
       end; unfold offsets3; cbn [In]; tauto
     | lia | exact V | exact P | reflexivity ]).
Qed.

(** Every pseudo-legal move that lands on a piece lands on a square that
    [is_square_attacked] reports as attacked by the side to move. *)
Lemma capture_is_attack3 board m :
  In m (generate_pseudo_legal_moves board) ->
  piece (sq board (to_layer m) (to_row m) (to_col m)) <> EMPTY ->
  is_square_attacked board (to_layer m) (to_row m) (to_col m)
    (current_player board) = true.
Proof.
  intros H NE.
  destruct (generate_pseudo_legal_moves_inv3 _ _ H)
    as (layer & row & col & V & C & _ & G).
  rewrite <- C. unfold generate_moves_for_piece in G.
  destruct (piece (sq board layer row col)) eqn:K.
  - destruct G.
  - apply pawn_capture_attacks3; assumption.
  - apply knight_move_attacks3; assumption.
  - apply bishop_move_attacks3; try assumption. left. exact K.
  - apply rook_move_attacks3; try assumption. left. exact K.
  - unfold generate_queen_moves in G. apply in_app_or in G. destruct G as [G | G].
    + apply bishop_move_attacks3; try assumption. right. exact K.
    + apply rook_move_attacks3; try assumption. right. exact K.
  - unfold generate_king_moves in G. apply in_app_or in G. destruct G as [G | G].
    + apply king_step_attacks3; assumption.
    + exfalso. apply NE.
      assert (Kn : piece (sq board layer row col) <> EMPTY)
        by (rewrite K; discriminate).
      apply (g_flag _ _ (king_castles_generated3 _ _ _ _ _ V Kn C G)).
      unfold king_castles in G. cbv zeta in G.
      repeat match type of G with
             | In _ (if ?c then _ else _) => destruct c; [| destruct G]
             end.
      apply in_app_or in G.
      destruct G as [G | G];
        (match type of G with
         | In _ (if ?c then _ else _) => destruct c; [| destruct G]
         end; destruct G as [G | []]; subst m; reflexivity).
Qed.

(** X27.  The move generators and the attack test of the 3D engine agree
    on captures: whatever the board holds, a pseudo-legal move that lands
    on a piece, within its layer or on another layer, lands on a square
    that [is_square_attacked] reports as attacked by the side to move. *)
Theorem captures_are_seen_by_is_square_attacked3 (board : Board) (m : Move) :
  In m (generate_pseudo_legal_moves board) ->
  piece (sq board (to_layer m) (to_row m) (to_col m)) <> EMPTY ->
  is_square_attacked board (to_layer m) (to_row m) (to_col m)
    (current_player board) = true.
Proof. apply capture_is_attack3. Qed.

(** The rook of [rook_duel] taking the rook it faces. *)
Lemma captures_are_seen_by_is_square_attacked3_witness :
  is_square_attacked rook_duel (to_layer rook_takes_rook) (to_row rook_takes_rook)
    (to_col rook_takes_rook) (current_player rook_duel) = true.
Proof.
  apply (captures_are_seen_by_is_square_attacked3 rook_duel rook_takes_rook).
  - assert (E : nth_error (generate_pseudo_legal_moves rook_duel) 6
                = Some rook_takes_rook) by (vm_compute; reflexivity).
    exact (nth_error_In _ _ E).
  - vm_compute. discriminate.
Defined.

(** *** What the legality filter leaves of the caller's board *)

Lemma length_make_move3 board m :
  List.length (squares (make_move board m)) = List.length (squares board).
Proof.
  unfold make_move. cbv zeta. cbn [squares].
  rewrite !length_sq_set3.
  repeat match goal with
         | |- context [if ?c then _ else _] => destruct c
         end;
    rewrite ?length_sq_set3; reflexivity.
Qed.

Lemma legal_filter_frame3 player :
  forall pseudo board,
    current_player board = player ->
    current_player (snd (legal_filter board player pseudo)) = player
    /\ List.length (squares (snd (legal_filter board player pseudo)))
       = List.length (squares board)
    /\ Bool.le (white_castle_kingside (snd (legal_filter board player pseudo)))
         (white_castle_kingside board)
    /\ Bool.le (white_castle_queenside (snd (legal_filter board player pseudo)))
         (white_castle_queenside board)
    /\ Bool.le (black_castle_kingside (snd (legal_filter board player pseudo)))
         (black_castle_kingside board)
    /\ Bool.le (black_castle_queenside (snd (legal_filter board player pseudo)))
         (black_castle_queenside board).
Proof.
  induction pseudo as [| m rest IH]; intros board P.
  - cbn. split; [exact P |]. split; [reflexivity |].
    repeat split; apply le_bool_refl3.
  - cbn [legal_filter].
    set (undone := inline_undo (make_move board m) m
                     (sq board (to_layer m) (to_row m) (to_col m)) player).
    specialize (IH undone eq_refl).
    destruct (legal_filter undone player rest) as [kept final].
    cbn [fst snd] in *.
    destruct IH as (I1 & I2 & I3 & I4 & I5 & I6).
    destruct (make_move_rights3 board m) as (B1 & B2 & B3 & B4).
    split; [exact I1 |]. split.
    + rewrite I2. unfold undone, inline_undo, with_player, with_squares.
      cbn [squares]. rewrite !length_sq_set3. apply length_make_move3.
    + repeat split; eapply le_bool_trans3; eassumption.
Qed.

(** X28.  What [generate_legal_moves] of the 3D engine, which works on
    the caller's board, leaves of it in every case: the side to move is
    the one it found, the array has as many squares, and no castling right
    has been gained; the moves it returns are pseudo-legal moves of the
    board it was given. *)
Theorem generate_legal_moves3_keeps_the_side_to_move (board : Board) :
  current_player (snd (generate_legal_moves board)) = current_player board
  /\ List.length (squares (snd (generate_legal_moves board)))
     = List.length (squares board)
  /\ Bool.le (white_castle_kingside (snd (generate_legal_moves board)))
       (white_castle_kingside board)
  /\ Bool.le (white_castle_queenside (snd (generate_legal_moves board)))
       (white_castle_queenside board)
  /\ Bool.le (black_castle_kingside (snd (generate_legal_moves board)))
       (black_castle_kingside board)
  /\ Bool.le (black_castle_queenside (snd (generate_legal_moves board)))
       (black_castle_queenside board)
  /\ incl (fst (generate_legal_moves board)) (generate_pseudo_legal_moves board).
Proof.
  unfold generate_legal_moves.
  destruct (legal_filter_frame3 (current_player board)
              (generate_pseudo_legal_moves board) board eq_refl)
    as (A1 & A2 & A3 & A4 & A5 & A6).
  repeat split; try assumption.
  intros m H. eapply legal_filter_sub3. exact H.
Qed.

(** *** From an attack to a capture *)

Lemma opponent_of_other3 c : opponent_of c <> c.
Proof. destruct c; discriminate. Qed.

(** The loop of [is_square_attacked] over one direction answers [true]
    only when it meets, beyond empty squares, a piece of the attacker
    that slides along that direction. *)
Lemma ray_attacked_inv3 board tl tr tc ld rd cd attacker :
  forall fuel j,
    ray_attacked fuel board tl tr tc ld rd cd attacker j = true ->
    exists i,
      j <= i
      /\ (Z.to_nat (i - j) < fuel)%nat
      /\ is_valid_position (tl + i * ld) (tr + i * rd) (tc + i * cd) = true
      /\ color (sq board (tl + i * ld) (tr + i * rd) (tc + i * cd)) = attacker
      /\ piece (sq board (tl + i * ld) (tr + i * rd) (tc + i * cd)) <> EMPTY
      /\ slides_along (piece (sq board (tl + i * ld) (tr + i * rd) (tc + i * cd)))
           ld rd cd = true
      /\ forall i', j <= i' < i ->
           is_valid_position (tl + i' * ld) (tr + i' * rd) (tc + i' * cd) = true
           /\ piece (sq board (tl + i' * ld) (tr + i' * rd) (tc + i' * cd)) = EMPTY.
Proof.
  induction fuel as [| fuel IH]; intros j H; cbn [ray_attacked] in H;
    [discriminate H |].
  cbv zeta in H.
  destruct (is_valid_position (tl + j * ld) (tr + j * rd) (tc + j * cd)) eqn:V;
    cbn [negb] in H; [| discriminate H].
  destruct (piece_eqb (piece (sq board (tl + j * ld) (tr + j * rd) (tc + j * cd)))
              EMPTY) eqn:E; cbn [negb] in H.
  - destruct (IH _ H) as (i & J & F & Vi & C & NE & K & Emp).
    exists i. split; [lia |]. split; [lia |]. split; [exact Vi |].
    split; [exact C |]. split; [exact NE |]. split; [exact K |].
    intros i' Hi. destruct (Z.eq_dec i' j) as [-> | N].
    + split; [exact V | apply piece_eqb_eq; exact E].
    + apply Emp. lia.
  - destruct (color_eqb (color (sq board (tl + j * ld) (tr + j * rd) (tc + j * cd)))
                attacker) eqn:C; [| discriminate H].
    apply color_eqb_eq3 in C. apply piece_eqb_neq in E.
    exists j. split; [lia |]. split; [lia |]. split; [exact V |].
    split; [exact C |]. split; [exact E |]. split; [exact H |].
    intros i' Hi. lia.
Qed.

(** A ray that runs over empty squares up to a square that holds a piece
    of another color ends with the capture of that piece. *)
Lemma ray_moves_hit3 board layer row col rd cd ld j :
  is_valid_position (layer + j * ld) (row + j * rd) (col + j * cd) = true ->
  piece (sq board (layer + j * ld) (row + j * rd) (col + j * cd)) <> EMPTY ->
  color (sq board (layer + j * ld) (row + j * rd) (col + j * cd))
  <> color (sq board layer row col) ->
  forall fuel k,
    k <= j -> (Z.to_nat (j - k) < fuel)%nat ->
    (forall i, k <= i < j ->
       is_valid_position (layer + i * ld) (row + i * rd) (col + i * cd) = true
       /\ piece (sq board (layer + i * ld) (row + i * rd) (col + i * cd)) = EMPTY) ->
    exists m,
      In m (ray_moves fuel board layer row col rd cd ld
              (layer + k * ld) (row + k * rd) (col + k * cd))
      /\ to_layer m = layer + j * ld
      /\ to_row m = row + j * rd /\ to_col m = col + j * cd.
Proof.
  intros Vt NE Co.
  induction fuel as [| fuel IH]; intros k K F Emp; [lia |].
  cbn [ray_moves].
  destruct (Z.eq_dec k j) as [-> | N].
  - rewrite Vt. apply piece_eqb_neq in NE. rewrite NE.
    apply color_eqb_neq3 in Co. rewrite Co. cbn [negb].
    eexists. split; [left; reflexivity |]. repeat split; reflexivity.
  - destruct (Emp k ltac:(lia)) as [Vk Ek]. rewrite Vk, Ek. cbn [piece_eqb].
    destruct (IH (k + 1) ltac:(lia) ltac:(lia)) as (m & Hin & T).
    { intros i Hi. apply Emp. lia. }
    exists m. split; [| exact T]. right.
    replace (layer + k * ld + ld) with (layer + (k + 1) * ld) by lia.
    replace (row + k * rd + rd) with (row + (k + 1) * rd) by lia.
    replace (col + k * cd + cd) with (col + (k + 1) * cd) by lia.
    exact Hin.
Qed.

(** The moves of the piece on a square are among the pseudo-legal moves
    when the piece belongs to the side to move. *)
Lemma pseudo_legal_of_piece3 board layer row col m :
  is_valid_position layer row col = true ->
  color (sq board layer row col) = current_player board ->
  In m (generate_moves_for_piece board layer row col) ->
  In m (generate_pseudo_legal_moves board).
Proof.
  intros V C H. unfold generate_pseudo_legal_moves.
  apply in_flat_map. exists (layer, row, col).
  split; [apply all_squares_complete3; exact V |].
  assert (E : color_eqb (color (sq board layer row col)) (current_player board) = true)
    by (apply color_eqb_eq3; exact C).
  rewrite E. exact H.
Qed.

(** The directions along which each sliding piece is generated. *)
Lemma slides_along_generated board layer row col ld rd cd m :
  In (ld, rd, cd) slide_directions ->
  slides_along (piece (sq board layer row col)) ld rd cd = true ->
  In m (generate_directional_moves board layer row col (- rd) (- cd) (- ld)) ->
  In m (generate_moves_for_piece board layer row col).
Proof.
  intros D K H. unfold generate_moves_for_piece.
  unfold slide_directions, offsets2 in D. cbn [In flat_map app] in D.
  destruct (piece (sq board layer row col)); try (cbn in K; discriminate K);
    unfold generate_queen_moves, generate_bishop_moves, generate_rook_moves,
      bishop_directions, rook_directions, offsets2;
    cbn [flat_map app fst snd]; rewrite ?app_nil_r;
    repeat (destruct D as [D | D];
            [injection D as <- <- <-; cbn in K; try discriminate K;
             cbn [Z.opp] in H; repeat rewrite in_app_iff; tauto |]);
    destruct D.
Qed.

Lemma slider_attack_is_capture3 board tl tr tc d :
  In d slide_directions ->
  is_valid_position tl tr tc = true ->
  piece (sq board tl tr tc) <> EMPTY ->
  color (sq board tl tr tc) <> current_player board ->
  (let '(ld, rd, cd) := d in
   ray_attacked 8 board tl tr tc ld rd cd (current_player board) 1) = true ->
  exists m,
    In m (generate_pseudo_legal_moves board)
    /\ to_layer m = tl /\ to_row m = tr /\ to_col m = tc.
Proof.
  intros D V NE Co H. destruct d as [[ld rd] cd].
  destruct (ray_attacked_inv3 _ _ _ _ _ _ _ _ _ _ H)
    as (i & I & F & Vi & C & NEi & K & Emp).
  set (L := tl + i * ld) in *. set (R := tr + i * rd) in *.
  set (C' := tc + i * cd) in *.
  assert (El : L + i * - ld = tl) by (unfold L; lia).
  assert (Er : R + i * - rd = tr) by (unfold R; lia).
  assert (Ec : C' + i * - cd = tc) by (unfold C'; lia).
  destruct (ray_moves_hit3 board L R C' (- rd) (- cd) (- ld) i)
    with (fuel := 8%nat) (k := 1) as (m & Hin & Tl & Tr & Tc).
  - rewrite El, Er, Ec. exact V.
  - rewrite El, Er, Ec. exact NE.
  - rewrite El, Er, Ec, C. exact Co.
  - exact I.
  - lia.
  - intros i' Hi.
    replace (L + i' * - ld) with (tl + (i - i') * ld) by (unfold L; lia).
    replace (R + i' * - rd) with (tr + (i - i') * rd) by (unfold R; lia).
    replace (C' + i' * - cd) with (tc + (i - i') * cd) by (unfold C'; lia).
    apply Emp. lia.
  - rewrite El in Tl. rewrite Er in Tr. rewrite Ec in Tc.
    exists m. split; [| repeat split; assumption].
    replace (L + 1 * - ld) with (L + - ld) in Hin by lia.
    replace (R + 1 * - rd) with (R + - rd) in Hin by lia.
    replace (C' + 1 * - cd) with (C' + - cd) in Hin by lia.
    fold (generate_directional_moves board L R C' (- rd) (- cd) (- ld)) in Hin.
    apply (pseudo_legal_of_piece3 board L R C'); [exact Vi | exact C |].
    apply (slides_along_generated board L R C' ld rd cd); assumption.
Qed.

Lemma pawn_attack_is_capture3 board tl tr tc L C :
  L = tl \/ L = tl - 1 \/ L = tl + 1 ->
  C = tc - 1 \/ C = tc + 1 ->
  is_valid_position tl tr tc = true ->
  piece (sq board tl tr tc) <> EMPTY ->
  color (sq board tl tr tc) <> current_player board ->
  is_valid_position L
    (tr - (if color_eqb (current_player board) P_WHITE then -1 else 1)) C = true ->
  piece (sq board L
           (tr - (if color_eqb (current_player board) P_WHITE then -1 else 1)) C)
  = PAWN ->
  color (sq board L
           (tr - (if color_eqb (current_player board) P_WHITE then -1 else 1)) C)
  = current_player board ->
  exists m,
    In m (generate_pawn_moves board L
            (tr - (if color_eqb (current_player board) P_WHITE then -1 else 1)) C)
    /\ to_layer m = tl /\ to_row m = tr /\ to_col m = tc.
Proof.
  intros HL HC V NE Co Va Pa Ca.
  unfold generate_pawn_moves. cbv zeta. rewrite Ca.
  assert (Back : tr - (if color_eqb (current_player board) P_WHITE then -1 else 1)
                 + (if color_eqb (current_player board) P_WHITE then -1 else 1) = tr)
    by (destruct (color_eqb (current_player board) P_WHITE); lia).
  rewrite Back.
  set (R := tr - (if color_eqb (current_player board) P_WHITE then -1 else 1)) in *.
  assert (NEb : piece_eqb (piece (sq board tl tr tc)) EMPTY = false)
    by (apply piece_eqb_neq; exact NE).
  assert (Cob : color_eqb (color (sq board tl tr tc)) (current_player board) = false)
    by (apply color_eqb_neq3; exact Co).
  assert (Lt : layer_off_board tl = false).
  { apply layer_on_board. apply is_valid_position_iff3 in V. lia. }
  destruct HL as [-> | HL].
  - (* the pawn stands on the layer of the target *)
    assert (Hit : exists m,
              In m ((fun col_offset =>
                       let capture_col := C + col_offset in
                       if is_valid_position tl tr capture_col then
                         let target := sq board tl tr capture_col in
                         if negb (piece_eqb (piece target) EMPTY)
                            && negb (color_eqb (color target) (current_player board))
                         then
                           if tr =? (if color_eqb (current_player board) P_WHITE
                                     then 0 else 7)
                           then map (fun p => gen_move tl R C tl tr capture_col p true)
                                  promo_pieces
                           else [gen_move tl R C tl tr capture_col EMPTY true]
                         else if (tl =? en_passant_layer board)
                                 && (tr =? en_passant_row board)
                                 && (capture_col =? en_passant_col board)
                                 && negb (color_eqb (current_player board)
                                            (color (sq board tl
                                                      (en_passant_row board
                                                       - (if color_eqb
                                                            (current_player board)
                                                            P_WHITE then -1 else 1))
                                                      (en_passant_col board))))
                         then [gen_move tl R C tl tr capture_col EMPTY true]
                         else []
                       else []) (tc - C))
              /\ to_layer m = tl /\ to_row m = tr /\ to_col m = tc).
    { cbv beta zeta. replace (C + (tc - C)) with tc by lia.
      rewrite V, NEb, Cob. cbn [negb andb].
      destruct (tr =? (if color_eqb (current_player board) P_WHITE then 0 else 7)).
      - eexists. split; [left; reflexivity |]. repeat split; reflexivity.
      - eexists. split; [left; reflexivity |]. repeat split; reflexivity. }
    destruct Hit as (m & Hin & T). exists m. split; [| exact T].
    apply in_or_app. right. apply in_or_app. left.
    apply in_flat_map. exists (tc - C). split; [| exact Hin].
    unfold offsets2. cbn [In]. lia.
  - (* the pawn stands on an adjacent layer *)
    exists (gen_move L R C tl tr tc EMPTY true).
    split; [| repeat split; reflexivity].
    apply in_or_app. right. apply in_or_app. right.
    apply in_flat_map. exists (tl - L). split.
    { unfold offsets2. cbn [In]. lia. }
    cbv beta zeta. replace (L + (tl - L)) with tl by lia.
    rewrite Lt. apply in_or_app. right.
    apply in_flat_map. exists (tc - C). split.
    { unfold offsets2. cbn [In]. lia. }
    cbv beta zeta. replace (C + (tc - C)) with tc by lia.
    rewrite V, NEb, Cob. cbn [negb andb]. left. reflexivity.
Qed.

Lemma knight_attack_is_capture3 board tl tr tc lo d :
  In lo offsets3 -> In d knight_moves ->
  is_valid_position tl tr tc = true ->
  piece (sq board tl tr tc) <> EMPTY ->
  color (sq board tl tr tc) <> color (sq board (tl + lo) (tr + fst d) (tc + snd d)) ->
  exists m,
    In m (generate_knight_moves board (tl + lo) (tr + fst d) (tc + snd d))
    /\ to_layer m = tl /\ to_row m = tr /\ to_col m = tc.
Proof.
  intros Dl D V NE Co. unfold generate_knight_moves.
  assert (Back : In (- fst d, - snd d) knight_moves).
  { unfold knight_moves in *. cbn [In] in D.
    repeat (destruct D as [D | D]; [subst d; cbn; tauto |]). destruct D. }
  assert (Lt : layer_off_board tl = false).
  { apply layer_on_board. apply is_valid_position_iff3 in V. lia. }
  exists (gen_move (tl + lo) (tr + fst d) (tc + snd d) tl tr tc EMPTY
            (negb (piece_eqb (piece (sq board tl tr tc)) EMPTY))).
  split; [| repeat split; reflexivity].
  apply in_flat_map. exists (- lo). split.
  { unfold offsets3 in *. cbn [In] in *. lia. }
  cbv beta zeta. replace (tl + lo + - lo) with tl by lia. rewrite Lt.
  apply in_flat_map. exists (- fst d, - snd d). split; [exact Back |].
  cbn [fst snd].
  replace (tr + fst d + - fst d) with tr by lia.
  replace (tc + snd d + - snd d) with tc by lia.
  rewrite V. apply color_eqb_neq3 in Co. rewrite Co. cbn [negb].
  rewrite orb_true_r. left. reflexivity.
Qed.

Lemma king_attack_is_capture3 board tl tr tc lo ro co :
  In lo offsets3 -> In ro offsets3 -> In co offsets3 ->
  (lo =? 0) && (ro =? 0) && (co =? 0) = false ->
  is_valid_position tl tr tc = true ->
  color (sq board tl tr tc) <> color (sq board (tl + lo) (tr + ro) (tc + co)) ->
  exists m,
    In m (king_steps board (tl + lo) (tr + ro) (tc + co))
    /\ to_layer m = tl /\ to_row m = tr /\ to_col m = tc.
Proof.
  intros Dl Dr Dc NZ V Co. unfold king_steps. cbv zeta.
  exists (gen_move (tl + lo) (tr + ro) (tc + co) tl tr tc EMPTY
            (negb (piece_eqb (piece (sq board tl tr tc)) EMPTY))).
  split; [| repeat split; reflexivity].
  apply in_flat_map. exists (- lo). split.
  { unfold offsets3 in *. cbn [In] in *. lia. }
  apply in_flat_map. exists (- ro). split.
  { unfold offsets3 in *. cbn [In] in *. lia. }
  apply in_flat_map. exists (- co). split.
  { unfold offsets3 in *. cbn [In] in *. lia. }
  replace ((- lo =? 0) && (- ro =? 0) && (- co =? 0)) with false.
  2:{ symmetry. rewrite !andb_false_iff in *. rewrite !Z.eqb_neq in *. lia. }
  replace (tl + lo + - lo) with tl by lia.
  replace (tr + ro + - ro) with tr by lia.
  replace (tc + co + - co) with tc by lia.
  rewrite V. apply color_eqb_neq3 in Co. rewrite Co. cbn [negb].
  rewrite orb_true_r. left. reflexivity.
Qed.

(** Every piece of the side not to move that [is_square_attacked] reports
    as attacked by the side to move is the target of a pseudo-legal
    move. *)
Lemma attack_is_capture3 board tl tr tc :
  is_valid_position tl tr tc = true ->
  piece (sq board tl tr tc) <> EMPTY ->
  color (sq board tl tr tc) = opponent_of (current_player board) ->
  is_square_attacked board tl tr tc (current_player board) = true ->
  exists m,
    In m (generate_pseudo_legal_moves board)
    /\ to_layer m = tl /\ to_row m = tr /\ to_col m = tc.
Proof.
  intros V NE Co H.
  assert (Other : color (sq board tl tr tc) <> current_player board).
  { rewrite Co. apply opponent_of_other3. }
  rewrite is_square_attacked_or3 in H. cbv beta zeta in H.
  assert (Pawn : forall L C,
            L = tl \/ L = tl - 1 \/ L = tl + 1 ->
            C = tc - 1 \/ C = tc + 1 ->
            is_valid_position L
              (tr - (if color_eqb (current_player board) P_WHITE then -1 else 1)) C
            && piece_eqb
                 (piece (sq board L
                           (tr - (if color_eqb (current_player board) P_WHITE
                                  then -1 else 1)) C)) PAWN
            && color_eqb
                 (color (sq board L
                           (tr - (if color_eqb (current_player board) P_WHITE
                                  then -1 else 1)) C)) (current_player board)
            = true ->
            exists m,
              In m (generate_pseudo_legal_moves board)
              /\ to_layer m = tl /\ to_row m = tr /\ to_col m = tc).
  { intros L C HL HC Hd.
    apply andb_true_iff in Hd. destruct Hd as [Hd Hc].
    apply andb_true_iff in Hd. destruct Hd as [Hv Hp].
    apply piece_eqb_eq in Hp. apply color_eqb_eq3 in Hc.
    destruct (pawn_attack_is_capture3 board tl tr tc L C HL HC V NE Other Hv Hp Hc)
      as (m & Hin & T).
    exists m. split; [| exact T].
    apply (pseudo_legal_of_piece3 board L
             (tr - (if color_eqb (current_player board) P_WHITE then -1 else 1)) C);
      try assumption.
    unfold generate_moves_for_piece. rewrite Hp. exact Hin. }
  apply orb_true_iff in H. destruct H as [H | H].
  2:{ apply existsb_exists in H. destruct H as (lo & Dl & H).
      apply existsb_exists in H. destruct H as (ro & Dr & H).
      apply existsb_exists in H. destruct H as (co & Dc & H).
      destruct ((lo =? 0) && (ro =? 0) && (co =? 0)) eqn:NZ; [discriminate H |].
      apply andb_true_iff in H. destruct H as [H Hc].
      apply andb_true_iff in H. destruct H as [Hv Hp].
      apply piece_eqb_eq in Hp. apply color_eqb_eq3 in Hc.
      destruct (king_attack_is_capture3 board tl tr tc lo ro co Dl Dr Dc NZ V)
        as (m & Hin & T); [congruence |].
      exists m. split; [| exact T].
      apply (pseudo_legal_of_piece3 board (tl + lo) (tr + ro) (tc + co));
        try assumption.
      unfold generate_moves_for_piece, generate_king_moves. rewrite Hp.
      apply in_or_app. left. exact Hin. }
  apply orb_true_iff in H. destruct H as [H | H].
  2:{ apply existsb_exists in H. destruct H as (d & D & H).
      apply (slider_attack_is_capture3 board tl tr tc d); assumption. }
  apply orb_true_iff in H. destruct H as [H | H].
  2:{ apply existsb_exists in H. destruct H as (lo & Dl & H).
      destruct (layer_off_board (tl + lo)); [discriminate H |].
      apply existsb_exists in H. destruct H as (d & D & H).
      apply andb_true_iff in H. destruct H as [H Hc].
      apply andb_true_iff in H. destruct H as [Hv Hp].
      apply piece_eqb_eq in Hp. apply color_eqb_eq3 in Hc.
      destruct (knight_attack_is_capture3 board tl tr tc lo d Dl D V NE)
        as (m & Hin & T); [congruence |].
      exists m. split; [| exact T].
      apply (pseudo_legal_of_piece3 board (tl + lo) (tr + fst d) (tc + snd d));
        try assumption.
      unfold generate_moves_for_piece. rewrite Hp. exact Hin. }
  apply orb_true_iff in H. destruct H as [H | H].
  - apply existsb_exists in H. destruct H as (off & Do & H).
    apply (Pawn tl (tc + off)); [left; reflexivity | | exact H].
    unfold offsets2 in Do. cbn [In] in Do. lia.
  - apply existsb_exists in H. destruct H as (lo & Dl & H).
    destruct (layer_off_board (tl + lo)); [discriminate H |].
    apply existsb_exists in H. destruct H as (off & Do & H).
    apply (Pawn (tl + lo) (tc + off)); [| | exact H].
    + unfold offsets2 in Dl. cbn [In] in Dl. lia.
    + unfold offsets2 in Do. cbn [In] in Do. lia.
Qed.

(** X30.  The attack test of the 3D engine reports no attack that the
    move generators do not know: whatever the board holds, when
    [is_square_attacked] reports a piece of the side not to move as
    attacked by the side to move, [generate_pseudo_legal_moves] writes a
    move that lands on it. *)
Theorem attacked_pieces_can_be_taken3 (board : Board) (tl tr tc : Z) :
  is_valid_position tl tr tc = true ->
  piece (sq board tl tr tc) <> EMPTY ->
  color (sq board tl tr tc) = opponent_of (current_player board) ->
  is_square_attacked board tl tr tc (current_player board) = true ->
  exists m,
    In m (generate_pseudo_legal_moves board)
    /\ to_layer m = tl /\ to_row m = tr /\ to_col m = tc.
Proof. apply attack_is_capture3. Qed.

(** The black rook on (0, 0, 0) of [rook_duel], attacked by the white
    rook. *)
Lemma attacked_pieces_can_be_taken3_witness :
  exists m,
    In m (generate_pseudo_legal_moves rook_duel)
    /\ to_layer m = 0 /\ to_row m = 0 /\ to_col m = 0.
Proof.
  apply (attacked_pieces_can_be_taken3 rook_duel 0 0 0).
  - reflexivity.
  - vm_compute. discriminate.
  - vm_compute. reflexivity.
  - vm_compute. reflexivity.
Defined.

End Further3D.

(** ** The console front end *)

Module FurtherConsole.
Import Console3D.

Lemma get_past_end (s : string) :
  forall n, (String.length s <= n)%nat -> String.get n s = None.
Proof.
  induction s as [| a s IH]; intros n H; [destruct n; reflexivity |].
  destruct n as [| n]; cbn in *; [lia |]. apply IH. lia.
Qed.

Lemma char_at_past_end input n :
  (String.length input <= n)%nat -> char_at input n = 0.
Proof. intro H. unfold char_at. rewrite (get_past_end _ _ H). reflexivity. Qed.

Lemma tolower_column c :
  0 <= tolower c - 97 < 8 <-> column_letter c.
Proof.
  unfold tolower, column_letter.
  destruct ((65 <=? c) && (c <=? 90)) eqn:E; lia.
Qed.

Lemma tolower_promotion c :
  (tolower c = 113 \/ tolower c = 114 \/ tolower c = 98 \/ tolower c = 110)
  <-> promotion_letter c.
Proof.
  unfold tolower, promotion_letter. cbn [In].
  destruct ((65 <=? c) && (c <=? 90)) eqn:E; lia.
Qed.

Lemma is_valid_position_bounds layer row col :
  is_valid_position layer row col = true
  <-> 0 <= layer < 3 /\ 0 <= row < 8 /\ 0 <= col < 8.
Proof. unfold is_valid_position, BOARD_LAYERS, BOARD_SIZE. lia. Qed.

(** X29.  The strings [parse_move] of the console front end accepts are
    exactly those of at least six characters that start with a layer digit
    1 to 3, a column letter a to h (either case) and a row digit 1 to 8
    for the origin, followed by the same three for the destination, and
    whose seventh character, when the string has exactly seven, is one of
    q, r, b, n (either case).  A string of five characters, the length the
    first test of the function lets through, is never accepted. *)
Theorem parse_move_accepts (input : string) (move : Move) :
  fst (parse_move input move) = true
  <-> (6 <= String.length input)%nat
      /\ digit_up_to 51 (char_at input 0)
      /\ column_letter (char_at input 1)
      /\ digit_up_to 56 (char_at input 2)
      /\ digit_up_to 51 (char_at input 3)
      /\ column_letter (char_at input 4)
      /\ digit_up_to 56 (char_at input 5)
      /\ (String.length input = 7%nat -> promotion_letter (char_at input 6)).
Proof.
  unfold parse_move. cbv zeta.
  pose proof (char_at_past_end input 5) as End5.
  pose proof (tolower_column (char_at input 1)) as C1.
  pose proof (tolower_column (char_at input 4)) as C4.
  pose proof (tolower_promotion (char_at input 6)) as P6.
  unfold digit_up_to.
  assert (Checked : forall promo : Piece,
            is_valid_position (char_at input 0 - 49) (8 - (char_at input 2 - 48))
              (tolower (char_at input 1) - 97)
            && is_valid_position (char_at input 3 - 49) (8 - (char_at input 5 - 48))
                 (tolower (char_at input 4) - 97) = true
            <-> (49 <= char_at input 0 <= 51
                 /\ column_letter (char_at input 1)
                 /\ 49 <= char_at input 2 <= 56
                 /\ 49 <= char_at input 3 <= 51
                 /\ column_letter (char_at input 4)
                 /\ 49 <= char_at input 5 <= 56)).
  { intros _. rewrite andb_true_iff, !is_valid_position_bounds.
    rewrite <- C1, <- C4. lia. }
  destruct (Z.ltb_spec (Z.of_nat (String.length input)) 5) as [Short | Long].
  - cbn [fst]. split; [intro A; discriminate A | intros [A _]; lia].
  - destruct (Z.eqb_spec (Z.of_nat (String.length input)) 7) as [Seven | Other].
    + destruct (Z.eqb_spec (tolower (char_at input 6)) 113) as [Q | NQ];
        [| destruct (Z.eqb_spec (tolower (char_at input 6)) 114) as [R | NR];
           [| destruct (Z.eqb_spec (tolower (char_at input 6)) 98) as [B | NB];
              [| destruct (Z.eqb_spec (tolower (char_at input 6)) 110) as [N | NN]]]];
        cbn [fst from_layer from_row from_col to_layer to_row to_col];
        rewrite ?(Checked EMPTY).
      all: split;
        [ intro A; try discriminate A;
          repeat split; try tauto; try lia; intros _; apply P6; lia
        | intros (A0 & A1 & A2 & A3 & A4 & A5 & A6 & A7);
          try tauto;
          exfalso; apply P6 in A7; lia ].
    + cbn [fst from_layer from_row from_col to_layer to_row to_col].
      rewrite (Checked EMPTY). split.
      * intro A. split.
        -- destruct (Nat.le_gt_cases 6 (String.length input)) as [G | G];
             [exact G |].
           rewrite End5 in A by lia. lia.
        -- repeat split; try tauto. intro E. lia.
      * intros (A0 & A). tauto.
Qed.

(** The two examples in the prompt of [play_game], [1e2e4] and [1e7e8q],
    are not of this form: [parse_move] rejects both. *)
Lemma prompt_examples_are_rejected :
  fst (parse_move "1e2e4" blank_move) = false
  /\ fst (parse_move "1e7e8q" blank_move) = false
  /\ fst (parse_move "1e21e4" blank_move) = true.
Proof. split; [| split]; vm_compute; reflexivity. Qed.

End FurtherConsole.
